(** * hmat-oss: admissibility and block compression

    A shallow embedding of [src/admissibility.cpp], [src/compression.cpp]
    and the parts of [src/full_matrix.cpp] they rely on, together with the
    properties of the low-rank compression engine and of the Hackbusch
    admissibility condition.

    Conventions of the embedding.
    - The C++ template parameter [T] (S_t, D_t, C_t, Z_t) is a type with a
      [Scalar] instance; the C++ [double] is the type [Q] of exact
      rationals, so that every computation below is exact.
    - Indices are [nat]; a C++ index that may hold the sentinel [-1] is an
      [option nat] ([None] is [-1]).  The products of two ints that
      [copyMatrixAtOffset] and [normSqr] compute for the offset of a column
      end the run with [Undefined] when they exceed INT_MAX ([int_mul]).
    - A [Vector<T>] is the list of its entries ([rows] is the length); a
      [FullMatrix<T>] is a record with its column-major storage.
    - Code that may abort or read out of bounds runs in the [Outcome]
      monad: a failed [assert] or [HMAT_ASSERT] ends the run with [Fatal],
      an access outside a vector, a [std::vector] or the storage of a
      matrix ends it with [Undefined].
    - A C++ loop whose number of passes is not bounded by its header is a
      function with a bound on the number of passes; the bounds used are
      proved sufficient ([terminates]). *)

From Stdlib Require Import QArith Qabs Qminmax ZArith Lia Bool.
From stdpp Require Import base list.

(** The C++ [double]. *)
Abbreviation double := Q.

(** [x < y] on doubles *)
Definition Qltb (x y : Q) : bool := negb (Qle_bool y x).

(** ** Scalar kit: what the code uses of [T], [Constants<T>] and the
    scalar helpers ([hmat::real], [squaredNorm], the modulus of
    [i_amax]). *)
Class Scalar (T : Type) := {
  zero : T;                       (* Constants<T>::zero *)
  pone : T;                       (* Constants<T>::pone *)
  mone : T;                       (* Constants<T>::mone *)
  sadd : T -> T -> T;
  smul : T -> T -> T;
  sdiv : T -> T -> T;
  sconj : T -> T;                 (* conjugate, identity on real types *)
  seqb : T -> T -> bool;          (* operator== *)
  real : T -> double;             (* hmat::real *)
  squaredNorm : T -> double;      (* squaredNorm<T> *)
  abs1 : T -> double;             (* |x| for reals, |re|+|im| for complex *)
  of_double : double -> T
}.

(** The laws of the scalar operations that the zero tests and the running
    norm estimate depend on. *)
Class ScalarLaws (T : Type) `{Scalar T} := {
  seqb_zero_zero : seqb zero zero = true;
  abs1_nonneg : forall x : T, (0 <= abs1 x)%Q;
  abs1_zero_iff : forall x : T, (abs1 x == 0)%Q <-> seqb x zero = true;
  squaredNorm_nonneg : forall x : T, (0 <= squaredNorm x)%Q;
  squaredNorm_zero_iff : forall x : T, (squaredNorm x == 0)%Q <-> seqb x zero = true;
  real_zero : (real zero == 0)%Q;
  real_sadd : forall x y : T, (real (sadd x y) == real x + real y)%Q
}.

(** ** Outcomes of a run *)
Inductive Outcome (A : Type) : Type :=
| Ok (a : A)
| Fatal          (* an assert or HMAT_ASSERT failed *)
| Undefined      (* an access outside an array *)
| OutOfFuel.     (* the bound given to a loop of the model was too small *)
Arguments Ok {A} a.
Arguments Fatal {A}.
Arguments Undefined {A}.
Arguments OutOfFuel {A}.

#[global] Instance Outcome_ret : MRet Outcome := fun A a => Ok a.
#[global] Instance Outcome_bind : MBind Outcome := fun A B k m =>
  match m with
  | Ok a => k a
  | Fatal => Fatal
  | Undefined => Undefined
  | OutOfFuel => OutOfFuel
  end.

Definition assert (b : bool) : Outcome unit := if b then Ok tt else Fatal.

(** The run ends within the bounds given to the loops of the model. *)
Definition terminates {A : Type} (c : Outcome A) : Prop := c <> OutOfFuel.

(** [v[i]] *)
Definition rd {A : Type} (v : list A) (i : nat) : Outcome A :=
  match v !! i with
  | Some x => Ok x
  | None => Undefined
  end.

(** [v[i] = x] *)
Definition wr {A : Type} (v : list A) (i : nat) (x : A) : Outcome (list A) :=
  if bool_decide (i < length v) then Ok (<[i:=x]> v) else Undefined.

(** [v[i]] where [i] may be [-1] *)
Definition rd_int {A : Type} (v : list A) (i : option nat) : Outcome A :=
  match i with
  | Some i => rd v i
  | None => Undefined
  end.

(** A view of [len] elements at offset [off] of a storage area. *)
Definition view {A : Type} (m : list A) (off len : nat) : Outcome (list A) :=
  if bool_decide (off + len <= length m) then Ok (take len (drop off m)) else Undefined.

(** [memcpy(dst + off, src, |src|)] *)
Definition memcpy {A : Type} (dst : list A) (off : nat) (src : list A) : Outcome (list A) :=
  if bool_decide (off + length src <= length dst)
  then Ok (take off dst ++ src ++ drop (off + length src) dst)
  else Undefined.

Section Dense.
Context {T : Type} `{Scalar T}.

(** ** Vector<T> (full_matrix.cpp) *)
Definition Vector := list T.

(** [Vector(int rows)]: calloc'ed storage *)
Definition new_Vector (rows : nat) : Vector := replicate rows zero.

Definition clear (v : Vector) : Vector := replicate (length v) zero.

(** [this->axpy(alpha, x)]: this := alpha * x + this *)
Definition axpy (alpha : T) (x : Vector) (this : Vector) : Outcome Vector :=
  _ ← assert (bool_decide (length this = length x));
  Ok (zip_with (fun xi yi => sadd (smul alpha xi) yi) x this).

Definition scale (alpha : T) (v : Vector) : Vector :=
  if seqb alpha zero then clear v else map (fun x => smul alpha x) v.

(** Modelled from the spec: [absolute_max_index] of the vector primitive,
    the BLAS [i_amax] that src/ reaches through [proxy_cblas] (declared
    outside src/): the index of the first entry of largest modulus, 0 for
    the empty vector. *)
Fixpoint i_amax_from (best : nat) (bestv : double) (i : nat) (l : list T) : nat :=
  match l with
  | [] => best
  | x :: t =>
      if Qltb bestv (abs1 x) then i_amax_from i (abs1 x) (S i) t
      else i_amax_from best bestv (S i) t
  end.

Definition i_amax (l : list T) : nat :=
  match l with
  | [] => 0
  | x :: t => i_amax_from 0 (abs1 x) 1 t
  end.

Definition absoluteMaxIndex (v : Vector) : nat := i_amax v.

(** Modelled from the spec: [conj_dot(x, y)], the sum of conj(x_i) * y_i,
    which src/ reaches through [proxy_cblas_convenience::dot_c]. *)
Definition dot_c (x y : list T) : T :=
  foldl (fun acc p => sadd acc (smul (sconj p.1) p.2)) zero (zip x y).

Definition dot (x y : Vector) : Outcome T :=
  _ ← assert (bool_decide (length x = length y));
  Ok (dot_c x y).

Definition normSqr (v : Vector) : Outcome double :=
  result ← dot v v;
  Ok (real result).

(** [isZero] (compression.cpp) *)
Definition isZero (v : Vector) : Outcome bool :=
  x ← rd v (absoluteMaxIndex v);
  Ok (seqb x zero).

(** ** FullMatrix<T> *)
Record FullMatrix := {
  m : list T;        (* column-major storage *)
  rows : nat;
  cols : nat;
  lda : nat
}.

(** [FullMatrix(int rows, int cols)]: owned, zero-initialised, lda = rows *)
Definition new_FullMatrix (r c : nat) : FullMatrix :=
  {| m := replicate (r * c) zero; rows := r; cols := c; lda := r |}.

(** [FullMatrix(T* m, int rows, int cols, int lda)]: a view; [None] is the
    default argument -1 *)
Definition wrap_FullMatrix (data : list T) (r c : nat) (ld : option nat) : Outcome FullMatrix :=
  let ld := default r ld in
  _ ← assert (bool_decide (r <= ld));
  Ok {| m := data; rows := r; cols := c; lda := ld |}.

Definition Zero (r c : nat) : FullMatrix := new_FullMatrix r c.

(** Modelled from the spec: the accessor [get(i, j)] of full_matrix.hpp,
    the element at linear offset [i + j * lda]. *)
Definition get (a : FullMatrix) (i j : nat) : Outcome T :=
  rd (m a) (i + j * lda a).

Definition with_m (mat : FullMatrix) (data : list T) : FullMatrix :=
  {| m := data; rows := rows mat; cols := cols mat; lda := lda mat |}.

Definition put (a : FullMatrix) (i j : nat) (x : T) : Outcome FullMatrix :=
  data ← wr (m a) (i + j * lda a) x;
  Ok (with_m a data).

(** [copy()], with a freshly allocated result *)
Fixpoint copy_cols (n col : nat) (a result : FullMatrix) : Outcome FullMatrix :=
  match n with
  | 0 => Ok result
  | S n' =>
      src ← view (m a) (lda a * col) (rows a);
      data ← memcpy (m result) (rows result * col) src;
      copy_cols n' (S col) a (with_m result data)
  end.

Definition copy (a : FullMatrix) : Outcome FullMatrix :=
  let result := new_FullMatrix (rows a) (cols a) in
  if bool_decide (lda a = rows a) then
    src ← view (m a) 0 (rows a * cols a);
    data ← memcpy (m result) 0 src;
    Ok (with_m result data)
  else copy_cols (cols a) 0 a result.

(** [copyAndTranspose()]: result->get(j, i) = get(i, j) *)
Fixpoint copyAndTranspose_j (n i j : nat) (a result : FullMatrix) : Outcome FullMatrix :=
  match n with
  | 0 => Ok result
  | S n' =>
      x ← get a i j;
      result' ← put result j i x;
      copyAndTranspose_j n' i (S j) a result'
  end.

Fixpoint copyAndTranspose_i (n i : nat) (a result : FullMatrix) : Outcome FullMatrix :=
  match n with
  | 0 => Ok result
  | S n' =>
      result' ← copyAndTranspose_j (cols a) i 0 a result;
      copyAndTranspose_i n' (S i) a result'
  end.

Definition copyAndTranspose (a : FullMatrix) : Outcome FullMatrix :=
  copyAndTranspose_i (rows a) 0 a (new_FullMatrix (cols a) (rows a)).

End Dense.

Arguments Vector T : clear implicits.
Arguments FullMatrix T : clear implicits.

(** ** The kernel interface and the cluster data (declared outside src/) *)

(** Modelled from the spec: the index set of a cluster, "an ordered list of
    global indices" with [size()]. *)
Record ClusterData := { indices : list nat }.
Definition size (c : ClusterData) : nat := length (indices c).

Inductive hmat_block_t := hmat_block_full | hmat_block_sparse | hmat_block_null.

Definition hmat_block_t_eqb (x y : hmat_block_t) : bool :=
  match x, y with
  | hmat_block_full, hmat_block_full
  | hmat_block_sparse, hmat_block_sparse
  | hmat_block_null, hmat_block_null => true
  | _, _ => false
  end.

Record hmat_block_info_t := {
  block_type : hmat_block_t;
  is_null_row : nat -> bool;
  is_null_col : nat -> bool
}.

Inductive CompressionMethod := Svd | AcaFull | AcaPartial | AcaPlus | NoCompression.

Definition CompressionMethod_eqb (x y : CompressionMethod) : bool :=
  match x, y with
  | Svd, Svd | AcaFull, AcaFull | AcaPartial, AcaPartial
  | AcaPlus, AcaPlus | NoCompression, NoCompression => true
  | _, _ => false
  end.

(** The calls a block makes to the user kernel. *)
Inductive KernelCall := CallGetRow (index : nat) | CallGetCol (index : nat) | CallAssemble.

Section Kernel.
Context {T : Type} `{Scalar T}.

(** Modelled from the spec: the kernel interface [Function<T>]
    ([prepare_block], [get_row], [get_col], [assemble]).  [f_getRow rows
    cols i j] is the value that the callback stores in entry [j] of the
    vector it is given for row [i] of the block, [f_getCol rows cols j i] the
    one it stores in entry [i] for column [j]. *)
Record Function := {
  prepareBlock : ClusterData -> ClusterData -> hmat_block_info_t;
  f_getRow : ClusterData -> ClusterData -> nat -> nat -> T;
  f_getCol : ClusterData -> ClusterData -> nat -> nat -> T;
  f_assemble : ClusterData -> ClusterData -> hmat_block_info_t -> FullMatrix T
}.

(** The callback overwrites the vector it is given. *)
Definition fill (g : nat -> T) (result : Vector T) : Vector T :=
  imap (fun j _ => g j) result.

(** [ClusterAssemblyFunction] (compression.cpp) *)
Record ClusterAssemblyFunction := {
  f : Function;
  block_rows : ClusterData;
  block_cols : ClusterData;
  info : hmat_block_info_t
}.

Definition new_ClusterAssemblyFunction (_f : Function) (_rows _cols : ClusterData)
  : ClusterAssemblyFunction :=
  {| f := _f; block_rows := _rows; block_cols := _cols;
     info := prepareBlock _f _rows _cols |}.

(** [getRow(index, result)]: the kernel calls made and the contents of
    [result] afterwards. *)
Definition getRow (block : ClusterAssemblyFunction) (index : nat) (result : Vector T)
  : list KernelCall * Vector T :=
  if negb (hmat_block_t_eqb (block_type (info block)) hmat_block_sparse)
     || negb (is_null_row (info block) index)
  then ([CallGetRow index],
        fill (f_getRow (f block) (block_rows block) (block_cols block) index) result)
  else ([], result).

Definition getCol (block : ClusterAssemblyFunction) (index : nat) (result : Vector T)
  : list KernelCall * Vector T :=
  if negb (hmat_block_t_eqb (block_type (info block)) hmat_block_sparse)
     || negb (is_null_col (info block) index)
  then ([CallGetCol index],
        fill (f_getCol (f block) (block_rows block) (block_cols block) index) result)
  else ([], result).

Definition assemble (block : ClusterAssemblyFunction) : list KernelCall * FullMatrix T :=
  if negb (hmat_block_t_eqb (block_type (info block)) hmat_block_null)
  then ([CallAssemble],
        f_assemble (f block) (block_rows block) (block_cols block) (info block))
  else ([], Zero (size (block_rows block)) (size (block_cols block))).

(** ** RkMatrix<T> *)

(** Modelled from the spec: the low-rank factorization [Rk<T>], "either
    empty (rank 0, both factors absent) or a pair (A, B)", with its row and
    column index sets and its method tag; [rank] is the number of columns
    of [A]. *)
Record RkMatrix := {
  a : option (FullMatrix T);
  rk_rows : ClusterData;
  b : option (FullMatrix T);
  rk_cols : ClusterData;
  method : CompressionMethod
}.

Definition rank (rk : RkMatrix) : nat :=
  match a rk with
  | Some fa => cols fa
  | None => 0
  end.

Definition isEmpty (rk : RkMatrix) : bool :=
  match a rk, b rk with
  | None, None => true
  | _, _ => false
  end.

(** [RkMatrix<T>::approx]: the global approximation parameters. *)
Record RkApproximationControl := {
  assemblyEpsilon : double;
  approx_k : nat
}.

(** ** Helpers of the cross approximations (compression.cpp) *)

(** [updateRow]: for l < k, rowVec.axpy(mone * cols[l]->v[row], rows[l]) *)
Fixpoint updateRow_loop (n l : nat) (rowVec : Vector T) (row : nat)
    (rows_ cols_ : list (Vector T)) : Outcome (Vector T) :=
  match n with
  | 0 => Ok rowVec
  | S n' =>
      cl ← rd cols_ l;
      c ← rd cl row;
      rl ← rd rows_ l;
      rowVec' ← axpy (smul mone c) rl rowVec;
      updateRow_loop n' (S l) rowVec' row rows_ cols_
  end.

Definition updateRow (rowVec : Vector T) (row : nat)
    (rows_ cols_ : list (Vector T)) (k : nat) : Outcome (Vector T) :=
  updateRow_loop k 0 rowVec row rows_ cols_.

Definition updateCol (colVec : Vector T) (col : nat)
    (cols_ rows_ : list (Vector T)) (k : nat) : Outcome (Vector T) :=
  updateRow colVec col cols_ rows_ k.

(** The sum of the running-norm update: for l from [l] to [l + n - 1],
    newEstimate += real(dot(aVec, aCols[l]) * dot(bVec, bCols[l])) *)
Fixpoint crossTerms (n l : nat) (aVec bVec : Vector T)
    (aCols bCols : list (Vector T)) (newEstimate : double) : Outcome double :=
  match n with
  | 0 => Ok newEstimate
  | S n' =>
      a_l ← rd aCols l;
      b_l ← rd bCols l;
      da ← dot aVec a_l;
      db ← dot bVec b_l;
      crossTerms n' (S l) aVec bVec aCols bCols (newEstimate + real (smul da db))%Q
  end.

(** The argmax loops of compressAcaPartial: for j < n,
    norm2 = squaredNorm(v[j]); if (free[j] && norm2 > maxNorm2) ... *)
Fixpoint argmaxFree (n j : nat) (free : list bool) (v : Vector T)
    (maxNorm2 : double) (best : nat) : Outcome nat :=
  match n with
  | 0 => Ok best
  | S n' =>
      x ← rd v j;
      let norm2 := squaredNorm x in
      fr ← rd free j;
      if fr && Qltb maxNorm2 norm2
      then argmaxFree n' (S j) free v norm2 j
      else argmaxFree n' (S j) free v maxNorm2 best
  end.

(** I = 0; while (!rowFree[I]) I++; *)
Fixpoint nextFree (rowFree : list bool) (I : nat) : Outcome nat :=
  match rowFree with
  | [] => Undefined
  | fr :: rest => if fr then Ok I else nextFree rest (S I)
  end.

End Kernel.

Arguments Function T : clear implicits.
Arguments ClusterAssemblyFunction T : clear implicits.
Arguments RkMatrix T : clear implicits.

(** ** compressAcaPartial *)
Section AcaPartial.
Context {T : Type} `{Scalar T}.

(** The variables of the loop of [compressAcaPartial].  [pa_pivotRows] is a
    history variable that is not in the source: the value of [I] at the
    start of each iteration, oldest first. *)
Record AcaPartialState := {
  pa_rowFree : list bool;
  pa_rowPivotCount : nat;
  pa_colFree : list bool;
  pa_aCols : list (Vector T);
  pa_bCols : list (Vector T);
  pa_I : nat;
  pa_J : nat;
  pa_k : nat;
  pa_estimateSquaredNorm : double;
  pa_pivotRows : list nat
}.

Definition acaPartial_init (rowCount colCount : nat) : AcaPartialState :=
  {| pa_rowFree := replicate rowCount true;
     pa_rowPivotCount := 0;
     pa_colFree := replicate colCount true;
     pa_aCols := [];
     pa_bCols := [];
     pa_I := 0; pa_J := 0; pa_k := 0;
     pa_estimateSquaredNorm := 0;
     pa_pivotRows := [] |}.

(** One pass through the body of the do-while loop; the boolean tells
    whether the pass left the loop by [break]. *)
Definition acaPartial_body (block : ClusterAssemblyFunction T) (epsilon : double)
    (s : AcaPartialState) : Outcome (bool * AcaPartialState) :=
  let rowCount := size (block_rows block) in
  let colCount := size (block_cols block) in
  let I := pa_I s in
  let k := pa_k s in
  let bCol := new_Vector (size (block_cols block)) in
  (* Calculation of row I and its residue *)
  let bCol := (getRow block I bCol).2 in
  bCol ← updateRow bCol I (pa_bCols s) (pa_aCols s) k;
  rowFree ← wr (pa_rowFree s) I false;
  let rowPivotCount := S (pa_rowPivotCount s) in
  (* Find max and argmax of the residue *)
  J ← argmaxFree colCount 0 (pa_colFree s) bCol 0 (pa_J s);
  pivotValue ← rd bCol J;
  if seqb pivotValue zero then
    (* We look for another row which has not already been used. *)
    I' ← nextFree rowFree 0;
    Ok (false,
        {| pa_rowFree := rowFree; pa_rowPivotCount := rowPivotCount;
           pa_colFree := pa_colFree s;
           pa_aCols := pa_aCols s; pa_bCols := pa_bCols s;
           pa_I := I'; pa_J := J; pa_k := k;
           pa_estimateSquaredNorm := pa_estimateSquaredNorm s;
           pa_pivotRows := pa_pivotRows s ++ [I] |})
  else
    (* Find pivot and scale column B *)
    let pivot := sdiv pone pivotValue in
    let bCol := scale pivot bCol in
    let bCols := pa_bCols s ++ [bCol] in
    (* Compute column J and residue *)
    let aCol := new_Vector (size (block_rows block)) in
    let aCol := (getCol block J aCol).2 in
    aCol ← updateCol aCol J (pa_aCols s) bCols k;
    colFree ← wr (pa_colFree s) J false;
    let aCols := pa_aCols s ++ [aCol] in
    (* Find max and argmax of the residue *)
    I' ← argmaxFree rowCount 0 rowFree aCol 0 I;
    (* Update the estimated norm *)
    newEstimate ← crossTerms k 0 aCol bCol aCols bCols 0;
    let estimateSquaredNorm := (pa_estimateSquaredNorm s + 2 * newEstimate)%Q in
    aColNorm_2 ← normSqr aCol;
    bColNorm_2 ← normSqr bCol;
    let ab_norm_2 := (aColNorm_2 * bColNorm_2)%Q in
    let estimateSquaredNorm := (estimateSquaredNorm + ab_norm_2)%Q in
    let k := S k in
    (* Evaluate the stopping criterion *)
    Ok (Qltb ab_norm_2 (epsilon * epsilon * estimateSquaredNorm),
        {| pa_rowFree := rowFree; pa_rowPivotCount := rowPivotCount;
           pa_colFree := colFree;
           pa_aCols := aCols; pa_bCols := bCols;
           pa_I := I'; pa_J := J; pa_k := k;
           pa_estimateSquaredNorm := estimateSquaredNorm;
           pa_pivotRows := pa_pivotRows s ++ [I] |}).

(** do { body } while (rowPivotCount < maxK); *)
Fixpoint acaPartial_loop (fuel : nat) (block : ClusterAssemblyFunction T)
    (epsilon : double) (maxK : nat) (s : AcaPartialState) : Outcome AcaPartialState :=
  match fuel with
  | 0 => OutOfFuel
  | S fuel' =>
      '(brk, s') ← acaPartial_body block epsilon s;
      if (brk : bool) then Ok s'
      else if bool_decide (pa_rowPivotCount s' < maxK)
           then acaPartial_loop fuel' block epsilon maxK s'
           else Ok s'
  end.

(** for (i = 0; i < k; i++) memcpy(dst->m + i * dst->rows, vs[i]->v, dst->rows) *)
Fixpoint copyCols (n i : nat) (dst : FullMatrix T) (vs : list (Vector T))
  : Outcome (FullMatrix T) :=
  match n with
  | 0 => Ok dst
  | S n' =>
      v ← rd vs i;
      src ← view v 0 (rows dst);
      data ← memcpy (m dst) (i * rows dst) src;
      copyCols n' (S i)
        {| m := data; rows := rows dst; cols := cols dst; lda := lda dst |} vs
  end.

(** The state in which the loop of [compressAcaPartial] ends. *)
Definition acaPartial_run (approx : RkApproximationControl)
    (block : ClusterAssemblyFunction T) : Outcome AcaPartialState :=
  let epsilon := assemblyEpsilon approx in
  let rowCount := size (block_rows block) in
  let colCount := size (block_cols block) in
  let maxK := min rowCount colCount in
  acaPartial_loop (S maxK) block epsilon maxK (acaPartial_init rowCount colCount).

Definition compressAcaPartial (approx : RkApproximationControl)
    (block : ClusterAssemblyFunction T) : Outcome (RkMatrix T) :=
  s ← acaPartial_run approx block;
  let k := pa_k s in
  if bool_decide (k <> 0) then
    newA ← copyCols k 0 (new_FullMatrix (size (block_rows block)) k) (pa_aCols s);
    newB ← copyCols k 0 (new_FullMatrix (size (block_cols block)) k) (pa_bCols s);
    Ok {| a := Some newA; rk_rows := block_rows block;
          b := Some newB; rk_cols := block_cols block; method := AcaPartial |}
  else
    (* If k == 0, block is only made of zeros. *)
    Ok {| a := None; rk_rows := block_rows block;
          b := None; rk_cols := block_cols block; method := AcaPartial |}.

End AcaPartial.

Arguments AcaPartialState T : clear implicits.

(** ** compressAcaFull *)
Section AcaFull.
Context {T : Type} `{Scalar T}.

(** [findMax]: the inner loop over the rows of column [col] *)
Fixpoint findMax_rows (n row col : nat) (mat : FullMatrix T)
    (best : nat * nat * double) : Outcome (nat * nat * double) :=
  match n with
  | 0 => Ok best
  | S n' =>
      x ← get mat row col;
      let norm := squaredNorm x in
      if Qltb best.2 norm
      then findMax_rows n' (S row) col mat (row, col, norm)
      else findMax_rows n' (S row) col mat best
  end.

Fixpoint findMax_cols (n col : nat) (mat : FullMatrix T)
    (best : nat * nat * double) : Outcome (nat * nat * double) :=
  match n with
  | 0 => Ok best
  | S n' =>
      best' ← findMax_rows (rows mat) 0 col mat best;
      findMax_cols n' (S col) mat best'
  end.

Definition findMax (mat : FullMatrix T) : Outcome (nat * nat) :=
  x ← get mat 0 0;
  best ← findMax_cols (cols mat) 0 mat (0, 0, squaredNorm x);
  Ok best.1.

(** for (j = 0; j < m->cols; j++) tmpB.get(j, nu) = m->get(i_nu, j) / delta; *)
Fixpoint fillB (n j : nat) (mat : FullMatrix T) (i_nu nu : nat) (delta : T)
    (tmpB : FullMatrix T) : Outcome (FullMatrix T) :=
  match n with
  | 0 => Ok tmpB
  | S n' =>
      x ← get mat i_nu j;
      tmpB' ← put tmpB j nu (sdiv x delta);
      fillB n' (S j) mat i_nu nu delta tmpB'
  end.

(** Modelled from the spec: the rank-1 update "M <- M + alpha x y^T
    (complex: no conjugation)", the BLAS [ger] that src/ reaches through
    [proxy_cblas]: A[i + j * lda] += x[i] * (alpha * y[j]) for i < M,
    j < N. *)
Fixpoint ger_rows (n i j : nat) (temp : T) (x : list T) (A : list T) (ld : nat)
  : Outcome (list T) :=
  match n with
  | 0 => Ok A
  | S n' =>
      xi ← rd x i;
      aij ← rd A (i + j * ld);
      A' ← wr A (i + j * ld) (sadd aij (smul xi temp));
      ger_rows n' (S i) j temp x A' ld
  end.

Fixpoint ger_cols (n j : nat) (M : nat) (alpha : T) (x y : list T) (A : list T)
    (ld : nat) : Outcome (list T) :=
  match n with
  | 0 => Ok A
  | S n' =>
      yj ← rd y j;
      A' ← ger_rows M 0 j (smul alpha yj) x A ld;
      ger_cols n' (S j) M alpha x y A' ld
  end.

Definition ger (M N : nat) (alpha : T) (x y : list T) (A : list T) (ld : nat)
  : Outcome (list T) :=
  ger_cols N 0 M alpha x y A ld.

(** The sum of the running-norm update of [compressAcaFull], over the
    columns [l] to [l + n - 1] of [tmpA] and [tmpB]. *)
Fixpoint crossTermsFull (n l : nat) (va_nu vb_nu : Vector T)
    (tmpA tmpB : FullMatrix T) (newEstimate : double) : Outcome double :=
  match n with
  | 0 => Ok newEstimate
  | S n' =>
      a_l ← view (m tmpA) (l * rows tmpA) (rows tmpA);
      b_l ← view (m tmpB) (l * rows tmpB) (rows tmpB);
      da ← dot va_nu a_l;
      db ← dot vb_nu b_l;
      crossTermsFull n' (S l) va_nu vb_nu tmpA tmpB
        (newEstimate + real (smul da db))%Q
  end.

Record AcaFullState := {
  fu_m : FullMatrix T;
  fu_tmpA : FullMatrix T;
  fu_tmpB : FullMatrix T;
  fu_nu : nat;
  fu_estimateSquaredNorm : double
}.

(** One pass through the body of the for loop, before [nu++]; the boolean
    tells whether the pass left the loop by [break]. *)
Definition acaFull_body (epsilon : double) (s : AcaFullState)
  : Outcome (bool * AcaFullState) :=
  let mat := fu_m s in
  let tmpA := fu_tmpA s in
  let tmpB := fu_tmpB s in
  let nu := fu_nu s in
  '(i_nu, j_nu) ← findMax mat;
  delta ← get mat i_nu j_nu;
  if Qeq_bool (squaredNorm delta) 0 then Ok (true, s)
  else
    (* Creation of the vectors A_i_nu and B_j_nu *)
    src ← view (m mat) (j_nu * rows mat) (rows tmpA);
    dataA ← memcpy (m tmpA) (nu * rows tmpA) src;
    let tmpA := with_m tmpA dataA in
    tmpB ← fillB (cols mat) 0 mat i_nu nu delta tmpB;
    x ← view (m tmpA) (nu * rows tmpA) (rows mat);
    y ← view (m tmpB) (nu * rows tmpB) (cols mat);
    dataM ← ger (rows mat) (cols mat) mone x y (m mat) (rows mat);
    let mat := with_m mat dataM in
    (* Update the estimate norm *)
    va_nu ← view (m tmpA) (nu * rows tmpA) (rows tmpA);
    vb_nu ← view (m tmpB) (nu * rows tmpB) (rows tmpB);
    newEstimate ← crossTermsFull (nu - 1) 0 va_nu vb_nu tmpA tmpB 0;
    let estimateSquaredNorm := (fu_estimateSquaredNorm s + 2 * newEstimate)%Q in
    a_nu_norm_2 ← normSqr va_nu;
    b_nu_norm_2 ← normSqr vb_nu;
    let ab_norm_2 := (a_nu_norm_2 * b_nu_norm_2)%Q in
    let estimateSquaredNorm := (estimateSquaredNorm + ab_norm_2)%Q in
    Ok (Qltb ab_norm_2 (epsilon * epsilon * estimateSquaredNorm),
        {| fu_m := mat; fu_tmpA := tmpA; fu_tmpB := tmpB; fu_nu := nu;
           fu_estimateSquaredNorm := estimateSquaredNorm |}).

Definition acaFull_next (s : AcaFullState) : AcaFullState :=
  {| fu_m := fu_m s; fu_tmpA := fu_tmpA s; fu_tmpB := fu_tmpB s;
     fu_nu := S (fu_nu s);
     fu_estimateSquaredNorm := fu_estimateSquaredNorm s |}.

(** for (nu = ...; nu < maxK; nu++) { body }, with [n] = maxK - nu *)
Fixpoint acaFull_loop (n : nat) (epsilon : double) (s : AcaFullState)
  : Outcome AcaFullState :=
  match n with
  | 0 => Ok s
  | S n' =>
      '(brk, s') ← acaFull_body epsilon s;
      if (brk : bool) then Ok s'
      else acaFull_loop n' epsilon (acaFull_next s')
  end.

Definition acaFull_maxK (approx : RkApproximationControl) (mat : FullMatrix T) : nat :=
  let maxK := min (rows mat) (cols mat) in
  if bool_decide (0 < approx_k approx) then min maxK (approx_k approx) else maxK.

(** The variables of [compressAcaFull] when its loop starts. *)
Definition acaFull_init (approx : RkApproximationControl) (mat : FullMatrix T)
  : AcaFullState :=
  let maxK := acaFull_maxK approx mat in
  {| fu_m := mat;
     fu_tmpA := new_FullMatrix (rows mat) maxK;
     fu_tmpB := new_FullMatrix (cols mat) maxK;
     fu_nu := 0;
     fu_estimateSquaredNorm := 0 |}.

(** The state in which the loop of [compressAcaFull] ends. *)
Definition acaFull_run (approx : RkApproximationControl)
    (block : ClusterAssemblyFunction T) : Outcome AcaFullState :=
  let mat := (assemble block).2 in
  let epsilon := assemblyEpsilon approx in
  let maxK := acaFull_maxK approx mat in
  acaFull_loop maxK epsilon (acaFull_init approx mat).

Definition compressAcaFull (approx : RkApproximationControl)
    (block : ClusterAssemblyFunction T) : Outcome (RkMatrix T) :=
  s ← acaFull_run approx block;
  let nu := fu_nu s in
  let tmpA := fu_tmpA s in
  let tmpB := fu_tmpB s in
  if bool_decide (nu = 0) then
    Ok {| a := None; rk_rows := block_rows block;
          b := None; rk_cols := block_cols block; method := AcaFull |}
  else
    let newA := new_FullMatrix (rows tmpA) nu in
    srcA ← view (m tmpA) 0 (rows tmpA * nu);
    dataA ← memcpy (m newA) 0 srcA;
    let newB := new_FullMatrix (rows tmpB) nu in
    srcB ← view (m tmpB) 0 (rows tmpB * nu);
    dataB ← memcpy (m newB) 0 srcB;
    Ok {| a := Some (with_m newA dataA); rk_rows := block_rows block;
          b := Some (with_m newB dataB); rk_cols := block_cols block;
          method := AcaFull |}.

End AcaFull.

Arguments AcaFullState T : clear implicits.

(** ** compressMatrix and compressSvd *)
Section Svd.
Context {T : Type} `{Scalar T}.

(** The singular value decomposition [truncatedSvd] (LAPACK gesvd, outside
    src/): the return code [info], then [u], [sigma] and [vt]. *)
Variable truncatedSvd : FullMatrix T -> Z * FullMatrix T * list double * FullMatrix T.

(** [RkMatrix<T>::approx.findK(sigma, maxK, epsilon)] (declared outside
    src/) *)
Variable findK : RkApproximationControl -> list double -> nat -> double -> nat.

(** The all-zero test of [compressMatrix]: column [col] is read at offset
    [rows * col]; [n] columns remain. *)
Fixpoint zeroMatrix_loop (n col : nat) (mat : FullMatrix T) : Outcome bool :=
  match n with
  | 0 => Ok true
  | S n' =>
      v ← view (m mat) (rows mat * col) (rows mat);
      z ← isZero v;
      if (z : bool) then zeroMatrix_loop n' (S col) mat else Ok false
  end.

(** for (row = 0; row < rowCount; row++) u->get(row, col) *= sigma->v[col]; *)
Fixpoint scaleU_rows (n row col : nat) (sigma : list double) (u : FullMatrix T)
  : Outcome (FullMatrix T) :=
  match n with
  | 0 => Ok u
  | S n' =>
      x ← get u row col;
      sg ← rd sigma col;
      u' ← put u row col (smul x (of_double sg));
      scaleU_rows n' (S row) col sigma u'
  end.

Fixpoint scaleU_cols (n col rowCount : nat) (sigma : list double) (u : FullMatrix T)
  : Outcome (FullMatrix T) :=
  match n with
  | 0 => Ok u
  | S n' =>
      u' ← scaleU_rows rowCount 0 col sigma u;
      scaleU_cols n' (S col) rowCount sigma u'
  end.

Definition compressMatrix (approx : RkApproximationControl) (mat : FullMatrix T)
    (rows_ cols_ : ClusterData) : Outcome (RkMatrix T) :=
  _ ← assert (bool_decide (rows mat = size rows_));
  _ ← assert (bool_decide (cols mat = size cols_));
  _ ← assert (bool_decide (rows mat <= lda mat));
  zeroMatrix ← zeroMatrix_loop (cols mat) 0 mat;
  if (zeroMatrix : bool) then
    Ok {| a := None; rk_rows := rows_; b := None; rk_cols := cols_;
          method := NoCompression |}
  else
    let rowCount := rows mat in
    let colCount := cols mat in
    let '(svd_info, u, sigma, vt) := truncatedSvd mat in
    _ ← assert (bool_decide (svd_info = 0%Z));
    (* Control of the approximation *)
    let maxK := min rowCount colCount in
    let k := findK approx sigma maxK (assemblyEpsilon approx) in
    if bool_decide (k = 0) then
      Ok {| a := None; rk_rows := rows_; b := None; rk_cols := cols_;
            method := NoCompression |}
    else
      u ← scaleU_cols k 0 rowCount sigma u;
      matU ← wrap_FullMatrix (m u) rowCount k None;
      uTilde ← copy matU;
      matV ← wrap_FullMatrix (m vt) k colCount (Some maxK);
      vTilde ← copyAndTranspose matV;
      Ok {| a := Some uTilde; rk_rows := rows_; b := Some vTilde; rk_cols := cols_;
            method := Svd |}.

Definition compressSvd (approx : RkApproximationControl)
    (block : ClusterAssemblyFunction T) : Outcome (RkMatrix T) :=
  let mat := (assemble block).2 in
  compressMatrix approx mat (block_rows block) (block_cols block).

End Svd.

(** ** compressAcaPlus *)

(** [DBL_MAX] of <cfloat>: (2^53 - 1) * 2^971 *)
Definition DBL_MAX : double := inject_Z ((2 ^ 53 - 1) * 2 ^ 971).

Section AcaPlus.
Context {T : Type} `{Scalar T}.

(** [findCol]: the result is the chosen column ([None] is -1), [colFree]
    and [col] as the call leaves them; [n] columns remain from [i] on. *)
Fixpoint findCol_loop (n i : nat) (block : ClusterAssemblyFunction T)
    (colFree : list bool) (col : Vector T)
  : Outcome (option nat * list bool * Vector T) :=
  match n with
  | 0 => Ok (None, colFree, col)
  | S n' =>
      fr ← rd colFree i;
      if (fr : bool) then
        let col := clear col in
        let col := (getCol block i col).2 in
        colFree ← wr colFree i false;
        z ← isZero col;
        if negb z then Ok (Some i, colFree, col)
        else findCol_loop n' (S i) block colFree col
      else findCol_loop n' (S i) block colFree col
  end.

Definition findCol (block : ClusterAssemblyFunction T) (colFree : list bool)
    (col : Vector T) : Outcome (option nat * list bool * Vector T) :=
  findCol_loop (length colFree) 0 block colFree col.

(** The for loop of [findMinRow] and [findMinCol]: the free index of least
    squared modulus in [ref]. *)
Fixpoint argminFree (n i : nat) (free : list bool) (ref : Vector T)
    (minNorm2 : double) (best : option nat) : Outcome (option nat) :=
  match n with
  | 0 => Ok best
  | S n' =>
      fr ← rd free i;
      if (fr : bool) then
        x ← rd ref i;
        let norm2 := squaredNorm x in
        if Qltb norm2 minNorm2
        then argminFree n' (S i) free ref norm2 (Some i)
        else argminFree n' (S i) free ref minNorm2 best
      else argminFree n' (S i) free ref minNorm2 best
  end.

(** [findMinRow]: the while loop runs at most [fuel] times. *)
Fixpoint findMinRow_loop (fuel : nat) (block : ClusterAssemblyFunction T)
    (rowFree : list bool) (aCols bCols : list (Vector T)) (aRef : Vector T)
    (row : Vector T) : Outcome (option nat * list bool * Vector T) :=
  match fuel with
  | 0 => OutOfFuel
  | S fuel' =>
      i_ref ← argminFree (length aRef) 0 rowFree aRef DBL_MAX None;
      match i_ref with
      | None => Ok (None, rowFree, row)
      | Some i =>
          let row := clear row in
          let row := (getRow block i row).2 in
          row ← updateRow row i bCols aCols (length aCols);
          z ← isZero row;
          rowFree ← wr rowFree i false;
          if negb z then Ok (Some i, rowFree, row)
          else findMinRow_loop fuel' block rowFree aCols bCols aRef row
      end
  end.

Definition findMinRow (block : ClusterAssemblyFunction T) (rowFree : list bool)
    (aCols bCols : list (Vector T)) (aRef : Vector T) (row : Vector T)
  : Outcome (option nat * list bool * Vector T) :=
  findMinRow_loop (S (length rowFree)) block rowFree aCols bCols aRef row.

Fixpoint findMinCol_loop (fuel : nat) (block : ClusterAssemblyFunction T)
    (colFree : list bool) (aCols bCols : list (Vector T)) (bRef : Vector T)
    (col : Vector T) : Outcome (option nat * list bool * Vector T) :=
  match fuel with
  | 0 => OutOfFuel
  | S fuel' =>
      j_ref ← argminFree (length bRef) 0 colFree bRef DBL_MAX None;
      match j_ref with
      | None => Ok (None, colFree, col)
      | Some j =>
          let col := clear col in
          let col := (getCol block j col).2 in
          col ← updateCol col j aCols bCols (length bCols);
          z ← isZero col;
          colFree ← wr colFree j false;
          if negb z then Ok (Some j, colFree, col)
          else findMinCol_loop fuel' block colFree aCols bCols bRef col
      end
  end.

Definition findMinCol (block : ClusterAssemblyFunction T) (colFree : list bool)
    (aCols bCols : list (Vector T)) (bRef : Vector T) (col : Vector T)
  : Outcome (option nat * list bool * Vector T) :=
  findMinCol_loop (S (length colFree)) block colFree aCols bCols bRef col.

(** The variables of the loop of [compressAcaPlus]. *)
Record AcaPlusState := {
  pl_aRef : Vector T;
  pl_bRef : Vector T;
  pl_rowFree : list bool;
  pl_colFree : list bool;
  pl_aCols : list (Vector T);
  pl_bCols : list (Vector T);
  pl_i_ref : option nat;
  pl_j_ref : option nat;
  pl_k : nat;
  pl_estimateSquaredNorm : double
}.

(** while (!found) { aRef.clear(); j_ref = findCol(...); if (j_ref == -1)
    break; updateCol(aRef, j_ref, aCols, bCols, k); found = !isZero(aRef); }
    The result is [found], [j_ref], [colFree] and [aRef]. *)
Fixpoint newRefCol_loop (fuel : nat) (block : ClusterAssemblyFunction T)
    (colFree : list bool) (aCols bCols : list (Vector T)) (k : nat)
    (aRef : Vector T) : Outcome (bool * option nat * list bool * Vector T) :=
  match fuel with
  | 0 => OutOfFuel
  | S fuel' =>
      let aRef := clear aRef in
      '(j_ref, colFree, aRef) ← findCol block colFree aRef;
      match j_ref with
      | None => Ok (false, None, colFree, aRef)
      | Some j =>
          aRef ← updateCol aRef j aCols bCols k;
          z ← isZero aRef;
          if negb z then Ok (true, Some j, colFree, aRef)
          else newRefCol_loop fuel' block colFree aCols bCols k aRef
      end
  end.

Definition option_nat_eqb (x : nat) (y : option nat) : bool :=
  match y with
  | Some y => Nat.eqb x y
  | None => false
  end.

(** The choice of the pivot and of the pair (aVec, bVec): the start of the
    body of the do-while loop, down to the two scaled vectors.  The result
    is i_star, j_star, aVec and bVec. *)
Definition acaPlus_pick (block : ClusterAssemblyFunction T) (s : AcaPlusState)
  : Outcome (nat * nat * Vector T * Vector T) :=
  let rowCount := size (block_rows block) in
  let colCount := size (block_cols block) in
  let aRef := pl_aRef s in
  let bRef := pl_bRef s in
  let aCols := pl_aCols s in
  let bCols := pl_bCols s in
  let k := pl_k s in
  let bVec := new_Vector colCount in
  let aVec := new_Vector rowCount in
  let i_star := absoluteMaxIndex aRef in
  i_star_value ← rd aRef i_star;
  let j_star := absoluteMaxIndex bRef in
  j_star_value ← rd bRef j_star;
  if Qltb (squaredNorm j_star_value) (squaredNorm i_star_value) then
    (* i_star is fixed, we look for j_star *)
    let bVec := (getRow block i_star bVec).2 in
    bVec ← updateRow bVec i_star bCols aCols k;
    let j_star := absoluteMaxIndex bVec in
    pivot ← rd bVec j_star;
    _ ← assert (negb (seqb pivot zero));
    let aVec := (getCol block j_star aVec).2 in
    aVec ← updateCol aVec j_star aCols bCols k;
    let aVec := scale (sdiv pone pivot) aVec in
    Ok (i_star, j_star, aVec, bVec)
  else
    (* j_star is fixed, we look for i_star *)
    let aVec := (getCol block j_star aVec).2 in
    aVec ← updateCol aVec j_star aCols bCols k;
    let i_star := absoluteMaxIndex aVec in
    pivot ← rd aVec i_star;
    _ ← assert (negb (seqb pivot zero));
    let bVec := (getRow block i_star bVec).2 in
    bVec ← updateRow bVec i_star bCols aCols k;
    let bVec := scale (sdiv pone pivot) bVec in
    Ok (i_star, j_star, aVec, bVec).

(** The update of a_ref and b_ref: the end of the body of the do-while
    loop, after the stopping criterion.  [s] holds the variables as they
    are there ([k] already incremented); the boolean of the result tells
    whether the loop is left by [break]. *)
Definition acaPlus_refresh (block : ClusterAssemblyFunction T) (i_star j_star : nat)
    (s : AcaPlusState) : Outcome (bool * AcaPlusState) :=
  let aCols := pl_aCols s in
  let bCols := pl_bCols s in
  let k := pl_k s in
  let rowFree := pl_rowFree s in
  let colFree := pl_colFree s in
  let i_ref := pl_i_ref s in
  let j_ref := pl_j_ref s in
  let st aRef bRef rowFree colFree i_ref j_ref :=
    {| pl_aRef := aRef; pl_bRef := bRef; pl_rowFree := rowFree;
       pl_colFree := colFree; pl_aCols := aCols; pl_bCols := bCols;
       pl_i_ref := i_ref; pl_j_ref := j_ref; pl_k := k;
       pl_estimateSquaredNorm := pl_estimateSquaredNorm s |} in
  bk ← rd bCols (k - 1);
  ak ← rd aCols (k - 1);
  bkj ← rd_int bk j_ref;
  aRef ← axpy (smul mone bkj) ak (pl_aRef s);
  aki ← rd_int ak i_ref;
  bRef ← axpy (smul mone aki) bk (pl_bRef s);
  zA ← isZero aRef;
  let needNewA := zA || option_nat_eqb j_star j_ref in
  zB ← isZero bRef;
  let needNewB := zB || option_nat_eqb i_star i_ref in
  (* If the row or the column of reference have been already chosen as
     pivot, we can not keep it and then we take one or two others. *)
  if needNewA && needNewB then
    '(found, j_ref, colFree, aRef) ←
      newRefCol_loop (S (length colFree)) block colFree aCols bCols k aRef;
    if negb found then Ok (true, st aRef bRef rowFree colFree i_ref j_ref)
    else
      let bRef := clear bRef in
      '(i_ref, rowFree, bRef) ← findMinRow block rowFree aCols bCols aRef bRef;
      (* We can not find non-zero line anymore, done! *)
      Ok (bool_decide (i_ref = None), st aRef bRef rowFree colFree i_ref j_ref)
  else if needNewB then
    let bRef := clear bRef in
    '(i_ref, rowFree, bRef) ← findMinRow block rowFree aCols bCols aRef bRef;
    Ok (bool_decide (i_ref = None), st aRef bRef rowFree colFree i_ref j_ref)
  else if needNewA then
    let aRef := clear aRef in
    '(j_ref, colFree, aRef) ← findMinCol block colFree aCols bCols bRef aRef;
    Ok (bool_decide (j_ref = None), st aRef bRef rowFree colFree i_ref j_ref)
  else Ok (false, st aRef bRef rowFree colFree i_ref j_ref).

(** One pass through the body of the do-while loop; the boolean tells
    whether the pass left the loop by [break]. *)
Definition acaPlus_body (block : ClusterAssemblyFunction T) (epsilon : double)
    (s : AcaPlusState) : Outcome (bool * AcaPlusState) :=
  let k := pl_k s in
  '(i_star, j_star, aVec, bVec) ← acaPlus_pick block s;
  rowFree ← wr (pl_rowFree s) i_star false;
  colFree ← wr (pl_colFree s) j_star false;
  let aCols := pl_aCols s ++ [aVec] in
  let bCols := pl_bCols s ++ [bVec] in
  (* Update the estimate norm *)
  newEstimate ← crossTerms k 0 aVec bVec aCols bCols 0;
  let estimateSquaredNorm := (pl_estimateSquaredNorm s + 2 * newEstimate)%Q in
  aVecNorm_2 ← normSqr aVec;
  bVecNorm_2 ← normSqr bVec;
  let ab_norm_2 := (aVecNorm_2 * bVecNorm_2)%Q in
  let estimateSquaredNorm := (estimateSquaredNorm + ab_norm_2)%Q in
  let k := S k in
  let s1 :=
    {| pl_aRef := pl_aRef s; pl_bRef := pl_bRef s; pl_rowFree := rowFree;
       pl_colFree := colFree; pl_aCols := aCols; pl_bCols := bCols;
       pl_i_ref := pl_i_ref s; pl_j_ref := pl_j_ref s; pl_k := k;
       pl_estimateSquaredNorm := estimateSquaredNorm |} in
  (* Evaluate the stopping criterion *)
  if Qltb ab_norm_2 (epsilon * epsilon * estimateSquaredNorm)
  then Ok (true, s1)
  else acaPlus_refresh block i_star j_star s1.

(** do { body } while (k < maxK); *)
Fixpoint acaPlus_loop (fuel : nat) (block : ClusterAssemblyFunction T)
    (epsilon : double) (maxK : nat) (s : AcaPlusState) : Outcome AcaPlusState :=
  match fuel with
  | 0 => OutOfFuel
  | S fuel' =>
      '(brk, s') ← acaPlus_body block epsilon s;
      if (brk : bool) then Ok s'
      else if bool_decide (pl_k s' < maxK)
           then acaPlus_loop fuel' block epsilon maxK s'
           else Ok s'
  end.

(** The state in which the loop of [compressAcaPlus] ends; [None] when the
    function returns before the loop (the block is completely zero). *)
Definition acaPlus_run (approx : RkApproximationControl)
    (block : ClusterAssemblyFunction T) : Outcome (option AcaPlusState) :=
  let epsilon := assemblyEpsilon approx in
  let rowCount := size (block_rows block) in
  let colCount := size (block_cols block) in
  let maxK := min rowCount colCount in
  let bRef := new_Vector colCount in
  let aRef := new_Vector rowCount in
  let rowFree := replicate rowCount true in
  let colFree := replicate colCount true in
  '(j_ref, colFree, aRef) ← findCol block colFree aRef;
  match j_ref with
  | None => Ok None
  | Some _ =>
      (* The reference row is chosen such that it intersects the reference
         column at its argmin index. *)
      '(i_ref, rowFree, bRef) ← findMinRow block rowFree [] [] aRef bRef;
      s ← acaPlus_loop (S maxK) block epsilon maxK
            {| pl_aRef := aRef; pl_bRef := bRef; pl_rowFree := rowFree;
               pl_colFree := colFree; pl_aCols := []; pl_bCols := [];
               pl_i_ref := i_ref; pl_j_ref := j_ref; pl_k := 0;
               pl_estimateSquaredNorm := 0 |};
      Ok (Some s)
  end.

Definition compressAcaPlus (approx : RkApproximationControl)
    (block : ClusterAssemblyFunction T) : Outcome (RkMatrix T) :=
  r ← acaPlus_run approx block;
  match r with
  | None =>
      (* The block is completely zero. *)
      Ok {| a := None; rk_rows := block_rows block;
            b := None; rk_cols := block_cols block; method := AcaPlus |}
  | Some s =>
      let k := pl_k s in
      _ ← assert (bool_decide (0 < k));
      newA ← copyCols k 0 (new_FullMatrix (size (block_rows block)) k) (pl_aCols s);
      newB ← copyCols k 0 (new_FullMatrix (size (block_cols block)) k) (pl_bCols s);
      Ok {| a := Some newA; rk_rows := block_rows block;
            b := Some newB; rk_cols := block_cols block; method := AcaPlus |}
  end.

End AcaPlus.

Arguments AcaPlusState T : clear implicits.

(** ** compress *)
Section Compress.
Context {T : Type} `{Scalar T}.
Variable truncatedSvd : FullMatrix T -> Z * FullMatrix T * list double * FullMatrix T.
Variable findK : RkApproximationControl -> list double -> nat -> double -> nat.

Definition compressWithoutValidation (approx : RkApproximationControl)
    (method : CompressionMethod) (block : ClusterAssemblyFunction T)
  : Outcome (RkMatrix T) :=
  match method with
  | Svd => compressSvd truncatedSvd findK approx block
  | AcaFull => compressAcaFull approx block
  | AcaPartial => compressAcaPartial approx block
  | AcaPlus => compressAcaPlus approx block
  | NoCompression => (* Must not happen *) Fatal
  end.

(** [compress] with [HMatrix<T>::validateCompression] off; when it is on,
    the same [rk] is returned after the diagnostics. *)
Definition compress (approx : RkApproximationControl) (method : CompressionMethod)
    (f : Function T) (rows_ cols_ : ClusterData) : Outcome (RkMatrix T) :=
  let block := new_ClusterAssemblyFunction f rows_ cols_ in
  compressWithoutValidation approx method block.

End Compress.

(** ** StandardAdmissibilityCondition (admissibility.cpp, admissibility.hpp) *)

Definition SIZE_MAX_plus_1 : Z := 2 ^ 64.
Definition INT_MAX : Z := 2 ^ 31 - 1.

Section Admissibility.

(** [AxisAlignedBoundingBox] is declared in cluster_tree.hpp, outside src/:
    its constructor from the data of a cluster, [diameter()] and
    [distanceTo()]. *)
Variable AxisAlignedBoundingBox : Type.
Variable new_AxisAlignedBoundingBox : ClusterData -> AxisAlignedBoundingBox.
Variable diameter : AxisAlignedBoundingBox -> double.
Variable distanceTo : AxisAlignedBoundingBox -> AxisAlignedBoundingBox -> double.

(** What [isAdmissible] uses of a [ClusterTree] node: its data and the
    mutable pointer [admissibilityAlgoData_] ([None] is NULL). *)
Record ClusterTree := {
  data : ClusterData;
  admissibilityAlgoData_ : option AxisAlignedBoundingBox
}.

(** The private members declared in admissibility.hpp; the two of size_t
    are integers below 2^64. *)
Record StandardAdmissibilityCondition := {
  eta_ : double;
  maxElementsPerBlock : Z;
  maxElementsPerBlockAca_ : Z;
  always_ : bool
}.

(** Modelled from the spec: [setAlways(bool)], which admissibility.hpp
    declares ("Force to ignore the eta parameter and concider all small
    enough blocks as admissible") and src/ does not define: it sets the
    [always] flag. *)
Definition setAlways (c : StandardAdmissibilityCondition) (flag : bool)
  : StandardAdmissibilityCondition :=
  {| eta_ := eta_ c; maxElementsPerBlock := maxElementsPerBlock c;
     maxElementsPerBlockAca_ := maxElementsPerBlockAca_ c; always_ := flag |}.

Definition setEta (c : StandardAdmissibilityCondition) (eta : double)
  : StandardAdmissibilityCondition :=
  {| eta_ := eta; maxElementsPerBlock := maxElementsPerBlock c;
     maxElementsPerBlockAca_ := maxElementsPerBlockAca_ c; always_ := always_ c |}.

(** [std::min(a, b)] on doubles: (b < a) ? b : a *)
Definition std_min (x y : double) : double := if Qltb y x then y else x.

(** The bounding box of a node, computed and cached on first use. *)
Definition bbox (node : ClusterTree) : AxisAlignedBoundingBox * ClusterTree :=
  match admissibilityAlgoData_ node with
  | Some box => (box, node)
  | None =>
      let box := new_AxisAlignedBoundingBox (data node) in
      (box, {| data := data node; admissibilityAlgoData_ := Some box |})
  end.

(** [isAdmissible(rows, cols)]: the result, and the two nodes with the
    boxes that the call has cached.  [compressionMethod] is the setting
    [HMatSettings::getInstance().compressionMethod]. *)
Definition isAdmissible (this : StandardAdmissibilityCondition)
    (compressionMethod : CompressionMethod) (rows_ cols_ : ClusterTree)
  : bool * ClusterTree * ClusterTree :=
  let mth := compressionMethod in
  let isFullAlgo :=
    negb (CompressionMethod_eqb mth AcaPartial || CompressionMethod_eqb mth AcaPlus) in
  let elements :=
    ((Z.of_nat (size (data rows_)) * Z.of_nat (size (data cols_)))
       mod SIZE_MAX_plus_1)%Z in
  if isFullAlgo && (maxElementsPerBlock this <? elements)%Z then (false, rows_, cols_)
  else if (Z.of_nat (size (data rows_)) <? 2)%Z || (Z.of_nat (size (data cols_)) <? 2)%Z
  then (false, rows_, cols_)
  else
    let '(rows_bbox, rows') := bbox rows_ in
    let '(cols_bbox, cols') := bbox cols_ in
    (Qle_bool (std_min (diameter rows_bbox) (diameter cols_bbox))
              (this.(eta_) * distanceTo rows_bbox cols_bbox),
     rows', cols').

Definition isInert (this : StandardAdmissibilityCondition) (rows_ cols_ : ClusterTree)
  : bool := false.

End Admissibility.

Arguments data {_} _.
Arguments admissibilityAlgoData_ {_} _.

(** ** Real scalars *)
#[global] Instance Q_Scalar : Scalar Q := {
  zero := 0%Q; pone := 1%Q; mone := (-1)%Q;
  sadd := fun x y => Qred (x + y);
  smul := fun x y => Qred (x * y);
  sdiv := fun x y => Qred (x / y);
  sconj := fun x => x;
  seqb := Qeq_bool;
  real := fun x => x;
  squaredNorm := fun x => (x * x)%Q;
  abs1 := Qabs;
  of_double := fun x => x
}.

(** ** Complex scalars, as pairs (real part, imaginary part) *)
Definition Complex : Type := Q * Q.

#[global] Instance Complex_Scalar : Scalar Complex := {
  zero := (0, 0)%Q; pone := (1, 0)%Q; mone := (-1, 0)%Q;
  sadd := fun x y => (Qred (x.1 + y.1), Qred (x.2 + y.2));
  smul := fun x y => (Qred (x.1 * y.1 - x.2 * y.2), Qred (x.1 * y.2 + x.2 * y.1));
  sdiv := fun x y =>
    let d := (y.1 * y.1 + y.2 * y.2)%Q in
    (Qred ((x.1 * y.1 + x.2 * y.2) / d), Qred ((x.2 * y.1 - x.1 * y.2) / d));
  sconj := fun x => (x.1, Qred (- x.2));
  seqb := fun x y => Qeq_bool x.1 y.1 && Qeq_bool x.2 y.2;
  real := fun x => x.1;
  squaredNorm := fun x => (x.1 * x.1 + x.2 * x.2)%Q;
  abs1 := fun x => (Qabs x.1 + Qabs x.2)%Q;
  of_double := fun x => (x, 0%Q)
}.

(** The kernel of a block given by its entries, row by row. *)
Definition entry {A : Type} (d : A) (M : list (list A)) (i j : nat) : A :=
  match M !! i with
  | Some r => default d (r !! j)
  | None => d
  end.

Definition denseKernel {T : Type} `{Scalar T} (M : list (list T)) : Function T :=
  {| prepareBlock _ _ :=
       {| block_type := hmat_block_full;
          is_null_row _ := false; is_null_col _ := false |};
     f_getRow _ _ i j := entry zero M i j;
     f_getCol _ _ j i := entry zero M i j;
     f_assemble rs cs _ :=
       {| m := flat_map (fun j => map (fun i => entry zero M i j) (seq 0 (size rs)))
                        (seq 0 (size cs));
          rows := size rs; cols := size cs; lda := size rs |} |}.

Definition cluster (n : nat) : ClusterData := {| indices := seq 0 n |}.

Definition denseBlock {T : Type} `{Scalar T} (M : list (list T)) (r c : nat)
  : ClusterAssemblyFunction T :=
  new_ClusterAssemblyFunction (denseKernel M) (cluster r) (cluster c).

Definition approx6 : RkApproximationControl :=
  {| assemblyEpsilon := 1 # 1000000; approx_k := 0 |}.


(** The number of indices that a free list still offers. *)
Fixpoint countFree (free : list bool) : nat :=
  match free with
  | [] => 0
  | fr :: rest => (if fr then 1 else 0) + countFree rest
  end.

(** ** Loop invariants *)

Section Invariants.
Context {T : Type} `{Scalar T}.

(** What holds of the variables of [compressAcaPartial] between two passes
    through its loop. *)
Record acaPartial_inv (block : ClusterAssemblyFunction T) (s : AcaPartialState T)
  : Prop := {
  pa_inv_aCols : length (pa_aCols s) = pa_k s;
  pa_inv_bCols : length (pa_bCols s) = pa_k s;
  pa_inv_aLen : Forall (fun v => length v = size (block_rows block)) (pa_aCols s);
  pa_inv_bLen : Forall (fun v => length v = size (block_cols block)) (pa_bCols s);
  pa_inv_k : pa_k s <= pa_rowPivotCount s;
  pa_inv_rowFree : length (pa_rowFree s) = size (block_rows block);
  pa_inv_colFree : length (pa_colFree s) = size (block_cols block);
  pa_inv_pivotRows : length (pa_pivotRows s) = pa_rowPivotCount s
}.

(** What holds of the variables of [compressAcaPlus] between two passes
    through its loop. *)
Record acaPlus_inv (block : ClusterAssemblyFunction T) (s : AcaPlusState T)
  : Prop := {
  pl_inv_aCols : length (pl_aCols s) = pl_k s;
  pl_inv_bCols : length (pl_bCols s) = pl_k s;
  pl_inv_aLen : Forall (fun v => length v = size (block_rows block)) (pl_aCols s);
  pl_inv_bLen : Forall (fun v => length v = size (block_cols block)) (pl_bCols s);
  pl_inv_rowFree : length (pl_rowFree s) = size (block_rows block);
  pl_inv_colFree : length (pl_colFree s) = size (block_cols block);
  pl_inv_aRef : length (pl_aRef s) = size (block_rows block);
  pl_inv_bRef : length (pl_bRef s) = size (block_cols block)
}.

(** The variables of the loop after [t] all-zero rows were fetched. *)
Definition zeroRows (block : ClusterAssemblyFunction T) (t : nat)
    (s : AcaPartialState T) : Prop :=
  pa_rowFree s = replicate t false ++ replicate (size (block_rows block) - t) true /\
  pa_rowPivotCount s = t /\ pa_I s = t /\ pa_J s = 0 /\ pa_k s = 0 /\
  pa_aCols s = [] /\ pa_bCols s = [] /\
  length (pa_colFree s) = size (block_cols block).

End Invariants.

(** ** Zero blocks *)

Section ZeroBlocks.
Context {T : Type} `{Scalar T}.

(** Every element (i, j) of the matrix, i < rows and j < cols, is zero. *)
Definition elementsZero (mat : FullMatrix T) : Prop :=
  forall i j, i < rows mat -> j < cols mat ->
    exists x, get mat i j = Ok x /\ seqb x zero = true.

(** The kernel of the block gives zero for every entry of every row and
    column, and its dense assembly is the zero matrix. *)
Record zeroBlock (block : ClusterAssemblyFunction T) : Prop := {
  zero_getRow : forall i j,
    f_getRow (f block) (block_rows block) (block_cols block) i j = zero;
  zero_getCol : forall j i,
    f_getCol (f block) (block_rows block) (block_cols block) j i = zero;
  zero_assemble :
    (assemble block).2 = Zero (size (block_rows block)) (size (block_cols block))
}.

End ZeroBlocks.

(** ** The running estimate of the squared Frobenius norm, as specified *)

Section NormEstimate.
Context {T : Type} `{Scalar T}.

(** The sum of <a_k, a_l> * <b_k, b_l> over the prior pairs (a_l, b_l). *)
Definition spec_crossSum (a_k b_k : Vector T) (prior : list (Vector T * Vector T)) : T :=
  foldl (fun acc p => sadd acc (smul (dot_c a_k p.1) (dot_c b_k p.2))) zero prior.

(** Following the spec's words:
    |S_k|^2 = |S_(k-1)|^2 + 2 Re(sum over l < k of <a_k, a_l> <b_k, b_l>)
              + |a_k|^2 |b_k|^2,
    the sum over every prior pair (a_l, b_l), l = 0..k-1. *)
Definition spec_normUpdate (previous : double) (a_k b_k : Vector T)
    (prior : list (Vector T * Vector T)) : double :=
  (previous + 2 * real (spec_crossSum a_k b_k prior)
   + real (dot_c a_k a_k) * real (dot_c b_k b_k))%Q.

(** Column [l] of a contiguous matrix, as the vector that the code makes
    of it: [rows] entries at the offset [l * rows]. *)
Definition column (mat : FullMatrix T) (l : nat) : Vector T :=
  take (rows mat) (drop (l * rows mat) (m mat)).

(** The pairs (column l of tmpA, column l of tmpB) for l from 0 to n - 1. *)
Definition columnPairs (tmpA tmpB : FullMatrix T) (n : nat)
  : list (Vector T * Vector T) :=
  map (fun l => (column tmpA l, column tmpB l)) (seq 0 n).

End NormEstimate.

(** ** Blocks, kernels and settings used in the examples *)

(** A kernel that is zero everywhere. *)
Definition zeroKernel {T : Type} `{Scalar T} : Function T :=
  {| prepareBlock _ _ :=
       {| block_type := hmat_block_full;
          is_null_row _ := false; is_null_col _ := false |};
     f_getRow _ _ _ _ := zero;
     f_getCol _ _ _ _ := zero;
     f_assemble rs cs _ := Zero (size rs) (size cs) |}.

Definition zeroBlockOf {T : Type} `{Scalar T} (r c : nat) : ClusterAssemblyFunction T :=
  new_ClusterAssemblyFunction zeroKernel (cluster r) (cluster c).

(** A sparse block whose kernel declares every row and column null. *)
Definition nullRowsKernel {T : Type} `{Scalar T} (M : list (list T)) : Function T :=
  {| prepareBlock _ _ :=
       {| block_type := hmat_block_sparse;
          is_null_row _ := true; is_null_col _ := true |};
     f_getRow := f_getRow (denseKernel M);
     f_getCol := f_getCol (denseKernel M);
     f_assemble := f_assemble (denseKernel M) |}.

(** Modelled from the spec: [findK], "Choose rank k = smallest integer such
    that Sigma[k..] <= epsilon * Sigma[0]" among the first [maxK] singular
    values. *)
Definition findK_spec (approx : RkApproximationControl) (sigma : list double)
    (maxK : nat) (epsilon : double) : nat :=
  let sigma0 := default 0%Q (sigma !! 0) in
  foldl (fun k i =>
           if Qltb (epsilon * sigma0) (default 0%Q (sigma !! i)) then S i else k)
        0 (seq 0 maxK).

Definition identityMatrix (n : nat) : FullMatrix Q :=
  {| m := flat_map (fun j => map (fun i => if Nat.eqb i j then 1%Q else 0%Q) (seq 0 n))
                   (seq 0 n);
     rows := n; cols := n; lda := n |}.

Definition diagonalOf (mat : FullMatrix Q) : list Q :=
  map (fun i => default 0%Q (m mat !! (i + i * lda mat))) (seq 0 (rows mat)).

Fixpoint nonIncreasing (d : list Q) : bool :=
  match d with
  | x :: (y :: _) as rest => Qle_bool y x && nonIncreasing rest
  | _ => true
  end.

(** The block is square, stored contiguously and diagonal, with a diagonal
    of non-negative entries in non-increasing order. *)
Definition isSingularDiagonal (mat : FullMatrix Q) : bool :=
  Nat.eqb (rows mat) (cols mat) && Nat.eqb (lda mat) (rows mat) &&
  forallb (fun j => forallb (fun i =>
             Nat.eqb i j || Qeq_bool (default 0%Q (m mat !! (i + j * lda mat))) 0)
           (seq 0 (rows mat))) (seq 0 (cols mat)) &&
  forallb (Qle_bool 0) (diagonalOf mat) && nonIncreasing (diagonalOf mat).

(** The singular value decomposition of the blocks that are their own
    matrix of singular values: u and vt are the identity and sigma is the
    diagonal.  The routine reports any other block as a failure
    (info = -1). *)
Definition svdDiagonal (mat : FullMatrix Q) : Z * FullMatrix Q * list double * FullMatrix Q :=
  if isSingularDiagonal mat
  then (0%Z, identityMatrix (rows mat), diagonalOf mat, identityMatrix (rows mat))
  else ((-1)%Z, identityMatrix 0, [], identityMatrix 0).

Definition approx1 : RkApproximationControl :=
  {| assemblyEpsilon := 1; approx_k := 0 |}.

Definition approx6_k1 : RkApproximationControl :=
  {| assemblyEpsilon := 1 # 1000000; approx_k := 1 |}.

(** Bounding boxes of clusters whose degree of freedom [i] sits at the
    point (i, 0, 0): the box is the interval from the least to the largest
    index. *)
Definition LineBox : Type := Q * Q.

Definition new_LineBox (d : ClusterData) : LineBox :=
  match indices d with
  | [] => (0%Q, 0%Q)
  | i :: rest =>
      (inject_Z (Z.of_nat (foldl Nat.min i rest)),
       inject_Z (Z.of_nat (foldl Nat.max i rest)))
  end.

Definition LineBox_diameter (box : LineBox) : double := (box.2 - box.1)%Q.

Definition LineBox_distanceTo (box other : LineBox) : double :=
  Qmax 0 (Qmax (other.1 - box.2) (box.1 - other.2)).

Definition node (first count : nat) : ClusterTree LineBox :=
  {| data := {| indices := seq first count |}; admissibilityAlgoData_ := None |}.

Definition hackbusch2 : StandardAdmissibilityCondition :=
  {| eta_ := 2; maxElementsPerBlock := 5000000; maxElementsPerBlockAca_ := 0;
     always_ := false |}.

(** The empty low-rank block that a compression returns with the tag
    [tag]. *)
Definition emptyRk {T : Type} (block : ClusterAssemblyFunction T)
    (tag : CompressionMethod) : RkMatrix T :=
  {| a := None; rk_rows := block_rows block; b := None;
     rk_cols := block_cols block; method := tag |}.

(** The diagonal block (2 0; 0 1), stored contiguously. *)
Definition diag21 : FullMatrix Q :=
  {| m := [2; 0; 0; 1]%Q; rows := 2; cols := 2; lda := 2 |}.

(** The block (2 1; 1 1), stored contiguously. *)
Definition mat2111 : FullMatrix Q :=
  {| m := [2; 1; 1; 1]%Q; rows := 2; cols := 2; lda := 2 |}.

(** A 1 x 2 block of zeros stored with lda = 2: the two padding entries
    are not zero. *)
Definition paddedZeros : FullMatrix Q :=
  {| m := [0; 5; 0; 7]%Q; rows := 1; cols := 2; lda := 2 |}.


(** ** More of FullMatrix<T> and Vector<T> (full_matrix.cpp) *)

(** The product of two C++ [int]s that are not negative (an index of
    column and a leading dimension): a product above INT_MAX is a signed
    overflow, which is undefined behaviour.  The sums of indices of the
    code, such as colOffset + col, stay below a field of the matrix once
    its assertions have passed. *)
Definition int_mul (x y : nat) : Outcome nat :=
  if bool_decide (Z.of_nat (x * y) <= INT_MAX)%Z then Ok (x * y) else Undefined.

Section DenseOps.
Context {T : Type} `{Scalar T}.

(** The members of [FullMatrix<T>] that hold its factorized state; they are
    kept beside the record [FullMatrix] ([None] is the NULL pointer). *)
Record Factorization := {
  pivots : option (list Z);
  diagonal : option (Vector T);
  triUpper_ : bool;
  triLower_ : bool
}.

(** The state of a matrix that has not been factorized. *)
Definition notFactorized : Factorization :=
  {| pivots := None; diagonal := None; triUpper_ := false; triLower_ := false |}.

Definition with_diagonal (fz : Factorization) (d : option (Vector T)) : Factorization :=
  {| pivots := pivots fz; diagonal := d;
     triUpper_ := triUpper_ fz; triLower_ := triLower_ fz |}.

Definition with_tri (fz : Factorization) (upper lower : bool) : Factorization :=
  {| pivots := pivots fz; diagonal := diagonal fz;
     triUpper_ := upper; triLower_ := lower |}.

(** [x - y] on [T], written with the operations of the scalar kit. *)
Definition ssub (x y : T) : T := sadd x (smul mone y).

(** [memset(dst + off, 0, n * sizeof(T))] *)
Definition memset (dst : list T) (off n : nat) : Outcome (list T) :=
  memcpy dst off (replicate n zero).

(** Modelled from the spec: the BLAS [scal] of the "BLAS/LAPACK boundary",
    which src/ reaches through [proxy_cblas]: x[i] = alpha * x[i] for
    i < n, where x is [data + off] and the increment is 1. *)
Definition scal (n : nat) (alpha : T) (data : list T) (off : nat) : Outcome (list T) :=
  x ← view data off n;
  memcpy data off (map (fun xi => smul alpha xi) x).

(** Modelled from the spec: the BLAS [copy] of the "BLAS/LAPACK boundary":
    y[i] = x[i] for i < n, where x is [src + soff], y is [dst + doff] and
    the increments are 1. *)
Definition blas_copy (n : nat) (src : list T) (soff : nat) (dst : list T) (doff : nat)
  : Outcome (list T) :=
  x ← view src soff n;
  memcpy dst doff x.


(** [FullMatrix<T>::clear()] *)
Definition FullMatrix_clear (this : FullMatrix T) (fz : Factorization)
  : Outcome (FullMatrix T * Factorization) :=
  _ ← assert (bool_decide (lda this = rows this));
  data ← memset (m this) 0 (rows this * cols this);
  match diagonal fz with
  | Some d =>
      d' ← memset d 0 (rows this);
      Ok (with_m this data, with_diagonal fz (Some d'))
  | None => Ok (with_m this data, fz)
  end.

(** [const size_t block_size_blas = 1 << 30] *)
Definition block_size_blas : N := N.shiftl 1 30.

(** while (nm > block_size_blas) { scal(block_size_blas, alpha,
    m + nm - block_size_blas, 1); nm -= block_size_blas; }
    scal(nm, alpha, m, 1);
    with [block] for [block_size_blas]; the while loop runs at most [fuel]
    times. *)
Fixpoint scale_blocks (block : N) (fuel : nat) (alpha : T) (data : list T) (nm : N)
  : Outcome (list T) :=
  if (block <? nm)%N then
    match fuel with
    | 0 => OutOfFuel
    | S fuel' =>
        data' ← scal (N.to_nat block) alpha data (N.to_nat (nm - block));
        scale_blocks block fuel' alpha data' (nm - block)%N
    end
  else scal (N.to_nat nm) alpha data 0.

(** for (col = 0; col < cols; col++) { body(x); x += lda; }
    where [body] is [memset(x, 0, sizeof(T) * rows)] or
    [scal(rows, alpha, x, 1)]; [n] columns remain. *)
Fixpoint scale_cols (n : nat) (body : list T -> nat -> Outcome (list T))
    (this : FullMatrix T) (data : list T) (x : nat) : Outcome (list T) :=
  match n with
  | 0 => Ok data
  | S n' =>
      data' ← body data x;
      scale_cols n' body this data' (x + lda this)
  end.

(** [FullMatrix<T>::scale(alpha)], the scaling of the storage [m].  The
    product [rows * cols] of two C++ ints does not wrap in size_t. *)
Definition FullMatrix_scale_m (alpha : T) (this : FullMatrix T) (fz : Factorization)
  : Outcome (FullMatrix T * Factorization) :=
  if bool_decide (lda this = rows this) then
    if seqb alpha zero then FullMatrix_clear this fz
    else
      let nm := N.of_nat (rows this * cols this) in
      data ← scale_blocks block_size_blas (N.to_nat (nm / block_size_blas))
               alpha (m this) nm;
      Ok (with_m this data, fz)
  else
    if seqb alpha zero then
      data ← scale_cols (cols this) (fun data x => memset data x (rows this))
               this (m this) 0;
      Ok (with_m this data, fz)
    else
      data ← scale_cols (cols this) (fun data x => scal (rows this) alpha data x)
               this (m this) 0;
      Ok (with_m this data, fz).

(** [FullMatrix<T>::scale(alpha)] *)
Definition FullMatrix_scale (alpha : T) (this : FullMatrix T) (fz : Factorization)
  : Outcome (FullMatrix T * Factorization) :=
  '(this, fz) ← FullMatrix_scale_m alpha this fz;
  match diagonal fz with
  | Some d =>
      d' ← scal (rows this) alpha d 0;
      Ok (this, with_diagonal fz (Some d'))
  | None => Ok (this, fz)
  end.

(** [copyMatrixAtOffset(a, rowOffset, colOffset)]: the loop over the
    columns of [a], [n] columns remain from [col] on. *)
Fixpoint copyMatrixAtOffset_cols (n col : nat) (a : FullMatrix T) (nrows : nat)
    (rowOffset colOffset : nat) (this : FullMatrix T) : Outcome (FullMatrix T) :=
  match n with
  | 0 => Ok this
  | S n' =>
      (* a->m + col * a->lda and m + rowOffset + ((colOffset + col) * lda):
         the two products are products of ints *)
      soff ← int_mul col (lda a);
      doff ← int_mul (colOffset + col) (lda this);
      data ← blas_copy nrows (m a) soff (m this) (rowOffset + doff);
      copyMatrixAtOffset_cols n' (S col) a nrows rowOffset colOffset (with_m this data)
  end.

Definition copyMatrixAtOffset (this a : FullMatrix T) (rowOffset colOffset : nat)
  : Outcome (FullMatrix T) :=
  _ ← assert (bool_decide (rowOffset + rows a <= rows this));
  _ ← assert (bool_decide (colOffset + cols a <= cols this));
  (* Use memcpy when copying the whole matrix. *)
  if bool_decide (rowOffset = 0) && bool_decide (colOffset = 0)
     && bool_decide (rows a = rows this) && bool_decide (cols a = cols this)
     && bool_decide (lda a = rows a) && bool_decide (lda this = rows this)
  then
    src ← view (m a) 0 (rows this * cols this);
    data ← memcpy (m this) 0 src;
    Ok (with_m this data)
  else copyMatrixAtOffset_cols (cols a) 0 a (rows a) rowOffset colOffset this.


(** [transpose()], the square case: the loop over [row < col] *)
Fixpoint transpose_rows (n row col : nat) (this : FullMatrix T) : Outcome (FullMatrix T) :=
  match n with
  | 0 => Ok this
  | S n' =>
      tmp ← get this row col;
      x ← get this col row;
      this ← put this row col x;
      this ← put this col row tmp;
      transpose_rows n' (S row) col this
  end.

Fixpoint transpose_cols (n col : nat) (this : FullMatrix T) : Outcome (FullMatrix T) :=
  match n with
  | 0 => Ok this
  | S n' =>
      this ← transpose_rows col 0 col this;
      transpose_cols n' (S col) this
  end.

(** [transpose()], the other case: for (j = 0; j < cols; j++)
    get(i, j) = tmp.get(j, i); *)
Fixpoint transpose_fill_j (n i j : nat) (tmp this : FullMatrix T)
  : Outcome (FullMatrix T) :=
  match n with
  | 0 => Ok this
  | S n' =>
      x ← get tmp j i;
      this ← put this i j x;
      transpose_fill_j n' i (S j) tmp this
  end.

Fixpoint transpose_fill_i (n i : nat) (tmp this : FullMatrix T)
  : Outcome (FullMatrix T) :=
  match n with
  | 0 => Ok this
  | S n' =>
      this ← transpose_fill_j (cols this) i 0 tmp this;
      transpose_fill_i n' (S i) tmp this
  end.

(** [FullMatrix<T>::transpose()], compiled without HAVE_MKL_IMATCOPY; the
    storage pointer of the model is never NULL. *)
Definition transpose (this : FullMatrix T) (fz : Factorization)
  : Outcome (FullMatrix T * Factorization) :=
  _ ← assert (bool_decide (lda this = rows this));
  this ←
    (if bool_decide (rows this = cols this) then
       (* "Fast" path *)
       transpose_cols (cols this) 0 this
     else
       tmp ← copyMatrixAtOffset (new_FullMatrix (rows this) (cols this)) this 0 0;
       let this := {| m := m this; rows := cols this; cols := rows this;
                      lda := cols this |} in
       transpose_fill_i (rows this) 0 tmp this);
  Ok (this,
      if triUpper_ fz then with_tri fz false true
      else if triLower_ fz then with_tri fz true false
      else fz).



(** [FullMatrix<T>::normSqr()]: the loop over the columns *)
Fixpoint FullMatrix_normSqr_cols (n col : nat) (this : FullMatrix T) (result : T)
  : Outcome T :=
  match n with
  | 0 => Ok result
  | S n' =>
      (* m + col * lda: a product of ints *)
      off ← int_mul col (lda this);
      x ← view (m this) off (rows this);
      FullMatrix_normSqr_cols n' (S col) this (sadd result (dot_c x x))
  end.

Definition FullMatrix_normSqr (this : FullMatrix T) : Outcome double :=
  let size := rows this * cols this in
  let result := zero in
  (* Fast path *)
  if (N.of_nat size <? 1000000000)%N && bool_decide (lda this = rows this) then
    x ← view (m this) 0 size;
    let result := sadd result (dot_c x x) in
    Ok (real result)
  else
    result ← FullMatrix_normSqr_cols (cols this) 0 this result;
    Ok (real result).





(** ** ldltDecomposition *)

(** for (i = 0; i < j; i++) v[i] = get(j, i) * get(i, i); *)
Fixpoint ldlt_v (n i j : nat) (this : FullMatrix T) (v : list T) : Outcome (list T) :=
  match n with
  | 0 => Ok v
  | S n' =>
      x ← get this j i;
      y ← get this i i;
      v ← wr v i (smul x y);
      ldlt_v n' (S i) j this v
  end.

(** for (i = 0; i < j; i++) v[j] = v[j] - get(j, i) * v[i]; *)
Fixpoint ldlt_vj (n i j : nat) (this : FullMatrix T) (v : list T) : Outcome (list T) :=
  match n with
  | 0 => Ok v
  | S n' =>
      vj ← rd v j;
      x ← get this j i;
      vi ← rd v i;
      v ← wr v j (ssub vj (smul x vi));
      ldlt_vj n' (S i) j this v
  end.

(** for (k = j + 1; k < n; k++) get(k, j) -= get(k, i) * v[i]; *)
Fixpoint ldlt_update_k (n k i j : nat) (v : list T) (this : FullMatrix T)
  : Outcome (FullMatrix T) :=
  match n with
  | 0 => Ok this
  | S n' =>
      x ← get this k j;
      y ← get this k i;
      vi ← rd v i;
      this ← put this k j (ssub x (smul y vi));
      ldlt_update_k n' (S k) i j v this
  end.

Fixpoint ldlt_update_i (n i j size : nat) (v : list T) (this : FullMatrix T)
  : Outcome (FullMatrix T) :=
  match n with
  | 0 => Ok this
  | S n' =>
      this ← ldlt_update_k (size - (j + 1)) (j + 1) i j v this;
      ldlt_update_i n' (S i) j size v this
  end.

(** for (k = j + 1; k < n; k++) { HMAT_ASSERT_MSG(v[j] != zero, ...);
    get(k, j) /= v[j]; } *)
Fixpoint ldlt_divide (n k j : nat) (v : list T) (this : FullMatrix T)
  : Outcome (FullMatrix T) :=
  match n with
  | 0 => Ok this
  | S n' =>
      vj ← rd v j;
      _ ← assert (negb (seqb vj zero));
      x ← get this k j;
      this ← put this k j (sdiv x vj);
      ldlt_divide n' (S k) j v this
  end.

(** One pass through the body of the loop over [j]. *)
Definition ldlt_column (size j : nat) (this : FullMatrix T) (v : list T)
  : Outcome (FullMatrix T * list T) :=
  v ← ldlt_v j 0 j this v;
  x ← get this j j;
  v ← wr v j x;
  v ← ldlt_vj j 0 j this v;
  vj ← rd v j;
  this ← put this j j vj;
  this ← ldlt_update_i j 0 j size v this;
  this ← ldlt_divide (size - (j + 1)) (j + 1) j v this;
  Ok (this, v).

Fixpoint ldlt_columns (n j size : nat) (this : FullMatrix T) (v : list T)
  : Outcome (FullMatrix T * list T) :=
  match n with
  | 0 => Ok (this, v)
  | S n' =>
      '(this, v) ← ldlt_column size j this v;
      ldlt_columns n' (S j) size this v
  end.

(** for (j = i + 1; j < n; j++) get(i, j) = zero; *)
Fixpoint ldlt_upper (n i j : nat) (this : FullMatrix T) : Outcome (FullMatrix T) :=
  match n with
  | 0 => Ok this
  | S n' =>
      this ← put this i j zero;
      ldlt_upper n' i (S j) this
  end.

(** for (i = 0; i < n; i++) { diagonal->v[i] = get(i, i); get(i, i) = pone;
    for (j = i + 1; j < n; j++) get(i, j) = zero; } *)
Fixpoint ldlt_diagonal (n i size : nat) (this : FullMatrix T) (diag : Vector T)
  : Outcome (FullMatrix T * Vector T) :=
  match n with
  | 0 => Ok (this, diag)
  | S n' =>
      x ← get this i i;
      diag ← wr diag i x;
      this ← put this i i pone;
      this ← ldlt_upper (size - (i + 1)) i (i + 1) this;
      ldlt_diagonal n' (S i) size this diag
  end.

(** [FullMatrix<T>::ldltDecomposition()].  The auxiliary array [v] is
    allocated without a value; every entry is written before it is read, and
    the model starts it with zeros. *)
Definition ldltDecomposition (this : FullMatrix T) (fz : Factorization)
  : Outcome (FullMatrix T * Factorization) :=
  (* Void matrix *)
  if bool_decide (rows this = 0) || bool_decide (cols this = 0) then Ok (this, fz)
  else
    let n := rows this in
    let diag := new_Vector n in
    _ ← assert (bool_decide (rows this = cols this));
    let v := replicate n zero in
    '(this, v) ← ldlt_columns n 0 n this v;
    '(this, diag) ← ldlt_diagonal n 0 n this diag;
    let fz := {| pivots := pivots fz; diagonal := Some diag;
                 triUpper_ := triUpper_ fz; triLower_ := true |} in
    _ ← assert (negb (triUpper_ fz));
    Ok (this, fz).

(** ** More of Vector<T> *)

(** [this->addToMe(x)] *)
Definition addToMe (x : Vector T) (this : Vector T) : Outcome (Vector T) :=
  _ ← assert (bool_decide (length this = length x));
  axpy pone x this.

(** [this->subToMe(x)] *)
Definition subToMe (x : Vector T) (this : Vector T) : Outcome (Vector T) :=
  _ ← assert (bool_decide (length this = length x));
  axpy mone x this.

End DenseOps.

Arguments Factorization T : clear implicits.

(** The storage of a matrix holds its [cols] columns of [lda] elements,
    and [rows <= lda]. *)
Definition allocated {T : Type} (a : FullMatrix T) : Prop :=
  rows a <= lda a /\ lda a * cols a <= length (m a).

(** [a(i, j)] is [x]. *)
Definition element {T : Type} (a : FullMatrix T) (i j : nat) (x : T) : Prop :=
  m a !! (i + j * lda a) = Some x.

(** The storage of [this] is that of a matrix of [r] rows, [c] columns and
    leading dimension [r] whose element (i, j) is the element of the
    storage [m0] at the offset [src i j], and the entries past these
    elements are those of [m0]. *)
Definition storedAs {T : Type} (r c : nat) (m0 : list T) (src : nat -> nat -> nat)
    (this : FullMatrix T) : Prop :=
  rows this = r /\ cols this = c /\ lda this = r /\
  length (m this) = length m0 /\
  (forall i j, i < r -> j < c -> m this !! (i + j * r) = m0 !! src i j) /\
  (forall off, r * c <= off -> m this !! off = m0 !! off).

(** The [n] entries of [data'] from the offset [off] on are [g] of those
    of [data], and the other entries are those of [data]. *)
Definition maps_range {T : Type} (g : T -> T) (n off : nat) (data data' : list T) : Prop :=
  length data' = length data /\
  (forall i, i < n -> data' !! (off + i) = g <$> data !! (off + i)) /\
  (forall o, o < off \/ off + n <= o -> data' !! o = data !! o).

(** [a(i, j)] as a value: the entry of the storage at the offset
    i + j * lda, zero outside the storage. *)
Definition elt {T : Type} `{Scalar T} (a : FullMatrix T) (i j : nat) : T :=
  default zero (m a !! (i + j * lda a)).

(** The recurrence of the LDLt factorization, as the comment of
    [ldltDecomposition] gives it: the value [x] minus the terms
    L(k, i) * (L(c, i) * d[i]) for i = 0, ..., c - 1, subtracted one after
    the other in this order. *)
Definition ldlt_residual {T : Type} `{Scalar T} (L : FullMatrix T) (d : list T)
    (x : T) (k c : nat) : T :=
  foldl (fun acc i =>
           ssub acc (smul (elt L k i) (smul (elt L c i) (default zero (d !! i)))))
        x (seq 0 c).

(** The same value read from the storage [S] of [ldltDecomposition]
    before the diagonal is extracted, when S(i, i) holds d[i]. *)
Definition ldlt_inplace_residual {T : Type} `{Scalar T} (S : FullMatrix T)
    (x : T) (k c : nat) : T :=
  foldl (fun acc i => ssub acc (smul (elt S k i) (smul (elt S c i) (elt S i i))))
        x (seq 0 c).

(** The invariant of the loop over the columns of [ldltDecomposition] on
    a matrix [this0] of order [size], when the columns before [j] are done:
    these columns hold the pivots and the multipliers that the recurrence
    gives from the lower triangle of [this0], the pivots before the last
    column are not zero, and the rest of the storage is that of [this0]. *)
Definition ldlt_inv {T : Type} `{Scalar T} (size : nat) (this0 : FullMatrix T)
    (j : nat) (S : FullMatrix T) : Prop :=
  rows S = rows this0 /\ cols S = cols this0 /\ lda S = lda this0 /\
  length (m S) = length (m this0) /\
  (forall k c, k < lda this0 -> j <= c \/ k < c \/ size <= k ->
     elt S k c = elt this0 k c) /\
  (forall c, c < j -> c < size ->
     elt S c c = ldlt_inplace_residual S (elt this0 c c) c c) /\
  (forall k c, c < j -> c < k < size ->
     elt S k c = sdiv (ldlt_inplace_residual S (elt this0 k c) k c) (elt S c c)) /\
  (forall c, c < j -> c + 1 < size -> seqb (elt S c c) zero = false).

(** The run ends by returning a result or by a failed assertion: it makes
    no access outside an array. *)
Definition returnsOrAborts {A : Type} (c : Outcome A) : Prop :=
  c = Fatal \/ exists x, c = Ok x.

(** Element (i', j') comes before element (i, j) in the order of the
    storage, column after column. *)
Definition before (i' j' i j : nat) : Prop := j' < j \/ (j' = j /\ i' < i).

(** The invariant of the loops of [findMax] when the elements before
    (row, col) have been visited: [best] is an element of the matrix with
    its squared modulus, no visited element has a larger one, and the
    elements before [best] have a smaller one. *)
Definition findMax_inv {T : Type} `{Scalar T} (mat : FullMatrix T) (row col : nat)
    (best : nat * nat * double) : Prop :=
  let '(bi, bj, bn) := best in
  bi < rows mat /\ bj < cols mat /\ bn = squaredNorm (elt mat bi bj) /\
  (forall i' j', i' < rows mat -> j' < cols mat -> before i' j' row col ->
     (squaredNorm (elt mat i' j') <= bn)%Q) /\
  (forall i' j', i' < rows mat -> j' < cols mat -> before i' j' bi bj ->
     (squaredNorm (elt mat i' j') < bn)%Q).

(** The invariant of the for loop of [findMinRow] and [findMinCol] when the
    indices below [i] have been visited: no free index visited has a
    squared modulus in [ref] below [minNorm2], and [best], when it is not
    -1, is a free index whose squared modulus is [minNorm2], below DBL_MAX. *)
Definition argmin_inv {T : Type} `{Scalar T} (free : list bool) (ref : list T)
    (i : nat) (minNorm2 : double) (best : option nat) : Prop :=
  (forall k y, k < i -> free !! k = Some true -> ref !! k = Some y ->
     (minNorm2 <= squaredNorm y)%Q) /\
  match best with
  | None => minNorm2 = DBL_MAX
  | Some b =>
      free !! b = Some true /\
      exists x, ref !! b = Some x /\ minNorm2 = squaredNorm x /\
                (squaredNorm x < DBL_MAX)%Q
  end.

(** What [findMinRow] and [findMinCol] return: the index [r] when it is
    not -1 was free in [free] and is marked used in [free'], its squared
    modulus in [ref] is below DBL_MAX and is the least among the indices
    that [free'] leaves free; when [r] is -1 no index that [free'] leaves
    free has a squared modulus below DBL_MAX.  The marks only go from free
    to used. *)
Definition minFree {T : Type} `{Scalar T} (free free' : list bool) (ref : list T)
    (r : option nat) : Prop :=
  length free' = length free /\
  (forall k, free' !! k = Some true -> free !! k = Some true) /\
  match r with
  | Some i =>
      free !! i = Some true /\ free' !! i = Some false /\
      exists x, ref !! i = Some x /\ (squaredNorm x < DBL_MAX)%Q /\
        forall k y, k < length ref -> free' !! k = Some true -> ref !! k = Some y ->
          (squaredNorm x <= squaredNorm y)%Q
  | None =>
      forall k y, k < length ref -> free' !! k = Some true -> ref !! k = Some y ->
        (DBL_MAX <= squaredNorm y)%Q
  end.

(** A block whose first column is zero. *)
Definition zeroFirstColumn : ClusterAssemblyFunction Q :=
  denseBlock [[0; 1]; [0; 1]]%Q 2 2.

(** The running estimate of the squared norm after the pairs [rest] have
    been accepted one after the other on top of the pairs [prior], from the
    estimate [acc]: each pair updates it as [spec_normUpdate] says, with
    the cross terms of every pair accepted before it. *)
Fixpoint spec_estimate_from {T : Type} `{Scalar T}
    (prior rest : list (Vector T * Vector T)) (acc : double) : double :=
  match rest with
  | [] => acc
  | p :: rest' =>
      spec_estimate_from (prior ++ [p]) rest' (spec_normUpdate acc p.1 p.2 prior)
  end.

Definition spec_estimate {T : Type} `{Scalar T} (pairs : list (Vector T * Vector T))
  : double :=
  spec_estimate_from [] pairs 0%Q.

(** The elements of column [j] of a matrix, from row 0 to the last row. *)
Definition column_elements {T : Type} `{Scalar T} (a : FullMatrix T) (j : nat)
  : list T :=
  map (fun i => elt a i j) (seq 0 (rows a)).

(** The squared norm as the loop of [normSqr] accumulates it: the
    conjugated dot product of each column with itself is added to the
    running sum, column after column, and the real part is taken at the
    end. *)
Definition normSqr_by_columns {T : Type} `{Scalar T} (a : FullMatrix T) : double :=
  real (foldl (fun acc j => sadd acc (dot_c (column_elements a j) (column_elements a j)))
              zero (seq 0 (cols a))).

(** The squared norm as the fast path of [normSqr] computes it: one
    conjugated dot product of all the elements, column after column, with
    themselves. *)
Definition normSqr_at_once {T : Type} `{Scalar T} (a : FullMatrix T) : double :=
  let x := concat (map (column_elements a) (seq 0 (cols a))) in
  real (sadd zero (dot_c x x)).

(** The offsets col * lda of the columns col < n of [a] are within the
    range of int; the largest one is (n - 1) * lda. *)
Definition int_strides {T : Type} (a : FullMatrix T) (n : nat) : Prop :=
  (Z.of_nat ((n - 1) * lda a) <= INT_MAX)%Z.

(** The 2 x 3 block (1 3 5; 2 4 6), stored contiguously. *)
Definition mat23 : FullMatrix Q :=
  {| m := [1; 2; 3; 4; 5; 6]%Q; rows := 2; cols := 3; lda := 2 |}.

(** The 2 x 2 block (1 3; 2 4) stored with lda = 3: the entries 8 and 9
    are padding. *)
Definition padded22 : FullMatrix Q :=
  {| m := [1; 2; 8; 3; 4; 9]%Q; rows := 2; cols := 2; lda := 3 |}.

(** The symmetric 3 x 3 block (4 2 2; 2 3 1; 2 1 5), of which the lower
    triangle is stored; the entries above the diagonal hold 9. *)
Definition sym3 : FullMatrix Q :=
  {| m := [4; 2; 2; 9; 3; 1; 9; 9; 5]%Q; rows := 3; cols := 3; lda := 3 |}.

(** The factors of [sym3]: L = (1 0 0; 1/2 1 0; 1/2 0 1), stored with its
    unit diagonal and zeros above it, and D = diag(4, 2, 4). *)
Definition sym3_L : FullMatrix Q :=
  {| m := [1; 1 # 2; 1 # 2; 0; 1; 0; 0; 0; 1]%Q; rows := 3; cols := 3; lda := 3 |}.

Definition sym3_D : Factorization Q :=
  {| pivots := None; diagonal := Some [4; 2; 4]%Q;
     triUpper_ := false; triLower_ := true |}.

(** The symmetric block (0 1; 1 0), whose first pivot is zero. *)
Definition antidiag2 : FullMatrix Q :=
  {| m := [0; 1; 1; 0]%Q; rows := 2; cols := 2; lda := 2 |}.

(** The 1 x 1 block (0). *)
Definition zero11 : FullMatrix Q :=
  {| m := [0]%Q; rows := 1; cols := 1; lda := 1 |}.

(** * Properties *)

(** ** Reasoning about outcomes *)

Lemma bind_Ok {A B : Type} (mA : Outcome A) (k : A -> Outcome B) (y : B) :
  mA ≫= k = Ok y -> exists x, mA = Ok x /\ k x = Ok y.
Proof. destruct mA; simpl; intros Hk; try discriminate. eauto. Qed.

Lemma assert_Ok (c : bool) (u : unit) : assert c = Ok u -> c = true.
Proof. destruct c; [reflexivity | discriminate]. Qed.

Lemma rd_Ok {A : Type} (v : list A) (i : nat) (x : A) :
  rd v i = Ok x -> v !! i = Some x.
Proof. unfold rd. destruct (v !! i); congruence. Qed.

Lemma rd_lt {A : Type} (v : list A) (i : nat) (x : A) :
  rd v i = Ok x -> i < length v.
Proof. intros Hr%rd_Ok. by eapply lookup_lt_Some. Qed.

Lemma rd_lookup {A : Type} (v : list A) (i : nat) (x : A) :
  v !! i = Some x -> rd v i = Ok x.
Proof. unfold rd. by intros ->. Qed.

Lemma wr_Ok {A : Type} (v : list A) (i : nat) (x : A) (v' : list A) :
  wr v i x = Ok v' -> i < length v /\ v' = <[i:=x]> v.
Proof. unfold wr. case_bool_decide; [|discriminate]. intros [= <-]. done. Qed.

Lemma wr_length {A : Type} (v : list A) (i : nat) (x : A) (v' : list A) :
  wr v i x = Ok v' -> length v' = length v.
Proof. intros [_ ->]%wr_Ok. apply length_insert. Qed.

Lemma view_Ok {A : Type} (st : list A) (off len : nat) (v : list A) :
  view st off len = Ok v -> off + len <= length st /\ v = take len (drop off st).
Proof. unfold view. case_bool_decide; [|discriminate]. intros [= <-]. done. Qed.

Lemma view_length {A : Type} (st : list A) (off len : nat) (v : list A) :
  view st off len = Ok v -> length v = len.
Proof.
  intros [Hle ->]%view_Ok. rewrite length_take, length_drop. lia.
Qed.

Lemma memcpy_Ok {A : Type} (dst : list A) (off : nat) (src dst' : list A) :
  memcpy dst off src = Ok dst' ->
  off + length src <= length dst /\
  dst' = take off dst ++ src ++ drop (off + length src) dst.
Proof. unfold memcpy. case_bool_decide; [|discriminate]. intros [= <-]. done. Qed.

Lemma memcpy_length {A : Type} (dst : list A) (off : nat) (src dst' : list A) :
  memcpy dst off src = Ok dst' -> length dst' = length dst.
Proof.
  intros [Hle ->]%memcpy_Ok.
  rewrite !length_app, length_take, length_drop. lia.
Qed.

(** Splits a hypothesis [c = Ok x] along the binds, asserts and accesses of
    [c]. *)
Ltac inv_Ok H :=
  let x := fresh "x" in
  let Hx := fresh "Hx" in
  match type of H with
  | mbind _ _ = Ok _ =>
      apply bind_Ok in H; destruct H as (x & Hx & H); inv_Ok Hx; inv_Ok H
  | assert _ = Ok _ => apply assert_Ok in H
  | Ok _ = Ok _ => inversion H; subst; clear H
  | _ => idtac
  end.

Section DenseFacts.
Context {T : Type} `{Scalar T}.

Lemma axpy_length (alpha : T) (x this r : Vector T) :
  axpy alpha x this = Ok r -> length r = length this /\ length x = length this.
Proof.
  unfold axpy. intros Ha. inv_Ok Ha.
  apply bool_decide_eq_true in Hx.
  rewrite length_zip_with. lia.
Qed.

Lemma scale_length (alpha : T) (v : Vector T) : length (scale alpha v) = length v.
Proof.
  unfold scale, clear. destruct (seqb alpha zero).
  - apply length_replicate.
  - apply length_map.
Qed.

Lemma clear_length (v : Vector T) : length (clear v) = length v.
Proof. apply length_replicate. Qed.

Lemma new_Vector_length (n : nat) : length (new_Vector (T:=T) n) = n.
Proof. apply length_replicate. Qed.

Lemma fill_length (g : nat -> T) (v : Vector T) : length (fill g v) = length v.
Proof. apply length_imap. Qed.

Lemma getRow_length (block : ClusterAssemblyFunction T) (i : nat) (v : Vector T) :
  length (getRow block i v).2 = length v.
Proof. unfold getRow. case_match; simpl; [apply fill_length | done]. Qed.

Lemma getCol_length (block : ClusterAssemblyFunction T) (j : nat) (v : Vector T) :
  length (getCol block j v).2 = length v.
Proof. unfold getCol. case_match; simpl; [apply fill_length | done]. Qed.

Lemma updateRow_loop_length (n l : nat) (rowVec : Vector T) (row : nat)
    (rows_ cols_ : list (Vector T)) (r : Vector T) :
  updateRow_loop n l rowVec row rows_ cols_ = Ok r -> length r = length rowVec.
Proof.
  revert l rowVec. induction n as [|n IH]; intros l rowVec; simpl.
  - by intros [= <-].
  - intros Hu. inv_Ok Hu.
    apply IH in Hu. apply axpy_length in Hx2 as [Hl _]. congruence.
Qed.

Lemma updateRow_length (rowVec : Vector T) (row : nat)
    (rows_ cols_ : list (Vector T)) (k : nat) (r : Vector T) :
  updateRow rowVec row rows_ cols_ k = Ok r -> length r = length rowVec.
Proof. apply updateRow_loop_length. Qed.

Lemma updateCol_length (colVec : Vector T) (col : nat)
    (cols_ rows_ : list (Vector T)) (k : nat) (r : Vector T) :
  updateCol colVec col cols_ rows_ k = Ok r -> length r = length colVec.
Proof. apply updateRow_loop_length. Qed.

(** [copyCols] keeps the shape of the destination and the size of its
    storage. *)
Lemma copyCols_shape (n i : nat) (dst : FullMatrix T) (vs : list (Vector T))
    (r : FullMatrix T) :
  copyCols n i dst vs = Ok r ->
  rows r = rows dst /\ cols r = cols dst /\ lda r = lda dst /\
  length (m r) = length (m dst).
Proof.
  revert i dst. induction n as [|n IH]; intros i dst; simpl.
  - by intros [= <-].
  - intros Hc. inv_Ok Hc.
    apply IH in Hc as (-> & -> & -> & ->). simpl.
    apply memcpy_length in Hx1. done.
Qed.

End DenseFacts.

(** ** The loops of the model end within their bounds *)

Lemma terminates_bind {A B : Type} (c : Outcome A) (k : A -> Outcome B) :
  terminates c -> (forall x, c = Ok x -> terminates (k x)) -> terminates (c ≫= k).
Proof.
  unfold terminates. destruct c; simpl; intros Hc Hk; try done. by apply Hk.
Qed.

Lemma terminates_Ok {A : Type} (x : A) : terminates (Ok x).
Proof. done. Qed.

Lemma terminates_Fatal {A : Type} : terminates (@Fatal A).
Proof. done. Qed.

Lemma terminates_Undefined {A : Type} : terminates (@Undefined A).
Proof. done. Qed.

Lemma terminates_assert (c : bool) : terminates (assert c).
Proof. by destruct c. Qed.

Lemma terminates_rd {A : Type} (v : list A) (i : nat) : terminates (rd v i).
Proof. unfold rd. by destruct (v !! i). Qed.

Lemma terminates_rd_int {A : Type} (v : list A) (i : option nat) :
  terminates (rd_int v i).
Proof. destruct i; [apply terminates_rd | done]. Qed.

Lemma terminates_wr {A : Type} (v : list A) (i : nat) (x : A) : terminates (wr v i x).
Proof. unfold wr. by case_bool_decide. Qed.

Lemma terminates_view {A : Type} (st : list A) (off len : nat) :
  terminates (view st off len).
Proof. unfold view. by case_bool_decide. Qed.

Lemma terminates_memcpy {A : Type} (dst : list A) (off : nat) (src : list A) :
  terminates (memcpy dst off src).
Proof. unfold memcpy. by case_bool_decide. Qed.

Create HintDb terminates.
#[export] Hint Resolve terminates_Ok terminates_Fatal terminates_Undefined terminates_assert terminates_rd terminates_rd_int
  terminates_wr terminates_view terminates_memcpy : terminates.

(** Reduces the termination of a sequence of binds to that of its steps. *)
Ltac terminates_tac :=
  repeat first
    [ solve [auto with terminates]
    | apply terminates_bind; [ | intros ? ? ]
    | match goal with
      | |- terminates (if ?c then _ else _) => destruct c
      | |- terminates (match ?c with _ => _ end) => destruct c
      end ].

Section TerminationFacts.
Context {T : Type} `{Scalar T}.

Lemma terminates_axpy (alpha : T) (x this : Vector T) : terminates (axpy alpha x this).
Proof. unfold axpy. terminates_tac. Qed.

Lemma terminates_dot (x y : Vector T) : terminates (dot x y).
Proof. unfold dot. terminates_tac. Qed.

Hint Resolve terminates_axpy terminates_dot : terminates.

Lemma terminates_normSqr (v : Vector T) : terminates (normSqr v).
Proof. unfold normSqr. terminates_tac. Qed.

Lemma terminates_isZero (v : Vector T) : terminates (isZero v).
Proof. unfold isZero. terminates_tac. Qed.

Hint Resolve terminates_normSqr terminates_isZero : terminates.

Lemma terminates_updateRow_loop (n l : nat) (rowVec : Vector T) (row : nat)
    (rows_ cols_ : list (Vector T)) :
  terminates (updateRow_loop n l rowVec row rows_ cols_).
Proof.
  revert l rowVec. induction n as [|n IH]; intros l rowVec; simpl; terminates_tac.
Qed.

Lemma terminates_updateRow (rowVec : Vector T) (row : nat)
    (rows_ cols_ : list (Vector T)) (k : nat) :
  terminates (updateRow rowVec row rows_ cols_ k).
Proof. apply terminates_updateRow_loop. Qed.

Lemma terminates_updateCol (colVec : Vector T) (col : nat)
    (cols_ rows_ : list (Vector T)) (k : nat) :
  terminates (updateCol colVec col cols_ rows_ k).
Proof. apply terminates_updateRow_loop. Qed.

Lemma terminates_crossTerms (n l : nat) (aVec bVec : Vector T)
    (aCols bCols : list (Vector T)) (e : double) :
  terminates (crossTerms n l aVec bVec aCols bCols e).
Proof.
  revert l e. induction n as [|n IH]; intros l e; simpl; terminates_tac.
Qed.

Lemma terminates_argmaxFree (n j : nat) (free : list bool) (v : Vector T)
    (maxNorm2 : double) (best : nat) :
  terminates (argmaxFree n j free v maxNorm2 best).
Proof.
  revert j maxNorm2 best. induction n as [|n IH]; intros j mx best; simpl;
    terminates_tac.
Qed.

Lemma terminates_nextFree (rowFree : list bool) (I : nat) :
  terminates (nextFree rowFree I).
Proof.
  revert I. induction rowFree as [|fr rest IH]; intros I; simpl; terminates_tac.
Qed.

Lemma terminates_copyCols (n i : nat) (dst : FullMatrix T) (vs : list (Vector T)) :
  terminates (copyCols n i dst vs).
Proof.
  revert i dst. induction n as [|n IH]; intros i dst; simpl; terminates_tac.
Qed.

End TerminationFacts.

#[export] Hint Resolve terminates_axpy terminates_dot terminates_normSqr
  terminates_isZero terminates_updateRow_loop terminates_updateRow
  terminates_updateCol terminates_crossTerms terminates_argmaxFree
  terminates_nextFree terminates_copyCols : terminates.

(** ** compressAcaPartial: the invariant of the loop, rank and shapes *)
Section AcaPartialFacts.
Context {T : Type} `{Scalar T}.

Lemma acaPartial_body_step (block : ClusterAssemblyFunction T) (epsilon : double)
    (s s' : AcaPartialState T) (brk : bool) :
  acaPartial_body block epsilon s = Ok (brk, s') ->
  pa_rowPivotCount s' = S (pa_rowPivotCount s) /\
  length (pa_rowFree s') = length (pa_rowFree s) /\
  length (pa_colFree s') = length (pa_colFree s) /\
  0 < length (pa_rowFree s) /\
  0 < size (block_cols block) /\
  pa_pivotRows s' = pa_pivotRows s ++ [pa_I s] /\
  ((brk = false /\ pa_k s' = pa_k s /\ pa_aCols s' = pa_aCols s /\
    pa_bCols s' = pa_bCols s /\
    pa_estimateSquaredNorm s' = pa_estimateSquaredNorm s) \/
   (pa_k s' = S (pa_k s) /\
    exists aCol bCol : Vector T,
      pa_aCols s' = pa_aCols s ++ [aCol] /\ pa_bCols s' = pa_bCols s ++ [bCol] /\
      length aCol = size (block_rows block) /\
      length bCol = size (block_cols block))).
Proof.
  unfold acaPartial_body. intros Hb. inv_Ok Hb.
  apply updateRow_length in Hx. rewrite getRow_length, new_Vector_length in Hx.
  apply wr_Ok in Hx0 as [HI ->].
  pose proof (rd_lt _ _ _ Hx2) as HJ.
  destruct (seqb x2 zero); inv_Ok Hb; simpl.
  - rewrite length_insert. repeat split; try lia. left. done.
  - apply wr_Ok in Hx3 as [? ->]. rewrite !length_insert.
    apply updateCol_length in Hx0. rewrite getCol_length, new_Vector_length in Hx0.
    repeat split; try lia. right. split; [done|].
    eexists _, _. repeat split; [done|]. by rewrite scale_length.
Qed.

Lemma terminates_acaPartial_body (block : ClusterAssemblyFunction T)
    (epsilon : double) (s : AcaPartialState T) :
  terminates (acaPartial_body block epsilon s).
Proof. unfold acaPartial_body. terminates_tac. Qed.

Lemma acaPartial_init_inv (block : ClusterAssemblyFunction T) :
  acaPartial_inv block
    (acaPartial_init (size (block_rows block)) (size (block_cols block))).
Proof.
  split; simpl; try done; try apply length_replicate.
Qed.

Lemma acaPartial_body_inv (block : ClusterAssemblyFunction T) (epsilon : double)
    (s s' : AcaPartialState T) (brk : bool) :
  acaPartial_body block epsilon s = Ok (brk, s') ->
  acaPartial_inv block s -> acaPartial_inv block s'.
Proof.
  intros (Hc & Hr & Hcf & _ & _ & Hp & Hk)%acaPartial_body_step [].
  destruct Hk as [(_ & Hk & Ha & Hb & _) | (Hk & aCol & bCol & Ha & Hb & Hla & Hlb)].
  - split; try congruence; try lia.
    rewrite Hp, length_app; simpl; lia.
  - split; try congruence; try lia.
    + rewrite Ha, length_app; simpl; lia.
    + rewrite Hb, length_app; simpl; lia.
    + rewrite Ha. apply Forall_app; split; [done|]. by constructor.
    + rewrite Hb. apply Forall_app; split; [done|]. by constructor.
    + rewrite Hp, length_app; simpl; lia.
Qed.

Lemma acaPartial_loop_inv (fuel : nat) (block : ClusterAssemblyFunction T)
    (epsilon : double) (maxK : nat) (s s' : AcaPartialState T) :
  acaPartial_loop fuel block epsilon maxK s = Ok s' ->
  acaPartial_inv block s ->
  acaPartial_inv block s' /\
  0 < size (block_rows block) /\ 0 < size (block_cols block) /\
  pa_rowPivotCount s' <= max (S (pa_rowPivotCount s)) maxK.
Proof.
  revert s. induction fuel as [|fuel IH]; intros s; simpl; [discriminate|].
  intros Hl Hinv. inv_Ok Hl. destruct x as [brk s1].
  pose proof (acaPartial_body_inv _ _ _ _ _ Hx Hinv) as Hinv1.
  pose proof (acaPartial_body_step _ _ _ _ _ Hx) as (Hc & _ & _ & Hr & Hcl & _).
  rewrite (pa_inv_rowFree _ _ Hinv) in Hr.
  destruct brk.
  - inv_Ok Hl. split; [done|]. split; [done|]. split; [done|]. lia.
  - case_bool_decide.
    + apply IH in Hl as (? & ? & ? & ?); [|done].
      split; [done|]. split; [done|]. split; [done|]. lia.
    + inv_Ok Hl. split; [done|]. split; [done|]. split; [done|]. lia.
Qed.

Lemma acaPartial_loop_fuel (fuel : nat) (block : ClusterAssemblyFunction T)
    (epsilon : double) (maxK : nat) (s : AcaPartialState T) :
  0 < fuel -> maxK < fuel + pa_rowPivotCount s ->
  terminates (acaPartial_loop fuel block epsilon maxK s).
Proof.
  revert s. induction fuel as [|fuel IH]; intros s Hf Hm; [lia|]. simpl.
  apply terminates_bind; [apply terminates_acaPartial_body|].
  intros [brk s1] Hb. destruct brk; [done|].
  case_bool_decide; [|done].
  apply acaPartial_body_step in Hb as (Hc & _).
  apply IH; lia.
Qed.

Lemma acaPartial_run_fuel (approx : RkApproximationControl)
    (block : ClusterAssemblyFunction T) :
  terminates (acaPartial_run approx block).
Proof. apply acaPartial_loop_fuel; simpl; lia. Qed.

Lemma acaPartial_run_inv (approx : RkApproximationControl)
    (block : ClusterAssemblyFunction T) (s : AcaPartialState T) :
  acaPartial_run approx block = Ok s ->
  acaPartial_inv block s /\
  pa_k s <= min (size (block_rows block)) (size (block_cols block)).
Proof.
  intros Hr. apply acaPartial_loop_inv in Hr as (Hinv & Hrows & Hcols & Hc);
    [|apply acaPartial_init_inv].
  split; [done|]. pose proof (pa_inv_k _ _ Hinv). simpl in Hc. lia.
Qed.

Lemma compressAcaPartial_shape (approx : RkApproximationControl)
    (block : ClusterAssemblyFunction T) (rk : RkMatrix T) :
  compressAcaPartial approx block = Ok rk ->
  method rk = AcaPartial /\
  rank rk <= min (size (block_rows block)) (size (block_cols block)) /\
  forall A B : FullMatrix T, a rk = Some A -> b rk = Some B ->
    rows A = size (block_rows block) /\ rows B = size (block_cols block) /\
    cols A = cols B /\ cols A = rank rk /\ 0 < rank rk /\
    length (m A) = rows A * cols A /\ length (m B) = rows B * cols B.
Proof.
  unfold compressAcaPartial. intros Hc. inv_Ok Hc.
  apply acaPartial_run_inv in Hx as [Hinv Hk].
  case_bool_decide as Hk0; inv_Ok Hc; unfold rank; simpl.
  - apply copyCols_shape in Hx as (Hr & Hcs & _ & Hl).
    apply copyCols_shape in Hx0 as (Hr0 & Hcs0 & _ & Hl0).
    simpl in *. rewrite length_replicate in Hl, Hl0.
    split; [done|]. split; [lia|].
    intros A B [= <-] [= <-]. repeat split; try congruence; lia.
  - split; [done|]. split; [lia|]. intros A B [=].
Qed.

End AcaPartialFacts.
(** ** compressAcaFull: rank and shapes *)
Section AcaFullFacts.
Context {T : Type} `{Scalar T}.

Lemma put_shape (mat : FullMatrix T) (i j : nat) (x : T) (r : FullMatrix T) :
  put mat i j x = Ok r ->
  rows r = rows mat /\ cols r = cols mat /\ lda r = lda mat /\
  length (m r) = length (m mat).
Proof.
  unfold put. intros Hp. inv_Ok Hp. simpl. apply wr_length in Hx. done.
Qed.

Lemma fillB_shape (n j : nat) (mat : FullMatrix T) (i_nu nu : nat) (delta : T)
    (tmpB r : FullMatrix T) :
  fillB n j mat i_nu nu delta tmpB = Ok r ->
  rows r = rows tmpB /\ cols r = cols tmpB /\ lda r = lda tmpB /\
  length (m r) = length (m tmpB).
Proof.
  revert j tmpB. induction n as [|n IH]; intros j tmpB; simpl.
  - by intros [= <-].
  - intros Hf. inv_Ok Hf. apply IH in Hf as (-> & -> & -> & ->).
    match goal with Hp : put _ _ _ _ = Ok _ |- _ => by apply put_shape in Hp end.
Qed.

Lemma acaFull_body_step (epsilon : double) (s s' : AcaFullState T) (brk : bool) :
  acaFull_body epsilon s = Ok (brk, s') ->
  fu_nu s' = fu_nu s /\
  rows (fu_m s') = rows (fu_m s) /\ cols (fu_m s') = cols (fu_m s) /\
  lda (fu_m s') = lda (fu_m s) /\
  rows (fu_tmpA s') = rows (fu_tmpA s) /\ cols (fu_tmpA s') = cols (fu_tmpA s) /\
  lda (fu_tmpA s') = lda (fu_tmpA s) /\
  length (m (fu_tmpA s')) = length (m (fu_tmpA s)) /\
  rows (fu_tmpB s') = rows (fu_tmpB s) /\ cols (fu_tmpB s') = cols (fu_tmpB s) /\
  lda (fu_tmpB s') = lda (fu_tmpB s) /\
  length (m (fu_tmpB s')) = length (m (fu_tmpB s)).
Proof.
  unfold acaFull_body. intros Hb. inv_Ok Hb. destruct x as [i_nu j_nu].
  inv_Ok Hb. destruct (Qeq_bool _ 0); inv_Ok Hb; [done|].
  simpl.
  repeat match goal with
  | Hm : memcpy _ _ _ = Ok _ |- _ => apply memcpy_length in Hm
  | Hf : fillB _ _ _ _ _ _ _ = Ok _ |- _ => apply fillB_shape in Hf
  end.
  simpl in *. tauto.
Qed.

Lemma acaFull_loop_inv (n : nat) (epsilon : double) (s s' : AcaFullState T) :
  acaFull_loop n epsilon s = Ok s' ->
  fu_nu s' <= fu_nu s + n /\
  rows (fu_tmpA s') = rows (fu_tmpA s) /\ cols (fu_tmpA s') = cols (fu_tmpA s) /\
  length (m (fu_tmpA s')) = length (m (fu_tmpA s)) /\
  rows (fu_tmpB s') = rows (fu_tmpB s) /\ cols (fu_tmpB s') = cols (fu_tmpB s) /\
  length (m (fu_tmpB s')) = length (m (fu_tmpB s)).
Proof.
  revert s. induction n as [|n IH]; intros s; simpl.
  - intros [= <-]. repeat split; lia.
  - intros Hl. inv_Ok Hl. destruct x as [brk s1].
    apply acaFull_body_step in Hx.
    destruct brk.
    + inv_Ok Hl. intuition (try congruence); lia.
    + apply IH in Hl. simpl in Hl. intuition (try congruence); lia.
Qed.

Lemma acaFull_maxK_le (approx : RkApproximationControl) (mat : FullMatrix T) :
  acaFull_maxK approx mat <= min (rows mat) (cols mat) /\
  (0 < approx_k approx -> acaFull_maxK approx mat <= approx_k approx).
Proof. unfold acaFull_maxK. case_bool_decide; lia. Qed.

Lemma compressAcaFull_shape (approx : RkApproximationControl)
    (block : ClusterAssemblyFunction T) (rk : RkMatrix T) :
  compressAcaFull approx block = Ok rk ->
  let mat := (assemble block).2 in
  method rk = AcaFull /\
  rank rk <= min (rows mat) (cols mat) /\
  (0 < approx_k approx -> rank rk <= approx_k approx) /\
  forall A B : FullMatrix T, a rk = Some A -> b rk = Some B ->
    rows A = rows mat /\ rows B = cols mat /\
    cols A = cols B /\ cols A = rank rk /\ 0 < rank rk /\
    length (m A) = rows A * cols A /\ length (m B) = rows B * cols B.
Proof.
  intros Hc mat. unfold compressAcaFull, acaFull_run, acaFull_init in Hc. fold mat in Hc.
  inv_Ok Hc.
  apply acaFull_loop_inv in Hx as (Hnu & HrA & HcA & HlA & HrB & HcB & HlB).
  simpl in *. rewrite length_replicate in HlA, HlB.
  pose proof (acaFull_maxK_le approx mat) as [Hm1 Hm2].
  case_bool_decide as Hnu0; inv_Ok Hc; unfold rank; simpl.
  - split; [done|]. split; [lia|]. split; [lia|]. intros A B [=].
  - repeat match goal with
    | Hm : memcpy _ _ _ = Ok _ |- _ =>
        apply memcpy_length in Hm; simpl in Hm; rewrite length_replicate in Hm
    end.
    split; [done|]. split; [lia|]. split; [lia|].
    intros A B [= <-] [= <-]. simpl. repeat split; try congruence; lia.
Qed.

End AcaFullFacts.
(** ** compressAcaPlus: the searches for reference rows and columns *)
Lemma countFree_le (free : list bool) : countFree free <= length free.
Proof. induction free as [|[] rest IH]; simpl; lia. Qed.

Lemma countFree_insert_false (free : list bool) (i : nat) :
  countFree (<[i:=false]> free) <= countFree free.
Proof.
  revert i. induction free as [|fr rest IH]; intros [|i]; simpl; try lia.
  specialize (IH i). lia.
Qed.

Lemma countFree_use (free : list bool) (i : nat) :
  free !! i = Some true -> countFree (<[i:=false]> free) < countFree free.
Proof.
  revert i. induction free as [|fr rest IH]; intros [|i]; simpl; try done.
  - intros [= ->]. lia.
  - intros Hi%IH. destruct fr; lia.
Qed.

Section AcaPlusFacts.
Context {T : Type} `{Scalar T}.

Lemma findCol_loop_step (n i : nat) (block : ClusterAssemblyFunction T)
    (colFree : list bool) (col : Vector T) (j : option nat)
    (colFree' : list bool) (col' : Vector T) :
  findCol_loop n i block colFree col = Ok (j, colFree', col') ->
  length colFree' = length colFree /\ length col' = length col /\
  countFree colFree' <= countFree colFree /\
  (is_Some j -> countFree colFree' < countFree colFree).
Proof.
  revert i colFree col. induction n as [|n IH]; intros i colFree col; simpl.
  - intros [= <- <- <-]. repeat split; try lia. by intros [? [=]].
  - intros Hf. inv_Ok Hf. destruct x.
    + inv_Ok Hf. apply rd_Ok in Hx.
      match goal with Hw : wr _ _ _ = Ok _ |- _ => apply wr_Ok in Hw as [Hi ->] end.
      pose proof (countFree_use _ _ Hx) as Hlt.
      destruct (negb _).
      * inv_Ok Hf. rewrite length_insert, getCol_length, clear_length.
        repeat split; try lia.
      * apply IH in Hf as (-> & -> & Hle & Hs).
        rewrite length_insert, getCol_length, clear_length.
        repeat split; try lia.
    + apply IH in Hf. done.
Qed.

Lemma findCol_step (block : ClusterAssemblyFunction T)
    (colFree : list bool) (col : Vector T) (j : option nat)
    (colFree' : list bool) (col' : Vector T) :
  findCol block colFree col = Ok (j, colFree', col') ->
  length colFree' = length colFree /\ length col' = length col /\
  countFree colFree' <= countFree colFree /\
  (is_Some j -> countFree colFree' < countFree colFree).
Proof. apply findCol_loop_step. Qed.

Lemma argminFree_free (n i : nat) (free : list bool) (ref : Vector T)
    (minNorm2 : double) (best : option nat) (j : nat) :
  argminFree n i free ref minNorm2 best = Ok (Some j) ->
  best = Some j \/ free !! j = Some true.
Proof.
  revert i minNorm2 best. induction n as [|n IH]; intros i mn best; simpl.
  - intros [= ->]. by left.
  - intros Ha. inv_Ok Ha. destruct x.
    + inv_Ok Ha. apply rd_Ok in Hx. destruct (Qltb _ _).
      * apply IH in Ha as [[= <-] | Hf]; by right.
      * by apply IH in Ha.
    + by apply IH in Ha.
Qed.

Lemma findMinRow_loop_step (fuel : nat) (block : ClusterAssemblyFunction T)
    (rowFree : list bool) (aCols bCols : list (Vector T)) (aRef row : Vector T)
    (i : option nat) (rowFree' : list bool) (row' : Vector T) :
  findMinRow_loop fuel block rowFree aCols bCols aRef row = Ok (i, rowFree', row') ->
  length rowFree' = length rowFree /\ length row' = length row.
Proof.
  revert rowFree row. induction fuel as [|fuel IH]; intros rowFree row; simpl;
    [discriminate|].
  intros Hf. inv_Ok Hf. destruct x as [i0|]; [|by inv_Ok Hf].
  inv_Ok Hf.
  match goal with Hw : wr _ _ _ = Ok _ |- _ => apply wr_Ok in Hw as [Hi ->] end.
  match goal with Hu : updateRow _ _ _ _ _ = Ok _ |- _ =>
    apply updateRow_length in Hu; rewrite getRow_length, clear_length in Hu end.
  destruct (negb _).
  - inv_Ok Hf. rewrite length_insert. done.
  - apply IH in Hf as [-> ->]. rewrite length_insert. done.
Qed.

Lemma findMinRow_step (block : ClusterAssemblyFunction T)
    (rowFree : list bool) (aCols bCols : list (Vector T)) (aRef row : Vector T)
    (i : option nat) (rowFree' : list bool) (row' : Vector T) :
  findMinRow block rowFree aCols bCols aRef row = Ok (i, rowFree', row') ->
  length rowFree' = length rowFree /\ length row' = length row.
Proof. apply findMinRow_loop_step. Qed.

Lemma findMinCol_loop_step (fuel : nat) (block : ClusterAssemblyFunction T)
    (colFree : list bool) (aCols bCols : list (Vector T)) (bRef col : Vector T)
    (j : option nat) (colFree' : list bool) (col' : Vector T) :
  findMinCol_loop fuel block colFree aCols bCols bRef col = Ok (j, colFree', col') ->
  length colFree' = length colFree /\ length col' = length col.
Proof.
  revert colFree col. induction fuel as [|fuel IH]; intros colFree col; simpl;
    [discriminate|].
  intros Hf. inv_Ok Hf. destruct x as [j0|]; [|by inv_Ok Hf].
  inv_Ok Hf.
  match goal with Hw : wr _ _ _ = Ok _ |- _ => apply wr_Ok in Hw as [Hi ->] end.
  match goal with Hu : updateCol _ _ _ _ _ = Ok _ |- _ =>
    apply updateCol_length in Hu; rewrite getCol_length, clear_length in Hu end.
  destruct (negb _).
  - inv_Ok Hf. rewrite length_insert. done.
  - apply IH in Hf as [-> ->]. rewrite length_insert. done.
Qed.

Lemma findMinCol_step (block : ClusterAssemblyFunction T)
    (colFree : list bool) (aCols bCols : list (Vector T)) (bRef col : Vector T)
    (j : option nat) (colFree' : list bool) (col' : Vector T) :
  findMinCol block colFree aCols bCols bRef col = Ok (j, colFree', col') ->
  length colFree' = length colFree /\ length col' = length col.
Proof. apply findMinCol_loop_step. Qed.

Lemma newRefCol_loop_step (fuel : nat) (block : ClusterAssemblyFunction T)
    (colFree : list bool) (aCols bCols : list (Vector T)) (k : nat)
    (aRef : Vector T) (found : bool) (j : option nat) (colFree' : list bool)
    (aRef' : Vector T) :
  newRefCol_loop fuel block colFree aCols bCols k aRef = Ok (found, j, colFree', aRef') ->
  length colFree' = length colFree /\ length aRef' = length aRef.
Proof.
  revert colFree aRef. induction fuel as [|fuel IH]; intros colFree aRef; simpl;
    [discriminate|].
  intros Hf. inv_Ok Hf. destruct x as [[j0 cf] ar].
  apply findCol_step in Hx as (Hl1 & Hl2 & _). rewrite clear_length in Hl2.
  destruct j0 as [j0|]; [|inv_Ok Hf; done].
  inv_Ok Hf.
  match goal with Hu : updateCol _ _ _ _ _ = Ok _ |- _ =>
    apply updateCol_length in Hu end.
  destruct (negb _).
  - inv_Ok Hf. split; congruence.
  - apply IH in Hf as [-> ->]. split; congruence.
Qed.

End AcaPlusFacts.
(** ** compressAcaPlus: the invariant of the loop, rank and shapes *)
Section AcaPlusLoop.
Context {T : Type} `{Scalar T}.

Lemma acaPlus_pick_step (block : ClusterAssemblyFunction T) (s : AcaPlusState T)
    (i_star j_star : nat) (aVec bVec : Vector T) :
  acaPlus_pick block s = Ok (i_star, j_star, aVec, bVec) ->
  length aVec = size (block_rows block) /\ length bVec = size (block_cols block) /\
  0 < length (pl_aRef s) /\ 0 < length (pl_bRef s).
Proof.
  unfold acaPlus_pick. intros Hp. inv_Ok Hp.
  repeat match goal with Hr : rd (_ s) _ = Ok _ |- _ => apply rd_lt in Hr end.
  destruct (Qltb _ _); inv_Ok Hp;
    repeat match goal with
    | Hu : updateRow _ _ _ _ _ = Ok _ |- _ =>
        apply updateRow_length in Hu; rewrite getRow_length, new_Vector_length in Hu
    | Hu : updateCol _ _ _ _ _ = Ok _ |- _ =>
        apply updateCol_length in Hu; rewrite getCol_length, new_Vector_length in Hu
    end;
    rewrite ?scale_length; repeat split; lia.
Qed.

Lemma acaPlus_refresh_step (block : ClusterAssemblyFunction T) (i_star j_star : nat)
    (s s' : AcaPlusState T) (brk : bool) :
  acaPlus_refresh block i_star j_star s = Ok (brk, s') ->
  pl_aCols s' = pl_aCols s /\ pl_bCols s' = pl_bCols s /\ pl_k s' = pl_k s /\
  pl_estimateSquaredNorm s' = pl_estimateSquaredNorm s /\
  length (pl_rowFree s') = length (pl_rowFree s) /\
  length (pl_colFree s') = length (pl_colFree s) /\
  length (pl_aRef s') = length (pl_aRef s) /\
  length (pl_bRef s') = length (pl_bRef s).
Proof.
  unfold acaPlus_refresh. intros Hr. inv_Ok Hr.
  repeat match goal with
  | Ha : axpy _ _ _ = Ok _ |- _ => apply axpy_length in Ha as [? _]
  end.
  repeat match type of Hr with
  | (if ?c then _ else _) = _ => destruct c
  | _ => progress inv_Ok Hr
  | (let '(_, _) := ?p in _) = _ => destruct p
  end;
  repeat match goal with
  | Hn : newRefCol_loop _ _ _ _ _ _ _ = Ok _ |- _ => apply newRefCol_loop_step in Hn as [? ?]
  | Hn : findMinRow _ _ _ _ _ _ = Ok _ |- _ => apply findMinRow_step in Hn as [? ?]
  | Hn : findMinCol _ _ _ _ _ _ = Ok _ |- _ => apply findMinCol_step in Hn as [? ?]
  end;
  simpl; rewrite ?clear_length in *; repeat split; congruence.
Qed.

Lemma acaPlus_body_inv (block : ClusterAssemblyFunction T) (epsilon : double)
    (s s' : AcaPlusState T) (brk : bool) :
  acaPlus_body block epsilon s = Ok (brk, s') ->
  acaPlus_inv block s ->
  acaPlus_inv block s' /\ pl_k s' = S (pl_k s) /\
  0 < size (block_rows block) /\ 0 < size (block_cols block).
Proof.
  unfold acaPlus_body. intros Hb [Ha Hb' HaL HbL Hrf Hcf HaR HbR]. inv_Ok Hb.
  destruct x as [[[i_star j_star] aVec] bVec].
  apply acaPlus_pick_step in Hx as (HlA & HlB & HrA & HrB).
  inv_Ok Hb.
  repeat match goal with
  | Hw : wr _ _ _ = Ok _ |- _ => apply wr_length in Hw
  end.
  assert (Hs1 : forall s1 : AcaPlusState T,
    pl_aCols s1 = pl_aCols s ++ [aVec] -> pl_bCols s1 = pl_bCols s ++ [bVec] ->
    pl_k s1 = S (pl_k s) ->
    length (pl_rowFree s1) = length (pl_rowFree s) ->
    length (pl_colFree s1) = length (pl_colFree s) ->
    length (pl_aRef s1) = length (pl_aRef s) ->
    length (pl_bRef s1) = length (pl_bRef s) ->
    acaPlus_inv block s1 /\ pl_k s1 = S (pl_k s) /\
    0 < size (block_rows block) /\ 0 < size (block_cols block)).
  { intros s1 E1 E2 E3 E4 E5 E6 E7. split; [|lia].
    split; try congruence.
    - rewrite E1, length_app; simpl; lia.
    - rewrite E2, length_app; simpl; lia.
    - rewrite E1. apply Forall_app; split; [done|]. by constructor.
    - rewrite E2. apply Forall_app; split; [done|]. by constructor. }
  destruct (Qltb _ _).
  - inv_Ok Hb. by apply Hs1.
  - apply acaPlus_refresh_step in Hb as (E1 & E2 & E3 & _ & E4 & E5 & E6 & E7).
    simpl in *. apply Hs1; congruence.
Qed.

Lemma acaPlus_loop_inv (fuel : nat) (block : ClusterAssemblyFunction T)
    (epsilon : double) (maxK : nat) (s s' : AcaPlusState T) :
  acaPlus_loop fuel block epsilon maxK s = Ok s' ->
  acaPlus_inv block s ->
  acaPlus_inv block s' /\
  0 < size (block_rows block) /\ 0 < size (block_cols block) /\
  pl_k s < pl_k s' /\ pl_k s' <= max (S (pl_k s)) maxK.
Proof.
  revert s. induction fuel as [|fuel IH]; intros s; simpl; [discriminate|].
  intros Hl Hinv. inv_Ok Hl. destruct x as [brk s1].
  apply acaPlus_body_inv in Hx as (Hinv1 & Hk & Hr & Hc); [|done].
  destruct brk.
  - inv_Ok Hl. split; [done|]. lia.
  - case_bool_decide.
    + apply IH in Hl as (? & ? & ? & ?); [|done]. split; [done|]. lia.
    + inv_Ok Hl. split; [done|]. lia.
Qed.

Lemma acaPlus_run_inv (approx : RkApproximationControl)
    (block : ClusterAssemblyFunction T) (s : AcaPlusState T) :
  acaPlus_run approx block = Ok (Some s) ->
  acaPlus_inv block s /\
  0 < pl_k s <= min (size (block_rows block)) (size (block_cols block)).
Proof.
  unfold acaPlus_run. intros Hr. inv_Ok Hr. destruct x as [[j_ref colFree] aRef].
  apply findCol_step in Hx as (Hcf & HaR & _).
  rewrite length_replicate in Hcf. rewrite new_Vector_length in HaR.
  destruct j_ref as [j|]; [|by inv_Ok Hr].
  inv_Ok Hr. destruct x as [[i_ref rowFree] bRef].
  apply findMinRow_step in Hx as [Hrf HbR].
  rewrite length_replicate in Hrf. rewrite new_Vector_length in HbR.
  inv_Ok Hr.
  match goal with Hl : acaPlus_loop _ _ _ _ _ = Ok _ |- _ =>
    apply acaPlus_loop_inv in Hl as (Hinv & ? & ? & ? & Hk) end.
  - split; [done|]. simpl in *. lia.
  - split; simpl; try done.
Qed.

Lemma compressAcaPlus_shape (approx : RkApproximationControl)
    (block : ClusterAssemblyFunction T) (rk : RkMatrix T) :
  compressAcaPlus approx block = Ok rk ->
  method rk = AcaPlus /\
  rank rk <= min (size (block_rows block)) (size (block_cols block)) /\
  forall A B : FullMatrix T, a rk = Some A -> b rk = Some B ->
    rows A = size (block_rows block) /\ rows B = size (block_cols block) /\
    cols A = cols B /\ cols A = rank rk /\ 0 < rank rk /\
    length (m A) = rows A * cols A /\ length (m B) = rows B * cols B.
Proof.
  unfold compressAcaPlus. intros Hc. inv_Ok Hc. destruct x as [s|].
  - apply acaPlus_run_inv in Hx as [Hinv Hk]. inv_Ok Hc. unfold rank; simpl.
    repeat match goal with
    | Hcc : copyCols _ _ _ _ = Ok _ |- _ =>
        apply copyCols_shape in Hcc as (? & ? & _ & ?)
    end.
    simpl in *. rewrite length_replicate in *.
    split; [done|]. split; [lia|].
    intros A B [= <-] [= <-]. repeat split; try congruence; lia.
  - inv_Ok Hc. unfold rank; simpl. split; [done|]. split; [lia|]. intros A B [=].
Qed.

End AcaPlusLoop.
(** ** The searches and the loops of compressAcaPlus end *)
Section AcaPlusTermination.
Context {T : Type} `{Scalar T}.

Lemma terminates_findCol_loop (n i : nat) (block : ClusterAssemblyFunction T)
    (colFree : list bool) (col : Vector T) :
  terminates (findCol_loop n i block colFree col).
Proof.
  revert i colFree col. induction n as [|n IH]; intros i colFree col; simpl;
    terminates_tac.
Qed.

Lemma terminates_findCol (block : ClusterAssemblyFunction T)
    (colFree : list bool) (col : Vector T) :
  terminates (findCol block colFree col).
Proof. apply terminates_findCol_loop. Qed.

Lemma terminates_argminFree (n i : nat) (free : list bool) (ref : Vector T)
    (minNorm2 : double) (best : option nat) :
  terminates (argminFree n i free ref minNorm2 best).
Proof.
  revert i minNorm2 best. induction n as [|n IH]; intros i mn best; simpl;
    terminates_tac.
Qed.

Hint Resolve terminates_findCol terminates_argminFree : terminates.

Lemma terminates_findMinRow_loop (fuel : nat) (block : ClusterAssemblyFunction T)
    (rowFree : list bool) (aCols bCols : list (Vector T)) (aRef row : Vector T) :
  countFree rowFree < fuel ->
  terminates (findMinRow_loop fuel block rowFree aCols bCols aRef row).
Proof.
  revert rowFree row. induction fuel as [|fuel IH]; intros rowFree row Hf; [lia|].
  simpl. apply terminates_bind; [auto with terminates|].
  intros [i|] Harg; [|done].
  apply argminFree_free in Harg as [[=]|Hfree].
  apply terminates_bind; [auto with terminates|]. intros row' _.
  apply terminates_bind; [auto with terminates|]. intros z _.
  apply terminates_bind; [auto with terminates|]. intros rowFree' [_ ->]%wr_Ok.
  destruct (negb z); [done|].
  apply IH. apply countFree_use in Hfree. lia.
Qed.

Lemma terminates_findMinRow (block : ClusterAssemblyFunction T)
    (rowFree : list bool) (aCols bCols : list (Vector T)) (aRef row : Vector T) :
  terminates (findMinRow block rowFree aCols bCols aRef row).
Proof.
  apply terminates_findMinRow_loop. pose proof (countFree_le rowFree). lia.
Qed.

Lemma terminates_findMinCol_loop (fuel : nat) (block : ClusterAssemblyFunction T)
    (colFree : list bool) (aCols bCols : list (Vector T)) (bRef col : Vector T) :
  countFree colFree < fuel ->
  terminates (findMinCol_loop fuel block colFree aCols bCols bRef col).
Proof.
  revert colFree col. induction fuel as [|fuel IH]; intros colFree col Hf; [lia|].
  simpl. apply terminates_bind; [auto with terminates|].
  intros [j|] Harg; [|done].
  apply argminFree_free in Harg as [[=]|Hfree].
  apply terminates_bind; [auto with terminates|]. intros col' _.
  apply terminates_bind; [auto with terminates|]. intros z _.
  apply terminates_bind; [auto with terminates|]. intros colFree' [_ ->]%wr_Ok.
  destruct (negb z); [done|].
  apply IH. apply countFree_use in Hfree. lia.
Qed.

Lemma terminates_findMinCol (block : ClusterAssemblyFunction T)
    (colFree : list bool) (aCols bCols : list (Vector T)) (bRef col : Vector T) :
  terminates (findMinCol block colFree aCols bCols bRef col).
Proof.
  apply terminates_findMinCol_loop. pose proof (countFree_le colFree). lia.
Qed.

Lemma terminates_newRefCol_loop (fuel : nat) (block : ClusterAssemblyFunction T)
    (colFree : list bool) (aCols bCols : list (Vector T)) (k : nat)
    (aRef : Vector T) :
  countFree colFree < fuel ->
  terminates (newRefCol_loop fuel block colFree aCols bCols k aRef).
Proof.
  revert colFree aRef. induction fuel as [|fuel IH]; intros colFree aRef Hf; [lia|].
  simpl. apply terminates_bind; [auto with terminates|].
  intros [[[j|] cf] ar] Hfc; [|done].
  apply findCol_step in Hfc as (_ & _ & _ & Hlt).
  apply terminates_bind; [auto with terminates|]. intros ar' _.
  apply terminates_bind; [auto with terminates|]. intros z _.
  destruct (negb z); [done|].
  apply IH. specialize (Hlt (ltac:(eauto))). lia.
Qed.

Hint Resolve terminates_findMinRow terminates_findMinCol : terminates.

Lemma terminates_acaPlus_pick (block : ClusterAssemblyFunction T)
    (s : AcaPlusState T) :
  terminates (acaPlus_pick block s).
Proof. unfold acaPlus_pick. terminates_tac. Qed.

Lemma terminates_acaPlus_refresh (block : ClusterAssemblyFunction T)
    (i_star j_star : nat) (s : AcaPlusState T) :
  terminates (acaPlus_refresh block i_star j_star s).
Proof.
  unfold acaPlus_refresh.
  repeat (apply terminates_bind; [auto with terminates|]; intros ? ?).
  repeat match goal with
  | |- terminates (if ?c then _ else _) => destruct c
  end; try done.
  - apply terminates_bind.
    + apply terminates_newRefCol_loop. pose proof (countFree_le (pl_colFree s)). lia.
    + intros [[[found j] cf] ar] _. terminates_tac.
  - terminates_tac.
  - terminates_tac.
Qed.

Hint Resolve terminates_acaPlus_pick terminates_acaPlus_refresh : terminates.

Lemma terminates_acaPlus_body (block : ClusterAssemblyFunction T)
    (epsilon : double) (s : AcaPlusState T) :
  terminates (acaPlus_body block epsilon s).
Proof. unfold acaPlus_body. terminates_tac. Qed.

Lemma acaPlus_loop_fuel (fuel : nat) (block : ClusterAssemblyFunction T)
    (epsilon : double) (maxK : nat) (s : AcaPlusState T) :
  0 < fuel -> maxK < fuel + pl_k s -> acaPlus_inv block s ->
  terminates (acaPlus_loop fuel block epsilon maxK s).
Proof.
  revert s. induction fuel as [|fuel IH]; intros s Hf Hm Hinv; [lia|]. simpl.
  apply terminates_bind; [apply terminates_acaPlus_body|].
  intros [brk s1] Hb. destruct brk; [done|].
  case_bool_decide; [|done].
  apply acaPlus_body_inv in Hb as (Hinv1 & Hk & _); [|done].
  apply IH; [lia|lia|done].
Qed.

Lemma terminates_acaPlus_run (approx : RkApproximationControl)
    (block : ClusterAssemblyFunction T) :
  terminates (acaPlus_run approx block).
Proof.
  unfold acaPlus_run.
  apply terminates_bind; [auto with terminates|].
  intros [[[j|] colFree] aRef] Hfc; [|done].
  apply findCol_step in Hfc as (Hcf & HaR & _).
  rewrite length_replicate in Hcf. rewrite new_Vector_length in HaR.
  apply terminates_bind; [auto with terminates|].
  intros [[i_ref rowFree] bRef] Hfr.
  apply findMinRow_step in Hfr as [Hrf HbR].
  rewrite length_replicate in Hrf. rewrite new_Vector_length in HbR.
  apply terminates_bind; [|done].
  apply acaPlus_loop_fuel; simpl; [lia|lia|]. split; simpl; done.
Qed.

Lemma terminates_compressAcaPlus (approx : RkApproximationControl)
    (block : ClusterAssemblyFunction T) :
  terminates (compressAcaPlus approx block).
Proof.
  unfold compressAcaPlus.
  apply terminates_bind; [apply terminates_acaPlus_run|].
  intros [s|] _; terminates_tac.
Qed.

Lemma terminates_compressAcaPartial (approx : RkApproximationControl)
    (block : ClusterAssemblyFunction T) :
  terminates (compressAcaPartial approx block).
Proof.
  unfold compressAcaPartial.
  apply terminates_bind; [apply acaPartial_run_fuel|].
  intros s _. terminates_tac.
Qed.

End AcaPlusTermination.
(** ** compressMatrix: shapes *)
Section SvdFacts.
Context {T : Type} `{Scalar T}.
Variable truncatedSvd : FullMatrix T -> Z * FullMatrix T * list double * FullMatrix T.
Variable findK : RkApproximationControl -> list double -> nat -> double -> nat.

Lemma copy_cols_shape (n col : nat) (src result r : FullMatrix T) :
  copy_cols n col src result = Ok r ->
  rows r = rows result /\ cols r = cols result /\ lda r = lda result /\
  length (m r) = length (m result).
Proof.
  revert col result. induction n as [|n IH]; intros col result; simpl.
  - by intros [= <-].
  - intros Hc. inv_Ok Hc. apply IH in Hc as (-> & -> & -> & ->). simpl.
    match goal with Hm : memcpy _ _ _ = Ok _ |- _ => by apply memcpy_length in Hm end.
Qed.

Lemma copy_shape (src r : FullMatrix T) :
  copy src = Ok r ->
  rows r = rows src /\ cols r = cols src /\ lda r = rows src /\
  length (m r) = rows r * cols r.
Proof.
  unfold copy. case_bool_decide; intros Hc.
  - inv_Ok Hc. simpl.
    match goal with Hm : memcpy _ _ _ = Ok _ |- _ => apply memcpy_length in Hm end.
    simpl in *. by rewrite length_replicate in *.
  - apply copy_cols_shape in Hc as (-> & -> & -> & ->). simpl.
    by rewrite length_replicate.
Qed.

Lemma copyAndTranspose_j_shape (n i j : nat) (src result r : FullMatrix T) :
  copyAndTranspose_j n i j src result = Ok r ->
  rows r = rows result /\ cols r = cols result /\ lda r = lda result /\
  length (m r) = length (m result).
Proof.
  revert j result. induction n as [|n IH]; intros j result; simpl.
  - by intros [= <-].
  - intros Hc. inv_Ok Hc. apply IH in Hc as (-> & -> & -> & ->).
    match goal with Hp : put _ _ _ _ = Ok _ |- _ => by apply put_shape in Hp end.
Qed.

Lemma copyAndTranspose_i_shape (n i : nat) (src result r : FullMatrix T) :
  copyAndTranspose_i n i src result = Ok r ->
  rows r = rows result /\ cols r = cols result /\ lda r = lda result /\
  length (m r) = length (m result).
Proof.
  revert i result. induction n as [|n IH]; intros i result; simpl.
  - by intros [= <-].
  - intros Hc. inv_Ok Hc. apply IH in Hc as (-> & -> & -> & ->).
    match goal with Hp : copyAndTranspose_j _ _ _ _ _ = Ok _ |- _ =>
      by apply copyAndTranspose_j_shape in Hp end.
Qed.

Lemma copyAndTranspose_shape (src r : FullMatrix T) :
  copyAndTranspose src = Ok r ->
  rows r = cols src /\ cols r = rows src /\ lda r = cols src /\
  length (m r) = rows r * cols r.
Proof.
  intros Hc. apply copyAndTranspose_i_shape in Hc as (-> & -> & -> & ->). simpl.
  by rewrite length_replicate.
Qed.

Lemma wrap_FullMatrix_shape (data : list T) (r c : nat) (ld : option nat)
    (mat : FullMatrix T) :
  wrap_FullMatrix data r c ld = Ok mat -> rows mat = r /\ cols mat = c.
Proof. unfold wrap_FullMatrix. intros Hw. inv_Ok Hw. done. Qed.

(** The two ways in which [compressMatrix] returns. *)
Lemma compressMatrix_cases (approx : RkApproximationControl) (mat : FullMatrix T)
    (rows_ cols_ : ClusterData) (rk : RkMatrix T) :
  compressMatrix truncatedSvd findK approx mat rows_ cols_ = Ok rk ->
  rows mat = size rows_ /\ cols mat = size cols_ /\
  rk_rows rk = rows_ /\ rk_cols rk = cols_ /\
  ((method rk = NoCompression /\ a rk = None /\ b rk = None) \/
   (method rk = Svd /\
    exists A B : FullMatrix T, a rk = Some A /\ b rk = Some B /\
      rows A = size rows_ /\ rows B = size cols_ /\
      cols A = findK approx (truncatedSvd mat).1.2 (min (rows mat) (cols mat))
                 (assemblyEpsilon approx) /\
      cols B = cols A /\ 0 < cols A /\
      length (m A) = rows A * cols A /\ length (m B) = rows B * cols B)).
Proof.
  unfold compressMatrix. intros Hc. inv_Ok Hc.
  repeat match goal with
  | Hd : bool_decide _ = true |- _ => apply bool_decide_eq_true in Hd
  end.
  match type of Hc with (if ?c then _ else _) = _ => destruct c end.
  { inv_Ok Hc. simpl. repeat split; try done. by left. }
  destruct (truncatedSvd mat) as [[[svd_info u] sigma] vt]. simpl.
  inv_Ok Hc. case_bool_decide as Hk.
  { inv_Ok Hc. simpl. repeat split; try done. by left. }
  inv_Ok Hc. simpl. repeat split; try done. right. split; [done|].
  repeat match goal with
  | Hw : wrap_FullMatrix _ _ _ _ = Ok _ |- _ => apply wrap_FullMatrix_shape in Hw as [? ?]
  | Hw : copy _ = Ok _ |- _ => apply copy_shape in Hw as (? & ? & _ & ?)
  | Hw : copyAndTranspose _ = Ok _ |- _ =>
      apply copyAndTranspose_shape in Hw as (? & ? & _ & ?)
  end.
  eexists _, _. split; [done|]. split; [done|].
  repeat split; try congruence; lia.
Qed.

End SvdFacts.
(** ** Zero tests *)

Lemma Qltb_lt (x y : Q) : Qltb x y = true <-> (x < y)%Q.
Proof.
  unfold Qltb. rewrite negb_true_iff. split.
  - intros Hb. apply Qnot_le_lt. intros Hle%Qle_bool_iff. congruence.
  - intros Hlt. apply not_true_is_false. intros Hle%Qle_bool_iff.
    by apply Qlt_not_le in Hlt.
Qed.

Lemma Qltb_ge (x y : Q) : Qltb x y = false <-> (y <= x)%Q.
Proof.
  unfold Qltb. rewrite negb_false_iff. apply Qle_bool_iff.
Qed.

Lemma Qltb_irrefl (x : Q) : Qltb x x = false.
Proof. apply Qltb_ge, Qle_refl. Qed.

Section ZeroTests.
Context {T : Type} `{ScalarLaws T}.

Lemma i_amax_from_spec (best : nat) (bestv : double) (i : nat) (l : list T) :
  let r := i_amax_from best bestv i l in
  (r = best /\ Forall (fun y => (abs1 y <= bestv)%Q) l) \/
  (exists x, l !! (r - i) = Some x /\ i <= r /\ (bestv < abs1 x)%Q /\
             Forall (fun y => (abs1 y <= abs1 x)%Q) l).
Proof.
  revert best bestv i. induction l as [|x t IH]; intros best bestv i; simpl.
  - left. split; [done | constructor].
  - destruct (Qltb bestv (abs1 x)) eqn:Hlt.
    + apply Qltb_lt in Hlt. right.
      destruct (IH i (abs1 x) (S i)) as [[-> Hall] | (x' & Hx' & Hle & Hlt' & Hall)].
      * exists x. rewrite Nat.sub_diag. simpl. repeat split; try done.
        constructor; [apply Qle_refl | done].
      * exists x'. replace (i_amax_from i (abs1 x) (S i) t - i)
          with (S (i_amax_from i (abs1 x) (S i) t - S i)) by lia.
        simpl. repeat split; try done; [lia | by eapply Qlt_trans |].
        constructor; [by apply Qlt_le_weak | done].
    + apply Qltb_ge in Hlt.
      destruct (IH best bestv (S i)) as [[-> Hall] | (x' & Hx' & Hle & Hlt' & Hall)].
      * left. split; [done|]. by constructor.
      * right. exists x'. replace (i_amax_from best bestv (S i) t - i)
          with (S (i_amax_from best bestv (S i) t - S i)) by lia.
        simpl. repeat split; try done; [lia |].
        constructor; [|done].
        apply Qlt_le_weak. by eapply Qle_lt_trans.
Qed.

(** [absoluteMaxIndex] points at an entry of largest modulus. *)
Lemma absoluteMaxIndex_max (v : Vector T) :
  v <> [] ->
  exists x, v !! absoluteMaxIndex v = Some x /\
            Forall (fun y => (abs1 y <= abs1 x)%Q) v.
Proof.
  destruct v as [|x t]; [done|]. intros _. unfold absoluteMaxIndex. simpl.
  destruct (i_amax_from_spec 0 (abs1 x) 1 t) as [[-> Hall] | (x' & Hx' & Hle & Hlt' & Hall)].
  - exists x. split; [done|]. constructor; [apply Qle_refl | done].
  - exists x'. destruct (i_amax_from 0 (abs1 x) 1 t) as [|r]; [lia|].
    simpl in *. rewrite Nat.sub_0_r in Hx'. split; [done|].
    constructor; [by apply Qlt_le_weak | done].
Qed.

(** [isZero] tells whether every entry of a non-empty vector is zero. *)
Lemma isZero_spec (v : Vector T) :
  v <> [] ->
  exists z, isZero v = Ok z /\
            (z = true <-> Forall (fun y => seqb y zero = true) v).
Proof.
  intros Hv. destruct (absoluteMaxIndex_max v Hv) as (x & Hx & Hall).
  exists (seqb x zero). unfold isZero. rewrite (rd_lookup _ _ _ Hx). simpl.
  split; [done|]. split.
  - intros Hz. apply abs1_zero_iff in Hz.
    eapply Forall_impl; [exact Hall|]. simpl. intros y Hy.
    apply abs1_zero_iff. apply Qle_antisym; [|apply abs1_nonneg].
    by rewrite <- Hz.
  - intros Hz. rewrite Forall_forall in Hz. apply Hz.
    apply list_elem_of_lookup. eauto.
Qed.

Lemma isZero_replicate (n : nat) :
  0 < n -> isZero (replicate n (zero (T:=T))) = Ok true.
Proof.
  intros Hn. destruct (isZero_spec (replicate n zero)) as (z & -> & Hz).
  - destruct n; [lia | done].
  - f_equal. apply Hz. apply Forall_replicate, seqb_zero_zero.
Qed.

Lemma squaredNorm_zero : (squaredNorm (zero (T:=T)) == 0)%Q.
Proof. apply squaredNorm_zero_iff, seqb_zero_zero. Qed.

End ZeroTests.
(** ** The all-zero test of compressMatrix *)
Section ZeroMatrix.
Context {T : Type} `{ScalarLaws T}.
Variable truncatedSvd : FullMatrix T -> Z * FullMatrix T * list double * FullMatrix T.
Variable findK : RkApproximationControl -> list double -> nat -> double -> nat.

Lemma zeroMatrix_loop_spec (n col : nat) (mat : FullMatrix T) :
  0 < rows mat -> rows mat * (col + n) <= length (m mat) ->
  exists z, zeroMatrix_loop n col mat = Ok z /\
    (z = true <->
     forall j, col <= j < col + n ->
       Forall (fun y => seqb y zero = true)
              (take (rows mat) (drop (rows mat * j) (m mat)))).
Proof.
  intros Hr. revert col. induction n as [|n IH]; intros col Hlen; simpl.
  - exists true. split; [done|]. split; [|done]. intros _ j Hj. lia.
  - unfold view. rewrite bool_decide_eq_true_2 by nia. simpl.
    set (v := take (rows mat) (drop (rows mat * col) (m mat))).
    assert (Hv : v <> []).
    { intros Hv. apply (f_equal length) in Hv. unfold v in Hv.
      rewrite length_take, length_drop in Hv. simpl in Hv. nia. }
    destruct (isZero_spec v Hv) as (z & -> & Hz). simpl. destruct z.
    + destruct (IH (S col)) as (z' & -> & Hz'); [nia|].
      exists z'. split; [done|]. rewrite Hz'. split.
      * intros Hall j Hj. destruct (decide (j = col)) as [->|Hne].
        -- by apply Hz.
        -- apply Hall. lia.
      * intros Hall j Hj. apply Hall. lia.
    + exists false. split; [done|]. split; [done|].
      intros Hall. apply Hz, Hall. lia.
Qed.

Lemma column_view_Forall (P : T -> Prop) (mat : FullMatrix T) (j : nat) :
  lda mat = rows mat -> rows mat * j + rows mat <= length (m mat) ->
  Forall P (take (rows mat) (drop (rows mat * j) (m mat))) <->
  (forall i, i < rows mat -> exists x, get mat i j = Ok x /\ P x).
Proof.
  intros Hlda Hlen. rewrite Forall_lookup. unfold get. rewrite Hlda. split.
  - intros Hall i Hi.
    destruct (lookup_lt_is_Some_2 (m mat) (i + j * rows mat)) as [x Hx]; [nia|].
    exists x. split; [by apply rd_lookup|].
    apply (Hall i). rewrite lookup_take_lt by done. rewrite lookup_drop.
    rewrite <- Hx. f_equal. lia.
  - intros Hall i x Hix.
    assert (Hi : i < rows mat).
    { apply lookup_lt_Some in Hix. rewrite length_take in Hix. lia. }
    rewrite lookup_take_lt, lookup_drop in Hix by done.
    destruct (Hall i Hi) as (x' & Hx' & HP). apply rd_Ok in Hx'.
    replace (i + j * rows mat) with (rows mat * j + i) in Hx' by lia.
    congruence.
Qed.

(** The all-zero test of [compressMatrix] on contiguous storage. *)
Lemma zeroMatrix_loop_elementsZero (mat : FullMatrix T) :
  lda mat = rows mat -> 0 < rows mat ->
  rows mat * cols mat <= length (m mat) ->
  exists z, zeroMatrix_loop (cols mat) 0 mat = Ok z /\
            (z = true <-> elementsZero mat).
Proof.
  intros Hlda Hr Hlen.
  destruct (zeroMatrix_loop_spec (cols mat) 0 mat Hr) as (z & Hz & Hiff); [simpl; lia|].
  exists z. split; [done|]. rewrite Hiff. unfold elementsZero. split.
  - intros Hall i j Hi Hj.
    apply (column_view_Forall (fun y => seqb y zero = true) mat j); [done|nia| |done].
    apply Hall. lia.
  - intros Hall j Hj.
    apply column_view_Forall; [done|nia|]. intros i Hi. apply Hall; lia.
Qed.

Lemma compressMatrix_empty_iff (approx : RkApproximationControl) (mat : FullMatrix T)
    (rows_ cols_ : ClusterData) (rk : RkMatrix T) :
  lda mat = rows mat -> 0 < rows mat ->
  rows mat * cols mat <= length (m mat) ->
  compressMatrix truncatedSvd findK approx mat rows_ cols_ = Ok rk ->
  (isEmpty rk = true <->
   elementsZero mat \/
   findK approx (truncatedSvd mat).1.2 (min (rows mat) (cols mat))
         (assemblyEpsilon approx) = 0).
Proof.
  intros Hlda Hr Hlen. unfold compressMatrix. intros Hc. inv_Ok Hc.
  destruct (zeroMatrix_loop_elementsZero mat Hlda Hr Hlen) as (z & Hz & Hiff).
  match goal with Hz' : zeroMatrix_loop _ _ _ = Ok _ |- _ =>
    rewrite Hz in Hz'; injection Hz' as <- end.
  destruct z.
  - inv_Ok Hc. simpl. split; [|done]. intros _. left. by apply Hiff.
  - assert (Hnz : ~ elementsZero mat) by (intros Hez%Hiff; done).
    destruct (truncatedSvd mat) as [[[svd_info u] sigma] vt]. simpl in *.
    inv_Ok Hc. case_bool_decide as Hk; inv_Ok Hc; unfold isEmpty; simpl.
    + split; [|done]. intros _. by right.
    + split; [done|]. intros [?|?]; done.
Qed.

Lemma compressMatrix_elementsZero (approx : RkApproximationControl)
    (mat : FullMatrix T) (rows_ cols_ : ClusterData) :
  lda mat = rows mat -> 0 < rows mat ->
  rows mat * cols mat <= length (m mat) ->
  rows mat = size rows_ -> cols mat = size cols_ ->
  elementsZero mat ->
  compressMatrix truncatedSvd findK approx mat rows_ cols_ =
  Ok {| a := None; rk_rows := rows_; b := None; rk_cols := cols_;
        method := NoCompression |}.
Proof.
  intros Hlda Hr Hlen Hrows Hcols Hez. unfold compressMatrix.
  rewrite !bool_decide_eq_true_2 by lia. simpl.
  destruct (zeroMatrix_loop_elementsZero mat Hlda Hr Hlen) as (z & -> & Hiff).
  simpl. apply Hiff in Hez as ->. done.
Qed.

End ZeroMatrix.
(** ** Blocks made of zeros *)
Section ZeroBlockFacts.
Context {T : Type} `{ScalarLaws T}.

Lemma get_Zero (r c i j : nat) :
  i < r -> j < c -> get (Zero (T:=T) r c) i j = Ok zero.
Proof.
  intros Hi Hj. unfold get, Zero, new_FullMatrix; simpl.
  apply rd_lookup, lookup_replicate_2. nia.
Qed.

Lemma elementsZero_Zero (r c : nat) : elementsZero (Zero (T:=T) r c).
Proof.
  intros i j Hi Hj. exists zero. split; [by apply get_Zero | apply seqb_zero_zero].
Qed.

Lemma fill_zero (g : nat -> T) (v : list T) :
  (forall j, g j = zero) -> fill g v = replicate (length v) zero.
Proof.
  intros Hg. unfold fill. apply list_eq. intros i.
  rewrite list_lookup_imap. destruct (v !! i) as [x|] eqn:Hx; simpl.
  - rewrite Hg. symmetry. apply lookup_replicate_2. by eapply lookup_lt_Some.
  - symmetry. apply lookup_replicate_None. by apply lookup_ge_None.
Qed.

Lemma getRow_zeroBlock (block : ClusterAssemblyFunction T) (i n : nat) :
  zeroBlock block ->
  (getRow block i (replicate n zero)).2 = replicate n zero.
Proof.
  intros Hz. unfold getRow. case_match; simpl; [|done].
  rewrite fill_zero by apply (zero_getRow _ Hz). by rewrite length_replicate.
Qed.

Lemma getCol_zeroBlock (block : ClusterAssemblyFunction T) (j n : nat) :
  zeroBlock block ->
  (getCol block j (replicate n zero)).2 = replicate n zero.
Proof.
  intros Hz. unfold getCol. case_match; simpl; [|done].
  rewrite fill_zero by apply (zero_getCol _ Hz). by rewrite length_replicate.
Qed.

(** *** compressSvd *)
Lemma compressSvd_zeroBlock
    (truncatedSvd : FullMatrix T -> Z * FullMatrix T * list double * FullMatrix T)
    (findK : RkApproximationControl -> list double -> nat -> double -> nat)
    (approx : RkApproximationControl) (block : ClusterAssemblyFunction T) :
  zeroBlock block -> 0 < size (block_rows block) ->
  compressSvd truncatedSvd findK approx block =
  Ok {| a := None; rk_rows := block_rows block; b := None;
        rk_cols := block_cols block; method := NoCompression |}.
Proof.
  intros Hz Hr. unfold compressSvd. rewrite (zero_assemble _ Hz).
  apply compressMatrix_elementsZero; simpl; try done.
  - by rewrite length_replicate.
  - apply elementsZero_Zero.
Qed.

(** *** compressAcaFull *)
Lemma findMax_rows_Zero (n row col r c : nat) (best : nat * nat * double) :
  row + n <= r -> col < c -> Qltb best.2 (squaredNorm (zero (T:=T))) = false ->
  findMax_rows n row col (Zero r c) best = Ok best.
Proof.
  revert row. induction n as [|n IH]; intros row Hrow Hcol Hb; simpl; [done|].
  rewrite get_Zero by lia. simpl. rewrite Hb. apply IH; [lia|done|done].
Qed.

Lemma findMax_cols_Zero (n col r c : nat) (best : nat * nat * double) :
  col + n <= c -> Qltb best.2 (squaredNorm (zero (T:=T))) = false ->
  findMax_cols n col (Zero r c) best = Ok best.
Proof.
  revert col. induction n as [|n IH]; intros col Hcol Hb; simpl; [done|].
  rewrite findMax_rows_Zero by (try done; lia). simpl. apply IH; [lia|done].
Qed.

Lemma findMax_Zero (r c : nat) :
  0 < r -> 0 < c -> findMax (Zero (T:=T) r c) = Ok (0, 0).
Proof.
  intros Hr Hc. unfold findMax. rewrite get_Zero by done. simpl.
  rewrite findMax_cols_Zero; [done | simpl; lia | apply Qltb_irrefl].
Qed.

Lemma acaFull_body_Zero (epsilon : double) (s : AcaFullState T) (r c : nat) :
  fu_m s = Zero r c -> 0 < r -> 0 < c ->
  acaFull_body epsilon s = Ok (true, s).
Proof.
  intros Hm Hr Hc. unfold acaFull_body. rewrite Hm, findMax_Zero by done. simpl.
  rewrite get_Zero by done. simpl.
  assert (Qeq_bool (squaredNorm (zero (T:=T))) 0 = true) as ->; [|done].
  apply Qeq_bool_iff, squaredNorm_zero.
Qed.

Lemma compressAcaFull_zeroBlock (approx : RkApproximationControl)
    (block : ClusterAssemblyFunction T) :
  zeroBlock block ->
  compressAcaFull approx block =
  Ok {| a := None; rk_rows := block_rows block; b := None;
        rk_cols := block_cols block; method := AcaFull |}.
Proof.
  intros Hz. unfold compressAcaFull, acaFull_run, acaFull_init.
  rewrite (zero_assemble _ Hz).
  set (r := size (block_rows block)). set (c := size (block_cols block)).
  set (s0 := {| fu_m := Zero r c; fu_tmpA := _; fu_tmpB := _; fu_nu := 0;
                fu_estimateSquaredNorm := _ |}).
  assert (Hl : acaFull_loop (acaFull_maxK approx (Zero r c))
                 (assemblyEpsilon approx) s0 = Ok s0).
  { pose proof (acaFull_maxK_le approx (Zero (T:=T) r c)) as [Hle _]. simpl in Hle.
    destruct (acaFull_maxK approx (Zero r c)) as [|n]; [done|]. simpl.
    rewrite (acaFull_body_Zero _ s0 r c) by (try done; lia). done. }
  rewrite Hl. done.
Qed.

(** *** compressAcaPlus *)
Lemma findCol_loop_zeroBlock (n i : nat) (block : ClusterAssemblyFunction T)
    (colFree : list bool) (col : Vector T) :
  zeroBlock block -> 0 < length col -> i + n <= length colFree ->
  exists colFree' col', findCol_loop n i block colFree col = Ok (None, colFree', col').
Proof.
  intros Hz. revert i colFree col.
  induction n as [|n IH]; intros i colFree col Hcol Hlen; simpl; [eauto|].
  destruct (lookup_lt_is_Some_2 colFree i) as [fr Hfr]; [lia|].
  rewrite (rd_lookup _ _ _ Hfr). simpl. destruct fr.
  - unfold clear. rewrite getCol_zeroBlock by done.
    unfold wr. rewrite bool_decide_eq_true_2 by lia. simpl.
    rewrite isZero_replicate by done. simpl.
    apply IH; [by rewrite length_replicate | rewrite length_insert; lia].
  - apply IH; [done | lia].
Qed.

Lemma compressAcaPlus_zeroBlock (approx : RkApproximationControl)
    (block : ClusterAssemblyFunction T) :
  zeroBlock block -> 0 < size (block_rows block) ->
  compressAcaPlus approx block =
  Ok {| a := None; rk_rows := block_rows block; b := None;
        rk_cols := block_cols block; method := AcaPlus |}.
Proof.
  intros Hz Hr. unfold compressAcaPlus, acaPlus_run, findCol.
  destruct (findCol_loop_zeroBlock
              (length (replicate (size (block_cols block)) true)) 0 block
              (replicate (size (block_cols block)) true)
              (new_Vector (size (block_rows block))) Hz) as (cf & col & ->).
  - by rewrite new_Vector_length.
  - simpl. lia.
  - done.
Qed.

End ZeroBlockFacts.
(** *** compressAcaPartial *)
Section ZeroBlockPartial.
Context {T : Type} `{ScalarLaws T}.

Lemma argmaxFree_zero (n j c : nat) (free : list bool) (maxNorm2 : double)
    (best : nat) :
  j + n <= c -> j + n <= length free ->
  Qltb maxNorm2 (squaredNorm (zero (T:=T))) = false ->
  argmaxFree n j free (replicate c zero) maxNorm2 best = Ok best.
Proof.
  revert j. induction n as [|n IH]; intros j Hc Hf Hmx; simpl; [done|].
  rewrite (rd_lookup _ _ (zero (T:=T))) by (apply lookup_replicate_2; lia). simpl.
  destruct (lookup_lt_is_Some_2 free j) as [fr Hfr]; [lia|].
  rewrite (rd_lookup _ _ _ Hfr). simpl. rewrite Hmx, andb_false_r.
  apply IH; [lia|lia|done].
Qed.

Lemma nextFree_used (t : nat) (rest : list bool) (I : nat) :
  nextFree (replicate t false ++ true :: rest) I = Ok (I + t).
Proof.
  revert I. induction t as [|t IH]; intros I; simpl.
  - f_equal. lia.
  - rewrite IH. f_equal. lia.
Qed.

Lemma insert_used (t n : nat) :
  t < n ->
  <[t:=false]> (replicate t false ++ replicate (n - t) true) =
  replicate (S t) false ++ replicate (n - S t) true.
Proof.
  revert n. induction t as [|t IH]; intros [|n] Ht; try lia; simpl.
  - by rewrite Nat.sub_0_r.
  - f_equal. apply IH. lia.
Qed.

Lemma acaPartial_body_zeroBlock (block : ClusterAssemblyFunction T)
    (epsilon : double) (t : nat) (s : AcaPartialState T) :
  zeroBlock block -> 0 < size (block_cols block) ->
  S t < size (block_rows block) -> zeroRows block t s ->
  exists s', acaPartial_body block epsilon s = Ok (false, s') /\
             zeroRows block (S t) s'.
Proof.
  intros Hz Hc Ht (Hrf & Hcnt & HI & HJ & Hk & Ha & Hb & Hcf).
  unfold acaPartial_body. rewrite HI, HJ, Hk, Ha, Hb, Hrf.
  unfold new_Vector. rewrite getRow_zeroBlock by done. simpl.
  unfold wr. rewrite bool_decide_eq_true_2
    by (rewrite length_app, !length_replicate; lia). simpl.
  rewrite insert_used by lia.
  rewrite argmaxFree_zero; [|lia|lia|].
  2:{ apply Qltb_ge. rewrite squaredNorm_zero. apply Qle_refl. }
  simpl. rewrite (rd_lookup _ _ (zero (T:=T))) by (apply lookup_replicate_2; lia).
  simpl. rewrite seqb_zero_zero.
  replace (size (block_rows block) - S t)
    with (S (size (block_rows block) - S (S t))) by lia.
  simpl. rewrite nextFree_used. simpl.
  eexists. split; [done|]. unfold zeroRows; simpl.
  rewrite Hcnt. repeat split; try done.
  replace (size (block_rows block) - S t)
    with (S (size (block_rows block) - S (S t))) by lia.
  done.
Qed.

Lemma acaPartial_loop_zeroBlock (fuel : nat) (block : ClusterAssemblyFunction T)
    (epsilon : double) (t : nat) (s : AcaPartialState T) :
  zeroBlock block ->
  size (block_cols block) < size (block_rows block) ->
  t < size (block_cols block) -> size (block_cols block) - t <= fuel ->
  zeroRows block t s ->
  exists s', acaPartial_loop fuel block epsilon (size (block_cols block)) s = Ok s' /\
             pa_k s' = 0.
Proof.
  intros Hz Hcr. revert t s.
  induction fuel as [|fuel IH]; intros t s Ht Hfuel Hs; [lia|]. simpl.
  destruct (acaPartial_body_zeroBlock block epsilon t s) as (s1 & -> & Hs1);
    [done|lia|lia|done|]. simpl.
  pose proof Hs1 as (_ & Hcnt & _ & _ & Hk & _).
  case_bool_decide as Hlt.
  - apply (IH (S t)); [lia|lia|done].
  - eauto.
Qed.

Lemma compressAcaPartial_zeroBlock (approx : RkApproximationControl)
    (block : ClusterAssemblyFunction T) :
  zeroBlock block ->
  0 < size (block_cols block) ->
  size (block_cols block) < size (block_rows block) ->
  compressAcaPartial approx block =
  Ok {| a := None; rk_rows := block_rows block; b := None;
        rk_cols := block_cols block; method := AcaPartial |}.
Proof.
  intros Hz Hc Hcr. unfold compressAcaPartial, acaPartial_run.
  rewrite Nat.min_r by lia.
  destruct (acaPartial_loop_zeroBlock (S (size (block_cols block))) block
              (assemblyEpsilon approx) 0
              (acaPartial_init (size (block_rows block)) (size (block_cols block))))
    as (s' & -> & Hk); [done|done|done|lia| |].
  - unfold zeroRows, acaPartial_init; simpl. rewrite Nat.sub_0_r, length_replicate.
    done.
  - simpl. rewrite Hk. done.
Qed.

End ZeroBlockPartial.
(** ** Real scalars satisfy the laws *)

#[global] Instance Q_ScalarLaws : ScalarLaws Q.
Proof.
  split; simpl.
  - reflexivity.
  - apply Qabs_nonneg.
  - intros x. rewrite Qeq_bool_iff. split.
    + apply Qabs_case; intros Hx Hz; [done|].
      rewrite <- (Qopp_involutive x), Hz. reflexivity.
    + intros ->. reflexivity.
  - intros [p q]. unfold Qle. simpl. nia.
  - intros x. rewrite Qeq_bool_iff. split.
    + by intros [Hx|Hx]%Qmult_integral.
    + intros ->. reflexivity.
  - reflexivity.
  - intros x y. apply Qred_correct.
Qed.

(** ** The admissibility condition *)

Lemma std_min_Qmin (x y : Q) : (std_min x y == Qmin x y)%Q.
Proof.
  unfold std_min. destruct (Qltb y x) eqn:Hlt.
  - apply Qltb_lt in Hlt. symmetry. apply Q.min_r. by apply Qlt_le_weak.
  - apply Qltb_ge in Hlt. symmetry. by apply Q.min_l.
Qed.

Section AdmissibilityFacts.
Variable AxisAlignedBoundingBox : Type.
Variable new_AxisAlignedBoundingBox : ClusterData -> AxisAlignedBoundingBox.
Variable diameter : AxisAlignedBoundingBox -> double.
Variable distanceTo : AxisAlignedBoundingBox -> AxisAlignedBoundingBox -> double.

Abbreviation Node := (ClusterTree AxisAlignedBoundingBox).
Abbreviation boxOf := (bbox AxisAlignedBoundingBox new_AxisAlignedBoundingBox).
Abbreviation admissible :=
  (isAdmissible AxisAlignedBoundingBox new_AxisAlignedBoundingBox diameter distanceTo).

Lemma elements_no_wrap (r c : nat) :
  (Z.of_nat r <= INT_MAX)%Z -> (Z.of_nat c <= INT_MAX)%Z ->
  ((Z.of_nat r * Z.of_nat c) mod SIZE_MAX_plus_1 = Z.of_nat (r * c))%Z.
Proof.
  unfold INT_MAX, SIZE_MAX_plus_1. intros Hr Hc.
  rewrite Z.mod_small; [lia|]. split; [lia|]. nia.
Qed.

(** Past the size gates, [isAdmissible] evaluates the Hackbusch formula on
    the two boxes and hands back the nodes with their boxes cached. *)
Lemma isAdmissible_past_gates (this : StandardAdmissibilityCondition)
    (rows_ cols_ : Node) :
  2 <= size (data rows_) -> 2 <= size (data cols_) ->
  (if (Z.of_nat (size (data rows_)) <? 2)%Z || (Z.of_nat (size (data cols_)) <? 2)%Z
   then (false, rows_, cols_)
   else let '(rows_bbox, rows') := boxOf rows_ in
        let '(cols_bbox, cols') := boxOf cols_ in
        (Qle_bool (std_min (diameter rows_bbox) (diameter cols_bbox))
                  (eta_ this * distanceTo rows_bbox cols_bbox),
         rows', cols')) =
  (Qle_bool (std_min (diameter (boxOf rows_).1) (diameter (boxOf cols_).1))
            (eta_ this * distanceTo (boxOf rows_).1 (boxOf cols_).1),
   (boxOf rows_).2, (boxOf cols_).2).
Proof.
  intros H2r H2c.
  destruct (Z.ltb_spec (Z.of_nat (size (data rows_))) 2); [lia|].
  destruct (Z.ltb_spec (Z.of_nat (size (data cols_))) 2); [lia|]. simpl.
  by destruct (boxOf rows_), (boxOf cols_).
Qed.

(** The box that [isAdmissible] uses for a node: the one the node holds
    in [admissibilityAlgoData_], or, when it holds none, the one built from
    the data of the node. *)
Lemma bbox_fst (node : Node) :
  (boxOf node).1 =
    match admissibilityAlgoData_ node with
    | Some box => box
    | None => new_AxisAlignedBoundingBox (data node)
    end.
Proof. unfold bbox. by destruct (admissibilityAlgoData_ node). Qed.

(** C7: [isAdmissible] returns false whenever either cluster has fewer than
    2 indices; when the configured compression method is Svd or AcaFull it
    also returns false whenever rows.size * cols.size exceeds
    maxElementsPerBlock; and when the size gates pass, it returns true
    exactly when min(diameter(rows_box), diameter(cols_box)) <=
    eta * distance(rows_box, cols_box), where the box of a cluster is the
    one its node holds in admissibilityAlgoData_ or, when it holds none,
    the AxisAlignedBoundingBox built from the data of the node.  The sizes
    are those of C++ ints. *)
Theorem C7_isAdmissible_gates_and_hackbusch
    (this : StandardAdmissibilityCondition) (compressionMethod : CompressionMethod)
    (rows_ cols_ : Node) :
  (Z.of_nat (size (data rows_)) <= INT_MAX)%Z ->
  (Z.of_nat (size (data cols_)) <= INT_MAX)%Z ->
  let r := size (data rows_) in
  let c := size (data cols_) in
  let result := (admissible this compressionMethod rows_ cols_).1.1 in
  let rows_box :=
    match admissibilityAlgoData_ rows_ with
    | Some box => box
    | None => new_AxisAlignedBoundingBox (data rows_)
    end in
  let cols_box :=
    match admissibilityAlgoData_ cols_ with
    | Some box => box
    | None => new_AxisAlignedBoundingBox (data cols_)
    end in
  let hackbusch :=
    (Qmin (diameter rows_box) (diameter cols_box)
     <= eta_ this * distanceTo rows_box cols_box)%Q in
  (r < 2 \/ c < 2 -> result = false) /\
  (compressionMethod = Svd \/ compressionMethod = AcaFull ->
   (maxElementsPerBlock this < Z.of_nat (r * c))%Z -> result = false) /\
  (compressionMethod = Svd \/ compressionMethod = AcaFull ->
   2 <= r -> 2 <= c -> (Z.of_nat (r * c) <= maxElementsPerBlock this)%Z ->
   (result = true <-> hackbusch)) /\
  (compressionMethod = AcaPartial \/ compressionMethod = AcaPlus ->
   2 <= r -> 2 <= c -> (result = true <-> hackbusch)).
Proof.
  intros Hr Hc r c result rows_box cols_box hackbusch.
  subst result. unfold isAdmissible.
  rewrite (elements_no_wrap _ _ Hr Hc). fold r c.
  assert (Hhack : Qle_bool (std_min (diameter rows_box) (diameter cols_box))
                    (eta_ this * distanceTo rows_box cols_box) = true <-> hackbusch).
  { rewrite Qle_bool_iff. unfold hackbusch. by rewrite std_min_Qmin. }
  split; [|split; [|split]].
  - intros Hsmall.
    destruct (_ && _); [done|].
    destruct (Z.ltb_spec (Z.of_nat r) 2), (Z.ltb_spec (Z.of_nat c) 2); try done.
    lia.
  - intros [-> | ->] Hbig; simpl;
      (destruct (Z.ltb_spec (maxElementsPerBlock this) (Z.of_nat (r * c))); [done | lia]).
  - intros [-> | ->] H2r H2c Hle; simpl;
      (destruct (Z.ltb_spec (maxElementsPerBlock this) (Z.of_nat (r * c))); [lia|]);
      unfold r, c; rewrite isAdmissible_past_gates by done;
      rewrite !bbox_fst; exact Hhack.
  - intros [-> | ->] H2r H2c; simpl;
      unfold r, c; rewrite isAdmissible_past_gates by done;
      rewrite !bbox_fst; exact Hhack.
Qed.

End AdmissibilityFacts.

(** The gates and the criterion on two clusters of two points each that
    hold no box yet: the boxes built from their data have diameter 1 and
    are at distance 4, and eta = 2. *)
Lemma C7_isAdmissible_witness :
  (isAdmissible LineBox new_LineBox LineBox_diameter LineBox_distanceTo
     hackbusch2 Svd (node 0 2) (node 5 2)).1.1 = true <->
  (Qmin (LineBox_diameter (new_LineBox (data (node 0 2))))
        (LineBox_diameter (new_LineBox (data (node 5 2))))
   <= eta_ hackbusch2 *
      LineBox_distanceTo (new_LineBox (data (node 0 2)))
                         (new_LineBox (data (node 5 2))))%Q.
Proof.
  refine (proj1 (proj2 (proj2
    (C7_isAdmissible_gates_and_hackbusch LineBox new_LineBox LineBox_diameter
       LineBox_distanceTo hackbusch2 Svd (node 0 2) (node 5 2) _ _))) _ _ _ _).
  - vm_compute. discriminate.
  - vm_compute. discriminate.
  - left. reflexivity.
  - unfold size. simpl. lia.
  - unfold size. simpl. lia.
  - vm_compute. discriminate.
Defined.

(** C8: at a pair of clusters that passes the size gates, with the [always]
    flag set, [isAdmissible] still returns what the Hackbusch criterion
    gives: false for two boxes of diameter 3 at distance 1 with eta = 2. *)
Theorem C8_isAdmissible_ignores_always :
  always_ (setAlways hackbusch2 true) = true /\
  2 <= size (data (node 0 4)) /\ 2 <= size (data (node 4 4)) /\
  (Z.of_nat (size (data (node 0 4)) * size (data (node 4 4)))
   <= maxElementsPerBlock (setAlways hackbusch2 true))%Z /\
  (isAdmissible LineBox new_LineBox LineBox_diameter LineBox_distanceTo
     (setAlways hackbusch2 true) Svd (node 0 4) (node 4 4)).1.1 = false /\
  (isAdmissible LineBox new_LineBox LineBox_diameter LineBox_distanceTo
     (setAlways hackbusch2 true) AcaPlus (node 0 4) (node 4 4)).1.1 = false.
Proof. vm_compute. repeat split; try done; lia. Qed.
(** ** The kernel-assembly adapter *)

(** On a sparse block, at a null row, [getRow] makes no call to the kernel
    and leaves [result] as it is: it does not clear it. *)
Lemma getRow_null_row_skips {T : Type} `{Scalar T}
    (block : ClusterAssemblyFunction T) (index : nat) (result : Vector T) :
  block_type (info block) = hmat_block_sparse ->
  is_null_row (info block) index = true ->
  getRow block index result = ([], result).
Proof. intros Hs Hn. unfold getRow. by rewrite Hs, Hn. Qed.

(** C9: for every row index, when the block is sparse and its
    [is_null_row] predicate holds, [getRow] makes no call to the kernel and
    [result] holds the zero vector afterwards, at the vectors that the
    calls of compression.cpp pass: a vector just allocated, [Vector(n)],
    which is zero-initialised, or a vector just cleared, [clear()]. *)
Theorem C9_getRow_null_row {T : Type} `{Scalar T}
    (block : ClusterAssemblyFunction T) (index : nat) :
  block_type (info block) = hmat_block_sparse ->
  is_null_row (info block) index = true ->
  (forall n, getRow block index (new_Vector n) = ([], replicate n zero)) /\
  (forall v, getRow block index (clear v) = ([], replicate (length v) zero)).
Proof.
  intros Hs Hn. split; intros; by apply getRow_null_row_skips.
Qed.

Lemma C9_getRow_null_row_witness :
  (forall n,
     getRow (new_ClusterAssemblyFunction (nullRowsKernel [[5]]%Q) (cluster 1) (cluster 1))
            0 (new_Vector n) = ([], replicate n zero)) /\
  (forall v,
     getRow (new_ClusterAssemblyFunction (nullRowsKernel [[5]]%Q) (cluster 1) (cluster 1))
            0 (clear v) = ([], replicate (length v) zero)).
Proof.
  apply (C9_getRow_null_row
           (new_ClusterAssemblyFunction (nullRowsKernel [[5]]%Q) (cluster 1) (cluster 1))
           0); reflexivity.
Defined.
(** ** The compression engine *)

Section CompressionFacts.
Context {T : Type} `{Scalar T}.
Variable truncatedSvd : FullMatrix T -> Z * FullMatrix T * list double * FullMatrix T.
Variable findK : RkApproximationControl -> list double -> nat -> double -> nat.

(** C6: every non-empty Rk that one of the four compression algorithms
    returns has a factor A with row_cluster.size rows, a factor B with
    col_cluster.size rows, and as many columns in A as in B, the rank.  For
    AcaFull, which takes the shape from the assembled block, the kernel is
    supposed to assemble a block of the shape of the two clusters. *)
Theorem C6_rk_factors_shape (approx : RkApproximationControl)
    (method_ : CompressionMethod) (block : ClusterAssemblyFunction T)
    (rk : RkMatrix T) (A B : FullMatrix T) :
  (method_ = AcaFull ->
   rows (assemble block).2 = size (block_rows block) /\
   cols (assemble block).2 = size (block_cols block)) ->
  compressWithoutValidation truncatedSvd findK approx method_ block = Ok rk ->
  a rk = Some A -> b rk = Some B ->
  rows A = size (block_rows block) /\ rows B = size (block_cols block) /\
  cols A = cols B /\ cols A = rank rk.
Proof.
  intros Hdims Hc HA HB. destruct method_; simpl in Hc.
  - unfold compressSvd in Hc.
    apply compressMatrix_cases in Hc as (_ & _ & _ & _ & [(_ & Ha & _) | (_ & A' & B' & Ha & Hb & HrA & HrB & _ & Hcols & _)]).
    + congruence.
    + unfold rank. rewrite Ha. rewrite Ha in HA. rewrite Hb in HB.
      injection HA as <-. injection HB as <-. repeat split; congruence.
  - destruct Hdims as [Hr Hcs]; [done|].
    apply compressAcaFull_shape in Hc as (_ & _ & _ & Hshape).
    destruct (Hshape A B HA HB) as (? & ? & ? & ? & _). repeat split; congruence.
  - apply compressAcaPartial_shape in Hc as (_ & _ & Hshape).
    destruct (Hshape A B HA HB) as (? & ? & ? & ? & _). done.
  - apply compressAcaPlus_shape in Hc as (_ & _ & Hshape).
    destruct (Hshape A B HA HB) as (? & ? & ? & ? & _). done.
  - discriminate.
Qed.

(** C3, as the code has it: the rank of the Rk that a compression returns
    is at most min(rows, cols) for each of the four methods (for Svd,
    provided [findK] returns at most the [maxK] it is given); when the
    parameter k of the approximation control is positive, the rank that
    compressAcaFull returns is at most k as well.  compressAcaPartial and
    compressAcaPlus do not read k. *)
Theorem C3_rank_bounds_amended (approx : RkApproximationControl)
    (method_ : CompressionMethod) (block : ClusterAssemblyFunction T)
    (rk : RkMatrix T) :
  (method_ = Svd -> forall sigma maxK epsilon, findK approx sigma maxK epsilon <= maxK) ->
  (method_ = AcaFull ->
   rows (assemble block).2 = size (block_rows block) /\
   cols (assemble block).2 = size (block_cols block)) ->
  compressWithoutValidation truncatedSvd findK approx method_ block = Ok rk ->
  rank rk <= min (size (block_rows block)) (size (block_cols block)) /\
  (method_ = AcaFull -> 0 < approx_k approx -> rank rk <= approx_k approx).
Proof.
  intros HfindK Hdims Hc. destruct method_; simpl in Hc.
  - split; [|done]. unfold compressSvd in Hc.
    apply compressMatrix_cases in Hc as (Hr & Hcs & _ & _ & [(_ & Ha & _) | (_ & A' & B' & Ha & _ & _ & _ & Hk & _)]).
    + unfold rank. rewrite Ha. lia.
    + unfold rank. rewrite Ha, Hk, <- Hr, <- Hcs. by apply HfindK.
  - destruct Hdims as [Hr Hcs]; [done|].
    apply compressAcaFull_shape in Hc as (_ & Hle & Hk & _).
    rewrite Hr, Hcs in Hle. split; [done|]. intros _. apply Hk.
  - split; [|done]. by apply compressAcaPartial_shape in Hc as (_ & Hle & _).
  - split; [|done]. by apply compressAcaPlus_shape in Hc as (_ & Hle & _).
  - discriminate.
Qed.

End CompressionFacts.

Lemma findK_spec_le (approx : RkApproximationControl) (sigma : list double)
    (maxK : nat) (epsilon : double) :
  findK_spec approx sigma maxK epsilon <= maxK.
Proof.
  unfold findK_spec. generalize (default 0%Q (sigma !! 0)). intros sigma0.
  assert (Hgen : forall n start k, k <= start ->
    foldl (fun k i =>
             if Qltb (epsilon * sigma0) (default 0%Q (sigma !! i)) then S i else k)
          k (seq start n) <= start + n).
  { induction n as [|n IH]; intros start k Hk; simpl; [lia|].
    destruct (Qltb _ _).
    - specialize (IH (S start) (S start)). lia.
    - specialize (IH (S start) k). lia. }
  apply (Hgen maxK 0 0). lia.
Qed.

Lemma C6_rk_factors_shape_witness :
  rows {| m := [2; 1; 0; 1 # 2]%Q; rows := 2; cols := 2; lda := 2 |}
    = size (block_rows (denseBlock [[2; 1]; [1; 1]]%Q 2 2)) /\
  rows {| m := [1; 1 # 2; 0; 1]%Q; rows := 2; cols := 2; lda := 2 |}
    = size (block_cols (denseBlock [[2; 1]; [1; 1]]%Q 2 2)) /\
  cols {| m := [2; 1; 0; 1 # 2]%Q; rows := 2; cols := 2; lda := 2 |}
    = cols {| m := [1; 1 # 2; 0; 1]%Q; rows := 2; cols := 2; lda := 2 |} /\
  cols {| m := [2; 1; 0; 1 # 2]%Q; rows := 2; cols := 2; lda := 2 |}
    = rank {| a := Some {| m := [2; 1; 0; 1 # 2]%Q; rows := 2; cols := 2; lda := 2 |};
              rk_rows := cluster 2;
              b := Some {| m := [1; 1 # 2; 0; 1]%Q; rows := 2; cols := 2; lda := 2 |};
              rk_cols := cluster 2; method := AcaFull |}.
Proof.
  apply (C6_rk_factors_shape svdDiagonal findK_spec approx6 AcaFull
           (denseBlock [[2; 1]; [1; 1]]%Q 2 2)).
  - intros _. split; reflexivity.
  - vm_compute. reflexivity.
  - reflexivity.
  - reflexivity.
Defined.

Lemma C3_rank_bounds_witness :
  rank {| a := Some {| m := [4; 8; 12; 16; 20; 24]%Q; rows := 6; cols := 1; lda := 6 |};
          rk_rows := cluster 6;
          b := Some {| m := [1 # 4; 1 # 2; 3 # 4; 1]%Q; rows := 4; cols := 1; lda := 4 |};
          rk_cols := cluster 4; method := AcaFull |}
    <= min (size (cluster 6)) (size (cluster 4)) /\
  (AcaFull = AcaFull -> 0 < approx_k approx6_k1 ->
   rank {| a := Some {| m := [4; 8; 12; 16; 20; 24]%Q; rows := 6; cols := 1; lda := 6 |};
           rk_rows := cluster 6;
           b := Some {| m := [1 # 4; 1 # 2; 3 # 4; 1]%Q; rows := 4; cols := 1; lda := 4 |};
           rk_cols := cluster 4; method := AcaFull |}
     <= approx_k approx6_k1).
Proof.
  apply (C3_rank_bounds_amended svdDiagonal findK_spec approx6_k1 AcaFull
           (denseBlock [[1; 2; 3; 4]; [2; 4; 6; 8]; [3; 6; 9; 12]; [4; 8; 12; 16];
                        [5; 10; 15; 20]; [6; 12; 18; 24]]%Q 6 4)).
  - intros _. apply findK_spec_le.
  - intros _. split; reflexivity.
  - vm_compute. reflexivity.
Defined.

(** C3 fails as stated: with k = 1 in the approximation control,
    compressAcaPartial and compressAcaPlus both return a block of rank 2 for
    the 2 x 2 block (2 1; 1 1). *)
Lemma C3_rank_bounds_counterexample :
  0 < approx_k approx6_k1 /\
  (exists rk, compressAcaPartial approx6_k1 (denseBlock [[2; 1]; [1; 1]]%Q 2 2) = Ok rk /\
              rank rk = 2 /\ ~ rank rk <= approx_k approx6_k1) /\
  (exists rk, compressAcaPlus approx6_k1 (denseBlock [[2; 1]; [1; 1]]%Q 2 2) = Ok rk /\
              rank rk = 2 /\ ~ rank rk <= approx_k approx6_k1).
Proof.
  split; [simpl; lia|]. split.
  - eexists. split; [vm_compute; reflexivity|]. split; [reflexivity|].
    unfold rank. simpl. lia.
  - eexists. split; [vm_compute; reflexivity|]. split; [reflexivity|].
    unfold rank. simpl. lia.
Qed.
Lemma zeroBlock_zeroBlockOf {T : Type} `{Scalar T} (r c : nat) :
  zeroBlock (zeroBlockOf (T:=T) r c).
Proof. split; reflexivity. Qed.

(** C2, as the code has it: on a block with at least one row and one
    column whose every entry is zero, compressAcaFull and compressAcaPlus
    return an empty Rk tagged with their own method; compressSvd returns an
    empty Rk tagged NoCompression; compressAcaPartial returns an empty Rk
    tagged AcaPartial when the block has more rows than columns. *)
Theorem C2_zero_block_amended {T : Type} `{ScalarLaws T}
    (truncatedSvd : FullMatrix T -> Z * FullMatrix T * list double * FullMatrix T)
    (findK : RkApproximationControl -> list double -> nat -> double -> nat)
    (approx : RkApproximationControl) (block : ClusterAssemblyFunction T) :
  zeroBlock block ->
  0 < size (block_rows block) -> 0 < size (block_cols block) ->
  compressWithoutValidation truncatedSvd findK approx Svd block
    = Ok (emptyRk block NoCompression) /\
  compressWithoutValidation truncatedSvd findK approx AcaFull block
    = Ok (emptyRk block AcaFull) /\
  compressWithoutValidation truncatedSvd findK approx AcaPlus block
    = Ok (emptyRk block AcaPlus) /\
  (size (block_cols block) < size (block_rows block) ->
   compressWithoutValidation truncatedSvd findK approx AcaPartial block
     = Ok (emptyRk block AcaPartial)).
Proof.
  intros Hz Hr Hc. simpl. split; [|split; [|split]].
  - by apply compressSvd_zeroBlock.
  - by apply compressAcaFull_zeroBlock.
  - by apply compressAcaPlus_zeroBlock.
  - intros Hlt. by apply compressAcaPartial_zeroBlock.
Qed.

Lemma C2_zero_block_witness :
  compressWithoutValidation svdDiagonal findK_spec approx6 Svd (zeroBlockOf 3 2)
    = Ok (emptyRk (zeroBlockOf 3 2) NoCompression) /\
  compressWithoutValidation svdDiagonal findK_spec approx6 AcaFull (zeroBlockOf 3 2)
    = Ok (emptyRk (zeroBlockOf 3 2) AcaFull) /\
  compressWithoutValidation svdDiagonal findK_spec approx6 AcaPlus (zeroBlockOf 3 2)
    = Ok (emptyRk (zeroBlockOf 3 2) AcaPlus) /\
  (size (block_cols (zeroBlockOf (T:=Q) 3 2)) < size (block_rows (zeroBlockOf (T:=Q) 3 2)) ->
   compressWithoutValidation svdDiagonal findK_spec approx6 AcaPartial (zeroBlockOf 3 2)
     = Ok (emptyRk (zeroBlockOf 3 2) AcaPartial)).
Proof.
  apply (C2_zero_block_amended svdDiagonal findK_spec approx6 (zeroBlockOf 3 2)).
  - split; reflexivity.
  - unfold size. simpl. lia.
  - unfold size. simpl. lia.
Defined.

(** C2 fails as stated: for the method Svd, the empty Rk returned for the
    8 x 8 block of zeros carries the tag NoCompression, not Svd. *)
Lemma C2_zero_block_counterexample :
  zeroBlock (zeroBlockOf (T:=Q) 8 8) /\
  compress svdDiagonal findK_spec approx6 Svd zeroKernel (cluster 8) (cluster 8)
    = Ok (emptyRk (zeroBlockOf 8 8) NoCompression) /\
  method (emptyRk (zeroBlockOf (T:=Q) 8 8) NoCompression) <> Svd.
Proof.
  split; [apply zeroBlock_zeroBlockOf|]. split; [vm_compute; reflexivity|].
  discriminate.
Qed.

(** C4: on the 2 x 2 identity block, compressAcaPartial takes row 0 as its
    pivot row in both passes of its loop: rowPivotCount reaches 2 =
    min(rows, cols) with row 1 still free and a single pair accepted. *)
Theorem C4_acaPartial_reuses_pivot_row :
  exists s, acaPartial_run approx6 (denseBlock [[1; 0]; [0; 1]]%Q 2 2) = Ok s /\
    pa_pivotRows s = [0; 0] /\ pa_rowPivotCount s = 2 /\
    pa_rowFree s = [false; true] /\
    pa_k s = 1 /\ length (pa_aCols s) = 1 /\ length (pa_bCols s) = 1.
Proof. eexists. split; [vm_compute; reflexivity|]. repeat split. Qed.

(** C5: on the 2 x 2 block of zeros, the search for the next free row of
    compressAcaPartial runs after both rows were used: it reads rowFree[2],
    outside the array. *)
Theorem C5_acaPartial_free_row_search_out_of_bounds :
  nextFree [false; false] 0 = Undefined /\
  compressAcaPartial approx6 (zeroBlockOf (T:=Q) 2 2) = Undefined /\
  compressAcaPartial approx6 (zeroBlockOf (T:=Q) 8 8) = Undefined.
Proof. repeat split; vm_compute; reflexivity. Qed.

(** C1: on the 2 x 2 block (2 1; 1 1), compressAcaFull produces the pairs
    a_0 = (2, 1), b_0 = (1, 1/2) and a_1 = (0, 1/2), b_1 = (0, 1); after the
    second pair its estimate is 13/2, where the specified update gives 7:
    the cross term of the pair 1 with the pair 0 is left out. *)
Theorem C1_acaFull_estimate_misses_last_cross_term :
  exists s, acaFull_run approx6 (denseBlock [[2; 1]; [1; 1]]%Q 2 2) = Ok s /\
    fu_nu s = 2 /\
    m (fu_tmpA s) = [2; 1; 0; 1 # 2]%Q /\ m (fu_tmpB s) = [1; 1 # 2; 0; 1]%Q /\
    (fu_estimateSquaredNorm s == 13 # 2)%Q /\
    (spec_normUpdate (spec_normUpdate 0 [2; 1] [1; 1 # 2] [])%Q
                     [0; 1 # 2]%Q [0; 1]%Q [([2; 1], [1; 1 # 2])]%Q == 7)%Q.
Proof. eexists. split; [vm_compute; reflexivity|]. repeat split. Qed.
(** ** Contiguous storage *)
Section ContiguousStorage.
Context {T : Type} `{ScalarLaws T}.

(** The all-zero test of [compressMatrix] reads the storage with the stride
    [rows]: it does not depend on [lda]. *)
Lemma zeroMatrix_loop_stride (n col : nat) (mat mat' : FullMatrix T) :
  m mat = m mat' -> rows mat = rows mat' ->
  zeroMatrix_loop n col mat = zeroMatrix_loop n col mat'.
Proof.
  intros Hm Hr. revert col. induction n as [|n IH]; intros col; simpl; [done|].
  rewrite Hm, Hr. destruct (view _ _ _); simpl; try done.
  destruct (isZero _) as [[]| | |]; simpl; done.
Qed.

Lemma memcpy_lookup {A : Type} (dst : list A) (off : nat) (src dst' : list A) (i : nat) :
  memcpy dst off src = Ok dst' -> i < length src ->
  dst' !! (off + i) = src !! i.
Proof.
  intros [Hle ->]%memcpy_Ok Hi.
  rewrite lookup_app_r by (rewrite length_take; lia).
  rewrite length_take, Nat.min_l by lia.
  replace (off + i - off) with i by lia.
  by rewrite lookup_app_l.
Qed.

Lemma view_lookup {A : Type} (st : list A) (off len : nat) (v : list A) (i : nat) :
  view st off len = Ok v -> i < len -> v !! i = st !! (off + i).
Proof.
  intros [Hle ->]%view_Ok Hi. rewrite lookup_take_lt by done. apply lookup_drop.
Qed.

(** The column that a pass of the loop of [compressAcaFull] copies into
    [tmpA] is read from the storage of [m] at the offsets i + j_nu * rows. *)
Lemma acaFull_body_pivot_column (epsilon : double) (s s' : AcaFullState T)
    (brk : bool) (i_nu j_nu : nat) (delta : T) :
  findMax (fu_m s) = Ok (i_nu, j_nu) ->
  get (fu_m s) i_nu j_nu = Ok delta ->
  Qeq_bool (squaredNorm delta) 0 = false ->
  rows (fu_tmpA s) = rows (fu_m s) ->
  acaFull_body epsilon s = Ok (brk, s') ->
  forall i, i < rows (fu_m s) ->
    m (fu_tmpA s') !! (fu_nu s * rows (fu_tmpA s) + i) =
    m (fu_m s) !! (j_nu * rows (fu_m s) + i).
Proof.
  intros Hmax Hget Hdelta Hrows. unfold acaFull_body. rewrite Hmax. simpl.
  rewrite Hget. simpl. rewrite Hdelta. intros Hb i Hi. inv_Ok Hb. simpl.
  match goal with
  | Hm : memcpy _ _ ?src = Ok _, Hv : view (m (fu_m s)) _ _ = Ok ?src |- _ =>
      pose proof (view_length _ _ _ _ Hv) as Hlen;
      rewrite (memcpy_lookup _ _ _ _ i Hm) by lia;
      rewrite (view_lookup _ _ _ _ i Hv) by lia
  end.
  done.
Qed.

(** C10, as the code has it.  The all-zero test of [compressMatrix] and the
    copy of the pivot column of [compressAcaFull] read element (i, j) of the
    block at the offset i + j * rows.  On contiguous storage (lda = rows),
    [compressMatrix] returns an empty Rk when every element of the block is
    zero, and otherwise only when [findK] selects the rank 0; and the column
    that [compressAcaFull] copies into [tmpA] is column j_nu of the
    residual matrix. *)
Theorem C10_contiguous_storage_amended
    (truncatedSvd : FullMatrix T -> Z * FullMatrix T * list double * FullMatrix T)
    (findK : RkApproximationControl -> list double -> nat -> double -> nat)
    (approx : RkApproximationControl) (mat : FullMatrix T)
    (rows_ cols_ : ClusterData) (epsilon : double) (s : AcaFullState T) :
  lda mat = rows mat -> 0 < rows mat ->
  rows mat * cols mat <= length (m mat) ->
  lda (fu_m s) = rows (fu_m s) ->
  lda (fu_tmpA s) = rows (fu_tmpA s) ->
  rows (fu_tmpA s) = rows (fu_m s) ->
  (forall rk, compressMatrix truncatedSvd findK approx mat rows_ cols_ = Ok rk ->
     (isEmpty rk = true <->
      elementsZero mat \/
      findK approx (truncatedSvd mat).1.2 (min (rows mat) (cols mat))
            (assemblyEpsilon approx) = 0)) /\
  (rows mat = size rows_ -> cols mat = size cols_ -> elementsZero mat ->
   compressMatrix truncatedSvd findK approx mat rows_ cols_
     = Ok {| a := None; rk_rows := rows_; b := None; rk_cols := cols_;
             method := NoCompression |}) /\
  (forall brk s' i_nu j_nu delta,
     findMax (fu_m s) = Ok (i_nu, j_nu) ->
     get (fu_m s) i_nu j_nu = Ok delta ->
     Qeq_bool (squaredNorm delta) 0 = false ->
     acaFull_body epsilon s = Ok (brk, s') ->
     forall i, i < rows (fu_m s) ->
       exists x, get (fu_tmpA s') i (fu_nu s) = Ok x /\ get (fu_m s) i j_nu = Ok x).
Proof.
  intros Hlda Hr Hlen HldaM HldaA HrowsA. split; [|split].
  - intros rk. by apply compressMatrix_empty_iff.
  - intros Hrows Hcols Hez. by apply compressMatrix_elementsZero.
  - intros brk s' i_nu j_nu delta Hmax Hget Hdelta Hb i Hi.
    pose proof (acaFull_body_pivot_column _ _ _ _ _ _ _ Hmax Hget Hdelta HrowsA Hb i Hi)
      as Hcol.
    pose proof (acaFull_body_step _ _ _ _ Hb) as (_ & _ & _ & _ & _ & _ & HldaA' & _).
    assert (Hsrc : is_Some (m (fu_m s) !! (j_nu * rows (fu_m s) + i))).
    { revert Hb. unfold acaFull_body. rewrite Hmax. simpl. rewrite Hget. simpl.
      rewrite Hdelta. intros Hb. inv_Ok Hb.
      match goal with Hv : view (m (fu_m s)) _ _ = Ok _ |- _ =>
        apply view_Ok in Hv as [Hle _] end.
      apply lookup_lt_is_Some_2. rewrite HrowsA in Hle. lia. }
    destruct Hsrc as [x Hx]. exists x. unfold get.
    rewrite HldaA', HldaA, HldaM. split; apply rd_lookup.
    + replace (i + fu_nu s * rows (fu_tmpA s)) with (fu_nu s * rows (fu_tmpA s) + i) by lia.
      congruence.
    + replace (i + j_nu * rows (fu_m s)) with (j_nu * rows (fu_m s) + i) by lia. done.
Qed.

End ContiguousStorage.
Lemma C10_contiguous_storage_witness :
  (rows (Zero (T:=Q) 2 2) = size (cluster 2) -> cols (Zero (T:=Q) 2 2) = size (cluster 2) ->
   elementsZero (Zero (T:=Q) 2 2) ->
   compressMatrix svdDiagonal findK_spec approx6 (Zero 2 2) (cluster 2) (cluster 2)
     = Ok {| a := None; rk_rows := cluster 2; b := None; rk_cols := cluster 2;
             method := NoCompression |}) /\
  (forall brk s' i_nu j_nu delta,
     findMax (fu_m (acaFull_init approx6 mat2111)) = Ok (i_nu, j_nu) ->
     get (fu_m (acaFull_init approx6 mat2111)) i_nu j_nu = Ok delta ->
     Qeq_bool (squaredNorm delta) 0 = false ->
     acaFull_body (assemblyEpsilon approx6) (acaFull_init approx6 mat2111) = Ok (brk, s') ->
     forall i, i < rows (fu_m (acaFull_init approx6 mat2111)) ->
       exists x, get (fu_tmpA s') i (fu_nu (acaFull_init approx6 mat2111)) = Ok x /\
                 get (fu_m (acaFull_init approx6 mat2111)) i j_nu = Ok x).
Proof.
  refine (proj2 (C10_contiguous_storage_amended svdDiagonal findK_spec approx6
            (Zero 2 2) (cluster 2) (cluster 2) (assemblyEpsilon approx6)
            (acaFull_init approx6 mat2111) _ _ _ _ _ _)).
  - reflexivity.
  - simpl. lia.
  - simpl. lia.
  - reflexivity.
  - reflexivity.
  - reflexivity.
Defined.

(** C10 fails as stated: with the tolerance 1, [findK] selects the rank 0
    for the contiguous block (2 0; 0 1) and [compressMatrix] returns an
    empty Rk, although the block is not zero. *)
Lemma C10_contiguous_storage_counterexample :
  lda diag21 = rows diag21 /\
  compressMatrix svdDiagonal findK_spec approx1 diag21 (cluster 2) (cluster 2)
    = Ok {| a := None; rk_rows := cluster 2; b := None; rk_cols := cluster 2;
            method := NoCompression |} /\
  ~ elementsZero diag21.
Proof.
  split; [reflexivity|]. split; [vm_compute; reflexivity|].
  intros Hez. destruct (Hez 0 0) as (x & Hx & Hz); [simpl; lia | simpl; lia |].
  vm_compute in Hx. injection Hx as <-. vm_compute in Hz. discriminate.
Qed.

(** Without contiguous storage the all-zero test looks at the padding: the
    1 x 2 block of zeros stored with lda = 2 does not pass it. *)
Lemma zeroMatrix_loop_reads_padding :
  elementsZero paddedZeros /\
  zeroMatrix_loop (cols paddedZeros) 0 paddedZeros = Ok false.
Proof.
  split; [|vm_compute; reflexivity].
  intros i j Hi Hj. simpl in Hi, Hj.
  assert (i = 0) as -> by lia.
  destruct j as [|[|j]]; [| |lia]; exists 0%Q; split; reflexivity.
Qed.
(** ** The running estimate of the squared norm *)
Section NormEstimateFacts.
Context {T : Type} `{ScalarLaws T}.

Lemma dot_Ok (x y : Vector T) (d : T) : dot x y = Ok d -> d = dot_c x y.
Proof. unfold dot. intros Hd. inv_Ok Hd. done. Qed.

Lemma normSqr_Ok (v : Vector T) (n : double) :
  normSqr v = Ok n -> n = real (dot_c v v).
Proof. unfold normSqr. intros Hn. inv_Ok Hn. f_equal. by apply dot_Ok. Qed.

(** The loop that sums the cross terms computes the real part of the sum of
    the products <a_k, a_l> <b_k, b_l> for l from [l] to [l + n - 1]. *)
Lemma crossTerms_real (n l : nat) (aVec bVec : Vector T)
    (aCols bCols : list (Vector T)) (accQ : double) (accT : T) (r : double) :
  crossTerms n l aVec bVec aCols bCols accQ = Ok r ->
  (accQ == real accT)%Q ->
  (r == real (foldl (fun acc p => sadd acc (smul (dot_c aVec p.1) (dot_c bVec p.2)))
                    accT (zip (take n (drop l aCols)) (take n (drop l bCols)))))%Q.
Proof.
  revert l accQ accT. induction n as [|n IH]; intros l accQ accT; simpl.
  - intros [= <-] Hacc. exact Hacc.
  - intros Hc Hacc. inv_Ok Hc.
    repeat match goal with
    | Hr : rd _ _ = Ok _ |- _ => apply rd_Ok in Hr
    | Hd : dot _ _ = Ok _ |- _ => apply dot_Ok in Hd; subst
    end.
    match goal with
    | Ha : aCols !! l = Some ?al, Hb : bCols !! l = Some ?bl |- _ =>
        rewrite (drop_S _ _ _ Ha), (drop_S _ _ _ Hb)
    end.
    simpl. apply (IH _ _ _ Hc). rewrite real_sadd, Hacc. reflexivity.
Qed.

Lemma crossTerms_spec (k : nat) (aVec bVec : Vector T)
    (aCols bCols : list (Vector T)) (r : double) :
  length aCols = k -> length bCols = k ->
  crossTerms k 0 aVec bVec (aCols ++ [aVec]) (bCols ++ [bVec]) 0 = Ok r ->
  (r == real (spec_crossSum aVec bVec (zip aCols bCols)))%Q.
Proof.
  intros Ha Hb Hc.
  apply (crossTerms_real _ _ _ _ _ _ _ zero) in Hc; [|by rewrite real_zero].
  rewrite !drop_0 in Hc.
  rewrite <- Ha in Hc at 1. rewrite take_app_length in Hc.
  rewrite <- Hb in Hc. rewrite take_app_length in Hc. exact Hc.
Qed.

(** compressAcaPartial: a pass of the loop that accepts the pair (a_k, b_k)
    updates the estimate as specified, with the cross terms of every prior
    pair. *)
Lemma acaPartial_body_estimate (block : ClusterAssemblyFunction T)
    (epsilon : double) (s s' : AcaPartialState T) (brk : bool) :
  acaPartial_body block epsilon s = Ok (brk, s') ->
  acaPartial_inv block s ->
  pa_k s' = S (pa_k s) ->
  exists a_k b_k,
    pa_aCols s' = pa_aCols s ++ [a_k] /\ pa_bCols s' = pa_bCols s ++ [b_k] /\
    (pa_estimateSquaredNorm s' ==
     spec_normUpdate (pa_estimateSquaredNorm s) a_k b_k
                     (zip (pa_aCols s) (pa_bCols s)))%Q.
Proof.
  unfold acaPartial_body. intros Hb Hinv Hk. inv_Ok Hb.
  match type of Hb with (if ?c then _ else _) = _ => destruct c end; inv_Ok Hb.
  { simpl in Hk. lia. }
  simpl. eexists _, _. split; [done|]. split; [done|].
  unfold spec_normUpdate.
  repeat match goal with
  | Hn : normSqr _ = Ok _ |- _ => apply normSqr_Ok in Hn; subst
  | Hc : crossTerms _ _ _ _ _ _ _ = Ok _ |- _ =>
      apply crossTerms_spec in Hc;
        [rewrite Hc | apply (pa_inv_aCols _ _ Hinv) | apply (pa_inv_bCols _ _ Hinv)]
  end.
  reflexivity.
Qed.

(** compressAcaPlus: every pass of the loop updates the estimate as
    specified, with the cross terms of every prior pair. *)
Lemma acaPlus_body_estimate (block : ClusterAssemblyFunction T)
    (epsilon : double) (s s' : AcaPlusState T) (brk : bool) :
  acaPlus_body block epsilon s = Ok (brk, s') ->
  acaPlus_inv block s ->
  exists a_k b_k,
    pl_aCols s' = pl_aCols s ++ [a_k] /\ pl_bCols s' = pl_bCols s ++ [b_k] /\
    (pl_estimateSquaredNorm s' ==
     spec_normUpdate (pl_estimateSquaredNorm s) a_k b_k
                     (zip (pl_aCols s) (pl_bCols s)))%Q.
Proof.
  unfold acaPlus_body. intros Hb Hinv. inv_Ok Hb.
  destruct x as [[[i_star j_star] aVec] bVec]. inv_Ok Hb.
  assert (Hest : forall ne na nb : double,
    crossTerms (pl_k s) 0 aVec bVec (pl_aCols s ++ [aVec]) (pl_bCols s ++ [bVec]) 0
      = Ok ne ->
    normSqr aVec = Ok na -> normSqr bVec = Ok nb ->
    (pl_estimateSquaredNorm s + 2 * ne + na * nb ==
     spec_normUpdate (pl_estimateSquaredNorm s) aVec bVec
       (zip (pl_aCols s) (pl_bCols s)))%Q).
  { intros ne na nb Hc ->%normSqr_Ok ->%normSqr_Ok.
    apply crossTerms_spec in Hc;
      [|apply (pl_inv_aCols _ _ Hinv) | apply (pl_inv_bCols _ _ Hinv)].
    unfold spec_normUpdate. rewrite Hc. reflexivity. }
  exists aVec, bVec.
  match type of Hb with (if ?c then _ else _) = _ => destruct c end.
  - inv_Ok Hb. simpl. split; [done|]. split; [done|]. by apply Hest.
  - apply acaPlus_refresh_step in Hb as (-> & -> & _ & -> & _). simpl.
    split; [done|]. split; [done|]. by apply Hest.
Qed.

End NormEstimateFacts.
Section NormEstimateFull.
Context {T : Type} `{ScalarLaws T}.

Lemma view_column (mat : FullMatrix T) (l : nat) (v : Vector T) :
  view (m mat) (l * rows mat) (rows mat) = Ok v -> v = column mat l.
Proof. by intros [_ ->]%view_Ok. Qed.

Lemma crossTermsFull_real (n l : nat) (va_nu vb_nu : Vector T)
    (tmpA tmpB : FullMatrix T) (accQ : double) (accT : T) (r : double) :
  crossTermsFull n l va_nu vb_nu tmpA tmpB accQ = Ok r ->
  (accQ == real accT)%Q ->
  (r == real (foldl (fun acc p => sadd acc (smul (dot_c va_nu p.1) (dot_c vb_nu p.2)))
                    accT (map (fun l => (column tmpA l, column tmpB l)) (seq l n))))%Q.
Proof.
  revert l accQ accT. induction n as [|n IH]; intros l accQ accT; simpl.
  - intros [= <-] Hacc. exact Hacc.
  - intros Hc Hacc. inv_Ok Hc.
    repeat match goal with
    | Hv : view _ _ _ = Ok _ |- _ => apply view_column in Hv; subst
    | Hd : dot _ _ = Ok _ |- _ => apply dot_Ok in Hd; subst
    end.
    apply (IH _ _ _ Hc). rewrite real_sadd, Hacc. reflexivity.
Qed.

(** compressAcaFull: a pass of the loop that produces the pair number nu
    adds the cross terms of the pairs 0 to nu - 2 only: the pair nu - 1 is
    not in the sum. *)
Lemma acaFull_body_estimate (epsilon : double) (s s' : AcaFullState T)
    (brk : bool) (i_nu j_nu : nat) (delta : T) :
  findMax (fu_m s) = Ok (i_nu, j_nu) ->
  get (fu_m s) i_nu j_nu = Ok delta ->
  Qeq_bool (squaredNorm delta) 0 = false ->
  acaFull_body epsilon s = Ok (brk, s') ->
  (fu_estimateSquaredNorm s' ==
   spec_normUpdate (fu_estimateSquaredNorm s)
     (column (fu_tmpA s') (fu_nu s)) (column (fu_tmpB s') (fu_nu s))
     (columnPairs (fu_tmpA s') (fu_tmpB s') (fu_nu s - 1)))%Q.
Proof.
  intros Hmax Hget Hdelta. unfold acaFull_body. rewrite Hmax. simpl.
  rewrite Hget. simpl. rewrite Hdelta. intros Hb. inv_Ok Hb. simpl.
  repeat match goal with
  | Hn : normSqr _ = Ok _ |- _ => apply normSqr_Ok in Hn; subst
  | Hc : crossTermsFull _ _ _ _ _ _ _ = Ok _ |- _ =>
      apply (crossTermsFull_real _ _ _ _ _ _ _ zero) in Hc; [|by rewrite real_zero]
  end.
  repeat match goal with
  | Hv : view (m ?mat) (fu_nu s * rows ?mat) (rows ?mat) = Ok _ |- _ =>
      apply view_column in Hv; subst
  end.
  match goal with
  | Hv : view ?st (fu_nu s * rows (fu_tmpA s)) (rows (fu_tmpA s)) = Ok ?v |- _ =>
      apply view_Ok in Hv as [_ Hv];
      change (v = column (with_m (fu_tmpA s) st) (fu_nu s)) in Hv; subst v
  end.
  unfold spec_normUpdate, spec_crossSum, columnPairs.
  match goal with Hc : (_ == real _)%Q |- _ => rewrite Hc end.
  reflexivity.
Qed.

End NormEstimateFull.
(** ** No compression runs out of the bounds given to the loops of the model *)
Section CompressTermination.
Context {T : Type} `{Scalar T}.
Variable truncatedSvd : FullMatrix T -> Z * FullMatrix T * list double * FullMatrix T.
Variable findK : RkApproximationControl -> list double -> nat -> double -> nat.

Lemma terminates_get (mat : FullMatrix T) (i j : nat) : terminates (get mat i j).
Proof. apply terminates_rd. Qed.

Lemma terminates_put (mat : FullMatrix T) (i j : nat) (x : T) :
  terminates (put mat i j x).
Proof. unfold put. terminates_tac. Qed.

Hint Resolve terminates_get terminates_put : terminates.

Lemma terminates_findMax_rows (n row col : nat) (mat : FullMatrix T)
    (best : nat * nat * double) :
  terminates (findMax_rows n row col mat best).
Proof.
  revert row best. induction n as [|n IH]; intros row best; simpl; terminates_tac.
Qed.

Hint Resolve terminates_findMax_rows : terminates.

Lemma terminates_findMax_cols (n col : nat) (mat : FullMatrix T)
    (best : nat * nat * double) :
  terminates (findMax_cols n col mat best).
Proof.
  revert col best. induction n as [|n IH]; intros col best; simpl; terminates_tac.
Qed.

Hint Resolve terminates_findMax_cols : terminates.

Lemma terminates_findMax (mat : FullMatrix T) : terminates (findMax mat).
Proof. unfold findMax. terminates_tac. Qed.

Lemma terminates_fillB (n j : nat) (mat : FullMatrix T) (i_nu nu : nat) (delta : T)
    (tmpB : FullMatrix T) :
  terminates (fillB n j mat i_nu nu delta tmpB).
Proof.
  revert j tmpB. induction n as [|n IH]; intros j tmpB; simpl; terminates_tac.
Qed.

Lemma terminates_ger_rows (n i j : nat) (temp : T) (x A : list T) (ld : nat) :
  terminates (ger_rows n i j temp x A ld).
Proof.
  revert i A. induction n as [|n IH]; intros i A; simpl; terminates_tac.
Qed.

Hint Resolve terminates_ger_rows : terminates.

Lemma terminates_ger (M N : nat) (alpha : T) (x y A : list T) (ld : nat) :
  terminates (ger M N alpha x y A ld).
Proof.
  unfold ger. generalize 0 at 1. revert A.
  induction N as [|N IH]; intros A j; simpl; terminates_tac.
Qed.

Lemma terminates_crossTermsFull (n l : nat) (va_nu vb_nu : Vector T)
    (tmpA tmpB : FullMatrix T) (e : double) :
  terminates (crossTermsFull n l va_nu vb_nu tmpA tmpB e).
Proof.
  revert l e. induction n as [|n IH]; intros l e; simpl; terminates_tac.
Qed.

Hint Resolve terminates_findMax terminates_fillB terminates_ger
  terminates_crossTermsFull : terminates.

Lemma terminates_acaFull_body (epsilon : double) (s : AcaFullState T) :
  terminates (acaFull_body epsilon s).
Proof. unfold acaFull_body. terminates_tac. Qed.

Hint Resolve terminates_acaFull_body : terminates.

Lemma terminates_acaFull_loop (n : nat) (epsilon : double) (s : AcaFullState T) :
  terminates (acaFull_loop n epsilon s).
Proof.
  revert s. induction n as [|n IH]; intros s; simpl; terminates_tac.
Qed.

Lemma terminates_compressAcaFull (approx : RkApproximationControl)
    (block : ClusterAssemblyFunction T) :
  terminates (compressAcaFull approx block).
Proof.
  unfold compressAcaFull, acaFull_run.
  apply terminates_bind; [apply terminates_acaFull_loop|].
  intros s _. terminates_tac.
Qed.

Lemma terminates_zeroMatrix_loop (n col : nat) (mat : FullMatrix T) :
  terminates (zeroMatrix_loop n col mat).
Proof.
  revert col. induction n as [|n IH]; intros col; simpl; terminates_tac.
Qed.

Lemma terminates_scaleU_rows (n row col : nat) (sigma : list double)
    (u : FullMatrix T) :
  terminates (scaleU_rows n row col sigma u).
Proof.
  revert row u. induction n as [|n IH]; intros row u; simpl; terminates_tac.
Qed.

Hint Resolve terminates_scaleU_rows : terminates.

Lemma terminates_scaleU_cols (n col rowCount : nat) (sigma : list double)
    (u : FullMatrix T) :
  terminates (scaleU_cols n col rowCount sigma u).
Proof.
  revert col u. induction n as [|n IH]; intros col u; simpl; terminates_tac.
Qed.

Lemma terminates_copy_cols (n col : nat) (src result : FullMatrix T) :
  terminates (copy_cols n col src result).
Proof.
  revert col result. induction n as [|n IH]; intros col result; simpl; terminates_tac.
Qed.

Hint Resolve terminates_copy_cols : terminates.

Lemma terminates_copy (src : FullMatrix T) : terminates (copy src).
Proof. unfold copy. terminates_tac. Qed.

Lemma terminates_copyAndTranspose_j (n i j : nat) (src result : FullMatrix T) :
  terminates (copyAndTranspose_j n i j src result).
Proof.
  revert j result. induction n as [|n IH]; intros j result; simpl; terminates_tac.
Qed.

Hint Resolve terminates_copyAndTranspose_j : terminates.

Lemma terminates_copyAndTranspose (src : FullMatrix T) :
  terminates (copyAndTranspose src).
Proof.
  unfold copyAndTranspose. generalize 0. generalize (new_FullMatrix (cols src) (rows src)).
  induction (rows src) as [|n IH]; intros result i; simpl; terminates_tac.
Qed.

Lemma terminates_wrap_FullMatrix (data : list T) (r c : nat) (ld : option nat) :
  terminates (wrap_FullMatrix data r c ld).
Proof. unfold wrap_FullMatrix. terminates_tac. Qed.

Hint Resolve terminates_zeroMatrix_loop terminates_scaleU_cols terminates_copy
  terminates_copyAndTranspose terminates_wrap_FullMatrix : terminates.

Lemma terminates_compressMatrix (approx : RkApproximationControl)
    (mat : FullMatrix T) (rows_ cols_ : ClusterData) :
  terminates (compressMatrix truncatedSvd findK approx mat rows_ cols_).
Proof.
  unfold compressMatrix.
  repeat (apply terminates_bind; [auto with terminates|]; intros ? ?).
  match goal with |- terminates (if ?c then _ else _) => destruct c end; [done|].
  destruct (truncatedSvd mat) as [[[svd_info u] sigma] vt]. terminates_tac.
Qed.

(** Every compression ends with a result, an assertion failure or an access
    out of bounds. *)
Lemma terminates_compressWithoutValidation (approx : RkApproximationControl)
    (method_ : CompressionMethod) (block : ClusterAssemblyFunction T) :
  terminates (compressWithoutValidation truncatedSvd findK approx method_ block).
Proof.
  destruct method_; simpl.
  - apply terminates_compressMatrix.
  - apply terminates_compressAcaFull.
  - apply terminates_compressAcaPartial.
  - apply terminates_compressAcaPlus.
  - done.
Qed.

End CompressTermination.
(** ** The accepted pairs *)
Section AcceptedPairs.
Context {T : Type} `{Scalar T}.

(** When compressAcaPartial ends, it holds as many column vectors as row
    vectors, and their number is the rank that it returns. *)
Lemma acaPartial_pairs_count (approx : RkApproximationControl)
    (block : ClusterAssemblyFunction T) (s : AcaPartialState T) (rk : RkMatrix T) :
  acaPartial_run approx block = Ok s ->
  compressAcaPartial approx block = Ok rk ->
  length (pa_aCols s) = pa_k s /\ length (pa_bCols s) = pa_k s /\ rank rk = pa_k s.
Proof.
  intros Hs Hc. pose proof (acaPartial_run_inv _ _ _ Hs) as [Hinv _].
  split; [apply (pa_inv_aCols _ _ Hinv)|]. split; [apply (pa_inv_bCols _ _ Hinv)|].
  unfold compressAcaPartial in Hc. rewrite Hs in Hc. simpl in Hc.
  case_bool_decide as Hk; inv_Ok Hc; unfold rank; simpl.
  - match goal with Hcc : copyCols _ _ (new_FullMatrix _ _) (pa_aCols s) = Ok _ |- _ =>
      by apply copyCols_shape in Hcc as (_ & -> & _) end.
  - lia.
Qed.

(** The same for compressAcaPlus. *)
Lemma acaPlus_pairs_count (approx : RkApproximationControl)
    (block : ClusterAssemblyFunction T) (s : AcaPlusState T) (rk : RkMatrix T) :
  acaPlus_run approx block = Ok (Some s) ->
  compressAcaPlus approx block = Ok rk ->
  length (pl_aCols s) = pl_k s /\ length (pl_bCols s) = pl_k s /\ rank rk = pl_k s.
Proof.
  intros Hs Hc. pose proof (acaPlus_run_inv _ _ _ Hs) as [Hinv _].
  split; [apply (pl_inv_aCols _ _ Hinv)|]. split; [apply (pl_inv_bCols _ _ Hinv)|].
  unfold compressAcaPlus in Hc. rewrite Hs in Hc. simpl in Hc.
  inv_Ok Hc. unfold rank; simpl.
  match goal with Hcc : copyCols _ _ (new_FullMatrix _ _) (pl_aCols s) = Ok _ |- _ =>
    by apply copyCols_shape in Hcc as (_ & -> & _) end.
Qed.

End AcceptedPairs.
(** ** Complex scalars satisfy the laws *)

Lemma Qplus_nonneg_zero (p q : Q) :
  (0 <= p)%Q -> (0 <= q)%Q -> (p + q == 0)%Q -> (p == 0)%Q /\ (q == 0)%Q.
Proof.
  destruct p as [a b], q as [c d]. unfold Qle, Qeq, Qplus. simpl.
  pose proof (Pos2Z.is_pos b). pose proof (Pos2Z.is_pos d). intros Ha Hc Hs.
  split; nia.
Qed.

Lemma Qabs_zero_iff (x : Q) : (Qabs x == 0)%Q <-> (x == 0)%Q.
Proof.
  split.
  - apply Qabs_case; intros Hx Hz; [done|].
    rewrite <- (Qopp_involutive x), Hz. reflexivity.
  - intros ->. reflexivity.
Qed.

Lemma Qsquare_nonneg (x : Q) : (0 <= x * x)%Q.
Proof. destruct x as [p q]. unfold Qle. simpl. nia. Qed.

Lemma Qsquare_zero_iff (x : Q) : (x * x == 0)%Q <-> (x == 0)%Q.
Proof.
  split.
  - by intros [Hx|Hx]%Qmult_integral.
  - intros ->. reflexivity.
Qed.

Lemma Qplus_nonneg (p q : Q) : (0 <= p)%Q -> (0 <= q)%Q -> (0 <= p + q)%Q.
Proof.
  intros Hp Hq. change 0%Q with (0 + 0)%Q. by apply Qplus_le_compat.
Qed.

#[global] Instance Complex_ScalarLaws : ScalarLaws Complex.
Proof.
  split.
  - reflexivity.
  - intros [a b]. apply Qplus_nonneg; apply Qabs_nonneg.
  - intros [a b]. cbn [seqb abs1 zero Complex_Scalar fst snd].
    rewrite andb_true_iff, !Qeq_bool_iff. split.
    + intros [Ha Hb]%Qplus_nonneg_zero; try apply Qabs_nonneg.
      split; by apply Qabs_zero_iff.
    + intros [Ha Hb]. apply Qabs_zero_iff in Ha, Hb.
      setoid_rewrite Ha. setoid_rewrite Hb. reflexivity.
  - intros [a b]. apply Qplus_nonneg; apply Qsquare_nonneg.
  - intros [a b]. cbn [seqb squaredNorm zero Complex_Scalar fst snd].
    rewrite andb_true_iff, !Qeq_bool_iff. split.
    + intros [Ha Hb]%Qplus_nonneg_zero; try apply Qsquare_nonneg.
      split; by apply Qsquare_zero_iff.
    + intros [Ha Hb]. apply Qsquare_zero_iff in Ha, Hb.
      setoid_rewrite Ha. setoid_rewrite Hb. reflexivity.
  - reflexivity.
  - intros [a b] [c d]. apply Qred_correct.
Qed.

(** The dot product conjugates its first argument: <i, i> = 1. *)
Example dot_c_conjugates_left :
  dot_c [(0, 1)%Q : Complex] [(0, 1)%Q : Complex] = (1, 0)%Q.
Proof. reflexivity. Qed.

(** The scenarios of the specification on which the model can be run. *)

(** The 6 x 4 block u v^T with u = (1..6) and v = (1..4): compressAcaFull
    returns the rank 1 and the product A B^T is the block. *)
Example rank1_block_AcaFull :
  compressAcaFull approx6
    (denseBlock [[1; 2; 3; 4]; [2; 4; 6; 8]; [3; 6; 9; 12]; [4; 8; 12; 16];
                 [5; 10; 15; 20]; [6; 12; 18; 24]]%Q 6 4)
  = Ok {| a := Some {| m := [4; 8; 12; 16; 20; 24]%Q; rows := 6; cols := 1; lda := 6 |};
          rk_rows := cluster 6;
          b := Some {| m := [1 # 4; 1 # 2; 3 # 4; 1]%Q; rows := 4; cols := 1; lda := 4 |};
          rk_cols := cluster 4; method := AcaFull |}.
Proof. vm_compute. reflexivity. Qed.

(** Two clusters with boxes of diameter 1 at distance 4, eta = 2:
    admissible. *)
Example hackbusch_far_blocks :
  (isAdmissible LineBox new_LineBox LineBox_diameter LineBox_distanceTo
     hackbusch2 Svd (node 0 2) (node 5 2)).1.1 = true.
Proof. vm_compute. reflexivity. Qed.

(** compressAcaPartial and compressAcaPlus on the complex block
    (i 1; 1 i). *)
Example complex_block_AcaPartial :
  exists rk, compressAcaPartial approx6
               (denseBlock [[(0, 1); (1, 0)]; [(1, 0); (0, 1)]]%Q 2 2) = Ok rk /\
             rank rk = 2.
Proof. eexists. split; [vm_compute; reflexivity | reflexivity]. Qed.

Example complex_block_AcaPlus :
  exists rk, compressAcaPlus approx6
               (denseBlock [[(0, 1); (1, 0)]; [(1, 0); (0, 1)]]%Q 2 2) = Ok rk /\
             rank rk = 2.
Proof. eexists. split; [vm_compute; reflexivity | reflexivity]. Qed.

(** * More properties of the dense matrices, of the pivot searches and of
    the admissibility condition *)

Lemma int_mul_Ok (x y : nat) :
  (Z.of_nat (x * y) <= INT_MAX)%Z -> int_mul x y = Ok (x * y).
Proof. intros Hle. unfold int_mul. by rewrite bool_decide_true. Qed.

(** ** Storage of a dense matrix *)

Lemma offset_inj (ld i j i' j' : nat) :
  i < ld -> i' < ld -> i + j * ld = i' + j' * ld -> i = i' /\ j = j'.
Proof.
  intros Hi Hi' Heq.
  assert (j = j') as ->.
  { destruct (Nat.lt_trichotomy j j') as [Hlt|[->|Hlt]]; [exfalso| done |exfalso]; nia. }
  split; [lia | done].
Qed.

Lemma offset_lt (ld r c i j : nat) :
  r <= ld -> i < r -> j < c -> i + j * ld < ld * c.
Proof. intros. nia. Qed.

Lemma memcpy_succeeds {A : Type} (dst : list A) (off : nat) (src : list A) :
  off + length src <= length dst ->
  memcpy dst off src = Ok (take off dst ++ src ++ drop (off + length src) dst).
Proof. intros Hle. unfold memcpy. by rewrite bool_decide_true. Qed.

Lemma view_succeeds {A : Type} (st : list A) (off len : nat) :
  off + len <= length st -> view st off len = Ok (take len (drop off st)).
Proof. intros Hle. unfold view. by rewrite bool_decide_true. Qed.

Lemma memcpy_lookup_other {A : Type} (dst : list A) (off : nat) (src dst' : list A)
    (i : nat) :
  memcpy dst off src = Ok dst' -> i < off \/ off + length src <= i ->
  dst' !! i = dst !! i.
Proof.
  intros [Hle ->]%memcpy_Ok [Hi|Hi].
  - rewrite lookup_app_l by (rewrite length_take; lia).
    by rewrite lookup_take_lt.
  - rewrite lookup_app_r by (rewrite length_take; lia).
    rewrite length_take, Nat.min_l by lia.
    rewrite lookup_app_r by lia.
    rewrite lookup_drop. f_equal. lia.
Qed.

Lemma wr_succeeds {A : Type} (v : list A) (i : nat) (x : A) :
  i < length v -> wr v i x = Ok (<[i:=x]> v).
Proof. intros Hi. unfold wr. by rewrite bool_decide_true. Qed.

Section StorageFacts.
Context {T : Type} `{Scalar T}.

Lemma get_element (mat : FullMatrix T) (i j : nat) (x : T) :
  get mat i j = Ok x <-> element mat i j x.
Proof.
  unfold get, element, rd. destruct (m mat !! _); split; congruence.
Qed.

Lemma put_Ok (mat : FullMatrix T) (i j : nat) (x : T) (mat' : FullMatrix T) :
  put mat i j x = Ok mat' ->
  i + j * lda mat < length (m mat) /\
  mat' = with_m mat (<[i + j * lda mat := x]> (m mat)).
Proof.
  unfold put. intros Hp. inv_Ok Hp.
  match goal with Hw : wr _ _ _ = Ok _ |- _ => apply wr_Ok in Hw as [? ->] end.
  done.
Qed.

Lemma put_succeeds (mat : FullMatrix T) (i j : nat) (x : T) :
  i + j * lda mat < length (m mat) ->
  put mat i j x = Ok (with_m mat (<[i + j * lda mat := x]> (m mat))).
Proof. intros Hi. unfold put. by rewrite wr_succeeds. Qed.

Lemma allocated_offset (mat : FullMatrix T) (i j : nat) :
  allocated mat -> i < rows mat -> j < cols mat ->
  i + j * lda mat < length (m mat).
Proof. intros [Hr Hl] Hi Hj. pose proof (offset_lt (lda mat) (rows mat) (cols mat) i j). lia. Qed.

Lemma allocated_get (mat : FullMatrix T) (i j : nat) :
  allocated mat -> i < rows mat -> j < cols mat ->
  exists x, get mat i j = Ok x.
Proof.
  intros Ha Hi Hj. pose proof (allocated_offset mat i j Ha Hi Hj) as Hlt.
  apply lookup_lt_is_Some_2 in Hlt as [x Hx]. exists x. by apply get_element.
Qed.

Lemma get_elt (a : FullMatrix T) (i j : nat) (x : T) :
  get a i j = Ok x -> elt a i j = x.
Proof. intros Hg%get_element. unfold elt. unfold element in Hg. by rewrite Hg. Qed.

Lemma put_elt (a a' : FullMatrix T) (i j : nat) (x : T) :
  put a i j x = Ok a' -> i < lda a ->
  rows a' = rows a /\ cols a' = cols a /\ lda a' = lda a /\
  length (m a') = length (m a) /\
  elt a' i j = x /\
  (forall i' j', i' < lda a -> (i', j') <> (i, j) -> elt a' i' j' = elt a i' j').
Proof.
  intros [Hlt ->]%put_Ok Hi. simpl.
  do 3 (split; [done|]). split; [by rewrite length_insert|]. split.
  - unfold elt. simpl. by rewrite list_lookup_insert_eq.
  - intros i' j' Hi' Hne. unfold elt. simpl.
    rewrite list_lookup_insert_ne; [done|].
    intros Heq. apply offset_inj in Heq; [|lia..]. destruct Heq. congruence.
Qed.

Lemma elt_get (a : FullMatrix T) (i j : nat) :
  i + j * lda a < length (m a) -> get a i j = Ok (elt a i j).
Proof.
  intros Hlt. unfold get, rd, elt.
  by destruct (lookup_lt_is_Some_2 _ _ Hlt) as [x ->].
Qed.

End StorageFacts.

Lemma memcpy_spec {A : Type} (dst : list A) (off : nat) (src : list A) :
  off + length src <= length dst ->
  exists dst',
    memcpy dst off src = Ok dst' /\
    length dst' = length dst /\
    (forall i, i < length src -> dst' !! (off + i) = src !! i) /\
    (forall o, o < off \/ off + length src <= o -> dst' !! o = dst !! o).
Proof.
  intros Hle. pose proof (memcpy_succeeds dst off src Hle) as Hm.
  eexists. split; [exact Hm|].
  split; [by eapply memcpy_length|]. split.
  - intros i Hi. by eapply memcpy_lookup.
  - intros o Ho. by eapply memcpy_lookup_other.
Qed.

Lemma foldl_ext_in {A B : Type} (f g : A -> B -> A) (l : list B) (a : A) :
  (forall acc x, x ∈ l -> f acc x = g acc x) -> foldl f a l = foldl g a l.
Proof.
  revert a. induction l as [|x l IH]; intros a Hfg; simpl; [done|].
  rewrite Hfg by apply list_elem_of_here.
  apply IH. intros acc y Hy. apply Hfg. by apply list_elem_of_further.
Qed.

Section TransposeFacts.
Context {T : Type} `{Scalar T}.

Lemma storedAs_ext (r c : nat) (m0 : list T) (src src' : nat -> nat -> nat)
    (this : FullMatrix T) :
  (forall i j, i < r -> j < c -> src i j = src' i j) ->
  storedAs r c m0 src this -> storedAs r c m0 src' this.
Proof.
  intros Hext (Hr & Hc & Hl & Hlen & Hin & Hout).
  repeat (split; [done|]). split; [|done].
  intros i j Hi Hj. rewrite <- Hext by done. by apply Hin.
Qed.

(** The inner loop of the square case exchanges the elements (row, col) and
    (col, row) for the rows it visits. *)
Lemma transpose_rows_spec (n : nat) (m0 : list T) (col k : nat) :
  forall (row : nat) (this : FullMatrix T),
  col < n -> n * n <= length m0 -> row + k <= col ->
  storedAs n n m0
    (fun i j => if (j =? col) && (i <? row) || (i =? col) && (j <? row)
                then j + i * n else i + j * n) this ->
  exists this',
    transpose_rows k row col this = Ok this' /\
    storedAs n n m0
      (fun i j => if (j =? col) && (i <? row + k) || (i =? col) && (j <? row + k)
                  then j + i * n else i + j * n) this'.
Proof.
  induction k as [|k IH]; intros row this Hcol Hlen Hk Hinv.
  - exists this. split; [done|]. by rewrite Nat.add_0_r.
  - destruct Hinv as (Hr & Hc & Hl & Hlen' & Hin & Hout).
    assert (row < n) as Hrow by lia.
    assert (row + col * n < length m0) as Ho1 by nia.
    assert (col + row * n < length m0) as Ho2 by nia.
    destruct (lookup_lt_is_Some_2 _ _ Ho1) as [tmp Htmp].
    destruct (lookup_lt_is_Some_2 _ _ Ho2) as [x Hx].
    assert (get this row col = Ok tmp) as Hg1.
    { apply get_element. unfold element. rewrite Hl, (Hin row col) by lia.
      replace ((col =? col) && (row <? row) || (row =? col) && (col <? row))
        with false; [done|].
      symmetry. apply orb_false_iff.
      split; apply andb_false_iff; [right | left]; [apply Nat.ltb_ge | apply Nat.eqb_neq]; lia. }
    assert (get this col row = Ok x) as Hg2.
    { apply get_element. unfold element. rewrite Hl, (Hin col row) by lia.
      replace ((row =? col) && (col <? row) || (col =? col) && (row <? row))
        with false; [done|].
      symmetry. apply orb_false_iff.
      split; apply andb_false_iff; [left | right]; [apply Nat.eqb_neq | apply Nat.ltb_ge]; lia. }
    simpl. rewrite Hg1. simpl. rewrite Hg2. simpl.
    rewrite put_succeeds by (rewrite Hl; lia). simpl.
    rewrite put_succeeds by (simpl; rewrite length_insert, Hl; lia). simpl.
    rewrite Hl.
    replace (row + S k) with (S row + k) by lia.
    apply IH; [done | done | lia |].
    repeat (split; [simpl; rewrite ?length_insert; done|]).
    split.
    + intros i j Hi Hj. simpl.
      destruct (decide (i = col /\ j = row)) as [[-> ->]|Hne1].
      { rewrite list_lookup_insert_eq by (rewrite length_insert; lia).
        rewrite Nat.eqb_refl.
        replace (row <? S row) with true by (symmetry; apply Nat.ltb_lt; lia).
        simpl. rewrite orb_true_r. done. }
      rewrite list_lookup_insert_ne.
      2:{ intros Heq. apply offset_inj in Heq; [|lia..]. lia. }
      destruct (decide (i = row /\ j = col)) as [[-> ->]|Hne2].
      { rewrite list_lookup_insert_eq by lia.
        rewrite Nat.eqb_refl.
        replace (row <? S row) with true by (symmetry; apply Nat.ltb_lt; lia).
        simpl. done. }
      rewrite list_lookup_insert_ne.
      2:{ intros Heq. apply offset_inj in Heq; [|lia..]. lia. }
      rewrite Hin by done.
      replace ((j =? col) && (i <? S row) || (i =? col) && (j <? S row))
        with ((j =? col) && (i <? row) || (i =? col) && (j <? row)); [done|].
      destruct (Nat.eqb_spec j col), (Nat.eqb_spec i col),
        (Nat.ltb_spec i row), (Nat.ltb_spec i (S row)),
        (Nat.ltb_spec j row), (Nat.ltb_spec j (S row)); simpl; try done; lia.
    + intros off Hoff. simpl.
      rewrite !list_lookup_insert_ne by nia.
      by apply Hout.
Qed.

Lemma transpose_cols_spec (n : nat) (m0 : list T) (k : nat) :
  forall (c : nat) (this : FullMatrix T),
  n * n <= length m0 -> c + k <= n ->
  storedAs n n m0
    (fun i j => if (i <? c) && (j <? c) then j + i * n else i + j * n) this ->
  exists this',
    transpose_cols k c this = Ok this' /\
    storedAs n n m0
      (fun i j => if (i <? c + k) && (j <? c + k) then j + i * n else i + j * n) this'.
Proof.
  induction k as [|k IH]; intros c this Hlen Hk Hinv.
  - exists this. split; [done|]. by rewrite Nat.add_0_r.
  - destruct Hinv as (Hr & Hc & Hl & Hlen' & Hin & Hout).
    destruct (transpose_rows_spec n (m this) c c 0 this) as (this1 & Hrun & Hinv1);
      [lia | lia | lia | |].
    { repeat (split; [done|]). split; [|done].
      intros i j Hi Hj.
      replace ((j =? c) && (i <? 0) || (i =? c) && (j <? 0)) with false; [done|].
      destruct (j =? c), (i =? c); done. }
    simpl. rewrite Hrun. simpl.
    replace (c + S k) with (S c + k) by lia.
    apply IH; [done | lia |].
    destruct Hinv1 as (Hr1 & Hc1 & Hl1 & Hlen1 & Hin1 & Hout1).
    repeat (split; [done || congruence|]). split.
    + intros i j Hi Hj. rewrite Hin1 by done. simpl.
      destruct (Nat.eqb_spec j c) as [Hjc|Hjc], (Nat.eqb_spec i c) as [Hic|Hic],
        (Nat.ltb_spec i c), (Nat.ltb_spec j c),
        (Nat.ltb_spec i (S c)), (Nat.ltb_spec j (S c)); simpl; try lia;
        rewrite Hin by lia;
        repeat match goal with
        | |- context [?a <? ?b] => destruct (Nat.ltb_spec a b); try lia
        end; simpl; try done; by subst.
    + intros off Hoff. rewrite Hout1 by done. by apply Hout.
Qed.

End TransposeFacts.

Section CopyAtOffsetFacts.
Context {T : Type} `{Scalar T}.



End CopyAtOffsetFacts.

Section CopyAtOffsetTheorems.
Context {T : Type} `{Scalar T}.

Lemma offset_split (r c off : nat) :
  off < r * c -> exists i j, i < r /\ j < c /\ off = i + j * r.
Proof.
  intros Hlt. assert (r <> 0) as Hr by (intros ->; simpl in Hlt; lia).
  exists (off mod r), (off / r).
  pose proof (Nat.mod_upper_bound off r Hr).
  pose proof (Nat.div_mod off r Hr).
  split; [done|]. split; [|lia].
  apply Nat.Div0.div_lt_upper_bound. lia.
Qed.

(** [copyMatrixAtOffset(a, 0, 0)] of a whole matrix, both matrices being
    stored contiguously: the memcpy path, which computes no offset. *)
Lemma copyMatrixAtOffset_whole (this a : FullMatrix T) :
  allocated this -> allocated a ->
  rows a = rows this -> cols a = cols this ->
  lda a = rows a -> lda this = rows this ->
  exists this',
    copyMatrixAtOffset this a 0 0 = Ok this' /\
    rows this' = rows this /\ cols this' = cols this /\ lda this' = lda this /\
    length (m this') = length (m this) /\
    (forall i j, i < rows a -> j < cols a ->
       m this' !! (0 + i + (0 + j) * lda this) = m a !! (i + j * lda a)) /\
    (forall off,
       (forall i j, i < rows a -> j < cols a ->
          off <> 0 + i + (0 + j) * lda this) ->
       m this' !! off = m this !! off).
Proof.
  intros Hal Ha Hra Hca Hla Hlt. unfold copyMatrixAtOffset.
  rewrite (bool_decide_true (0 + rows a <= rows this)) by lia.
  rewrite (bool_decide_true (0 + cols a <= cols this)) by lia. simpl.
  rewrite (bool_decide_true (rows a = rows this)) by done.
  rewrite (bool_decide_true (cols a = cols this)) by done.
  rewrite (bool_decide_true (lda a = rows a)) by done.
  rewrite (bool_decide_true (lda this = rows this)) by done. simpl.
  destruct Ha as [Har Hall], Hal as [Hthr Hthl].
  assert (rows this * cols this <= length (m a)) as Hsrc by (nia).
  rewrite view_succeeds by (simpl; lia). simpl.
  assert (length (take (rows this * cols this) (drop 0 (m a))) = rows this * cols this)
    as Hlen by (rewrite length_take, length_drop; lia).
  destruct (memcpy_spec (m this) 0 (take (rows this * cols this) (drop 0 (m a))))
    as (data & Hm & Hlen' & Hw & Ho); [rewrite Hlen; nia|].
  rewrite Hm. simpl.
  eexists. split; [done|]. simpl.
  repeat (split; [done|]). split.
  + intros i j Hi Hj.
    specialize (Hw (i + j * lda this)). rewrite Hlen in Hw.
    change (0 + (i + j * lda this)) with (i + j * lda this) in Hw.
    rewrite Hw by nia.
    rewrite lookup_take_lt by nia. rewrite lookup_drop. f_equal. lia.
  + intros off Hoff.
    apply Ho. right. rewrite Hlen.
    destruct (decide (rows this * cols this <= off)) as [|Hlt']; [lia|exfalso].
    destruct (offset_split (rows this) (cols this) off) as (i & j & Hi & Hj & ->); [lia|].
    apply (Hoff i j); lia.
Qed.



End CopyAtOffsetTheorems.

Section TransposeTheorems.
Context {T : Type} `{Scalar T}.

Lemma transpose_fill_j_spec (r c : nat) (m0 : list T) (tmp : FullMatrix T) (i k : nat) :
  forall (j0 : nat) (this : FullMatrix T),
  r * c <= length m0 -> lda tmp = r ->
  (forall i' j', i' < c -> j' < r -> m tmp !! (j' + i' * r) = m0 !! (j' + i' * r)) ->
  i < c -> j0 + k <= r ->
  storedAs c r m0
    (fun i' j' => if (i' <? i) || (i' =? i) && (j' <? j0)
                  then j' + i' * r else i' + j' * c) this ->
  exists this',
    transpose_fill_j k i j0 tmp this = Ok this' /\
    storedAs c r m0
      (fun i' j' => if (i' <? i) || (i' =? i) && (j' <? j0 + k)
                    then j' + i' * r else i' + j' * c) this'.
Proof.
  induction k as [|k IH]; intros j0 this Hlen Hlt Htmp Hi Hk Hinv.
  - exists this. split; [done|]. by rewrite Nat.add_0_r.
  - destruct Hinv as (Hr & Hc & Hl & Hlen' & Hin & Hout).
    assert (j0 + i * r < length m0) as Ho by nia.
    destruct (lookup_lt_is_Some_2 _ _ Ho) as [x Hx].
    assert (get tmp j0 i = Ok x) as Hg.
    { apply get_element. unfold element. rewrite Hlt, Htmp by lia. done. }
    simpl. rewrite Hg. simpl.
    rewrite put_succeeds by (rewrite Hl, Hlen'; nia). simpl.
    replace (j0 + S k) with (S j0 + k) by lia.
    apply IH; [done | done | done | done | lia |].
    repeat (split; [simpl; rewrite ?length_insert; done|]).
    rewrite Hl. split.
    + intros i' j' Hi' Hj'. simpl.
      destruct (decide (i' = i /\ j' = j0)) as [[-> ->]|Hne].
      { rewrite list_lookup_insert_eq by (rewrite Hlen'; nia).
        rewrite Nat.eqb_refl.
        replace (j0 <? S j0) with true by (symmetry; apply Nat.ltb_lt; lia).
        rewrite orb_true_r. done. }
      rewrite list_lookup_insert_ne.
      2:{ intros Heq. apply offset_inj in Heq; [|lia..]. lia. }
      rewrite Hin by done.
      destruct (Nat.ltb_spec i' i), (Nat.eqb_spec i' i),
        (Nat.ltb_spec j' j0), (Nat.ltb_spec j' (S j0)); simpl; try done; lia.
    + intros off Hoff. simpl.
      rewrite list_lookup_insert_ne by nia. by apply Hout.
Qed.

Lemma transpose_fill_i_spec (r c : nat) (m0 : list T) (tmp : FullMatrix T) (k : nat) :
  forall (i0 : nat) (this : FullMatrix T),
  r * c <= length m0 -> lda tmp = r ->
  (forall i' j', i' < c -> j' < r -> m tmp !! (j' + i' * r) = m0 !! (j' + i' * r)) ->
  i0 + k <= c ->
  storedAs c r m0
    (fun i' j' => if i' <? i0 then j' + i' * r else i' + j' * c) this ->
  exists this',
    transpose_fill_i k i0 tmp this = Ok this' /\
    storedAs c r m0
      (fun i' j' => if i' <? i0 + k then j' + i' * r else i' + j' * c) this'.
Proof.
  induction k as [|k IH]; intros i0 this Hlen Hlt Htmp Hk Hinv.
  - exists this. split; [done|]. by rewrite Nat.add_0_r.
  - destruct (transpose_fill_j_spec r c m0 tmp i0 r 0 this) as (this1 & Hrun & Hinv1);
      [done | done | done | lia | lia | |].
    { eapply storedAs_ext; [|exact Hinv]. intros i' j' _ _. simpl.
      destruct (i' <? i0), (i' =? i0); done. }
    simpl. destruct Hinv as (Hr & Hc & Hl & Hlen' & Hin & Hout).
    rewrite Hc, Hrun. simpl.
    replace (i0 + S k) with (S i0 + k) by lia.
    apply IH; [done | done | done | lia |].
    eapply storedAs_ext; [|exact Hinv1]. intros i' j' Hi' Hj'. simpl.
    destruct (Nat.ltb_spec i' i0), (Nat.eqb_spec i' i0),
      (Nat.ltb_spec j' r), (Nat.ltb_spec i' (S i0)); simpl; try done; lia.
Qed.

(** The storage after [transpose()]: element (i, j) is the former element
    (j, i), in the square case as in the other. *)
Lemma transpose_stored (this : FullMatrix T) (fz : Factorization T) :
  lda this = rows this -> rows this * cols this <= length (m this) ->
  exists this',
    transpose this fz =
      Ok (this', if triUpper_ fz then with_tri fz false true
                 else if triLower_ fz then with_tri fz true false else fz) /\
    storedAs (cols this) (rows this) (m this) (fun i j => j + i * rows this) this'.
Proof.
  intros Hl Hlen. unfold transpose.
  rewrite (bool_decide_true (lda this = rows this)) by done. simpl.
  case_bool_decide as Hsq.
  - destruct (transpose_cols_spec (cols this) (m this) (cols this) 0 this)
      as (this' & Hrun & Hinv); [nia | lia | |].
    { split; [done|]. split; [done|]. split; [congruence|]. split; [done|].
      split; [|done]. intros i j _ _. simpl. done. }
    rewrite Hrun. simpl. exists this'. split; [done|].
    rewrite Hsq. eapply storedAs_ext; [|exact Hinv].
    intros i j Hi Hj. simpl.
    destruct (Nat.ltb_spec i (cols this)), (Nat.ltb_spec j (cols this)); simpl; try lia.
  - destruct (copyMatrixAtOffset_whole (new_FullMatrix (rows this) (cols this)) this)
      as (tmp & Hcp & Htr & Htc & Htl & Htlen & Htin & _).
    { split; simpl; [done|]. by rewrite length_replicate. }
    { split; [lia|]. rewrite Hl. done. }
    { simpl. done. }
    { simpl. done. }
    { done. }
    { simpl. done. }
    rewrite Hcp. simpl.
    destruct (transpose_fill_i_spec (rows this) (cols this) (m this) tmp (cols this) 0
                {| m := m this; rows := cols this; cols := rows this; lda := cols this |})
      as (this' & Hrun & Hinv); [nia | done | | lia | |].
    { intros i' j' Hi' Hj'. specialize (Htin j' i' Hj' Hi').
      simpl in Htin. rewrite Htin, Hl. done. }
    { split; [done|]. split; [done|]. split; [done|]. split; [done|].
      split; [|done]. intros i j _ _. done. }
    rewrite Hrun. simpl. exists this'. split; [done|].
    eapply storedAs_ext; [|exact Hinv].
    intros i j Hi Hj. simpl.
    destruct (Nat.ltb_spec i (cols this)); simpl; lia.
Qed.

End TransposeTheorems.

Section TransposeProperties.
Context {T : Type} `{Scalar T}.

(** X1: [transpose()] of a matrix stored contiguously (lda = rows)
    returns, exchanges [rows] and [cols], sets lda to the new number of rows
    and makes element (i, j) the former element (j, i), in the square case
    (exchanges in place) as in the rectangular one (through a temporary
    copy); the flags triUpper and triLower are exchanged when at most one
    of them is set, and [pivots] and [diagonal] are left as they are. *)
Theorem transpose_elements (this : FullMatrix T) (fz : Factorization T) :
  lda this = rows this -> rows this * cols this <= length (m this) ->
  exists this' fz',
    transpose this fz = Ok (this', fz') /\
    rows this' = cols this /\ cols this' = rows this /\ lda this' = cols this /\
    (forall i j, i < cols this -> j < rows this -> get this' i j = get this j i) /\
    (triUpper_ fz && triLower_ fz = false ->
     triUpper_ fz' = triLower_ fz /\ triLower_ fz' = triUpper_ fz) /\
    pivots fz' = pivots fz /\ diagonal fz' = diagonal fz.
Proof.
  intros Hl Hlen.
  destruct (transpose_stored this fz Hl Hlen)
    as (this' & Hrun & Hr & Hc & Hl' & Hlen' & Hin & Hout).
  eexists this', _. split; [exact Hrun|].
  repeat (split; [done|]). split; [|split].
  - intros i j Hi Hj. unfold get, rd. rewrite Hl', Hl, Hin by done. done.
  - intros Hflags.
    destruct (triUpper_ fz) eqn:Hu, (triLower_ fz) eqn:Hlw; simpl in *; done.
  - destruct (triUpper_ fz), (triLower_ fz); simpl; done.
Qed.

(** X2: transposing twice a matrix whose storage holds exactly its
    rows * cols elements gives back the matrix, its storage and its flags
    (at most one of triUpper and triLower being set). *)
Theorem transpose_involutive (this : FullMatrix T) (fz : Factorization T) :
  lda this = rows this -> length (m this) = rows this * cols this ->
  triUpper_ fz && triLower_ fz = false ->
  exists this' fz',
    transpose this fz = Ok (this', fz') /\
    transpose this' fz' = Ok (this, fz).
Proof.
  intros Hl Hlen Hflags.
  destruct (transpose_stored this fz Hl) as (this' & Hrun & Hinv); [lia|].
  pose proof Hinv as (Hr & Hc & Hl' & Hlen' & Hin & Hout).
  destruct (transpose_stored this'
              (if triUpper_ fz then with_tri fz false true
               else if triLower_ fz then with_tri fz true false else fz))
    as (this'' & Hrun' & Hr'' & Hc'' & Hl'' & Hlen'' & Hin'' & Hout'');
    [congruence | rewrite Hr, Hc, Hlen'; lia |].
  eexists this', _. split; [exact Hrun|].
  rewrite Hrun'. f_equal. f_equal.
  - destruct this as [d r c l], this'' as [d'' r'' c'' l'']. simpl in *.
    assert (d'' = d) as ->; [|congruence].
    apply list_eq. intros off.
    destruct (decide (off < r * c)) as [Hlt|Hge].
    + destruct (offset_split r c off Hlt) as (i & j & Hi & Hj & ->).
      rewrite Hr, Hc in Hin''. rewrite Hin'' by lia.
      rewrite Hin by lia. done.
    + rewrite !lookup_ge_None_2; [done | lia | lia].
  - destruct fz as [p d [] []]; simpl in *; done.
Qed.

End TransposeProperties.

Lemma transpose_elements_witness :
  exists this' fz',
    transpose mat23 notFactorized = Ok (this', fz') /\
    rows this' = cols mat23 /\ cols this' = rows mat23 /\ lda this' = cols mat23 /\
    (forall i j, i < cols mat23 -> j < rows mat23 -> get this' i j = get mat23 j i) /\
    (triUpper_ (T:=Q) notFactorized && triLower_ (T:=Q) notFactorized = false ->
     triUpper_ fz' = triLower_ (T:=Q) notFactorized /\
     triLower_ fz' = triUpper_ (T:=Q) notFactorized) /\
    pivots fz' = pivots (T:=Q) notFactorized /\
    diagonal fz' = diagonal (T:=Q) notFactorized.
Proof.
  apply (transpose_elements mat23 notFactorized); [reflexivity | simpl; lia].
Defined.

Lemma transpose_involutive_witness :
  exists this' fz',
    transpose mat23 notFactorized = Ok (this', fz') /\
    transpose this' fz' = Ok (mat23, notFactorized).
Proof.
  apply (transpose_involutive mat23 notFactorized); reflexivity.
Defined.

Section CopyAtOffsetProperties.
Context {T : Type} `{Scalar T}.



End CopyAtOffsetProperties.



Section ScaleFacts.
Context {T : Type} `{Scalar T}.

Lemma scal_spec (n : nat) (alpha : T) (data : list T) (off : nat) :
  off + n <= length data ->
  exists data', scal n alpha data off = Ok data' /\
                maps_range (fun x => smul alpha x) n off data data'.
Proof.
  intros Hle. unfold scal. rewrite view_succeeds by done. simpl.
  assert (length (map (λ xi : T, smul alpha xi) (take n (drop off data))) = n) as Hlen
    by (rewrite length_map, length_take, length_drop; lia).
  destruct (memcpy_spec data off (map (λ xi : T, smul alpha xi) (take n (drop off data))))
    as (data' & Hm & Hlen' & Hw & Ho); [lia|].
  exists data'. split; [done|]. split; [done|]. split.
  - intros i Hi. rewrite Hw by lia.
    rewrite list_lookup_fmap, lookup_take_lt by done. by rewrite lookup_drop.
  - intros o Ho'. apply Ho. lia.
Qed.

Lemma memset_spec (data : list T) (off n : nat) :
  off + n <= length data ->
  exists data', memset data off n = Ok data' /\
                maps_range (fun _ => zero) n off data data'.
Proof.
  intros Hle. unfold memset.
  destruct (memcpy_spec data off (replicate n zero))
    as (data' & Hm & Hlen' & Hw & Ho); [rewrite length_replicate; lia|].
  rewrite length_replicate in Hw, Ho.
  exists data'. split; [done|]. split; [done|]. split.
  - intros i Hi. rewrite Hw by lia.
    rewrite lookup_replicate_2 by done.
    destruct (lookup_lt_is_Some_2 data (off + i)) as [x ->]; [lia|done].
  - intros o Ho'. apply Ho. lia.
Qed.

Lemma maps_range_compose (g : T -> T) (n1 n2 off : nat) (d0 d1 d2 : list T) :
  maps_range g n1 (off + n2) d0 d1 -> maps_range g n2 off d1 d2 ->
  maps_range g (n2 + n1) off d0 d2.
Proof.
  intros (Hl1 & Hw1 & Ho1) (Hl2 & Hw2 & Ho2).
  split; [congruence|]. split.
  - intros i Hi. destruct (decide (i < n2)) as [Hlt|Hge].
    + rewrite Hw2 by done. rewrite Ho1 by lia. done.
    + rewrite Ho2 by lia.
      replace (off + i) with (off + n2 + (i - n2)) by lia.
      apply Hw1. lia.
  - intros o Ho. rewrite Ho2 by lia. apply Ho1. lia.
Qed.

(** Scaling by blocks from the tail scales the first [nm] entries. *)
Lemma scale_blocks_spec (block : N) (alpha : T) (fuel : nat) :
  forall (data : list T) (nm : N),
  (0 < block)%N -> N.to_nat nm <= length data ->
  (nm / block <= N.of_nat fuel)%N ->
  exists data', scale_blocks block fuel alpha data nm = Ok data' /\
                maps_range (fun x => smul alpha x) (N.to_nat nm) 0 data data'.
Proof.
  induction fuel as [|fuel IH]; intros data nm Hb Hlen Hfuel;
    simpl; destruct (N.ltb_spec block nm) as [Hlt|Hge].
  - exfalso. assert (0 < nm / block)%N by (apply N.div_str_pos; lia). lia.
  - apply scal_spec. lia.
  - destruct (scal_spec (N.to_nat block) alpha data (N.to_nat (nm - block)))
      as (d1 & Hs1 & Hm1); [lia|].
    rewrite Hs1. simpl.
    destruct (IH d1 (nm - block)%N) as (d2 & Hs2 & Hm2); [done | | |].
    + destruct Hm1 as [-> _]. lia.
    + assert ((nm - block) / block < nm / block)%N; [|lia].
      apply N.Div0.div_lt_upper_bound.
      pose proof (N.mul_succ_div_gt nm block ltac:(lia)). lia.
    + exists d2. split; [done|].
      replace (N.to_nat nm) with (N.to_nat (nm - block) + N.to_nat block) by lia.
      eapply maps_range_compose; [|exact Hm2]. exact Hm1.
  - apply scal_spec. lia.
Qed.

(** The loop over the columns of a matrix stored with a stride. *)
Lemma scale_cols_spec (g : T -> T) (body : list T -> nat -> Outcome (list T))
    (this : FullMatrix T) (data0 : list T) (n : nat) :
  (forall data x, x + rows this <= length data ->
     exists data', body data x = Ok data' /\ maps_range g (rows this) x data data') ->
  rows this <= lda this ->
  forall (col : nat) (data : list T),
  lda this * (col + n) <= length data0 ->
  length data = length data0 ->
  (forall i j, i < lda this ->
     data !! (i + j * lda this) =
       (if (i <? rows this) && (j <? col) then fmap g else id)
         (data0 !! (i + j * lda this))) ->
  exists data',
    scale_cols n body this data (col * lda this) = Ok data' /\
    length data' = length data0 /\
    (forall i j, i < lda this ->
       data' !! (i + j * lda this) =
         (if (i <? rows this) && (j <? col + n) then fmap g else id)
           (data0 !! (i + j * lda this))).
Proof.
  intros Hbody Hrl. induction n as [|n IH]; intros col data Hall Hlen Hinv.
  - exists data. rewrite Nat.add_0_r. done.
  - destruct (Hbody data (col * lda this)) as (d1 & Hb & Hl1 & Hw1 & Ho1); [nia|].
    simpl. rewrite Hb. simpl.
    replace (col * lda this + lda this) with (S col * lda this) by lia.
    replace (col + S n) with (S col + n) by lia.
    apply IH; [lia | congruence |].
    intros i j Hi.
    destruct (decide (j = col /\ i < rows this)) as [[-> Hir]|Hne].
    + replace (i + col * lda this) with (col * lda this + i) by lia.
      rewrite Hw1 by done.
      replace (col * lda this + i) with (i + col * lda this) by lia.
      rewrite Hinv by done.
      replace (i <? rows this) with true by (symmetry; apply Nat.ltb_lt; lia).
      replace (col <? col) with false by (symmetry; apply Nat.ltb_ge; lia).
      replace (col <? S col) with true by (symmetry; apply Nat.ltb_lt; lia).
      done.
    + rewrite Ho1.
      2:{ destruct (Nat.lt_trichotomy j col) as [Hlt|[->|Hlt]]; [left; nia| |right; nia].
          right. lia. }
      rewrite Hinv by done.
      destruct (Nat.ltb_spec i (rows this)), (Nat.ltb_spec j col),
        (Nat.ltb_spec j (S col)); simpl; try done; lia.
Qed.

End ScaleFacts.

Section ScaleTheorem.
Context {T : Type} `{Scalar T}.

Lemma maps_range_contiguous (g : T -> T) (r c : nat) (d d' : list T) :
  maps_range g (r * c) 0 d d' ->
  forall i j, i < r ->
    d' !! (i + j * r) = (if (i <? r) && (j <? c) then fmap g else id) (d !! (i + j * r)).
Proof.
  intros (Hl & Hw & Ho) i j Hi.
  replace (i <? r) with true by (symmetry; apply Nat.ltb_lt; lia).
  destruct (Nat.ltb_spec j c) as [Hj|Hj]; simpl.
  - apply (Hw (i + j * r)). nia.
  - apply Ho. right. nia.
Qed.

(** The storage after the first part of [scale]: the elements are scaled,
    the padding is kept. *)
Lemma FullMatrix_scale_storage (alpha : T) (this : FullMatrix T) (fz : Factorization T) :
  allocated this ->
  (forall d, diagonal fz = Some d -> rows this <= length d) ->
  exists data fz1,
    FullMatrix_scale_m alpha this fz = Ok (with_m this data, fz1) /\
    length data = length (m this) /\
    (forall i j, i < lda this ->
       data !! (i + j * lda this) =
         (if (i <? rows this) && (j <? cols this)
          then fmap (if seqb alpha zero then fun _ => zero else fun x => smul alpha x)
          else id) (m this !! (i + j * lda this))) /\
    pivots fz1 = pivots fz /\ triUpper_ fz1 = triUpper_ fz /\
    triLower_ fz1 = triLower_ fz /\
    (seqb alpha zero = false -> diagonal fz1 = diagonal fz) /\
    (forall d, diagonal fz = Some d ->
       exists d1, diagonal fz1 = Some d1 /\ length d1 = length d) /\
    (diagonal fz = None -> diagonal fz1 = None).
Proof.
  intros [Hrl Hall] Hdiag. unfold FullMatrix_scale_m.
  case_bool_decide as Hl; destruct (seqb alpha zero) eqn:Hz.
  - unfold FullMatrix_clear. rewrite bool_decide_true by done. simpl.
    destruct (memset_spec (m this) 0 (rows this * cols this)) as (data & Hm & Hr);
      [rewrite Hl in Hall; lia|].
    rewrite Hm. simpl.
    assert (forall i j, i < lda this ->
       data !! (i + j * lda this) =
         (if (i <? rows this) && (j <? cols this) then fmap (fun _ => zero) else id)
           (m this !! (i + j * lda this))) as Hel.
    { rewrite Hl. by apply maps_range_contiguous. }
    destruct (diagonal fz) as [d|] eqn:Hd.
    + destruct (memset_spec d 0 (rows this)) as (d' & Hmd & Hld & _);
        [specialize (Hdiag d eq_refl); lia|].
      rewrite Hmd. simpl. eexists data, _. split; [done|].
      split; [by destruct Hr|]. split; [done|]. simpl.
      do 4 (split; [done|]). split; [|done]. intros d0 [= <-]. by exists d'.
    + eexists data, _. split; [done|].
      split; [by destruct Hr|]. split; [done|].
      do 4 (split; [done|]). split; [intros d0 Hd0; congruence | intros _; exact Hd].
  - simpl.
    destruct (scale_blocks_spec block_size_blas alpha
                (N.to_nat (N.of_nat (rows this * cols this) / block_size_blas))
                (m this) (N.of_nat (rows this * cols this)))
      as (data & Hs & Hr); [done | rewrite Hl in Hall; lia | lia |].
    rewrite Hs. simpl. exists data, fz. split; [done|].
    split; [by destruct Hr|]. split.
    { rewrite Hl. apply maps_range_contiguous. by rewrite Nat2N.id in Hr. }
    do 4 (split; [done|]). split; [|done]. intros d Hd. by exists d.
  - assert (forall data x, x + rows this <= length data ->
              exists data', memset data x (rows this) = Ok data' /\
                maps_range (fun _ => zero) (rows this) x data data') as Hbody.
    { intros data x Hx. by apply memset_spec. }
    destruct (scale_cols_spec (fun _ => zero) (fun data x => memset data x (rows this))
                this (m this) (cols this) Hbody Hrl 0 (m this))
      as (data & Hs & Hlen & Hel); [simpl; lia | done | |].
    { intros i j Hi. rewrite andb_false_r. done. }
    simpl in Hs. rewrite Hs. simpl. exists data, fz. split; [done|].
    split; [done|]. split; [done|].
    do 4 (split; [done|]). split; [|done]. intros d Hd. by exists d.
  - assert (forall data x, x + rows this <= length data ->
              exists data', scal (rows this) alpha data x = Ok data' /\
                maps_range (fun x => smul alpha x) (rows this) x data data') as Hbody.
    { intros data x Hx. by apply scal_spec. }
    destruct (scale_cols_spec (fun x => smul alpha x)
                (fun data x => scal (rows this) alpha data x)
                this (m this) (cols this) Hbody Hrl 0 (m this))
      as (data & Hs & Hlen & Hel); [simpl; lia | done | |].
    { intros i j Hi. rewrite andb_false_r. done. }
    simpl in Hs. rewrite Hs. simpl. exists data, fz. split; [done|].
    split; [done|]. split; [done|].
    do 4 (split; [done|]). split; [|done]. intros d Hd. by exists d.
Qed.

(** X5: [scale(alpha)] on a matrix whose storage is allocated returns;
    it multiplies every element (i, j), i < rows, j < cols, by [alpha]
    (sets it to zero when alpha == 0), whether the matrix is stored
    contiguously (one memset, or BLAS calls on blocks of 2^30 entries) or
    with lda > rows (column by column); the padding between the columns
    and the shape are unchanged, and for alpha != 0 the entries of
    [diagonal], when present, are multiplied by [alpha] too. *)
Theorem FullMatrix_scale_elements (alpha : T) (this : FullMatrix T)
    (fz : Factorization T) :
  allocated this ->
  (forall d, diagonal fz = Some d -> rows this <= length d) ->
  exists this' fz',
    FullMatrix_scale alpha this fz = Ok (this', fz') /\
    rows this' = rows this /\ cols this' = cols this /\ lda this' = lda this /\
    (forall i j x, i < rows this -> j < cols this -> get this i j = Ok x ->
       get this' i j = Ok (if seqb alpha zero then zero else smul alpha x)) /\
    (forall i j, i < lda this -> ~ (i < rows this /\ j < cols this) ->
       get this' i j = get this i j) /\
    pivots fz' = pivots fz /\ triUpper_ fz' = triUpper_ fz /\
    triLower_ fz' = triLower_ fz /\
    (diagonal fz' = None <-> diagonal fz = None) /\
    (seqb alpha zero = false ->
     forall d, diagonal fz = Some d ->
       exists d', diagonal fz' = Some d' /\
                  maps_range (fun x => smul alpha x) (rows this) 0 d d').
Proof.
  intros Hal Hdiag.
  destruct (FullMatrix_scale_storage alpha this fz Hal Hdiag)
    as (data & fz1 & Hrun & Hlen & Hel & Hp & Hu & Hlo & Hd1 & Hd2 & Hd3).
  unfold FullMatrix_scale. rewrite Hrun. simpl.
  assert (forall i j x, i < rows this -> j < cols this -> get this i j = Ok x ->
            rd data (i + j * lda this) =
              Ok (if seqb alpha zero then zero else smul alpha x)) as Hin.
  { intros i j x Hi Hj Hg. apply get_element in Hg. unfold element in Hg.
    unfold rd. destruct Hal as [Hrl _]. rewrite Hel by lia. rewrite Hg.
    replace (i <? rows this) with true by (symmetry; apply Nat.ltb_lt; lia).
    replace (j <? cols this) with true by (symmetry; apply Nat.ltb_lt; lia).
    simpl. by destruct (seqb alpha zero). }
  assert (forall i j, i < lda this -> ~ (i < rows this /\ j < cols this) ->
            rd data (i + j * lda this) = get this i j) as Hout.
  { intros i j Hi Hn. unfold get, rd. rewrite Hel by done.
    destruct (Nat.ltb_spec i (rows this)), (Nat.ltb_spec j (cols this)); simpl;
      try done. lia. }
  destruct (diagonal fz1) as [d1|] eqn:Hdg.
  - destruct (diagonal fz) as [d|] eqn:Hdf.
    2:{ specialize (Hd3 eq_refl). congruence. }
    destruct (Hd2 d eq_refl) as (d1' & [= <-] & Hld).
    destruct (scal_spec (rows this) alpha d1 0) as (d' & Hs & Hm);
      [specialize (Hdiag d eq_refl); lia|].
    simpl. rewrite Hs. simpl. eexists _, _. split; [done|].
    do 3 (split; [done|]). split; [exact Hin|]. split; [exact Hout|].
    do 3 (split; [done|]). simpl. split; [split; intros; congruence|].
    intros Hz d0 [= <-]. exists d'. split; [done|].
    assert (d1 = d) as Heq by (specialize (Hd1 Hz); congruence).
    by rewrite <- Heq.
  - destruct (diagonal fz) as [d|] eqn:Hdf.
    { destruct (Hd2 d eq_refl) as (d1' & ? & _). congruence. }
    eexists _, _. split; [done|].
    do 3 (split; [done|]). split; [exact Hin|]. split; [exact Hout|].
    do 3 (split; [done|]). split; [by rewrite Hdg|]. intros; congruence.
Qed.

End ScaleTheorem.

Lemma FullMatrix_scale_elements_witness :
  exists this' fz',
    FullMatrix_scale 2%Q padded22 notFactorized = Ok (this', fz') /\
    rows this' = 2 /\ cols this' = 2 /\ lda this' = 3 /\
    (forall i j x, i < 2 -> j < 2 -> get padded22 i j = Ok x ->
       get this' i j = Ok (if seqb 2%Q zero then zero else smul 2%Q x)) /\
    (forall i j, i < 3 -> ~ (i < 2 /\ j < 2) -> get this' i j = get padded22 i j) /\
    pivots fz' = pivots (T:=Q) notFactorized /\
    triUpper_ fz' = triUpper_ (T:=Q) notFactorized /\
    triLower_ fz' = triLower_ (T:=Q) notFactorized /\
    (diagonal fz' = None <-> diagonal (T:=Q) notFactorized = None) /\
    (seqb 2%Q zero = false ->
     forall d, diagonal (T:=Q) notFactorized = Some d ->
       exists d', diagonal fz' = Some d' /\
                  maps_range (fun x => smul 2%Q x) 2 0 d d').
Proof.
  apply (FullMatrix_scale_elements 2%Q padded22 notFactorized);
    [split; simpl; lia | intros d; discriminate].
Defined.

Section AxpyFacts.
Context {T : Type} `{Scalar T}.




End AxpyFacts.


Section NormSqrFacts.
Context {T : Type} `{Scalar T}.

(** The [rows] entries of the storage at the offset j * lda are the
    elements of column j. *)
Lemma column_elements_take (a : FullMatrix T) (j : nat) :
  j * lda a + rows a <= length (m a) ->
  take (rows a) (drop (j * lda a) (m a)) = column_elements a j.
Proof.
  intros Hlen. unfold column_elements. apply list_eq. intros i.
  rewrite list_lookup_fmap.
  destruct (decide (i < rows a)) as [Hi|Hi].
  - rewrite lookup_take_lt, lookup_drop by done.
    rewrite lookup_seq_lt by done. simpl. unfold elt.
    replace (i + j * lda a) with (j * lda a + i) by lia.
    destruct (lookup_lt_is_Some_2 (m a) (j * lda a + i)) as [x ->]; [lia|]. done.
  - rewrite lookup_take_ge by lia. rewrite lookup_seq_ge by lia. done.
Qed.

Lemma FullMatrix_normSqr_cols_spec (this : FullMatrix T) (n : nat) :
  forall (col : nat) (result : T),
  rows this <= lda this -> lda this * (col + n) <= length (m this) ->
  (Z.of_nat ((col + n - 1) * lda this) <= INT_MAX)%Z ->
  FullMatrix_normSqr_cols n col this result =
    Ok (foldl (fun acc j =>
                 sadd acc (dot_c (column_elements this j) (column_elements this j)))
              result (seq col n)).
Proof.
  induction n as [|n IH]; intros col result Hrl Hall Hint; simpl; [done|].
  rewrite (int_mul_Ok col (lda this)) by (unfold INT_MAX in *; nia). simpl.
  rewrite view_succeeds by nia. simpl.
  rewrite column_elements_take by nia.
  apply IH; [done | lia |]. by replace (S col + n - 1) with (col + S n - 1) by lia.
Qed.

(** The storage of a contiguous matrix holds its elements, column after
    column. *)
Lemma contiguous_elements (a : FullMatrix T) (c : nat) :
  lda a = rows a -> rows a * c <= length (m a) ->
  take (rows a * c) (m a) = concat (map (column_elements a) (seq 0 c)).
Proof.
  intros Hl. induction c as [|c IH]; intros Hlen.
  - by rewrite Nat.mul_0_r.
  - rewrite seq_S, map_app, concat_app. simpl. rewrite app_nil_r.
    rewrite <- IH by lia.
    rewrite <- column_elements_take by (rewrite Hl; lia).
    replace (rows a * S c) with (rows a * c + rows a) by lia.
    rewrite <- take_take_drop. rewrite Hl.
    by replace (c * rows a) with (rows a * c) by lia.
Qed.

(** X7: [normSqr()] of an allocated matrix whose int products col * lda
    do not overflow (the largest one, (cols - 1) * lda, is at most INT_MAX)
    returns, and its value is computed from the elements a(i, j), i < rows,
    j < cols, alone, with the operations of the code in the order of the
    code: on the fast path (fewer than 10^9 elements, stored contiguously)
    the real part of one conjugated dot product of all the elements,
    column after column, with themselves; otherwise the real part of the
    sum, column after column, of the conjugated dot product of each column
    with itself.  The padding of a strided matrix does not enter the
    norm. *)
Theorem FullMatrix_normSqr_elements (this : FullMatrix T) :
  allocated this -> int_strides this (cols this) ->
  FullMatrix_normSqr this =
    Ok (if (N.of_nat (rows this * cols this) <? 1000000000)%N
           && bool_decide (lda this = rows this)
        then normSqr_at_once this
        else normSqr_by_columns this).
Proof.
  intros [Hrl Hall] Hint. unfold FullMatrix_normSqr.
  destruct (_ && _) eqn:Hfast.
  - apply andb_true_iff in Hfast as [_ Hl%bool_decide_eq_true].
    rewrite view_succeeds by (simpl; nia). simpl. rewrite drop_0.
    rewrite contiguous_elements by (done || nia). done.
  - rewrite FullMatrix_normSqr_cols_spec by (done || simpl; lia). done.
Qed.

End NormSqrFacts.

Lemma FullMatrix_normSqr_elements_witness :
  FullMatrix_normSqr padded22 =
    Ok (if (N.of_nat (rows padded22 * cols padded22) <? 1000000000)%N
           && bool_decide (lda padded22 = rows padded22)
        then normSqr_at_once padded22
        else normSqr_by_columns padded22).
Proof.
  apply (FullMatrix_normSqr_elements padded22);
    [split; simpl; lia | vm_compute; discriminate].
Defined.

Section MultiplyWithDiagFacts.
Context {T : Type} `{Scalar T}.





End MultiplyWithDiagFacts.


(** Solves a goal (i', j') <> (i, j) by arithmetic. *)
Ltac pair_ne := let Heq := fresh "Heq" in intros Heq; inversion Heq; subst; lia.

Section LdltLoops.
Context {T : Type} `{Scalar T}.

Lemma ldlt_v_Ok (j : nat) (this : FullMatrix T) (n : nat) :
  forall (i : nat) (v v' : list T),
  ldlt_v n i j this v = Ok v' ->
  length v' = length v /\
  (forall i', i <= i' < i + n ->
     v' !! i' = Some (smul (elt this j i') (elt this i' i'))) /\
  (forall i', ~ (i <= i' < i + n) -> v' !! i' = v !! i').
Proof.
  induction n as [|n IH]; intros i v v' Hrun; simpl in Hrun.
  - injection Hrun as <-. split; [done|]. split; [intros; lia | done].
  - inv_Ok Hrun.
    repeat match goal with
    | Hg : get _ _ _ = Ok _ |- _ => apply get_elt in Hg
    | Hw : wr _ _ _ = Ok _ |- _ => apply wr_Ok in Hw as [? ->]
    end.
    apply IH in Hrun as (Hlen & Hin & Hout). subst.
    split; [by rewrite Hlen, length_insert|]. split.
    + intros i' Hi'. destruct (decide (i' = i)) as [->|Hne].
      * rewrite Hout by lia. by rewrite list_lookup_insert_eq.
      * apply Hin. lia.
    + intros i' Hi'. rewrite Hout by lia.
      rewrite list_lookup_insert_ne by lia. done.
Qed.

Lemma ldlt_vj_Ok (j : nat) (this : FullMatrix T) (w : nat -> T) (n : nat) :
  forall (i : nat) (v v' : list T) (x : T),
  ldlt_vj n i j this v = Ok v' ->
  i + n <= j ->
  (forall i', i' < j -> v !! i' = Some (w i')) ->
  v !! j = Some x ->
  length v' = length v /\
  v' !! j = Some (foldl (fun acc i' => ssub acc (smul (elt this j i') (w i'))) x (seq i n)) /\
  (forall i', i' <> j -> v' !! i' = v !! i').
Proof.
  induction n as [|n IH]; intros i v v' x Hrun Hi Hw Hx; simpl in Hrun.
  - injection Hrun as <-. done.
  - inv_Ok Hrun.
    repeat match goal with
    | Hg : get _ _ _ = Ok _ |- _ => apply get_elt in Hg
    | Hr : rd _ _ = Ok _ |- _ => apply rd_Ok in Hr
    | Hw : wr _ _ _ = Ok _ |- _ => apply wr_Ok in Hw as [? ->]
    end.
    subst.
    match goal with Hr : v !! j = Some ?y |- _ =>
      assert (y = x) as -> by congruence end.
    match goal with Hr : v !! i = Some ?y |- _ =>
      assert (y = w i) as -> by (rewrite Hw in Hr by lia; congruence) end.
    eapply IH in Hrun as (Hlen & Hj & Hout); [| lia | |].
    + split; [by rewrite Hlen, length_insert|]. split; [exact Hj|].
      intros i' Hne. rewrite Hout by done. by rewrite list_lookup_insert_ne.
    + intros i' Hi'. rewrite list_lookup_insert_ne by lia. by apply Hw.
    + by rewrite list_lookup_insert_eq.
Qed.

Lemma ldlt_update_k_Ok (i j : nat) (v : list T) (vi : T) (n : nat) :
  forall (k : nat) (this this' : FullMatrix T),
  ldlt_update_k n k i j v this = Ok this' ->
  i <> j -> k + n <= lda this -> v !! i = Some vi ->
  rows this' = rows this /\ cols this' = cols this /\ lda this' = lda this /\
  length (m this') = length (m this) /\
  (forall k', k <= k' < k + n ->
     elt this' k' j = ssub (elt this k' j) (smul (elt this k' i) vi)) /\
  (forall k' c', k' < lda this -> ~ (c' = j /\ k <= k' < k + n) ->
     elt this' k' c' = elt this k' c').
Proof.
  induction n as [|n IH]; intros k this this' Hrun Hij Hk Hvi; simpl in Hrun.
  - injection Hrun as <-. do 4 (split; [done|]). split; [intros; lia | done].
  - inv_Ok Hrun.
    repeat match goal with
    | Hg : get _ _ _ = Ok _ |- _ => apply get_elt in Hg
    | Hr : rd _ _ = Ok _ |- _ => apply rd_Ok in Hr
    end.
    match goal with Hp : put _ _ _ _ = Ok _ |- _ =>
      apply put_elt in Hp as (Hr1 & Hc1 & Hl1 & Hlen1 & He1 & Ho1); [|lia] end.
    apply IH in Hrun as (Hr2 & Hc2 & Hl2 & Hlen2 & He2 & Ho2); [|done|lia|done].
    subst.
    match goal with Hr : v !! i = Some ?y |- _ =>
      assert (y = vi) as -> by congruence end.
    do 4 (split; [congruence|]). split.
    + intros k' Hk'. destruct (decide (k' = k)) as [->|Hne].
      * rewrite Ho2 by lia. done.
      * rewrite He2 by lia.
        rewrite (Ho1 k' j) by (lia || pair_ne).
        rewrite (Ho1 k' i) by (lia || pair_ne). done.
    + intros k' c' Hk' Hn. rewrite Ho2 by (rewrite ?Hl1; lia).
      apply Ho1; [done|]. pair_ne.
Qed.

Lemma ldlt_update_i_Ok (j size : nat) (v : list T) (w : nat -> T) (n : nat) :
  forall (i : nat) (this this' : FullMatrix T),
  ldlt_update_i n i j size v this = Ok this' ->
  i + n <= j -> j < size -> size <= lda this ->
  (forall i', i' < j -> v !! i' = Some (w i')) ->
  rows this' = rows this /\ cols this' = cols this /\ lda this' = lda this /\
  length (m this') = length (m this) /\
  (forall k, j < k < size ->
     elt this' k j =
       foldl (fun acc i' => ssub acc (smul (elt this k i') (w i'))) (elt this k j) (seq i n)) /\
  (forall k' c', k' < lda this -> ~ (c' = j /\ j < k' < size) ->
     elt this' k' c' = elt this k' c').
Proof.
  induction n as [|n IH]; intros i this this' Hrun Hi Hj Hsz Hw; simpl in Hrun.
  - injection Hrun as <-. done.
  - inv_Ok Hrun.
    match goal with Hu : ldlt_update_k _ _ _ _ _ _ = Ok _ |- _ =>
      eapply ldlt_update_k_Ok in Hu as (Hr1 & Hc1 & Hl1 & Hlen1 & He1 & Ho1);
        [| lia | lia | apply Hw; lia] end.
    apply IH in Hrun as (Hr2 & Hc2 & Hl2 & Hlen2 & He2 & Ho2); [|lia|lia|lia|done].
    do 4 (split; [congruence|]). split.
    + intros k Hk. rewrite He2 by done. simpl.
      rewrite He1 by lia.
      apply foldl_ext_in.
      intros acc i' Hin%elem_of_seq. rewrite Ho1; [done | lia | lia].
    + intros k' c' Hk' Hn. rewrite Ho2 by (rewrite ?Hl1; lia).
      apply Ho1; [done|]. lia.
Qed.

Lemma ldlt_divide_Ok (j : nat) (v : list T) (vj : T) (n : nat) :
  forall (k : nat) (this this' : FullMatrix T),
  ldlt_divide n k j v this = Ok this' ->
  k + n <= lda this -> v !! j = Some vj ->
  rows this' = rows this /\ cols this' = cols this /\ lda this' = lda this /\
  length (m this') = length (m this) /\
  (0 < n -> seqb vj zero = false) /\
  (forall k', k <= k' < k + n -> elt this' k' j = sdiv (elt this k' j) vj) /\
  (forall k' c', k' < lda this -> ~ (c' = j /\ k <= k' < k + n) ->
     elt this' k' c' = elt this k' c').
Proof.
  induction n as [|n IH]; intros k this this' Hrun Hk Hvj; simpl in Hrun.
  - injection Hrun as <-. do 4 (split; [done|]).
    split; [intros; lia|]. split; [intros; lia | done].
  - inv_Ok Hrun.
    repeat match goal with
    | Hg : get _ _ _ = Ok _ |- _ => apply get_elt in Hg
    | Hr : rd _ _ = Ok _ |- _ => apply rd_Ok in Hr
    end.
    match goal with Hp : put _ _ _ _ = Ok _ |- _ =>
      apply put_elt in Hp as (Hr1 & Hc1 & Hl1 & Hlen1 & He1 & Ho1); [|lia] end.
    apply IH in Hrun as (Hr2 & Hc2 & Hl2 & Hlen2 & _ & He2 & Ho2); [|lia|done].
    subst.
    match goal with Hr : v !! j = Some ?y |- _ =>
      assert (y = vj) as -> by congruence end.
    do 4 (split; [congruence|]). split; [|split].
    + intros _. match goal with Hn : negb _ = true |- _ =>
        by apply negb_true_iff in Hn end.
    + intros k' Hk'. destruct (decide (k' = k)) as [->|Hne].
      * rewrite Ho2 by lia. done.
      * rewrite He2 by lia. rewrite Ho1 by (lia || pair_ne). done.
    + intros k' c' Hk' Hn. rewrite Ho2 by (rewrite ?Hl1; lia).
      apply Ho1; [done|]. pair_ne.
Qed.

End LdltLoops.

Section LdltColumn.
Context {T : Type} `{Scalar T}.

(** One pass of the loop over the columns: column [j] receives the pivot
    and the multipliers, nothing else changes. *)
Lemma ldlt_column_Ok (size j : nat) (this this' : FullMatrix T) (v v' : list T) :
  ldlt_column size j this v = Ok (this', v') ->
  j < size -> size <= lda this -> length v = size ->
  let w := fun i => smul (elt this j i) (elt this i i) in
  let dj := foldl (fun acc i => ssub acc (smul (elt this j i) (w i)))
                  (elt this j j) (seq 0 j) in
  rows this' = rows this /\ cols this' = cols this /\ lda this' = lda this /\
  length (m this') = length (m this) /\ length v' = size /\
  elt this' j j = dj /\
  (forall k, j < k < size ->
     elt this' k j =
       sdiv (foldl (fun acc i => ssub acc (smul (elt this k i) (w i)))
                   (elt this k j) (seq 0 j)) dj) /\
  (j + 1 < size -> seqb dj zero = false) /\
  (forall k c, k < lda this -> ~ (c = j /\ j <= k < size) ->
     elt this' k c = elt this k c).
Proof.
  intros Hrun Hj Hsz Hlen w dj. revert Hj Hsz Hlen.
  unfold ldlt_column in Hrun. inv_Ok Hrun. intros Hj Hsz Hlen.
  match goal with Hv : ldlt_v _ _ _ _ _ = Ok ?v1 |- _ =>
    apply ldlt_v_Ok in Hv as (Hlen1 & Hin1 & Hout1) end.
  match goal with Hg : get this j j = Ok _ |- _ => apply get_elt in Hg; subst end.
  match goal with Hw : wr _ j _ = Ok _ |- _ => apply wr_Ok in Hw as [Hlt ->] end.
  match goal with Hv : ldlt_vj _ _ _ _ _ = Ok ?v3 |- _ =>
    eapply (ldlt_vj_Ok j this w) in Hv as (Hlen3 & Hj3 & Hout3) end.
  2: lia.
  2: { intros i' Hi'. rewrite list_lookup_insert_ne by lia. apply Hin1. lia. }
  2: { by apply list_lookup_insert_eq. }
  match goal with Hr : rd _ j = Ok _ |- _ =>
    apply rd_Ok in Hr; rewrite Hj3 in Hr; injection Hr as <- end.
  match goal with Hp : put this j j _ = Ok _ |- _ =>
    apply put_elt in Hp as (Hr1 & Hc1 & Hl1 & Hlm1 & He1 & Ho1); [|lia] end.
  match goal with Hu : ldlt_update_i _ _ _ _ _ _ = Ok _ |- _ =>
    eapply (ldlt_update_i_Ok j _ _ w) in Hu as (Hr2 & Hc2 & Hl2 & Hlm2 & He2 & Ho2) end.
  2, 3, 4: lia.
  2: { intros i' Hi'. rewrite Hout3 by lia.
       rewrite list_lookup_insert_ne by lia. apply Hin1. lia. }
  match goal with Hd : ldlt_divide _ _ _ _ _ = Ok _ |- _ =>
    eapply ldlt_divide_Ok in Hd as (Hr3 & Hc3 & Hl3 & Hlm3 & Hnz & He3 & Ho3) end.
  2: lia.
  2: exact Hj3.
  do 4 (split; [congruence|]).
  split; [rewrite Hlen3, length_insert; congruence|].
  split; [|split; [|split]].
  - rewrite Ho3 by lia. rewrite Ho2 by lia. exact He1.
  - intros k Hk. rewrite He3 by lia. rewrite He2 by lia. f_equal.
    rewrite (Ho1 k j) by (lia || pair_ne).
    apply foldl_ext_in. intros acc i' Hin%elem_of_seq.
    rewrite (Ho1 k i') by (lia || pair_ne). done.
  - intros Hlt2. apply Hnz. lia.
  - intros k c Hk Hn. rewrite Ho3 by lia. rewrite Ho2 by lia.
    apply Ho1; [done|]. pair_ne.
Qed.

Lemma ldlt_columns_shape (size : nat) (n : nat) :
  forall (j : nat) (this this' : FullMatrix T) (v v' : list T),
  ldlt_columns n j size this v = Ok (this', v') ->
  j + n <= size -> size <= lda this -> length v = size ->
  rows this' = rows this /\ cols this' = cols this /\ lda this' = lda this /\
  length (m this') = length (m this).
Proof.
  induction n as [|n IH]; intros j this this' v v' Hrun Hj Hsz Hlen; simpl in Hrun.
  - by injection Hrun as <- <-.
  - apply bind_Ok in Hrun as ([this1 v1] & Hcol & Hrun).
    apply ldlt_column_Ok in Hcol as (Hr1 & Hc1 & Hl1 & Hlm1 & Hlen1 & _);
      [|lia|done|done].
    apply IH in Hrun as (Hr2 & Hc2 & Hl2 & Hlm2); [|lia|lia|done].
    repeat split; congruence.
Qed.

(** The loop over the columns writes the lower triangle only. *)
Lemma ldlt_columns_frame (size : nat) (n : nat) :
  forall (j : nat) (this this' : FullMatrix T) (v v' : list T),
  ldlt_columns n j size this v = Ok (this', v') ->
  j + n <= size -> size <= lda this -> length v = size ->
  forall k c, k < lda this -> ~ (j <= c < j + n /\ c <= k < size) ->
    elt this' k c = elt this k c.
Proof.
  induction n as [|n IH]; intros j this this' v v' Hrun Hj Hsz Hlen k c Hk Hn;
    simpl in Hrun.
  - by injection Hrun as <- <-.
  - apply bind_Ok in Hrun as ([this1 v1] & Hcol & Hrun).
    apply ldlt_column_Ok in Hcol as (Hr1 & Hc1 & Hl1 & Hlm1 & Hlen1 & _ & _ & _ & Ho1);
      [|lia|done|done].
    rewrite (IH _ _ _ _ _ Hrun) by lia.
    apply Ho1; [done|lia].
Qed.

End LdltColumn.

Section LdltInvariant.
Context {T : Type} `{Scalar T}.

Lemma ldlt_inplace_residual_ext (S S' : FullMatrix T) (x : T) (k c : nat) :
  (forall i, i < c -> elt S' k i = elt S k i) ->
  (forall i, i < c -> elt S' c i = elt S c i) ->
  (forall i, i < c -> elt S' i i = elt S i i) ->
  ldlt_inplace_residual S' x k c = ldlt_inplace_residual S x k c.
Proof.
  intros Hk Hc Hd. unfold ldlt_inplace_residual.
  apply foldl_ext_in. intros acc i Hi%elem_of_seq.
  rewrite Hk, Hc, Hd by lia. done.
Qed.

Lemma ldlt_column_inv (size j : nat) (this0 this this' : FullMatrix T) (v v' : list T) :
  ldlt_column size j this v = Ok (this', v') ->
  j < size -> size <= lda this0 -> length v = size ->
  ldlt_inv size this0 j this ->
  ldlt_inv size this0 (S j) this' /\ length v' = size.
Proof.
  intros Hrun Hj Hsz Hlen (Hr & Hc & Hl & Hlm & Hb & Hdd & Hcc & Hd).
  apply ldlt_column_Ok in Hrun; [|done|lia|done].
  destruct Hrun as (Hr' & Hc' & Hl' & Hlm' & Hlen' & Hjj & Hkj & Hnz & Ho).
  rewrite Hl in Ho.
  assert (forall k x, j <= k < size ->
            ldlt_inplace_residual this' x k j = ldlt_inplace_residual this x k j) as Hres.
  { intros k x Hk. apply ldlt_inplace_residual_ext; intros i Hi; apply Ho; lia. }
  split; [|done]. do 4 (split; [congruence|]). split; [|split; [|split]].
  - intros k c Hk Hcase. rewrite Ho by lia. apply Hb; [done|lia].
  - intros c Hcj Hcs. destruct (decide (c = j)) as [->|Hne].
    + rewrite Hres by lia. rewrite Hjj. rewrite (Hb j j) by lia. done.
    + rewrite Ho by lia.
      rewrite (ldlt_inplace_residual_ext this this' (elt this0 c c) c c);
        [apply Hdd; lia | intros i Hi; apply Ho; lia..].
  - intros k c Hcj Hk. destruct (decide (c = j)) as [->|Hne].
    + rewrite Hres by lia. rewrite Hkj by lia. rewrite Hjj.
      rewrite (Hb k j) by lia. rewrite (Hb j j) by lia. done.
    + rewrite (Ho k c), (Ho c c) by lia.
      rewrite (ldlt_inplace_residual_ext this this' (elt this0 k c) k c);
        [apply Hcc; lia | intros i Hi; apply Ho; lia..].
  - intros c Hcj Hlt. destruct (decide (c = j)) as [->|Hne].
    + rewrite Hjj. by apply Hnz.
    + rewrite Ho by lia. apply Hd; lia.
Qed.

Lemma ldlt_columns_inv (size : nat) (this0 : FullMatrix T) (n : nat) :
  forall (j : nat) (this this' : FullMatrix T) (v v' : list T),
  ldlt_columns n j size this v = Ok (this', v') ->
  j + n <= size -> size <= lda this0 -> length v = size ->
  ldlt_inv size this0 j this ->
  ldlt_inv size this0 (j + n) this'.
Proof.
  induction n as [|n IH]; intros j this this' v v' Hrun Hj Hsz Hlen Hinv;
    simpl in Hrun.
  - injection Hrun as <- <-. by rewrite Nat.add_0_r.
  - apply bind_Ok in Hrun as ([this1 v1] & Hcol & Hrun).
    apply ldlt_column_inv with (this0 := this0) in Hcol as [Hinv1 Hlen1];
      [|lia|done|done|done].
    replace (j + S n) with (S j + n) by lia.
    eapply IH; [exact Hrun | lia | done | done | done].
Qed.

End LdltInvariant.

Section LdltDiagonal.
Context {T : Type} `{Scalar T}.

Lemma ldlt_upper_Ok (i : nat) (n : nat) :
  forall (j : nat) (this this' : FullMatrix T),
  ldlt_upper n i j this = Ok this' -> i < lda this ->
  rows this' = rows this /\ cols this' = cols this /\ lda this' = lda this /\
  length (m this') = length (m this) /\
  (forall c, j <= c < j + n -> elt this' i c = zero) /\
  (forall k c, k < lda this -> ~ (k = i /\ j <= c < j + n) ->
     elt this' k c = elt this k c).
Proof.
  induction n as [|n IH]; intros j this this' Hrun Hi; simpl in Hrun.
  - injection Hrun as <-. do 4 (split; [done|]). split; [intros; lia | done].
  - inv_Ok Hrun.
    match goal with Hp : put _ _ _ _ = Ok _ |- _ =>
      apply put_elt in Hp as (Hr1 & Hc1 & Hl1 & Hlm1 & He1 & Ho1); [|lia] end.
    apply IH in Hrun as (Hr2 & Hc2 & Hl2 & Hlm2 & He2 & Ho2); [|lia].
    do 4 (split; [congruence|]). split.
    + intros c Hc. destruct (decide (c = j)) as [->|Hne].
      * rewrite Ho2 by lia. done.
      * apply He2. lia.
    + intros k c Hk Hn. rewrite Ho2 by lia. apply Ho1; [done|]. pair_ne.
Qed.

Lemma ldlt_diagonal_Ok (size : nat) (n : nat) :
  forall (i : nat) (this this' : FullMatrix T) (diag diag' : list T),
  ldlt_diagonal n i size this diag = Ok (this', diag') ->
  i + n <= size -> size <= lda this ->
  rows this' = rows this /\ cols this' = cols this /\ lda this' = lda this /\
  length (m this') = length (m this) /\ length diag' = length diag /\
  (forall r, i <= r < i + n ->
     diag' !! r = Some (elt this r r) /\ elt this' r r = pone /\
     forall c, r < c < size -> elt this' r c = zero) /\
  (forall r, ~ (i <= r < i + n) -> diag' !! r = diag !! r) /\
  (forall k c, k < lda this -> ~ (i <= k < i + n /\ k <= c < size) ->
     elt this' k c = elt this k c).
Proof.
  induction n as [|n IH]; intros i this this' diag diag' Hrun Hi Hsz; simpl in Hrun.
  - injection Hrun as <- <-. do 5 (split; [done|]). split; [intros; lia | done].
  - inv_Ok Hrun.
    match goal with Hg : get _ _ _ = Ok _ |- _ => apply get_elt in Hg; subst end.
    match goal with Hw : wr _ _ _ = Ok _ |- _ => apply wr_Ok in Hw as [Hlt ->] end.
    match goal with Hp : put _ _ _ _ = Ok _ |- _ =>
      apply put_elt in Hp as (Hr1 & Hc1 & Hl1 & Hlm1 & He1 & Ho1); [|lia] end.
    match goal with Hu : ldlt_upper _ _ _ _ = Ok _ |- _ =>
      apply ldlt_upper_Ok in Hu as (Hr2 & Hc2 & Hl2 & Hlm2 & He2 & Ho2); [|lia] end.
    apply IH in Hrun as (Hr3 & Hc3 & Hl3 & Hlm3 & Hld3 & Hin3 & Hdo3 & Ho3);
      [|lia|lia].
    do 4 (split; [congruence|]).
    split; [by rewrite Hld3, length_insert|]. split; [|split].
    + intros r Hr. destruct (decide (r = i)) as [->|Hne].
      * split; [|split].
        -- rewrite Hdo3 by lia. by apply list_lookup_insert_eq.
        -- rewrite Ho3 by lia. rewrite Ho2 by lia. done.
        -- intros c Hc. rewrite Ho3 by lia. apply He2. lia.
      * destruct (Hin3 r) as (Hd & Hp & Hz); [lia|].
        split; [|done]. rewrite Hd. f_equal.
        rewrite Ho2 by lia. apply Ho1; [lia|]. pair_ne.
    + intros r Hr. rewrite Hdo3 by lia. by rewrite list_lookup_insert_ne by lia.
    + intros k c Hk Hn. rewrite Ho3 by lia. rewrite Ho2 by lia.
      apply Ho1; [lia|]. pair_ne.
Qed.

End LdltDiagonal.

Section LdltTheorems.
Context {T : Type} `{Scalar T}.

(** What a successful run of [ldltDecomposition] on a matrix that is not
    void leaves: the storage [S] at the end of the loop over the columns,
    from which the diagonal is extracted. *)
Lemma ldltDecomposition_Ok (this this' : FullMatrix T) (fz fz' : Factorization T) :
  ldltDecomposition this fz = Ok (this', fz') ->
  0 < rows this -> 0 < cols this -> rows this <= lda this ->
  rows this = cols this /\ triUpper_ fz = false /\
  rows this' = rows this /\ cols this' = cols this /\ lda this' = lda this /\
  length (m this') = length (m this) /\
  exists (S : FullMatrix T) (v : list T) (d : list T),
    ldlt_columns (rows this) 0 (rows this) this (replicate (rows this) zero) = Ok (S, v) /\
    fz' = {| pivots := pivots fz; diagonal := Some d;
             triUpper_ := triUpper_ fz; triLower_ := true |} /\
    length d = rows this /\
    lda S = lda this /\
    (forall r, r < rows this ->
       d !! r = Some (elt S r r) /\ elt this' r r = pone /\
       forall c, r < c < rows this -> elt this' r c = zero) /\
    (forall k c, k < lda this -> ~ (k < rows this /\ k <= c < rows this) ->
       elt this' k c = elt S k c).
Proof.
  intros Hrun Hr Hc Hrl. unfold ldltDecomposition in Hrun.
  rewrite !bool_decide_false in Hrun by lia. simpl in Hrun.
  apply bind_Ok in Hrun as (u & Hsq%assert_Ok%bool_decide_eq_true & Hrun).
  apply bind_Ok in Hrun as ([S v] & Hcols & Hrun).
  apply bind_Ok in Hrun as ([F d] & Hdiag & Hrun).
  apply bind_Ok in Hrun as (u' & Hup%assert_Ok%negb_true_iff & Hrun).
  injection Hrun as <- <-. simpl in Hup.
  pose proof (ldlt_columns_shape _ _ _ _ _ _ _ Hcols) as (HrS & HcS & HlS & HlmS);
    [lia | lia | by rewrite length_replicate |].
  apply ldlt_diagonal_Ok in Hdiag as (Hr3 & Hc3 & Hl3 & Hlm3 & Hld3 & Hin3 & _ & Ho3);
    [|lia|lia].
  split; [done|]. split; [done|]. do 4 (split; [congruence|]).
  exists S, v, d. split; [done|]. split; [done|].
  split; [by rewrite Hld3, new_Vector_length|]. split; [done|]. split.
  - intros r Hr'. apply Hin3. lia.
  - intros k c Hk Hn. apply Ho3; [lia|]. lia.
Qed.
End LdltTheorems.

Section LdltRecurrence.
Context {T : Type} `{Scalar T}.

(** X9: when [ldltDecomposition] returns on an allocated matrix with at
    least one row and one column, the matrix is square, [diagonal] holds
    one entry d[c] per column, none of them == zero except possibly the
    last, and the pivots and the multipliers left in the storage are those
    of the recurrence that the comment of the function gives, computed
    with the operations of the code in the order of the code:
    d[c] = a(c, c) - sum over i < c of L(c, i) * (L(c, i) * d[i]) and, for
    c < k, L(k, c) = (a(k, c) - sum over i < c of L(k, i) * (L(c, i) * d[i]))
    / d[c], the terms being subtracted one after the other from i = 0 on
    (no conjugation, also for complex scalars).  Only the lower triangle of
    the input is read. *)
Theorem ldltDecomposition_recurrence (this this' : FullMatrix T)
    (fz fz' : Factorization T) :
  ldltDecomposition this fz = Ok (this', fz') ->
  0 < rows this -> 0 < cols this -> allocated this ->
  rows this = cols this /\
  exists d : list T,
    diagonal fz' = Some d /\ length d = rows this /\
    (forall c x, c + 1 < rows this -> d !! c = Some x -> seqb x zero = false) /\
    (forall c, c < rows this ->
       exists x, get this c c = Ok x /\
                 d !! c = Some (ldlt_residual this' d x c c)) /\
    (forall k c, c < k < rows this ->
       exists x y, get this k c = Ok x /\ d !! c = Some y /\
                   get this' k c = Ok (sdiv (ldlt_residual this' d x k c) y)).
Proof.
  intros Hrun Hr Hc [Hrl Hall].
  apply ldltDecomposition_Ok in Hrun
    as (Hsq & _ & Hr' & Hc' & Hl' & Hlm' & S & v & d & Hcols & -> & Hld & HlS & Hin & Ho);
    [|done..].
  split; [done|].
  apply ldlt_columns_inv with (this0 := this) in Hcols;
    [| lia | done | by rewrite length_replicate |].
  2:{ do 4 (split; [done|]). split; [done|]. split; [|split]; intros; lia. }
  destruct Hcols as (_ & _ & _ & _ & _ & Hdd & Hcc & Hnz).
  assert (forall k c x, c <= k < rows this ->
            ldlt_residual this' d x k c = ldlt_inplace_residual S x k c) as Hres.
  { intros k c x Hk. unfold ldlt_residual, ldlt_inplace_residual.
    apply foldl_ext_in. intros acc i Hi%elem_of_seq.
    destruct (Hin i) as (-> & _); [lia|]. simpl.
    rewrite !Ho by lia. done. }
  exists d. split; [done|]. split; [done|]. split; [|split].
  - intros c x Hlt Hx. destruct (Hin c) as (Hd & _); [lia|].
    rewrite Hd in Hx. injection Hx as <-. apply Hnz; simpl; lia.
  - intros c Hc2. exists (elt this c c). split; [apply elt_get; nia|].
    destruct (Hin c) as (-> & _); [done|].
    rewrite Hres by lia. f_equal. apply Hdd; simpl; lia.
  - intros k c Hk. exists (elt this k c), (elt S c c).
    split; [apply elt_get; nia|].
    destruct (Hin c) as (-> & _); [lia|]. split; [done|].
    rewrite Hres by lia. rewrite <- Hcc by (simpl; lia).
    rewrite <- Ho by lia. apply elt_get. rewrite Hl', Hlm'. nia.
Qed.

End LdltRecurrence.

Section LdltStructure.
Context {T : Type} `{Scalar T}.

(** X10: when [ldltDecomposition] returns on an allocated matrix with at
    least one row and one column, the matrix is square and triUpper was
    not set; the shape is unchanged, triLower is set, [pivots] is
    untouched, [diagonal] holds rows entries, and in the storage the
    diagonal elements are one and the elements above the diagonal are
    zero; the padding below the rows is unchanged. *)
Theorem ldltDecomposition_structure (this this' : FullMatrix T)
    (fz fz' : Factorization T) :
  ldltDecomposition this fz = Ok (this', fz') ->
  0 < rows this -> 0 < cols this -> allocated this ->
  rows this = cols this /\ triUpper_ fz = false /\
  rows this' = rows this /\ cols this' = cols this /\ lda this' = lda this /\
  triLower_ fz' = true /\ triUpper_ fz' = false /\ pivots fz' = pivots fz /\
  (exists d : list T, diagonal fz' = Some d /\ length d = rows this) /\
  (forall r, r < rows this -> get this' r r = Ok pone) /\
  (forall r c, r < c < rows this -> get this' r c = Ok zero) /\
  (forall k c, rows this <= k < lda this -> c < cols this ->
     get this' k c = get this k c).
Proof.
  intros Hrun Hr Hc [Hrl Hall].
  pose proof Hrun as Hrun'.
  apply ldltDecomposition_Ok in Hrun
    as (Hsq & Hup & Hr' & Hc' & Hl' & Hlm' & S & v & d & Hcols & -> & Hld & HlS & Hin & Ho);
    [|done..].
  do 5 (split; [done|]). simpl. do 3 (split; [done|]).
  split; [by exists d|]. split; [|split].
  - intros r Hr2. destruct (Hin r Hr2) as (_ & <- & _).
    apply elt_get. rewrite Hl', Hlm'. nia.
  - intros r c Hrc. destruct (Hin r) as (_ & _ & Hz); [lia|].
    rewrite <- (Hz c) by lia. apply elt_get. rewrite Hl', Hlm'. nia.
  - intros k c Hk Hc2.
    rewrite !elt_get by (rewrite ?Hl', ?Hlm'; nia). f_equal.
    rewrite Ho by lia.
    apply (ldlt_columns_frame _ _ _ _ _ _ _ Hcols);
      [lia | lia | by rewrite length_replicate | lia | lia].
Qed.

End LdltStructure.

Lemma ldltDecomposition_recurrence_witness :
  rows sym3 = cols sym3 /\
  exists d : list Q,
    diagonal sym3_D = Some d /\ length d = rows sym3 /\
    (forall c x, c + 1 < rows sym3 -> d !! c = Some x -> seqb x zero = false) /\
    (forall c, c < rows sym3 ->
       exists x, get sym3 c c = Ok x /\
                 d !! c = Some (ldlt_residual sym3_L d x c c)) /\
    (forall k c, c < k < rows sym3 ->
       exists x y, get sym3 k c = Ok x /\ d !! c = Some y /\
                   get sym3_L k c = Ok (sdiv (ldlt_residual sym3_L d x k c) y)).
Proof.
  apply (ldltDecomposition_recurrence sym3 sym3_L notFactorized sym3_D);
    [vm_compute; reflexivity | simpl; lia | simpl; lia | split; simpl; lia].
Defined.

Lemma ldltDecomposition_structure_witness :
  rows sym3 = cols sym3 /\ triUpper_ (T:=Q) notFactorized = false /\
  rows sym3_L = rows sym3 /\ cols sym3_L = cols sym3 /\ lda sym3_L = lda sym3 /\
  triLower_ sym3_D = true /\ triUpper_ sym3_D = false /\
  pivots sym3_D = pivots (T:=Q) notFactorized /\
  (exists d : list Q, diagonal sym3_D = Some d /\ length d = rows sym3) /\
  (forall r, r < rows sym3 -> get sym3_L r r = Ok pone) /\
  (forall r c, r < c < rows sym3 -> get sym3_L r c = Ok zero) /\
  (forall k c, rows sym3 <= k < lda sym3 -> c < cols sym3 ->
     get sym3_L k c = get sym3 k c).
Proof.
  apply (ldltDecomposition_structure sym3 sym3_L notFactorized sym3_D);
    [vm_compute; reflexivity | simpl; lia | simpl; lia | split; simpl; lia].
Defined.

Lemma returnsOrAborts_bind {A B : Type} (c : Outcome A) (k : A -> Outcome B) :
  returnsOrAborts c -> (forall x, c = Ok x -> returnsOrAborts (k x)) ->
  returnsOrAborts (c ≫= k).
Proof.
  intros [->|[x ->]] Hk; simpl; [by left|]. by apply Hk.
Qed.

Lemma returnsOrAborts_Ok {A : Type} (x : A) : returnsOrAborts (Ok x).
Proof. right. by exists x. Qed.

Lemma returnsOrAborts_assert (c : bool) : returnsOrAborts (assert c).
Proof. destruct c; [right; by exists tt | by left]. Qed.

Lemma rd_succeeds {A : Type} (v : list A) (i : nat) :
  i < length v -> exists x, rd v i = Ok x.
Proof.
  intros Hi. destruct (lookup_lt_is_Some_2 v i Hi) as [x Hx].
  exists x. by apply rd_lookup.
Qed.

Section LdltSafety.
Context {T : Type} `{Scalar T}.

Lemma ldlt_v_safe (size j : nat) (this : FullMatrix T) (n : nat) :
  forall (i : nat) (v : list T),
  size <= lda this -> lda this * size <= length (m this) ->
  j < size -> i + n <= j -> length v = size ->
  returnsOrAborts (ldlt_v n i j this v).
Proof.
  induction n as [|n IH]; intros i v Hsz Hall Hj Hi Hlen; simpl.
  - apply returnsOrAborts_Ok.
  - rewrite !elt_get by nia. simpl. rewrite wr_succeeds by lia. simpl.
    apply IH; try done; [lia | by rewrite length_insert].
Qed.

Lemma ldlt_vj_safe (size j : nat) (this : FullMatrix T) (n : nat) :
  forall (i : nat) (v : list T),
  size <= lda this -> lda this * size <= length (m this) ->
  j < size -> i + n <= j -> length v = size ->
  returnsOrAborts (ldlt_vj n i j this v).
Proof.
  induction n as [|n IH]; intros i v Hsz Hall Hj Hi Hlen; simpl.
  - apply returnsOrAborts_Ok.
  - destruct (rd_succeeds v j) as [vj ->]; [lia|]. simpl.
    rewrite elt_get by nia. simpl.
    destruct (rd_succeeds v i) as [vi ->]; [lia|]. simpl.
    rewrite wr_succeeds by lia. simpl.
    apply IH; try done; [lia | by rewrite length_insert].
Qed.

Lemma ldlt_update_k_safe (size i j : nat) (v : list T) (n : nat) :
  forall (k : nat) (this : FullMatrix T),
  size <= lda this -> lda this * size <= length (m this) ->
  i < j -> j < size -> k + n <= size -> length v = size ->
  returnsOrAborts (ldlt_update_k n k i j v this).
Proof.
  induction n as [|n IH]; intros k this Hsz Hall Hi Hj Hk Hlen; simpl.
  - apply returnsOrAborts_Ok.
  - rewrite !elt_get by nia. simpl.
    destruct (rd_succeeds v i) as [vi ->]; [lia|]. simpl.
    rewrite put_succeeds by nia. simpl.
    apply IH; simpl; try done; [by rewrite length_insert | lia].
Qed.

Lemma ldlt_update_i_safe (size j : nat) (v : list T) (n : nat) :
  forall (i : nat) (this : FullMatrix T),
  size <= lda this -> lda this * size <= length (m this) ->
  j < size -> i + n <= j -> length v = size ->
  returnsOrAborts (ldlt_update_i n i j size v this).
Proof.
  induction n as [|n IH]; intros i this Hsz Hall Hj Hi Hlen; simpl.
  - apply returnsOrAborts_Ok.
  - apply returnsOrAborts_bind.
    + apply (ldlt_update_k_safe size); try done; lia.
    + intros this1 Hu.
      eapply (ldlt_update_k_Ok i j v (default zero (v !! i))) in Hu
        as (Hr1 & Hc1 & Hl1 & Hlm1 & _); [| lia | lia |].
      2:{ destruct (lookup_lt_is_Some_2 v i) as [x ->]; [lia|done]. }
      apply IH; try done; try lia; congruence.
Qed.

Lemma ldlt_divide_safe (size j : nat) (v : list T) (n : nat) :
  forall (k : nat) (this : FullMatrix T),
  size <= lda this -> lda this * size <= length (m this) ->
  j < size -> k + n <= size -> length v = size ->
  returnsOrAborts (ldlt_divide n k j v this).
Proof.
  induction n as [|n IH]; intros k this Hsz Hall Hj Hk Hlen; simpl.
  - apply returnsOrAborts_Ok.
  - destruct (rd_succeeds v j) as [vj ->]; [lia|]. simpl.
    destruct (negb (seqb vj zero)); simpl; [|by left].
    rewrite elt_get by nia. simpl.
    rewrite put_succeeds by nia. simpl.
    apply IH; simpl; try done; [by rewrite length_insert | lia].
Qed.

Lemma ldlt_column_safe (size j : nat) (this : FullMatrix T) (v : list T) :
  size <= lda this -> lda this * size <= length (m this) ->
  j < size -> length v = size ->
  returnsOrAborts (ldlt_column size j this v).
Proof.
  intros Hsz Hall Hj Hlen. unfold ldlt_column.
  apply returnsOrAborts_bind; [apply (ldlt_v_safe size); done || lia|].
  intros v1 Hv1. apply ldlt_v_Ok in Hv1 as (Hlen1 & _).
  rewrite elt_get by nia. simpl. rewrite wr_succeeds by lia. simpl.
  apply returnsOrAborts_bind.
  { apply (ldlt_vj_safe size); try done; try lia. rewrite length_insert. lia. }
  intros v3 Hv3.
  assert (length v3 = size) as Hlen3.
  { eapply (ldlt_vj_Ok j this (fun i => default zero (<[j:=elt this j j]> v1 !! i)))
      in Hv3 as (Hl3 & _); [rewrite Hl3, length_insert; lia | lia | |].
    - intros i' Hi'.
      destruct (lookup_lt_is_Some_2 (<[j:=elt this j j]> v1) i') as [x ->];
        [rewrite length_insert; lia | done].
    - apply list_lookup_insert_eq. lia. }
  destruct (rd_succeeds v3 j) as [vj ->]; [lia|]. simpl.
  rewrite put_succeeds by nia. simpl.
  apply returnsOrAborts_bind.
  { apply ldlt_update_i_safe; simpl; rewrite ?length_insert; done || lia. }
  intros this2 Hu.
  eapply (ldlt_update_i_Ok j size v3 (fun i => default zero (v3 !! i))) in Hu
    as (Hr2 & Hc2 & Hl2 & Hlm2 & _); [| lia | lia | simpl; lia |].
  2:{ intros i' Hi'. destruct (lookup_lt_is_Some_2 v3 i') as [x ->]; [lia|done]. }
  simpl in *. rewrite length_insert in Hlm2.
  apply returnsOrAborts_bind.
  { apply (ldlt_divide_safe size); try done; try lia; congruence. }
  intros this3 _. apply returnsOrAborts_Ok.
Qed.

Lemma ldlt_columns_safe (size : nat) (n : nat) :
  forall (j : nat) (this : FullMatrix T) (v : list T),
  size <= lda this -> lda this * size <= length (m this) ->
  j + n <= size -> length v = size ->
  returnsOrAborts (ldlt_columns n j size this v).
Proof.
  induction n as [|n IH]; intros j this v Hsz Hall Hj Hlen; simpl.
  - apply returnsOrAborts_Ok.
  - apply returnsOrAborts_bind; [apply ldlt_column_safe; done || lia|].
    intros [this1 v1] Hcol.
    apply ldlt_column_Ok in Hcol as (Hr1 & Hc1 & Hl1 & Hlm1 & Hlen1 & _);
      [|lia|done|done].
    apply IH; try done; try lia; congruence.
Qed.

Lemma ldlt_upper_safe (size i : nat) (n : nat) :
  forall (j : nat) (this : FullMatrix T),
  size <= lda this -> lda this * size <= length (m this) ->
  i < size -> j + n <= size ->
  returnsOrAborts (ldlt_upper n i j this).
Proof.
  induction n as [|n IH]; intros j this Hsz Hall Hi Hj; simpl.
  - apply returnsOrAborts_Ok.
  - rewrite put_succeeds by nia. simpl.
    apply IH; simpl; try done; [by rewrite length_insert | lia].
Qed.

Lemma ldlt_diagonal_safe (size : nat) (n : nat) :
  forall (i : nat) (this : FullMatrix T) (diag : list T),
  size <= lda this -> lda this * size <= length (m this) ->
  i + n <= size -> length diag = size ->
  returnsOrAborts (ldlt_diagonal n i size this diag).
Proof.
  induction n as [|n IH]; intros i this diag Hsz Hall Hi Hlen; simpl.
  - apply returnsOrAborts_Ok.
  - rewrite elt_get by nia. simpl. rewrite wr_succeeds by lia. simpl.
    rewrite put_succeeds by nia. simpl.
    apply returnsOrAborts_bind.
    { apply (ldlt_upper_safe size); simpl; try done; try lia.
      by rewrite length_insert. }
    intros this2 Hu.
    apply ldlt_upper_Ok in Hu as (Hr2 & Hc2 & Hl2 & Hlm2 & _); [|simpl; lia].
    simpl in *. rewrite length_insert in Hlm2.
    apply IH; try done; try lia; try congruence.
    by rewrite length_insert.
Qed.

(** X11: on an allocated matrix, [ldltDecomposition] makes no access
    outside the storage of the matrix, of [diagonal] or of its auxiliary
    array: it returns, or it ends on a failed assertion (a matrix that is
    not square, a zero pivot, or triUpper being set). *)
Theorem ldltDecomposition_in_bounds (this : FullMatrix T) (fz : Factorization T) :
  allocated this -> returnsOrAborts (ldltDecomposition this fz).
Proof.
  intros [Hrl Hall]. unfold ldltDecomposition.
  destruct (_ || _); [apply returnsOrAborts_Ok|].
  apply returnsOrAborts_bind; [apply returnsOrAborts_assert|].
  intros u Hsq%assert_Ok%bool_decide_eq_true.
  apply returnsOrAborts_bind.
  { apply ldlt_columns_safe; [done | by rewrite Hsq | lia | by rewrite length_replicate]. }
  intros [S v] Hcols.
  apply ldlt_columns_shape in Hcols as (Hr1 & Hc1 & Hl1 & Hlm1);
    [| lia | done | by rewrite length_replicate].
  apply returnsOrAborts_bind.
  { apply ldlt_diagonal_safe; [congruence | rewrite Hl1, Hlm1, Hsq; done | lia |].
    apply new_Vector_length. }
  intros [F d] _.
  apply returnsOrAborts_bind; [apply returnsOrAborts_assert|].
  intros; apply returnsOrAborts_Ok.
Qed.

End LdltSafety.

Lemma ldltDecomposition_in_bounds_witness :
  returnsOrAborts (ldltDecomposition sym3 notFactorized).
Proof.
  apply (ldltDecomposition_in_bounds sym3 notFactorized). split; simpl; lia.
Defined.

Section LdltPivots.
Context {T : Type} `{Scalar T}.

(** X12: on an allocated square matrix of order at least 2 whose first
    element a(0, 0) is zero, [ldltDecomposition] is fatal ("Division by 0
    in LDLt"): the first pivot is a(0, 0) itself. *)
Theorem ldltDecomposition_zero_pivot (this : FullMatrix T) (fz : Factorization T)
    (x : T) :
  allocated this -> rows this = cols this -> 2 <= rows this ->
  get this 0 0 = Ok x -> seqb x zero = true ->
  ldltDecomposition this fz = Fatal.
Proof.
  intros [Hrl Hall] Hsq Hn Hx Hz. unfold ldltDecomposition.
  rewrite !bool_decide_false by lia. simpl.
  rewrite bool_decide_true by done. simpl.
  destruct (rows this) as [|[|n]] eqn:Hr; [lia | lia |].
  simpl. unfold ldlt_column. simpl. rewrite Hx. simpl.
  change (0 + 0 * lda this) with 0.
  assert (0 < length (m this)) as Hlen.
  { apply get_element in Hx. unfold element in Hx. simpl in Hx.
    by eapply lookup_lt_Some. }
  rewrite put_succeeds by (simpl; lia). simpl.
  rewrite Hz. simpl. done.
Qed.

(** X13: [ldltDecomposition] tests a pivot only before it divides by it,
    so the pivot of the last column is never tested: on an allocated 1 x 1
    matrix (triUpper not being set) it returns whatever the element is,
    zero included, with the element in [diagonal], one in its place in the
    storage and triLower set. *)
Theorem ldltDecomposition_last_pivot_untested (this : FullMatrix T)
    (fz : Factorization T) (x : T) :
  rows this = 1 -> cols this = 1 -> get this 0 0 = Ok x -> triUpper_ fz = false ->
  ldltDecomposition this fz =
    Ok (with_m this (<[0:=pone]> (m this)),
        {| pivots := pivots fz; diagonal := Some [x];
           triUpper_ := false; triLower_ := true |}).
Proof.
  intros Hn Hc Hx Hup. unfold ldltDecomposition.
  rewrite !bool_decide_false by lia. simpl.
  rewrite bool_decide_true by lia. simpl.
  rewrite Hn. simpl. unfold ldlt_column. simpl. rewrite Hx. simpl.
  assert (0 < length (m this)) as Hlen.
  { apply get_element in Hx. unfold element in Hx. simpl in Hx.
    by eapply lookup_lt_Some. }
  rewrite put_succeeds by (simpl; lia). simpl.
  unfold get, put, with_m. simpl.
  rewrite (rd_lookup _ _ x) by (by apply list_lookup_insert_eq). simpl.
  rewrite wr_succeeds by (rewrite length_insert; lia). simpl.
  rewrite Hup. simpl. rewrite list_insert_insert_eq.
  rewrite Hn, Hc. done.
Qed.

End LdltPivots.

Lemma ldltDecomposition_zero_pivot_witness :
  ldltDecomposition antidiag2 notFactorized = Fatal.
Proof.
  apply (ldltDecomposition_zero_pivot antidiag2 notFactorized 0%Q);
    [split; simpl; lia | reflexivity | simpl; lia | reflexivity | reflexivity].
Defined.

Lemma ldltDecomposition_last_pivot_untested_witness :
  ldltDecomposition zero11 notFactorized =
    Ok (with_m zero11 (<[0:=pone]> (m zero11)),
        {| pivots := pivots (T:=Q) notFactorized; diagonal := Some [0%Q];
           triUpper_ := false; triLower_ := true |}).
Proof.
  apply (ldltDecomposition_last_pivot_untested zero11 notFactorized 0%Q);
    reflexivity.
Defined.

Section CopyFacts.
Context {T : Type} `{Scalar T}.

Lemma copy_cols_spec (a : FullMatrix T) (n : nat) :
  forall (col : nat) (result : FullMatrix T),
  allocated a -> col + n <= cols a ->
  rows result = rows a -> cols result = cols a -> lda result = rows a ->
  length (m result) = rows a * cols a ->
  (forall i c, i < rows a -> c < col ->
     m result !! (i + c * rows a) = m a !! (i + c * lda a)) ->
  exists r,
    copy_cols n col a result = Ok r /\
    rows r = rows a /\ cols r = cols a /\ lda r = rows a /\
    length (m r) = rows a * cols a /\
    (forall i c, i < rows a -> c < col + n ->
       m r !! (i + c * rows a) = m a !! (i + c * lda a)).
Proof.
  induction n as [|n IH]; intros col result Hal Hcol Hr Hc Hl Hlen Hinv.
  - exists result. rewrite Nat.add_0_r. done.
  - pose proof Hal as [Hrl Hall]. simpl.
    rewrite view_succeeds by nia. simpl.
    assert (length (take (rows a) (drop (lda a * col) (m a))) = rows a) as Hlv
      by (rewrite length_take, length_drop; nia).
    destruct (memcpy_spec (m result) (rows result * col)
                (take (rows a) (drop (lda a * col) (m a))))
      as (data & Hm & Hlen' & Hw & Ho); [rewrite Hlv, Hr, Hlen; nia|].
    rewrite Hm. simpl.
    replace (col + S n) with (S col + n) by lia.
    apply IH; simpl; [done || lia || congruence .. |].
    intros i c Hi Hc'.
    destruct (decide (c = col)) as [->|Hne].
    + replace (i + col * rows a) with (rows result * col + i) by (rewrite Hr; lia).
      rewrite Hw by lia. rewrite lookup_take_lt by done.
      rewrite lookup_drop. f_equal. lia.
    + rewrite Ho by (rewrite Hlv, Hr; left; nia). apply Hinv; lia.
Qed.

(** X14: [copy()] of an allocated matrix returns a matrix of the same
    shape, stored contiguously in exactly rows * cols entries, with the
    same elements: a matrix stored with lda > rows is compacted (one memcpy
    per column), a contiguous one is copied with a single memcpy. *)
Theorem copy_elements (a : FullMatrix T) :
  allocated a ->
  exists r,
    copy a = Ok r /\
    rows r = rows a /\ cols r = cols a /\ lda r = rows a /\
    length (m r) = rows a * cols a /\
    (forall i j, i < rows a -> j < cols a -> get r i j = get a i j).
Proof.
  intros Hal. pose proof Hal as [Hrl Hall]. unfold copy.
  case_bool_decide as Hl.
  - rewrite view_succeeds by (simpl; nia). simpl.
    assert (length (take (rows a * cols a) (drop 0 (m a))) = rows a * cols a) as Hlv
      by (rewrite length_take, length_drop; nia).
    destruct (memcpy_spec (replicate (rows a * cols a) zero) 0
                (take (rows a * cols a) (drop 0 (m a))))
      as (data & Hm & Hlen' & Hw & Ho); [rewrite Hlv, length_replicate; lia|].
    rewrite Hm. simpl. eexists. split; [done|]. simpl.
    do 3 (split; [done|]). split; [by rewrite Hlen', length_replicate|].
    intros i j Hi Hj. unfold get, rd. simpl.
    specialize (Hw (i + j * rows a)). rewrite Hlv in Hw.
    change (0 + (i + j * rows a)) with (i + j * rows a) in Hw.
    rewrite Hw by nia. rewrite lookup_take_lt by nia. rewrite lookup_drop, Hl. done.
  - destruct (copy_cols_spec a (cols a) 0 (new_FullMatrix (rows a) (cols a)))
      as (r & Hrun & Hr & Hc & Hlr & Hlen & Hel); simpl; try done.
    + by rewrite length_replicate.
    + intros i c _ Hc. lia.
    + exists r. split; [done|]. do 4 (split; [done|]).
      intros i j Hi Hj. unfold get, rd. rewrite Hlr, Hel by lia. done.
Qed.

Lemma copyAndTranspose_j_spec (a : FullMatrix T) (i : nat) (n : nat) :
  forall (j : nat) (result : FullMatrix T),
  allocated a -> i < rows a -> j + n <= cols a ->
  rows result = cols a -> cols result = rows a -> lda result = cols a ->
  length (m result) = cols a * rows a ->
  (forall i' j', j' < cols a -> (i' < i \/ i' = i /\ j' < j) ->
     m result !! (j' + i' * cols a) = m a !! (i' + j' * lda a)) ->
  exists r,
    copyAndTranspose_j n i j a result = Ok r /\
    rows r = cols a /\ cols r = rows a /\ lda r = cols a /\
    length (m r) = cols a * rows a /\
    (forall i' j', j' < cols a -> (i' < i \/ i' = i /\ j' < j + n) ->
       m r !! (j' + i' * cols a) = m a !! (i' + j' * lda a)).
Proof.
  induction n as [|n IH]; intros j result Hal Hi Hj Hr Hc Hl Hlen Hinv.
  - exists result. rewrite Nat.add_0_r. done.
  - pose proof Hal as [Hrl Hall]. simpl.
    rewrite elt_get by nia. simpl.
    rewrite put_succeeds by (rewrite Hl, Hlen; nia). simpl.
    replace (j + S n) with (S j + n) by lia.
    apply IH; simpl; rewrite ?length_insert; [done || lia .. |].
    intros i' j' Hj' Hcase. rewrite Hl.
    destruct (decide (i' = i /\ j' = j)) as [[-> ->]|Hne].
    + rewrite list_lookup_insert_eq by (rewrite Hlen; nia).
      unfold elt. destruct (lookup_lt_is_Some_2 (m a) (i + j * lda a)) as [x ->]; [nia|done].
    + rewrite list_lookup_insert_ne.
      2:{ intros Heq. apply offset_inj in Heq; [|lia..]. lia. }
      apply Hinv; [done|lia].
Qed.

Lemma copyAndTranspose_i_spec (a : FullMatrix T) (n : nat) :
  forall (i : nat) (result : FullMatrix T),
  allocated a -> i + n <= rows a ->
  rows result = cols a -> cols result = rows a -> lda result = cols a ->
  length (m result) = cols a * rows a ->
  (forall i' j', j' < cols a -> i' < i ->
     m result !! (j' + i' * cols a) = m a !! (i' + j' * lda a)) ->
  exists r,
    copyAndTranspose_i n i a result = Ok r /\
    rows r = cols a /\ cols r = rows a /\ lda r = cols a /\
    length (m r) = cols a * rows a /\
    (forall i' j', j' < cols a -> i' < i + n ->
       m r !! (j' + i' * cols a) = m a !! (i' + j' * lda a)).
Proof.
  induction n as [|n IH]; intros i result Hal Hi Hr Hc Hl Hlen Hinv.
  - exists result. rewrite Nat.add_0_r. done.
  - destruct (copyAndTranspose_j_spec a i (cols a) 0 result)
      as (r1 & Hrun & Hr1 & Hc1 & Hl1 & Hlen1 & Hel1); try done; try lia.
    { intros i' j' Hj' [Hlt|[_ Hlt]]; [by apply Hinv | lia]. }
    simpl. rewrite Hrun. simpl.
    replace (i + S n) with (S i + n) by lia.
    apply IH; [done || lia .. |].
    intros i' j' Hj' Hi'. apply Hel1; [done|]. simpl. lia.
Qed.

Lemma copyAndTranspose_stored (a : FullMatrix T) :
  allocated a ->
  exists r,
    copyAndTranspose a = Ok r /\
    rows r = cols a /\ cols r = rows a /\ lda r = cols a /\
    length (m r) = cols a * rows a /\
    (forall i j, i < rows a -> j < cols a -> get r j i = get a i j).
Proof.
  intros Hal. unfold copyAndTranspose.
  destruct (copyAndTranspose_i_spec a (rows a) 0 (new_FullMatrix (cols a) (rows a)))
    as (r & Hrun & Hr & Hc & Hl & Hlen & Hel); simpl; try done.
  - by rewrite length_replicate.
  - intros i' j' _ Hi'. lia.
  - exists r. split; [done|]. do 4 (split; [done|]).
    intros i j Hi Hj. unfold get, rd. rewrite Hl, Hel by (simpl; lia). done.
Qed.

(** X15: [copyAndTranspose()] of an allocated matrix returns a
    cols x rows matrix stored contiguously in exactly rows * cols entries,
    whose element (j, i) is element (i, j) of the matrix, read with the
    lda of the matrix. *)
Theorem copyAndTranspose_elements (a : FullMatrix T) :
  allocated a ->
  exists r,
    copyAndTranspose a = Ok r /\
    rows r = cols a /\ cols r = rows a /\ lda r = cols a /\
    length (m r) = cols a * rows a /\
    (forall i j, i < rows a -> j < cols a -> get r j i = get a i j).
Proof. apply copyAndTranspose_stored. Qed.

(** X16: the two transpositions agree: on a matrix whose storage holds
    exactly its rows * cols elements (lda = rows), the in-place
    [transpose()] leaves the very matrix that [copyAndTranspose()]
    returns. *)
Theorem transpose_copyAndTranspose (a : FullMatrix T) (fz : Factorization T) :
  lda a = rows a -> length (m a) = rows a * cols a ->
  exists r fz',
    copyAndTranspose a = Ok r /\ transpose a fz = Ok (r, fz').
Proof.
  intros Hl Hlen.
  destruct (copyAndTranspose_stored a) as (r & Hrun & Hr & Hc & Hlr & Hlenr & Hel).
  { split; [lia|]. rewrite Hl. lia. }
  destruct (transpose_stored a fz Hl) as (t & Hrun' & Ht & Htc & Htl & Htlen & Hin & _);
    [lia|].
  exists r. eexists. split; [done|]. rewrite Hrun'. do 2 f_equal.
  destruct t as [dt rt ct lt], r as [dr rr cr lr]. simpl in *. subst.
  f_equal. apply list_eq. intros off.
  destruct (decide (off < cols a * rows a)) as [Hlt|Hge].
  - destruct (offset_split (cols a) (rows a) off Hlt) as (i & j & Hi & Hj & ->).
    rewrite Hin by done.
    specialize (Hel j i Hj Hi). unfold get, rd in Hel. simpl in Hel.
    rewrite Hl in Hel.
    destruct (dr !! (i + j * cols a)) eqn:E1, (m a !! (j + i * rows a)) eqn:E2;
      congruence.
  - rewrite !lookup_ge_None_2; [done | lia | lia].
Qed.

End CopyFacts.

Lemma copy_elements_witness :
  exists r,
    copy padded22 = Ok r /\
    rows r = 2 /\ cols r = 2 /\ lda r = 2 /\ length (m r) = 2 * 2 /\
    (forall i j, i < 2 -> j < 2 -> get r i j = get padded22 i j).
Proof. apply (copy_elements padded22). split; simpl; lia. Defined.

Lemma copyAndTranspose_elements_witness :
  exists r,
    copyAndTranspose padded22 = Ok r /\
    rows r = 2 /\ cols r = 2 /\ lda r = 2 /\ length (m r) = 2 * 2 /\
    (forall i j, i < 2 -> j < 2 -> get r j i = get padded22 i j).
Proof. apply (copyAndTranspose_elements padded22). split; simpl; lia. Defined.

Lemma transpose_copyAndTranspose_witness :
  exists r fz',
    copyAndTranspose mat23 = Ok r /\ transpose mat23 notFactorized = Ok (r, fz').
Proof. apply (transpose_copyAndTranspose mat23 notFactorized); reflexivity. Defined.

Section FindMaxFacts.
Context {T : Type} `{Scalar T}.

Lemma findMax_rows_spec (mat : FullMatrix T) (col : nat) (n : nat) :
  forall (row : nat) (best : nat * nat * double),
  allocated mat -> col < cols mat -> row + n <= rows mat ->
  findMax_inv mat row col best ->
  exists best',
    findMax_rows n row col mat best = Ok best' /\
    findMax_inv mat (row + n) col best'.
Proof.
  induction n as [|n IH]; intros row [[bi bj] bn] Hal Hcol Hrow Hinv.
  - eexists. split; [done|]. by rewrite Nat.add_0_r.
  - destruct Hinv as (Hbi & Hbj & Hbn & Hmax & Hfirst).
    simpl. rewrite elt_get by (apply allocated_offset; done || lia). simpl.
    replace (row + S n) with (S row + n) by lia.
    destruct (Qltb bn (squaredNorm (elt mat row col))) eqn:Hcmp.
    + apply Qltb_lt in Hcmp. apply IH; [done | done | lia |].
      split; [lia|]. split; [done|]. split; [done|]. split.
      * intros i' j' Hi' Hj' [Hlt|[-> Hlt]].
        -- apply Qlt_le_weak. eapply Qle_lt_trans; [|exact Hcmp].
           apply Hmax; [done | done | by left].
        -- destruct (decide (i' = row)) as [->|Hne]; [apply Qle_refl|].
           apply Qlt_le_weak. eapply Qle_lt_trans; [|exact Hcmp].
           apply Hmax; [done | done | right; lia].
      * intros i' j' Hi' Hj' Hb. eapply Qle_lt_trans; [|exact Hcmp].
        by apply Hmax.
    + apply Qltb_ge in Hcmp. apply IH; [done | done | lia |].
      split; [done|]. split; [done|]. split; [done|]. split; [|done].
      intros i' j' Hi' Hj' [Hlt|[-> Hlt]].
      * apply Hmax; [done | done | by left].
      * destruct (decide (i' = row)) as [->|Hne]; [done|].
        apply Hmax; [done | done | right; lia].
Qed.

Lemma findMax_cols_spec (mat : FullMatrix T) (n : nat) :
  forall (col : nat) (best : nat * nat * double),
  allocated mat -> col + n <= cols mat ->
  findMax_inv mat 0 col best ->
  exists best',
    findMax_cols n col mat best = Ok best' /\
    findMax_inv mat 0 (col + n) best'.
Proof.
  induction n as [|n IH]; intros col best Hal Hcol Hinv.
  - eexists. split; [done|]. by rewrite Nat.add_0_r.
  - destruct (findMax_rows_spec mat col (rows mat) 0 best) as (best1 & Hrun & Hinv1);
      [done | lia | lia | done |].
    simpl. rewrite Hrun. simpl.
    replace (col + S n) with (S col + n) by lia.
    apply IH; [done | lia |].
    destruct best1 as [[bi bj] bn]. destruct Hinv1 as (Hbi & Hbj & Hbn & Hmax & Hfirst).
    do 3 (split; [done|]). split; [|done].
    intros i' j' Hi' Hj' [Hlt|[-> Hlt]]; [|lia].
    apply Hmax; [done | done |]. unfold before. simpl. lia.
Qed.

(** X17: [findMax] on an allocated matrix with at least one row and one
    column returns the indices (i, j) of an element of the matrix whose
    squared modulus is the largest of all the elements, and the first such
    element in the order of the storage (column after column): every
    element before it has a strictly smaller squared modulus. *)
Theorem findMax_maximal (mat : FullMatrix T) :
  allocated mat -> 0 < rows mat -> 0 < cols mat ->
  exists i j x,
    findMax mat = Ok (i, j) /\ i < rows mat /\ j < cols mat /\
    get mat i j = Ok x /\
    (forall i' j' y, i' < rows mat -> j' < cols mat -> get mat i' j' = Ok y ->
       (squaredNorm y <= squaredNorm x)%Q) /\
    (forall i' j' y, i' < rows mat -> j' < cols mat -> before i' j' i j ->
       get mat i' j' = Ok y -> (squaredNorm y < squaredNorm x)%Q).
Proof.
  intros Hal Hr Hc. unfold findMax.
  rewrite elt_get by (apply allocated_offset; done). simpl.
  destruct (findMax_cols_spec mat (cols mat) 0 (0, 0, squaredNorm (elt mat 0 0)))
    as ([[bi bj] bn] & Hrun & Hbi & Hbj & Hbn & Hmax & Hfirst); [done | lia | |].
  { do 3 (split; [done|]). split; intros i' j' _ _ [Hlt|[_ Hlt]]; lia. }
  rewrite Hrun. simpl. exists bi, bj, (elt mat bi bj).
  split; [done|]. split; [done|]. split; [done|].
  split; [apply elt_get, allocated_offset; done|]. rewrite <- Hbn. split.
  - intros i' j' y Hi' Hj' Hy%get_elt. subst y.
    apply Hmax; [done | done |]. left. simpl. lia.
  - intros i' j' y Hi' Hj' Hb Hy%get_elt. subst y. by apply Hfirst.
Qed.

End FindMaxFacts.

Lemma findMax_maximal_witness :
  exists i j x,
    findMax mat23 = Ok (i, j) /\ i < rows mat23 /\ j < cols mat23 /\
    get mat23 i j = Ok x /\
    (forall i' j' y, i' < rows mat23 -> j' < cols mat23 -> get mat23 i' j' = Ok y ->
       (squaredNorm y <= squaredNorm x)%Q) /\
    (forall i' j' y, i' < rows mat23 -> j' < cols mat23 -> before i' j' i j ->
       get mat23 i' j' = Ok y -> (squaredNorm y < squaredNorm x)%Q).
Proof.
  apply (findMax_maximal mat23); [split; simpl; lia | simpl; lia | simpl; lia].
Defined.

Section FindColFacts.
Context {T : Type} `{Scalar T}.

Lemma clear_new_Vector (v : list T) : clear v = new_Vector (length v).
Proof. done. Qed.

Lemma findCol_loop_spec (block : ClusterAssemblyFunction T) (L : nat) (n : nat) :
  forall (i : nat) (colFree : list bool) (col : list T)
         (r : option nat) (colFree' : list bool) (col' : list T),
  findCol_loop n i block colFree col = Ok (r, colFree', col') ->
  length col = L ->
  length colFree' = length colFree /\
  (forall k, i <= k < i + n -> colFree !! k = Some true ->
     (forall j, r = Some j -> k < j) ->
     isZero (getCol block k (new_Vector L)).2 = Ok true) /\
  match r with
  | Some j =>
      i <= j < i + n /\ colFree !! j = Some true /\
      col' = (getCol block j (new_Vector L)).2 /\ isZero col' = Ok false /\
      (forall k, colFree' !! k =
                 if bool_decide (i <= k <= j) then (fun _ => false) <$> colFree !! k
                 else colFree !! k)
  | None =>
      forall k, colFree' !! k =
                if bool_decide (i <= k < i + n) then (fun _ => false) <$> colFree !! k
                else colFree !! k
  end.
Proof.
  induction n as [|n IH]; intros i colFree col r colFree' col' Hrun Hlen;
    simpl in Hrun.
  - injection Hrun as <- <- <-. split; [done|]. split; [intros; lia|].
    intros k. rewrite bool_decide_false by lia. done.
  - apply bind_Ok in Hrun as (fr & Hfr%rd_Ok & Hrun). destruct fr.
    + apply bind_Ok in Hrun as (cf1 & [Hlt ->]%wr_Ok & Hrun).
      apply bind_Ok in Hrun as (z & Hz & Hrun).
      rewrite clear_new_Vector, Hlen in Hz, Hrun.
      destruct z; simpl in Hrun.
      * apply IH in Hrun as (Hl' & Hzero & Hres).
        2:{ rewrite getCol_length. apply new_Vector_length. }
        rewrite length_insert in Hl'. split; [done|]. split.
        -- intros k Hk Hfree Hbefore.
           destruct (decide (k = i)) as [->|Hne]; [done|].
           apply Hzero; [lia | by rewrite list_lookup_insert_ne | done].
        -- destruct r as [j|].
           ++ destruct Hres as (Hj & Hfj & Hcol & Hnz & Hmark).
              split; [lia|]. split; [by rewrite list_lookup_insert_ne in Hfj by lia|].
              split; [done|]. split; [done|].
              intros k. rewrite Hmark.
              destruct (decide (k = i)) as [->|Hne].
              ** rewrite bool_decide_false by lia. rewrite bool_decide_true by lia.
                 rewrite list_lookup_insert_eq by done. by rewrite Hfr.
              ** rewrite list_lookup_insert_ne by done.
                 repeat case_bool_decide; try done; lia.
           ++ intros k. rewrite Hres.
              destruct (decide (k = i)) as [->|Hne].
              ** rewrite bool_decide_false by lia. rewrite bool_decide_true by lia.
                 rewrite list_lookup_insert_eq by done. by rewrite Hfr.
              ** rewrite list_lookup_insert_ne by done.
                 repeat case_bool_decide; try done; lia.
      * injection Hrun as <- <- <-.
        split; [by rewrite length_insert|]. split.
        -- intros k Hk Hfree Hbefore. specialize (Hbefore i eq_refl). lia.
        -- split; [lia|]. split; [done|]. split; [done|]. split; [done|].
           intros k. destruct (decide (k = i)) as [->|Hne].
           ++ rewrite bool_decide_true by lia.
              rewrite list_lookup_insert_eq by done. by rewrite Hfr.
           ++ rewrite list_lookup_insert_ne by done.
              rewrite bool_decide_false by lia. done.
    + apply IH in Hrun as (Hl' & Hzero & Hres); [|done].
      split; [done|]. split.
      * intros k Hk Hfree Hbefore.
        destruct (decide (k = i)) as [->|Hne]; [congruence|].
        apply Hzero; [lia | done | done].
      * destruct r as [j|].
        -- destruct Hres as (Hj & Hfj & Hcol & Hnz & Hmark).
           split; [lia|]. do 3 (split; [done|]).
           intros k. rewrite Hmark.
           destruct (decide (k = i)) as [->|Hne].
           ++ rewrite bool_decide_false by lia. rewrite bool_decide_true by lia.
              by rewrite Hfr.
           ++ repeat case_bool_decide; try done; lia.
        -- intros k. rewrite Hres.
           destruct (decide (k = i)) as [->|Hne].
           ++ rewrite bool_decide_false by lia. rewrite bool_decide_true by lia.
              by rewrite Hfr.
           ++ repeat case_bool_decide; try done; lia.
Qed.

(** X18: [findCol] scans the columns in increasing order and stops at
    the first free column whose kernel column is not zero: it returns its
    index j with the column in [col], every column scanned before it was
    either already used or has a zero kernel column, and the columns 0 to
    j are all marked used on return (the others keep their mark).  When it
    returns -1, every column that was free has a zero kernel column and
    every column is marked used. *)
Theorem findCol_first_nonzero (block : ClusterAssemblyFunction T)
    (colFree : list bool) (col : list T)
    (r : option nat) (colFree' : list bool) (col' : list T) :
  findCol block colFree col = Ok (r, colFree', col') ->
  length colFree' = length colFree /\
  (forall k, colFree !! k = Some true -> (forall j, r = Some j -> k < j) ->
     isZero (getCol block k (new_Vector (length col))).2 = Ok true) /\
  match r with
  | Some j =>
      colFree !! j = Some true /\
      col' = (getCol block j (new_Vector (length col))).2 /\
      isZero col' = Ok false /\
      (forall k, k <= j -> k < length colFree -> colFree' !! k = Some false) /\
      (forall k, j < k -> colFree' !! k = colFree !! k)
  | None => forall k, k < length colFree -> colFree' !! k = Some false
  end.
Proof.
  intros Hrun. unfold findCol in Hrun.
  apply findCol_loop_spec with (L := length col) in Hrun as (Hl & Hzero & Hres);
    [|done].
  split; [done|]. split.
  - intros k Hfree Hbefore. apply Hzero; [|done|done].
    apply lookup_lt_Some in Hfree. lia.
  - destruct r as [j|].
    + destruct Hres as (Hj & Hfj & Hcol & Hnz & Hmark).
      do 3 (split; [done|]). split.
      * intros k Hk Hlt. rewrite Hmark, bool_decide_true by lia.
        destruct (lookup_lt_is_Some_2 colFree k Hlt) as [b ->]. done.
      * intros k Hk. rewrite Hmark, bool_decide_false by lia. done.
    + intros k Hlt. rewrite Hres, bool_decide_true by lia.
      destruct (lookup_lt_is_Some_2 colFree k Hlt) as [b ->]. done.
Qed.

End FindColFacts.

Lemma findCol_first_nonzero_witness :
  findCol zeroFirstColumn [true; true] [0; 0]%Q = Ok (Some 1, [false; false], [1; 1]%Q) /\
  isZero (getCol zeroFirstColumn 0 (new_Vector (length [0; 0]%Q))).2 = Ok true.
Proof.
  split; [vm_compute; reflexivity|].
  refine (proj1 (proj2
    (findCol_first_nonzero zeroFirstColumn [true; true] [0; 0]%Q
       (Some 1) [false; false] [1; 1]%Q _)) 0 _ _).
  - vm_compute. reflexivity.
  - reflexivity.
  - intros j [= <-]. lia.
Defined.

Section FindMinFacts.
Context {T : Type} `{Scalar T}.

Lemma argminFree_spec (free : list bool) (ref : list T) (n : nat) :
  forall (i : nat) (minNorm2 : double) (best r : option nat),
  argminFree n i free ref minNorm2 best = Ok r ->
  argmin_inv free ref i minNorm2 best ->
  exists minNorm2', argmin_inv free ref (i + n) minNorm2' r.
Proof.
  induction n as [|n IH]; intros i mn best r Hrun Hinv; simpl in Hrun.
  - injection Hrun as <-. exists mn. by rewrite Nat.add_0_r.
  - replace (i + S n) with (S i + n) by lia.
    destruct Hinv as [Hscan Hbest].
    apply bind_Ok in Hrun as (fr & Hfr%rd_Ok & Hrun). destruct fr.
    + apply bind_Ok in Hrun as (x & Hx%rd_Ok & Hrun).
      destruct (Qltb (squaredNorm x) mn) eqn:Hcmp.
      * apply Qltb_lt in Hcmp. apply IH in Hrun; [done|]. split.
        -- intros k y Hk Hfk Hy. destruct (decide (k = i)) as [->|Hne].
           ++ assert (y = x) as -> by congruence. apply Qle_refl.
           ++ apply Qlt_le_weak. eapply Qlt_le_trans; [exact Hcmp|].
              apply (Hscan k); [lia | done | done].
        -- split; [done|]. exists x. split; [done|]. split; [done|].
           destruct best as [b|].
           ++ destruct Hbest as (_ & xb & _ & -> & Hlt).
              eapply Qlt_trans; [exact Hcmp | exact Hlt].
           ++ by rewrite <- Hbest.
      * apply Qltb_ge in Hcmp. apply IH in Hrun; [done|]. split; [|done].
        intros k y Hk Hfk Hy. destruct (decide (k = i)) as [->|Hne].
        -- assert (y = x) as -> by congruence. done.
        -- apply (Hscan k); [lia | done | done].
    + apply IH in Hrun; [done|]. split; [|done].
      intros k y Hk Hfk Hy. destruct (decide (k = i)) as [->|Hne]; [congruence|].
      apply (Hscan k); [lia | done | done].
Qed.

Lemma insert_false_true (l : list bool) (i k : nat) :
  <[i:=false]> l !! k = Some true -> k <> i /\ l !! k = Some true.
Proof.
  intros Hk. destruct (decide (k = i)) as [->|Hne].
  - apply list_lookup_insert_Some in Hk as [(_ & ? & _)|[? _]]; done.
  - by rewrite list_lookup_insert_ne in Hk.
Qed.

Lemma findMinRow_loop_spec (block : ClusterAssemblyFunction T)
    (aCols bCols : list (Vector T)) (aRef : list T) (L : nat) (fuel : nat) :
  forall (rowFree : list bool) (row : list T)
         (r : option nat) (rowFree' : list bool) (row' : list T),
  findMinRow_loop fuel block rowFree aCols bCols aRef row = Ok (r, rowFree', row') ->
  length row = L ->
  minFree rowFree rowFree' aRef r /\
  (forall i, r = Some i ->
     updateRow (getRow block i (new_Vector L)).2 i bCols aCols (length aCols) = Ok row' /\
     isZero row' = Ok false).
Proof.
  induction fuel as [|fuel IH]; intros rowFree row r rowFree' row' Hrun Hlen;
    simpl in Hrun; [done|].
  apply bind_Ok in Hrun as (i_ref & Harg & Hrun).
  apply argminFree_spec in Harg as (mn & Hscan & Hbest); [|split; [intros; lia|done]].
  simpl in Hscan.
  destruct i_ref as [i|].
  - destruct Hbest as (Hfi & x & Hx & -> & Hlt).
    apply bind_Ok in Hrun as (row1 & Hrow1 & Hrun).
    apply bind_Ok in Hrun as (z & Hz & Hrun).
    apply bind_Ok in Hrun as (rf1 & [Hi ->]%wr_Ok & Hrun).
    rewrite clear_new_Vector, Hlen in Hrow1.
    destruct z; simpl in Hrun.
    + apply IH in Hrun as ((Hl' & Hmono & Hres) & Hrow).
      2:{ apply updateRow_length in Hrow1.
          by rewrite Hrow1, getRow_length, new_Vector_length. }
      rewrite length_insert in Hl'. split; [|done].
      split; [done|]. split.
      * intros k Hk. by apply Hmono, insert_false_true in Hk as [_ ?].
      * destruct r as [i'|]; [|done].
        destruct Hres as (Hfi' & Hres). apply insert_false_true in Hfi' as [_ Hfi'].
        split; done.
    + injection Hrun as <- <- <-. split.
      * split; [by rewrite length_insert|]. split.
        -- intros k Hk. by apply insert_false_true in Hk as [_ ?].
        -- split; [done|]. split; [by apply list_lookup_insert_eq|].
           exists x. split; [done|]. split; [done|].
           intros k y Hk Hfk Hy. apply insert_false_true in Hfk as [_ Hfk].
           by apply (Hscan k).
      * intros i' [= <-]. done.
  - injection Hrun as <- <- <-. split; [|done].
    split; [done|]. split; [done|].
    intros k y Hk Hfk Hy. rewrite <- Hbest. by apply (Hscan k).
Qed.

(** X19: [findMinRow] returns a row that was free, marks it used, and
    leaves in [row] its residual row (the kernel row minus the
    contributions of the pairs found so far), which is not zero; the
    squared modulus of its entry in [aRef] is below DBL_MAX and is the
    least among the rows that are still free on return.  When it returns
    -1, no row left free has an entry of [aRef] of squared modulus below
    DBL_MAX.  Rows are only ever marked used. *)
Theorem findMinRow_minimal (block : ClusterAssemblyFunction T)
    (rowFree : list bool) (aCols bCols : list (Vector T)) (aRef row : list T)
    (r : option nat) (rowFree' : list bool) (row' : list T) :
  findMinRow block rowFree aCols bCols aRef row = Ok (r, rowFree', row') ->
  minFree rowFree rowFree' aRef r /\
  (forall i, r = Some i ->
     updateRow (getRow block i (new_Vector (length row))).2 i bCols aCols (length aCols)
       = Ok row' /\
     isZero row' = Ok false).
Proof.
  intros Hrun. unfold findMinRow in Hrun.
  by apply findMinRow_loop_spec with (L := length row) in Hrun.
Qed.

Lemma findMinCol_loop_spec (block : ClusterAssemblyFunction T)
    (aCols bCols : list (Vector T)) (bRef : list T) (L : nat) (fuel : nat) :
  forall (colFree : list bool) (col : list T)
         (r : option nat) (colFree' : list bool) (col' : list T),
  findMinCol_loop fuel block colFree aCols bCols bRef col = Ok (r, colFree', col') ->
  length col = L ->
  minFree colFree colFree' bRef r /\
  (forall j, r = Some j ->
     updateCol (getCol block j (new_Vector L)).2 j aCols bCols (length bCols) = Ok col' /\
     isZero col' = Ok false).
Proof.
  induction fuel as [|fuel IH]; intros colFree col r colFree' col' Hrun Hlen;
    simpl in Hrun; [done|].
  apply bind_Ok in Hrun as (j_ref & Harg & Hrun).
  apply argminFree_spec in Harg as (mn & Hscan & Hbest); [|split; [intros; lia|done]].
  simpl in Hscan.
  destruct j_ref as [j|].
  - destruct Hbest as (Hfj & x & Hx & -> & Hlt).
    apply bind_Ok in Hrun as (col1 & Hcol1 & Hrun).
    apply bind_Ok in Hrun as (z & Hz & Hrun).
    apply bind_Ok in Hrun as (cf1 & [Hj ->]%wr_Ok & Hrun).
    rewrite clear_new_Vector, Hlen in Hcol1.
    destruct z; simpl in Hrun.
    + apply IH in Hrun as ((Hl' & Hmono & Hres) & Hcol).
      2:{ apply updateCol_length in Hcol1.
          by rewrite Hcol1, getCol_length, new_Vector_length. }
      rewrite length_insert in Hl'. split; [|done].
      split; [done|]. split.
      * intros k Hk. by apply Hmono, insert_false_true in Hk as [_ ?].
      * destruct r as [j'|]; [|done].
        destruct Hres as (Hfj' & Hres). apply insert_false_true in Hfj' as [_ Hfj'].
        split; done.
    + injection Hrun as <- <- <-. split.
      * split; [by rewrite length_insert|]. split.
        -- intros k Hk. by apply insert_false_true in Hk as [_ ?].
        -- split; [done|]. split; [by apply list_lookup_insert_eq|].
           exists x. split; [done|]. split; [done|].
           intros k y Hk Hfk Hy. apply insert_false_true in Hfk as [_ Hfk].
           by apply (Hscan k).
      * intros j' [= <-]. done.
  - injection Hrun as <- <- <-. split; [|done].
    split; [done|]. split; [done|].
    intros k y Hk Hfk Hy. rewrite <- Hbest. by apply (Hscan k).
Qed.

(** X20: [findMinCol] returns a column that was free, marks it used, and
    leaves in [col] its residual column, which is not zero; the squared
    modulus of its entry in [bRef] is below DBL_MAX and is the least among
    the columns that are still free on return.  When it returns -1, no
    column left free has an entry of [bRef] of squared modulus below
    DBL_MAX.  Columns are only ever marked used. *)
Theorem findMinCol_minimal (block : ClusterAssemblyFunction T)
    (colFree : list bool) (aCols bCols : list (Vector T)) (bRef col : list T)
    (r : option nat) (colFree' : list bool) (col' : list T) :
  findMinCol block colFree aCols bCols bRef col = Ok (r, colFree', col') ->
  minFree colFree colFree' bRef r /\
  (forall j, r = Some j ->
     updateCol (getCol block j (new_Vector (length col))).2 j aCols bCols (length bCols)
       = Ok col' /\
     isZero col' = Ok false).
Proof.
  intros Hrun. unfold findMinCol in Hrun.
  by apply findMinCol_loop_spec with (L := length col) in Hrun.
Qed.

End FindMinFacts.

Lemma findMinRow_minimal_witness :
  findMinRow (denseBlock [[2; 1]; [1; 1]]%Q 2 2) [true; true] [] [] [2; 1]%Q [0; 0]%Q
    = Ok (Some 1, [true; false], [1; 1]%Q) /\
  minFree [true; true] [true; false] [2; 1]%Q (Some 1).
Proof.
  split; [vm_compute; reflexivity|].
  refine (proj1 (findMinRow_minimal (denseBlock [[2; 1]; [1; 1]]%Q 2 2)
            [true; true] [] [] [2; 1]%Q [0; 0]%Q (Some 1) [true; false] [1; 1]%Q _)).
  vm_compute. reflexivity.
Defined.

Lemma findMinCol_minimal_witness :
  findMinCol (denseBlock [[2; 1]; [1; 1]]%Q 2 2) [true; true] [] [] [2; 1]%Q [0; 0]%Q
    = Ok (Some 1, [true; false], [1; 1]%Q) /\
  minFree [true; true] [true; false] [2; 1]%Q (Some 1).
Proof.
  split; [vm_compute; reflexivity|].
  refine (proj1 (findMinCol_minimal (denseBlock [[2; 1]; [1; 1]]%Q 2 2)
            [true; true] [] [] [2; 1]%Q [0; 0]%Q (Some 1) [true; false] [1; 1]%Q _)).
  vm_compute. reflexivity.
Defined.

Section RunningEstimate.
Context {T : Type} `{ScalarLaws T}.

Lemma spec_estimate_from_snoc (prior rest : list (Vector T * Vector T))
    (p : Vector T * Vector T) (acc : double) :
  spec_estimate_from prior (rest ++ [p]) acc =
  spec_normUpdate (spec_estimate_from prior rest acc) p.1 p.2 (prior ++ rest).
Proof.
  revert prior acc. induction rest as [|q rest IH]; intros prior acc; simpl.
  - by rewrite app_nil_r.
  - rewrite IH. by rewrite <- app_assoc.
Qed.

Lemma spec_estimate_snoc (aCols bCols : list (Vector T)) (a_k b_k : Vector T)
    (est est' : double) :
  length aCols = length bCols ->
  (est == spec_estimate (zip aCols bCols))%Q ->
  (est' == spec_normUpdate est a_k b_k (zip aCols bCols))%Q ->
  (est' == spec_estimate (zip (aCols ++ [a_k]) (bCols ++ [b_k])))%Q.
Proof.
  intros Hlen Hest Hest'.
  rewrite (zip_with_app pair aCols [a_k] bCols [b_k] Hlen). simpl.
  unfold spec_estimate. rewrite spec_estimate_from_snoc. simpl.
  rewrite Hest'. unfold spec_normUpdate.
  unfold spec_estimate in Hest. rewrite Hest. reflexivity.
Qed.

Lemma acaPartial_loop_estimate (fuel : nat) (block : ClusterAssemblyFunction T)
    (epsilon : double) (maxK : nat) :
  forall s s' : AcaPartialState T,
  acaPartial_loop fuel block epsilon maxK s = Ok s' ->
  acaPartial_inv block s ->
  (pa_estimateSquaredNorm s == spec_estimate (zip (pa_aCols s) (pa_bCols s)))%Q ->
  (pa_estimateSquaredNorm s' == spec_estimate (zip (pa_aCols s') (pa_bCols s')))%Q.
Proof.
  induction fuel as [|fuel IH]; intros s s' Hl Hinv Hest; simpl in Hl; [done|].
  apply bind_Ok in Hl as ([brk s1] & Hb & Hl).
  pose proof (acaPartial_body_inv _ _ _ _ _ Hb Hinv) as Hinv1.
  assert (pa_estimateSquaredNorm s1
          == spec_estimate (zip (pa_aCols s1) (pa_bCols s1)))%Q as Hest1.
  { pose proof (acaPartial_body_step _ _ _ _ _ Hb) as (_ & _ & _ & _ & _ & _ & Hk).
    destruct Hk as [(_ & _ & -> & -> & ->) | (Hk & _)]; [done|].
    destruct (acaPartial_body_estimate _ _ _ _ _ Hb Hinv Hk)
      as (a_k & b_k & -> & -> & Hup).
    eapply spec_estimate_snoc; [|exact Hest|exact Hup].
    by rewrite (pa_inv_aCols _ _ Hinv), (pa_inv_bCols _ _ Hinv). }
  destruct brk; [by injection Hl as <-|].
  case_bool_decide; [by eapply IH | by injection Hl as <-].
Qed.

(** X21: the estimate of the squared norm that [compressAcaPartial]
    holds when its loop ends is the one that the accepted pairs (a_l, b_l)
    define: starting from 0, each pair adds |a_k|^2 |b_k|^2 and twice the
    real part of the sum of <a_k, a_l> <b_k, b_l> over every pair accepted
    before it; the passes that accept no pair leave it as it is. *)
Theorem acaPartial_run_estimate (approx : RkApproximationControl)
    (block : ClusterAssemblyFunction T) (s : AcaPartialState T) :
  acaPartial_run approx block = Ok s ->
  (pa_estimateSquaredNorm s == spec_estimate (zip (pa_aCols s) (pa_bCols s)))%Q.
Proof.
  intros Hr. unfold acaPartial_run in Hr.
  eapply acaPartial_loop_estimate; [exact Hr | apply acaPartial_init_inv |].
  simpl. reflexivity.
Qed.

Lemma acaPlus_loop_estimate (fuel : nat) (block : ClusterAssemblyFunction T)
    (epsilon : double) (maxK : nat) :
  forall s s' : AcaPlusState T,
  acaPlus_loop fuel block epsilon maxK s = Ok s' ->
  acaPlus_inv block s ->
  (pl_estimateSquaredNorm s == spec_estimate (zip (pl_aCols s) (pl_bCols s)))%Q ->
  (pl_estimateSquaredNorm s' == spec_estimate (zip (pl_aCols s') (pl_bCols s')))%Q.
Proof.
  induction fuel as [|fuel IH]; intros s s' Hl Hinv Hest; simpl in Hl; [done|].
  apply bind_Ok in Hl as ([brk s1] & Hb & Hl).
  pose proof (acaPlus_body_inv _ _ _ _ _ Hb Hinv) as (Hinv1 & _).
  assert (pl_estimateSquaredNorm s1
          == spec_estimate (zip (pl_aCols s1) (pl_bCols s1)))%Q as Hest1.
  { destruct (acaPlus_body_estimate _ _ _ _ _ Hb Hinv) as (a_k & b_k & -> & -> & Hup).
    eapply spec_estimate_snoc; [|exact Hest|exact Hup].
    by rewrite (pl_inv_aCols _ _ Hinv), (pl_inv_bCols _ _ Hinv). }
  destruct brk; [by injection Hl as <-|].
  case_bool_decide; [by eapply IH | by injection Hl as <-].
Qed.

(** X22: the estimate of the squared norm that [compressAcaPlus] holds
    when its loop ends is the one that the accepted pairs (a_l, b_l)
    define: starting from 0, each pair adds |a_k|^2 |b_k|^2 and twice the
    real part of the sum of <a_k, a_l> <b_k, b_l> over every pair accepted
    before it. *)
Theorem acaPlus_run_estimate (approx : RkApproximationControl)
    (block : ClusterAssemblyFunction T) (s : AcaPlusState T) :
  acaPlus_run approx block = Ok (Some s) ->
  (pl_estimateSquaredNorm s == spec_estimate (zip (pl_aCols s) (pl_bCols s)))%Q.
Proof.
  unfold acaPlus_run. intros Hr. inv_Ok Hr.
  match goal with x : option nat * list bool * Vector T |- _ =>
    destruct x as [[j_ref colFree] aRef] end.
  match goal with Hf : findCol _ _ _ = Ok _ |- _ =>
    apply findCol_step in Hf as (Hcf & HaR & _) end.
  rewrite length_replicate in Hcf. rewrite new_Vector_length in HaR.
  destruct j_ref as [j|]; [|by inv_Ok Hr].
  inv_Ok Hr.
  match goal with x : option nat * list bool * Vector T |- _ =>
    destruct x as [[i_ref rowFree] bRef] end.
  match goal with Hf : findMinRow _ _ _ _ _ _ = Ok _ |- _ =>
    apply findMinRow_step in Hf as [Hrf HbR] end.
  rewrite length_replicate in Hrf. rewrite new_Vector_length in HbR.
  inv_Ok Hr.
  match goal with Hl : acaPlus_loop _ _ _ _ _ = Ok _ |- _ =>
    eapply acaPlus_loop_estimate in Hl; [exact Hl | | simpl; reflexivity] end.
  split; simpl; try done.
Qed.

End RunningEstimate.

Lemma acaPartial_run_estimate_witness :
  exists s, acaPartial_run approx6 (denseBlock [[2; 1]; [1; 1]]%Q 2 2) = Ok s /\
    (pa_estimateSquaredNorm s == spec_estimate (zip (pa_aCols s) (pa_bCols s)))%Q.
Proof.
  eexists. split; [vm_compute; reflexivity|].
  apply (acaPartial_run_estimate approx6 (denseBlock [[2; 1]; [1; 1]]%Q 2 2)).
  vm_compute. reflexivity.
Defined.

Lemma acaPlus_run_estimate_witness :
  exists s, acaPlus_run approx6 (denseBlock [[2; 1]; [1; 1]]%Q 2 2) = Ok (Some s) /\
    (pl_estimateSquaredNorm s == spec_estimate (zip (pl_aCols s) (pl_bCols s)))%Q.
Proof.
  eexists. split; [vm_compute; reflexivity|].
  apply (acaPlus_run_estimate approx6 (denseBlock [[2; 1]; [1; 1]]%Q 2 2)).
  vm_compute. reflexivity.
Defined.

Section CompressEdgeCases.
Context {T : Type} `{ScalarLaws T}.
Variable truncatedSvd : FullMatrix T -> Z * FullMatrix T * list double * FullMatrix T.
Variable findK : RkApproximationControl -> list double -> nat -> double -> nat.

(** X23: the loops of the four compression methods end: whatever the
    kernel, the clusters, the tolerance and the method, [compress] ends
    with a result, a failed assertion or an access outside an array, within
    the bounds on the number of passes that the model gives to the
    do-while and while loops of compression.cpp (min(rows, cols) + 1
    passes for the main loops, one pass per free row or column for the
    searches). *)
Theorem compress_terminates (approx : RkApproximationControl)
    (method_ : CompressionMethod) (f : Function T) (rows_ cols_ : ClusterData) :
  terminates (compress truncatedSvd findK approx method_ f rows_ cols_).
Proof. unfold compress. apply terminates_compressWithoutValidation. Qed.

(** X24: [isZero] reads the entry of largest modulus: on a vector with
    no entry it reads entry 0 outside the vector; on any other vector it
    returns true exactly when every entry is == zero. *)
Theorem isZero_all_zero (v : list T) :
  match v with
  | [] => isZero v = Undefined
  | _ :: _ =>
      exists z, isZero v = Ok z /\
                (z = true <-> Forall (fun y => seqb y zero = true) v)
  end.
Proof.
  destruct v as [|x v]; [done|]. by apply isZero_spec.
Qed.

Lemma getCol_nil (block : ClusterAssemblyFunction T) (j : nat) :
  (getCol block j []).2 = [].
Proof. unfold getCol. by case_match. Qed.

(** X25: a block with no row and at least one column, whose assembled
    matrix has that shape: [compressSvd] (the all-zero test of
    compressMatrix reads entry 0 of an empty column), [compressAcaPartial]
    (it marks row 0 in an empty rowFree) and [compressAcaPlus] (findCol
    tests an empty column) access an array outside its bounds, while
    [compressAcaFull] returns the empty Rk. *)
Theorem compress_block_without_rows (approx : RkApproximationControl)
    (block : ClusterAssemblyFunction T) :
  size (block_rows block) = 0 -> 0 < size (block_cols block) ->
  rows (assemble block).2 = 0 ->
  cols (assemble block).2 = size (block_cols block) ->
  compressWithoutValidation truncatedSvd findK approx Svd block = Undefined /\
  compressWithoutValidation truncatedSvd findK approx AcaPartial block = Undefined /\
  compressWithoutValidation truncatedSvd findK approx AcaPlus block = Undefined /\
  compressWithoutValidation truncatedSvd findK approx AcaFull block =
    Ok {| a := None; rk_rows := block_rows block; b := None;
          rk_cols := block_cols block; method := AcaFull |}.
Proof.
  intros Hr Hc Hmr Hmc. simpl. split; [|split; [|split]].
  - unfold compressSvd, compressMatrix.
    rewrite Hmr, Hmc, Hr.
    rewrite (bool_decide_true (0 = 0)) by done.
    rewrite (bool_decide_true (size (block_cols block) = size (block_cols block)))
      by done.
    rewrite (bool_decide_true (0 <= lda (assemble block).2)) by lia. simpl.
    destruct (size (block_cols block)) as [|c]; [lia|]. simpl.
    rewrite Hmr. simpl. done.
  - unfold compressAcaPartial, acaPartial_run. rewrite Hr. simpl.
    unfold acaPartial_body. rewrite ?Hr. simpl. done.
  - unfold compressAcaPlus, acaPlus_run. rewrite Hr. simpl.
    unfold findCol. rewrite length_replicate.
    destruct (size (block_cols block)) as [|c]; [lia|]. simpl.
    rewrite getCol_nil. simpl. done.
  - unfold compressAcaFull, acaFull_run, acaFull_maxK. rewrite Hmr. simpl.
    destruct (bool_decide _); simpl; done.
Qed.

(** X26: a block with at least one row and no column, whose assembled
    matrix has that shape: [compressAcaPartial] reads entry 0 of the empty
    row it has fetched, outside its bounds, while [compressSvd],
    [compressAcaFull] and [compressAcaPlus] return the empty Rk (tagged
    NoCompression by compressSvd). *)
Theorem compress_block_without_columns (approx : RkApproximationControl)
    (block : ClusterAssemblyFunction T) :
  0 < size (block_rows block) -> size (block_cols block) = 0 ->
  rows (assemble block).2 = size (block_rows block) ->
  cols (assemble block).2 = 0 ->
  rows (assemble block).2 <= lda (assemble block).2 ->
  compressWithoutValidation truncatedSvd findK approx AcaPartial block = Undefined /\
  compressWithoutValidation truncatedSvd findK approx Svd block =
    Ok {| a := None; rk_rows := block_rows block; b := None;
          rk_cols := block_cols block; method := NoCompression |} /\
  compressWithoutValidation truncatedSvd findK approx AcaFull block =
    Ok {| a := None; rk_rows := block_rows block; b := None;
          rk_cols := block_cols block; method := AcaFull |} /\
  compressWithoutValidation truncatedSvd findK approx AcaPlus block =
    Ok {| a := None; rk_rows := block_rows block; b := None;
          rk_cols := block_cols block; method := AcaPlus |}.
Proof.
  intros Hr Hc Hmr Hmc Hlda. simpl. split; [|split; [|split]].
  - unfold compressAcaPartial, acaPartial_run. rewrite Hc.
    destruct (size (block_rows block)) as [|r] eqn:Hrows; [lia|].
    rewrite Nat.min_0_r. simpl.
    unfold acaPartial_body. rewrite Hc, Hrows. simpl.
    unfold getRow. case_match; simpl; done.
  - unfold compressSvd, compressMatrix.
    rewrite Hmc, Hc.
    rewrite (bool_decide_true (rows (assemble block).2 = size (block_rows block)))
      by done.
    rewrite (bool_decide_true (0 = 0)) by done.
    rewrite (bool_decide_true (rows (assemble block).2 <= lda (assemble block).2))
      by done.
    simpl. done.
  - unfold compressAcaFull, acaFull_run, acaFull_maxK. rewrite Hmc.
    rewrite Nat.min_0_r. simpl.
    destruct (bool_decide _); simpl; done.
  - unfold compressAcaPlus, acaPlus_run. rewrite Hc. simpl. done.
Qed.

End CompressEdgeCases.

Lemma compress_block_without_rows_witness :
  compressWithoutValidation svdDiagonal findK_spec approx6 Svd (denseBlock [] 0 2)
    = Undefined /\
  compressWithoutValidation svdDiagonal findK_spec approx6 AcaPartial (denseBlock [] 0 2)
    = Undefined /\
  compressWithoutValidation svdDiagonal findK_spec approx6 AcaPlus (denseBlock [] 0 2)
    = Undefined /\
  compressWithoutValidation svdDiagonal findK_spec approx6 AcaFull (denseBlock [] 0 2) =
    Ok {| a := None; rk_rows := cluster 0; b := None;
          rk_cols := cluster 2; method := AcaFull |}.
Proof.
  apply (compress_block_without_rows svdDiagonal findK_spec approx6
           (denseBlock (T:=Q) [] 0 2));
    [reflexivity | vm_compute; lia | reflexivity | reflexivity].
Defined.

Lemma compress_block_without_columns_witness :
  compressWithoutValidation svdDiagonal findK_spec approx6 AcaPartial (denseBlock [] 2 0)
    = Undefined /\
  compressWithoutValidation svdDiagonal findK_spec approx6 Svd (denseBlock [] 2 0) =
    Ok {| a := None; rk_rows := cluster 2; b := None;
          rk_cols := cluster 0; method := NoCompression |} /\
  compressWithoutValidation svdDiagonal findK_spec approx6 AcaFull (denseBlock [] 2 0) =
    Ok {| a := None; rk_rows := cluster 2; b := None;
          rk_cols := cluster 0; method := AcaFull |} /\
  compressWithoutValidation svdDiagonal findK_spec approx6 AcaPlus (denseBlock [] 2 0) =
    Ok {| a := None; rk_rows := cluster 2; b := None;
          rk_cols := cluster 0; method := AcaPlus |}.
Proof.
  apply (compress_block_without_columns svdDiagonal findK_spec approx6
           (denseBlock (T:=Q) [] 2 0));
    [vm_compute; lia | reflexivity | reflexivity | reflexivity | vm_compute; lia].
Defined.

Lemma isZero_all_zero_witness :
  exists z, isZero [0; 3; 0]%Q = Ok z /\
            (z = true <-> Forall (fun y => seqb y zero = true) [0; 3; 0]%Q).
Proof. exact (isZero_all_zero [0; 3; 0]%Q). Defined.

Section FactorColumns.
Context {T : Type} `{Scalar T}.

Lemma copyCols_columns (vs : list (Vector T)) (n : nat) :
  forall (i : nat) (dst dst' : FullMatrix T),
  copyCols n i dst vs = Ok dst' ->
  (forall l v, l < i + n -> vs !! l = Some v ->
     (i <= l -> column dst' l = take (rows dst) v) /\
     (l < i -> column dst' l = column dst l)).
Proof.
  induction n as [|n IH]; intros i dst dst' Hrun l v Hl Hv; simpl in Hrun.
  - injection Hrun as <-. split; [lia|done].
  - apply bind_Ok in Hrun as (vi & Hvi%rd_Ok & Hrun).
    apply bind_Ok in Hrun as (src & Hsrc & Hrun).
    apply bind_Ok in Hrun as (data & Hm & Hrun).
    pose proof (view_length _ _ _ _ Hsrc) as Hls.
    apply view_Ok in Hsrc as [_ ->]. rewrite drop_0 in *.
    set (dst1 := {| m := data; rows := rows dst; cols := cols dst; lda := lda dst |})
      in Hrun.
    destruct (IH (S i) dst1 dst' Hrun l v) as [Hge Hlt]; [lia | done |].
    assert (forall l', l' <> i -> column dst1 l' = column dst l') as Hother.
    { intros l' Hne. unfold column. simpl. apply list_eq. intros k.
      destruct (decide (k < rows dst)) as [Hk|Hk].
      - rewrite !lookup_take_lt, !lookup_drop by done.
        eapply memcpy_lookup_other; [exact Hm|]. rewrite Hls.
        destruct (Nat.lt_trichotomy l' i) as [?|[?|?]]; [left; nia | done | right; nia].
      - rewrite !lookup_take_ge by lia. done. }
    assert (column dst1 i = take (rows dst) vi) as Hthis.
    { unfold column. simpl. apply list_eq. intros k.
      destruct (decide (k < rows dst)) as [Hk|Hk].
      - rewrite lookup_take_lt, lookup_drop by done.
        erewrite memcpy_lookup; [done | exact Hm | lia].
      - rewrite !lookup_take_ge by lia. done. }
    split.
    + intros Hil. destruct (decide (l = i)) as [->|Hne].
      * rewrite Hlt by lia. rewrite Hthis.
        assert (Some vi = Some v) as Heq by (by rewrite <- Hvi, <- Hv).
        by injection Heq as ->.
      * apply Hge. lia.
    + intros Hli. rewrite Hlt by lia. apply Hother. lia.
Qed.

Lemma copyCols_exact (vs : list (Vector T)) (k r : nat) (dst' : FullMatrix T) :
  copyCols k 0 (new_FullMatrix r k) vs = Ok dst' ->
  Forall (fun v => length v = r) vs ->
  forall l v, l < k -> vs !! l = Some v -> column dst' l = v.
Proof.
  intros Hrun Hlen l v Hl Hv.
  destruct (copyCols_columns vs k 0 _ _ Hrun l v) as [Hge _]; [lia | done |].
  rewrite Hge by lia. simpl.
  rewrite Forall_forall in Hlen.
  rewrite take_ge; [done|]. rewrite (Hlen v); [done|].
  apply list_elem_of_lookup. eauto.
Qed.

(** X27: the factors that [compressAcaPartial] returns are made of the
    vectors that its loop has accepted: column l of A is the vector a_l
    and column l of B is the vector b_l. *)
Theorem compressAcaPartial_factors (approx : RkApproximationControl)
    (block : ClusterAssemblyFunction T) (s : AcaPartialState T) (rk : RkMatrix T)
    (A B : FullMatrix T) :
  acaPartial_run approx block = Ok s ->
  compressAcaPartial approx block = Ok rk ->
  a rk = Some A -> b rk = Some B ->
  cols A = length (pa_aCols s) /\ cols B = length (pa_bCols s) /\
  (forall l v, pa_aCols s !! l = Some v -> column A l = v) /\
  (forall l v, pa_bCols s !! l = Some v -> column B l = v).
Proof.
  intros Hs Hc Ha Hb. pose proof (acaPartial_run_inv _ _ _ Hs) as [Hinv _].
  unfold compressAcaPartial in Hc. rewrite Hs in Hc. simpl in Hc.
  case_bool_decide as Hk; inv_Ok Hc; simpl in *; [|done].
  injection Ha as <-. injection Hb as <-.
  repeat match goal with
  | Hcc : copyCols _ _ (new_FullMatrix _ _) ?vs = Ok ?r |- _ =>
      pose proof (copyCols_shape _ _ _ _ _ Hcc) as (_ & ? & _);
      pose proof (copyCols_exact _ _ _ _ Hcc); clear Hcc
  end.
  simpl in *.
  split; [by rewrite (pa_inv_aCols _ _ Hinv)|].
  split; [by rewrite (pa_inv_bCols _ _ Hinv)|]. split.
  - intros l v Hv. match goal with Hx : _ -> forall l v, _ -> pa_aCols s !! l = _ -> _ |- _ =>
      apply Hx; [apply (pa_inv_aLen _ _ Hinv) | | done] end.
    apply lookup_lt_Some in Hv. by rewrite (pa_inv_aCols _ _ Hinv) in Hv.
  - intros l v Hv. match goal with Hx : _ -> forall l v, _ -> pa_bCols s !! l = _ -> _ |- _ =>
      apply Hx; [apply (pa_inv_bLen _ _ Hinv) | | done] end.
    apply lookup_lt_Some in Hv. by rewrite (pa_inv_bCols _ _ Hinv) in Hv.
Qed.

(** X28: the factors that [compressAcaPlus] returns are made of the
    vectors that its loop has accepted: column l of A is the vector a_l
    and column l of B is the vector b_l. *)
Theorem compressAcaPlus_factors (approx : RkApproximationControl)
    (block : ClusterAssemblyFunction T) (s : AcaPlusState T) (rk : RkMatrix T)
    (A B : FullMatrix T) :
  acaPlus_run approx block = Ok (Some s) ->
  compressAcaPlus approx block = Ok rk ->
  a rk = Some A -> b rk = Some B ->
  cols A = length (pl_aCols s) /\ cols B = length (pl_bCols s) /\
  (forall l v, pl_aCols s !! l = Some v -> column A l = v) /\
  (forall l v, pl_bCols s !! l = Some v -> column B l = v).
Proof.
  intros Hs Hc Ha Hb. pose proof (acaPlus_run_inv _ _ _ Hs) as [Hinv _].
  unfold compressAcaPlus in Hc. rewrite Hs in Hc. simpl in Hc.
  inv_Ok Hc; simpl in *.
  injection Ha as <-. injection Hb as <-.
  repeat match goal with
  | Hcc : copyCols _ _ (new_FullMatrix _ _) ?vs = Ok ?r |- _ =>
      pose proof (copyCols_shape _ _ _ _ _ Hcc) as (_ & ? & _);
      pose proof (copyCols_exact _ _ _ _ Hcc); clear Hcc
  end.
  simpl in *.
  split; [by rewrite (pl_inv_aCols _ _ Hinv)|].
  split; [by rewrite (pl_inv_bCols _ _ Hinv)|]. split.
  - intros l v Hv. match goal with Hx : _ -> forall l v, _ -> pl_aCols s !! l = _ -> _ |- _ =>
      apply Hx; [apply (pl_inv_aLen _ _ Hinv) | | done] end.
    apply lookup_lt_Some in Hv. by rewrite (pl_inv_aCols _ _ Hinv) in Hv.
  - intros l v Hv. match goal with Hx : _ -> forall l v, _ -> pl_bCols s !! l = _ -> _ |- _ =>
      apply Hx; [apply (pl_inv_bLen _ _ Hinv) | | done] end.
    apply lookup_lt_Some in Hv. by rewrite (pl_inv_bCols _ _ Hinv) in Hv.
Qed.

End FactorColumns.

Lemma compressAcaPartial_factors_witness :
  exists s rk A B,
    acaPartial_run approx6 (denseBlock [[2; 1]; [1; 1]]%Q 2 2) = Ok s /\
    compressAcaPartial approx6 (denseBlock [[2; 1]; [1; 1]]%Q 2 2) = Ok rk /\
    a rk = Some A /\ b rk = Some B /\
    cols A = length (pa_aCols s) /\ cols B = length (pa_bCols s) /\
    (forall l v, pa_aCols s !! l = Some v -> column A l = v) /\
    (forall l v, pa_bCols s !! l = Some v -> column B l = v).
Proof.
  do 4 eexists.
  split; [vm_compute; reflexivity|].
  split; [vm_compute; reflexivity|].
  split; [vm_compute; reflexivity|].
  split; [vm_compute; reflexivity|].
  eapply (compressAcaPartial_factors approx6 (denseBlock [[2; 1]; [1; 1]]%Q 2 2));
    vm_compute; reflexivity.
Defined.

Lemma compressAcaPlus_factors_witness :
  exists s rk A B,
    acaPlus_run approx6 (denseBlock [[2; 1]; [1; 1]]%Q 2 2) = Ok (Some s) /\
    compressAcaPlus approx6 (denseBlock [[2; 1]; [1; 1]]%Q 2 2) = Ok rk /\
    a rk = Some A /\ b rk = Some B /\
    cols A = length (pl_aCols s) /\ cols B = length (pl_bCols s) /\
    (forall l v, pl_aCols s !! l = Some v -> column A l = v) /\
    (forall l v, pl_bCols s !! l = Some v -> column B l = v).
Proof.
  do 4 eexists.
  split; [vm_compute; reflexivity|].
  split; [vm_compute; reflexivity|].
  split; [vm_compute; reflexivity|].
  split; [vm_compute; reflexivity|].
  eapply (compressAcaPlus_factors approx6 (denseBlock [[2; 1]; [1; 1]]%Q 2 2));
    vm_compute; reflexivity.
Defined.

Section AdmissibilityCache.
Variable AxisAlignedBoundingBox : Type.
Variable new_AxisAlignedBoundingBox : ClusterData -> AxisAlignedBoundingBox.
Variable diameter : AxisAlignedBoundingBox -> double.
Variable distanceTo : AxisAlignedBoundingBox -> AxisAlignedBoundingBox -> double.

Abbreviation boxOf' := (bbox AxisAlignedBoundingBox new_AxisAlignedBoundingBox).
Abbreviation admissible' :=
  (isAdmissible AxisAlignedBoundingBox new_AxisAlignedBoundingBox diameter distanceTo).

Lemma bbox_data (n : ClusterTree AxisAlignedBoundingBox) :
  data (boxOf' n).2 = data n.
Proof. unfold bbox. by destruct (admissibilityAlgoData_ n). Qed.

Lemma bbox_cached (n : ClusterTree AxisAlignedBoundingBox) :
  admissibilityAlgoData_ (boxOf' n).2 = Some (boxOf' n).1.
Proof. unfold bbox. by destruct (admissibilityAlgoData_ n) eqn:Hn. Qed.

Lemma bbox_kept (n : ClusterTree AxisAlignedBoundingBox) (box : AxisAlignedBoundingBox) :
  admissibilityAlgoData_ n = Some box -> boxOf' n = (box, n).
Proof. unfold bbox. by intros ->. Qed.

Lemma bbox_again (n : ClusterTree AxisAlignedBoundingBox) :
  boxOf' (boxOf' n).2 = boxOf' n.
Proof.
  rewrite (bbox_kept _ _ (bbox_cached n)). by destruct (boxOf' n).
Qed.

Lemma bbox_snd (n : ClusterTree AxisAlignedBoundingBox) :
  (boxOf' n).2 =
    {| data := data n;
       admissibilityAlgoData_ :=
         Some (match admissibilityAlgoData_ n with
               | Some box => box
               | None => new_AxisAlignedBoundingBox (data n)
               end) |}.
Proof. unfold bbox. destruct n as [d [box|]]; done. Qed.

(** A node that holds a box is used as it is, whatever the constructor of
    boxes. *)
Lemma bbox_holds (build : ClusterData -> AxisAlignedBoundingBox)
    (n : ClusterTree AxisAlignedBoundingBox) (box : AxisAlignedBoundingBox) :
  admissibilityAlgoData_ n = Some box ->
  bbox AxisAlignedBoundingBox build n = (box, n).
Proof. unfold bbox. by intros ->. Qed.

Lemma isAdmissible_holds (build : ClusterData -> AxisAlignedBoundingBox)
    (that : StandardAdmissibilityCondition) (mth : CompressionMethod)
    (r c : ClusterTree AxisAlignedBoundingBox) (rb cb : AxisAlignedBoundingBox) :
  admissibilityAlgoData_ r = Some rb -> admissibilityAlgoData_ c = Some cb ->
  isAdmissible AxisAlignedBoundingBox build diameter distanceTo that mth r c =
    ((admissible' that mth r c).1.1, r, c).
Proof.
  intros Hr Hc. unfold isAdmissible.
  destruct (_ && _); [done|]. destruct (_ || _); [done|].
  by rewrite !(bbox_holds _ _ _ Hr), !(bbox_holds _ _ _ Hc).
Qed.

(** X29: [isAdmissible] builds the bounding box of a cluster at most
    once.  A call that the size tests reject (a cluster of fewer than 2
    indices, or, for the methods other than AcaPartial and AcaPlus, more
    than maxElementsPerBlock elements) returns false and leaves the two
    nodes as they are.  Any other call leaves in each node the box it has
    used: the one the node held, or, when it held none, the one built from
    the data of the node; a node that held a box is left as it is.  After
    such a call, no call on the two nodes, whatever the condition and the
    compression method, builds a box or changes the nodes: its answer is
    the same whatever the constructor of boxes is. *)
Theorem isAdmissible_caches_boxes (this : StandardAdmissibilityCondition)
    (mth : CompressionMethod) (rows_ cols_ : ClusterTree AxisAlignedBoundingBox) :
  let box_of := fun node : ClusterTree AxisAlignedBoundingBox =>
    match admissibilityAlgoData_ node with
    | Some box => box
    | None => new_AxisAlignedBoundingBox (data node)
    end in
  let with_box := fun node : ClusterTree AxisAlignedBoundingBox =>
    {| data := data node; admissibilityAlgoData_ := Some (box_of node) |} in
  let elements :=
    ((Z.of_nat (size (data rows_)) * Z.of_nat (size (data cols_)))
       mod SIZE_MAX_plus_1)%Z in
  let rejected :=
    (mth <> AcaPartial /\ mth <> AcaPlus /\ (maxElementsPerBlock this < elements)%Z) \/
    size (data rows_) < 2 \/ size (data cols_) < 2 in
  let out := admissible' this mth rows_ cols_ in
  (rejected -> out = (false, rows_, cols_)) /\
  (~ rejected -> out.1.2 = with_box rows_ /\ out.2 = with_box cols_) /\
  (forall box, admissibilityAlgoData_ rows_ = Some box -> out.1.2 = rows_) /\
  (forall box, admissibilityAlgoData_ cols_ = Some box -> out.2 = cols_) /\
  (~ rejected ->
   forall (build : ClusterData -> AxisAlignedBoundingBox)
          (that : StandardAdmissibilityCondition) (mth' : CompressionMethod),
     isAdmissible AxisAlignedBoundingBox build diameter distanceTo that mth'
                  out.1.2 out.2 =
       ((admissible' that mth' out.1.2 out.2).1.1, out.1.2, out.2)).
Proof.
  intros box_of with_box elements rejected out.
  assert (rejected -> out = (false, rows_, cols_)) as Hrej.
  { intros Hrej. unfold out, isAdmissible. fold elements.
    destruct Hrej as [(Hp & Hq & Hbig) | Hsmall].
    - replace (negb _) with true by (by destruct mth).
      apply Z.ltb_lt in Hbig. by rewrite Hbig.
    - destruct (_ && _); [done|].
      replace (_ || _) with true; [done|]. symmetry. apply orb_true_iff.
      destruct Hsmall; [left | right]; apply Z.ltb_lt; lia. }
  assert (~ rejected -> out.1.2 = with_box rows_ /\ out.2 = with_box cols_) as Hacc.
  { intros Hn. unfold out, isAdmissible. fold elements.
    destruct (negb _ && _) eqn:Hg1.
    - exfalso. apply Hn. left. apply andb_prop in Hg1 as [Hm Hbig].
      apply Z.ltb_lt in Hbig.
      destruct mth; simpl in Hm; try discriminate; done.
    - destruct ((_ <? 2)%Z || _) eqn:Hg2.
      + exfalso. apply Hn. right.
        apply orb_true_iff in Hg2 as [Hs%Z.ltb_lt | Hs%Z.ltb_lt]; [left | right]; lia.
      + pose proof (bbox_snd rows_) as Hbr. pose proof (bbox_snd cols_) as Hbc.
        destruct (boxOf' rows_), (boxOf' cols_). simpl in *. done. }
  split; [done|]. split; [done|].
  split; [|split].
  - intros box Hb. unfold out, isAdmissible.
    destruct (_ && _); [done|]. destruct (_ || _); [done|].
    rewrite (bbox_kept _ _ Hb). by destruct (boxOf' cols_).
  - intros box Hb. unfold out, isAdmissible.
    destruct (_ && _); [done|]. destruct (_ || _); [done|].
    rewrite (bbox_kept _ _ Hb). by destruct (boxOf' rows_).
  - intros Hn build that mth'. destruct (Hacc Hn) as [-> ->].
    by eapply isAdmissible_holds.
Qed.

(** X30: raising eta with [setEta] never turns an admissible pair into a
    rejected one, when the distance between the two boxes is not
    negative; the nodes are left the same whatever eta is. *)
Theorem isAdmissible_monotone_in_eta (this : StandardAdmissibilityCondition)
    (mth : CompressionMethod) (rows_ cols_ : ClusterTree AxisAlignedBoundingBox)
    (eta eta' : double) :
  (eta <= eta')%Q ->
  (0 <= distanceTo (boxOf' rows_).1 (boxOf' cols_).1)%Q ->
  (admissible' (setEta this eta) mth rows_ cols_).1.1 = true ->
  (admissible' (setEta this eta') mth rows_ cols_).1.1 = true /\
  (admissible' (setEta this eta') mth rows_ cols_).1.2 =
    (admissible' (setEta this eta) mth rows_ cols_).1.2 /\
  (admissible' (setEta this eta') mth rows_ cols_).2 =
    (admissible' (setEta this eta) mth rows_ cols_).2.
Proof.
  intros Heta Hd. unfold isAdmissible. simpl.
  destruct (_ && _); [done|]. destruct (_ || _); [done|].
  destruct (boxOf' rows_) as [rb r'], (boxOf' cols_) as [cb c']. simpl in *.
  intros Hadm. split; [|done].
  apply Qle_bool_iff. apply Qle_bool_iff in Hadm.
  eapply Qle_trans; [exact Hadm|]. by apply Qmult_le_compat_r.
Qed.

End AdmissibilityCache.

Lemma isAdmissible_monotone_in_eta_witness :
  (1 <= 2)%Q /\
  (0 <= LineBox_distanceTo (bbox LineBox new_LineBox (node 0 2)).1
                           (bbox LineBox new_LineBox (node 5 2)).1)%Q /\
  (isAdmissible LineBox new_LineBox LineBox_diameter LineBox_distanceTo
     (setEta hackbusch2 1) Svd (node 0 2) (node 5 2)).1.1 = true /\
  (isAdmissible LineBox new_LineBox LineBox_diameter LineBox_distanceTo
     (setEta hackbusch2 2) Svd (node 0 2) (node 5 2)).1.1 = true.
Proof.
  assert ((1 <= 2)%Q) as H1 by (vm_compute; discriminate).
  assert ((0 <= LineBox_distanceTo (bbox LineBox new_LineBox (node 0 2)).1
                           (bbox LineBox new_LineBox (node 5 2)).1)%Q) as H2
    by (vm_compute; discriminate).
  assert ((isAdmissible LineBox new_LineBox LineBox_diameter LineBox_distanceTo
     (setEta hackbusch2 1) Svd (node 0 2) (node 5 2)).1.1 = true) as H3
    by (vm_compute; reflexivity).
  split; [exact H1|]. split; [exact H2|]. split; [exact H3|].
  exact (proj1 (isAdmissible_monotone_in_eta LineBox new_LineBox LineBox_diameter
                  LineBox_distanceTo hackbusch2 Svd (node 0 2) (node 5 2) 1 2
                  H1 H2 H3)).
Defined.
